(** * Statement compiler of gomacro's "fast" interpreter (fast/statement.go)

    A shallow embedding of the statement-compilation core: the compile-time
    frames ([Comp]), the instruction stream ([Code]), the patchable jump
    targets, and the run-time behaviour of the instructions the compiler
    emits.

    Conventions of the embedding.
    - A compiled instruction (Go type [Stmt], a closure over the run-time
      environment) is a constructor of the inductive type [Stmt]; the body of
      the closure is the matching case of [exec].
    - A Go variable captured by reference by an emitted closure (the fields of
      the local [jump] structs, the [nbinds] arrays, the [*int] slots of a
      [LoopInfo]) is a cell of a heap of integers, [cells].
    - [c.Errorf] panics: compilation is a function into [result], and the
      error carries the format string of the source with its arguments.
    - Source positions ([c.Pos], [Code.DebugPos]) are diagnostics only and are
      not modelled.
    - Go [int] values that the code only counts with (instruction pointers,
      bind counts, up-costs) are [nat]. *)

From Stdlib Require Import String Ascii List Arith Lia Bool.
Import ListNotations.
Local Open Scope string_scope.
Local Open Scope list_scope.

Set Implicit Arguments.
Set Warnings "-register-all".

(* ------------------------------------------------------------------ *)
(** * Results of a fallible compilation *)

(** The arguments of a Go format string. *)
Inductive Arg : Type :=
| ArgInt (n : nat)
| ArgStr (s : string)
| ArgBool (b : bool)
| ArgNode.

(** [Errorf format args]: the panic raised by [c.Errorf(format, args...)]. *)
Record Error : Type := Errorf { fmt : string; fmt_args : list Arg }.

Inductive result (A : Type) : Type :=
| Ok (a : A)
| Err (e : Error).
Arguments Ok {A} a.
Arguments Err {A} e.

Definition bind {A B : Type} (r : result A) (k : A -> result B) : result B :=
  match r with
  | Ok a => k a
  | Err e => Err e
  end.

Notation "x <- r ;; k" := (bind r (fun x => k))
  (at level 61, r at next level, right associativity).
Notation "' p <- r ;; k" := (bind r (fun x => match x with p => k end))
  (at level 61, p pattern, r at next level, right associativity).

(** A run-time panic is [None]. *)
Definition obind {A B : Type} (o : option A) (k : A -> option B) : option B :=
  match o with
  | Some a => k a
  | None => None
  end.

Notation "x <-? o ;; k" := (obind o (fun x => k))
  (at level 61, o at next level, right associativity).
Notation "' p <-? o ;; k" := (obind o (fun x => match x with p => k end))
  (at level 61, p pattern, o at next level, right associativity).

(** A nil-pointer dereference of the Go runtime. *)
Definition nil_deref : Error :=
  Errorf "runtime error: invalid memory address or nil pointer dereference" [].

(** An index out of the range of a slice. *)
Definition index_out_of_range : Error :=
  Errorf "runtime error: index out of range" [].

(* ------------------------------------------------------------------ *)
(** * Syntax (package go/ast, as far as statement.go inspects it) *)

(** What statement.go never looks into is kept abstract. *)
Class Syntax : Type := {
  ast_Expr : Type;       (* ast.Expr *)
  ast_CallExpr : Type;   (* *ast.CallExpr *)
  ast_Node : Type        (* operands and clauses compiled elsewhere *)
}.

(** The tokens statement.go compares with. *)
Inductive Token : Type :=
| DEFINE | ASSIGN | VAR | CONST | TYPE | IMPORT
| BREAK | CONTINUE | FALLTHROUGH | GOTO
| INC | DEC | ADD | SUB.

Definition Token_eqb (a b : Token) : bool :=
  match a, b with
  | DEFINE, DEFINE | ASSIGN, ASSIGN | VAR, VAR | CONST, CONST
  | TYPE, TYPE | IMPORT, IMPORT | BREAK, BREAK | CONTINUE, CONTINUE
  | FALLTHROUGH, FALLTHROUGH | GOTO, GOTO | INC, INC | DEC, DEC
  | ADD, ADD | SUB, SUB => true
  | _, _ => false
  end.

Section Ast.
Context {Sx : Syntax}.

(** ast.Spec: only the names of a ValueSpec are inspected. *)
Inductive ast_Spec : Type :=
| ValueSpec (Names : list string) (body : ast_Node)
| OtherSpec (body : ast_Node).

(** ast.Decl. [FuncDecl None] is a function declaration whose Name is nil. *)
Inductive ast_Decl : Type :=
| FuncDecl (Name : option string) (body : ast_Node)
| GenDecl (Tok : Token) (Specs : list ast_Spec)
| BadDecl.

(** ast.Stmt. [NilStmt] is the nil interface value; a [*ast.BlockStmt] is the
    list of its statements (a nil block pointer and an empty block are treated
    alike by [Comp.Block]); an absent Init, Post or Else is [NilStmt], an
    absent for-condition is [None]. *)
Inductive ast_Stmt : Type :=
| NilStmt
| AssignStmt (Tok : Token) (node : ast_Node)
| BlockStmt (List : list ast_Stmt)
| BranchStmt (Tok : Token) (Label : option string)
| CaseClause (isdefault : bool) (node : ast_Node)
| CommClause (isdefault : bool) (node : ast_Node)
| DeclStmt (Decl : ast_Decl)
| DeferStmt (Call : ast_CallExpr)
| EmptyStmt
| ExprStmt (X : ast_Expr)
| ForStmt (Init : ast_Stmt) (Cond : option ast_Expr) (Post : ast_Stmt)
          (Body : list ast_Stmt)
| GoStmt (Call : ast_CallExpr)
| IfStmt (Init : ast_Stmt) (Cond : ast_Expr) (Body : list ast_Stmt)
         (Else : ast_Stmt)
| IncDecStmt (X : ast_Expr) (Tok : Token)
| LabeledStmt (Label : string) (Stmt : ast_Stmt)
| RangeStmt (node : ast_Node)
| ReturnStmt (Results : list ast_Expr)
| SelectStmt (node : ast_Node)
| SendStmt (node : ast_Node)
| SwitchStmt (node : ast_Node)
| TypeSwitchStmt (node : ast_Node)
| BadStmt.

Definition is_nil (s : ast_Stmt) : bool :=
  match s with NilStmt => true | _ => false end.

(** [ident.Name != "_"] for some name of the list. *)
Definition has_non_blank (names : list string) : bool :=
  existsb (fun name => negb (String.eqb name "_")) names.

(** The inner loops of [containLocalBinds] on a GenDecl with token VAR. *)
Definition specs_declare (specs : list ast_Spec) : bool :=
  existsb (fun spec =>
             match spec with
             | ValueSpec names _ => has_non_blank names
             | OtherSpec _ => false
             end) specs.

(** The body of the loop of [containLocalBinds] for one statement. *)
Definition stmt_declares (node : ast_Stmt) : bool :=
  match node with
  | AssignStmt tok _ => Token_eqb tok DEFINE
  | DeclStmt (FuncDecl (Some name) _) => negb (String.eqb name "_")
  | DeclStmt (FuncDecl None _) => false
  | DeclStmt (GenDecl tok specs) =>
      if Token_eqb tok VAR then specs_declare specs else false
  | _ => false
  end.

End Ast.

(* ------------------------------------------------------------------ *)
(** * Run-time data *)

(** The types owned by the external collaborators (the reflection layer, the
    expression compiler, the declaration compiler) are abstract. *)
Class Host : Type := {
  data : Type;        (* what a reflect.Value holds *)
  xr_Type : Type;     (* xr.Type *)
  ref : Type;         (* a pointer to an object shared between threads *)
  ext_Stmt : Type;    (* an instruction emitted by a collaborator *)
  Expr_c : Type;      (* *Expr, a compiled expression *)
  Call_c : Type;      (* *Call, a prepared call *)
  Place_c : Type;     (* *Place *)
  DeclTable : Type;   (* the names, types and constants a frame declares *)
  noDecls : DeclTable
}.

Section Model.
Context {Sx : Syntax} {Hx : Host}.

(** A patchable integer: the address of a Go [int] that emitted closures
    capture by reference. *)
Definition cell : Type := nat.

(** Variables live in a store; a settable reflect.Value designates one. *)
Definition loc : Type := nat.
Definition Store : Type := loc -> data.

(** reflect.Value: either settable (it designates the variable at [l], and
    reads through it see later assignments) or a plain copy. *)
Inductive Value : Type :=
| Settable (l : loc)
| Plain (d : data).

Definition CanSet (v : Value) : bool :=
  match v with Settable _ => true | Plain _ => false end.

(** [v.Convert(v.Type())]: a copy of what [v] holds now. *)
Definition Convert (s : Store) (v : Value) : Value :=
  match v with
  | Settable l => Plain (s l)
  | Plain d => Plain d
  end.

(** What a callee receives when it is passed [v] while the store is [s]. *)
Definition Value_get (s : Store) (v : Value) : data :=
  match v with
  | Settable l => s l
  | Plain d => d
  end.

(** *Env. The instruction stream [env.Code] is the same for every
    environment of one function body and is kept in the machine state;
    [Env_ThreadGlobals] is the address of the thread's shared record
    ([env.ThreadGlobals]); a slot of [Binds] holding [None] holds the zero
    reflect.Value. *)
Inductive Env : Type := mkEnv {
  Binds : list (option Value);
  IntBinds : list nat;
  IP : nat;
  Env_ThreadGlobals : nat;
  Outer : option Env
}.

(** The closures produced by the expression compiler. [None] is a panic. *)
Definition XFun : Type := Env -> Store -> option (Value * Store).
Definition PredFun : Type := Env -> Store -> option (bool * Store).
Definition XVFun : Type := Env -> Store -> option (list Value * Store).
Definition AssignFun : Type := Env -> Value -> Store -> option Store.

(** The compiled instructions: one constructor for each closure that
    statement.go appends, named after the function that builds it. *)
Inductive Stmt : Type :=
| stmtNop
| popEnv
| stmtReturn
| pushEnv (nbinds0 nbinds1 : cell)
| jumpOut (upn : nat) (ip : cell)
| forCond (fun_ : PredFun) (jump_Break : cell)
| forJump (jump_Cond : cell)
| ifCond (fun_ : PredFun) (jump_Then jump_Else : cell)
| ifJumpEnd (jump_End : cell)
| deferStmt (fun_ : XFun) (argfuns : list XFun) (ellipsis : bool)
| goStmt (exprfun : XFun) (argfunsX1 : list XFun)
| returnMulti (fun_ : XVFun) (assigns : list AssignFun)
| extStmt (x : ext_Stmt).

(* ------------------------------------------------------------------ *)
(** * Compile-time data *)

(** Code: the instruction stream under construction. *)
Record Code : Type := mkCode {
  CodeList : list Stmt;
  WithDefers : bool
}.

Definition Code_Len (code : Code) : nat := length (CodeList code).

Record LoopInfo : Type := mkLoopInfo {
  Continue : option cell;
  Break : option cell;
  ThisLabels : list string
}.

Record Bind : Type := mkBind {
  Bind_Type : xr_Type;
  Bind_Index : nat
}.

Record FuncInfo : Type := mkFuncInfo {
  Results : list Bind;
  NamedResults : bool
}.

(** *Comp: a compiler frame; [Comp_Outer] is the enclosing frame. *)
Inductive Comp : Type := mkComp {
  BindNum : nat;
  IntBindNum : nat;
  UpCost : nat;
  Depth : nat;
  Comp_Code : Code;
  Loop : option LoopInfo;
  Func : option FuncInfo;
  Decls : DeclTable;
  Comp_Outer : option Comp
}.

(** The state a compilation threads: the current frame (with its chain of
    enclosing frames) and the heap of patchable integers. *)
Record CState : Type := mkCState {
  comp : Comp;
  cells : list nat
}.

(** *Var, as built by [bind.AsVar(upn, PlaceSettable)]. *)
Record Var : Type := mkVar {
  Var_Upn : nat;
  Var_Bind : Bind
}.

Definition AsVar (b : Bind) (upn : nat) : Var := mkVar upn b.

End Model.

(* ------------------------------------------------------------------ *)
(** * The external collaborators *)

(** The expression compiler, the declaration compiler and the compilers of
    the statements that statement.go delegates. Compiling an expression
    yields closures and appends nothing to the instruction stream;
    [Expr_AsStmt] is [None] when [expr.AsStmt()] is nil, which [Code.Append]
    ignores. *)
Class Collaborators {Sx : Syntax} {Hx : Host} : Type := {
  Comp_Assign : Token -> ast_Node -> CState -> result CState;
  Comp_Decl : ast_Decl -> CState -> result CState;
  Comp_Range : ast_Node -> list string -> CState -> result CState;
  Comp_Select : ast_Node -> list string -> CState -> result CState;
  Comp_Send : ast_Node -> CState -> result CState;
  Comp_Switch : ast_Node -> list string -> CState -> result CState;
  Comp_TypeSwitch : ast_Node -> list string -> CState -> result CState;
  Comp_Expr : ast_Expr -> CState -> result Expr_c;
  Comp_ExprsMultipleValues :
    list ast_Expr -> nat -> CState -> result (list Expr_c);
  Comp_prepareCall : ast_CallExpr -> CState -> result Call_c;
  Comp_Place : ast_Expr -> CState -> result Place_c;
  Comp_SetPlace : Place_c -> Token -> Expr_c -> CState -> result CState;
  Comp_SetVar : Var -> Token -> Expr_c -> CState -> result CState;
  Comp_varSetValue : Var -> CState -> result AssignFun;
  exprUntypedLit_one : CState -> Expr_c;
  invalidPred : ast_Expr -> Expr_c -> Error;
  Expr_Const : Expr_c -> bool;
  Expr_AsStmt : Expr_c -> option ext_Stmt;
  Expr_TryAsPred : Expr_c -> bool * option PredFun * bool;
  Expr_AsX1 : Expr_c -> XFun;
  Expr_AsXV : Expr_c -> XVFun;
  Expr_Out : Expr_c -> nat -> xr_Type;
  Call_Fun : Call_c -> Expr_c;
  Call_MakeArgfunsX1 : Call_c -> list XFun;
  Call_Ellipsis : Call_c -> bool;
  AssignableTo : xr_Type -> xr_Type -> bool
}.

(* ------------------------------------------------------------------ *)
(** * The statement compiler *)

Section Compiler.
Context {Sx : Syntax} {Hx : Host} {Cx : Collaborators}.

(** ** The heap of patchable integers *)

Definition load (p : cell) (h : list nat) : nat := nth p h 0.

Fixpoint store (p : cell) (v : nat) (h : list nat) {struct h} : list nat :=
  match h with
  | [] => []
  | x :: r =>
      match p with
      | 0 => v :: r
      | S p' => x :: store p' v r
      end
  end.

(** A Go declaration [var x [n]int]: [n] fresh cells holding zero. *)
Definition alloc (n : nat) (st : CState) : cell * CState :=
  (length (cells st), mkCState (comp st) (cells st ++ repeat 0 n)).

Definition write (p : cell) (v : nat) (st : CState) : CState :=
  mkCState (comp st) (store p v (cells st)).

(** ** Updating a frame *)

Definition set_Code (code : Code) (c : Comp) : Comp :=
  mkComp (BindNum c) (IntBindNum c) (UpCost c) (Depth c) code
         (Loop c) (Func c) (Decls c) (Comp_Outer c).

Definition set_Loop (l : option LoopInfo) (c : Comp) : Comp :=
  mkComp (BindNum c) (IntBindNum c) (UpCost c) (Depth c) (Comp_Code c)
         l (Func c) (Decls c) (Comp_Outer c).

Definition set_UpCost (n : nat) (c : Comp) : Comp :=
  mkComp (BindNum c) (IntBindNum c) n (Depth c) (Comp_Code c)
         (Loop c) (Func c) (Decls c) (Comp_Outer c).

Definition set_Depth (n : nat) (c : Comp) : Comp :=
  mkComp (BindNum c) (IntBindNum c) (UpCost c) n (Comp_Code c)
         (Loop c) (Func c) (Decls c) (Comp_Outer c).

Definition with_comp (f : Comp -> Comp) (st : CState) : CState :=
  mkCState (f (comp st)) (cells st).

Definition code_of (st : CState) : list Stmt := CodeList (Comp_Code (comp st)).

(** [c.Code.Len()]. *)
Definition Len (st : CState) : nat := Code_Len (Comp_Code (comp st)).

(** [code.Append(stmt, pos)]. *)
Definition Code_Append (code : Code) (stmt : Stmt) : Code :=
  mkCode (CodeList code ++ [stmt]) (WithDefers code).

(** [c.append(stmt)] and [c.Append(stmt, pos)], which differ by the recorded
    position only. *)
Definition Comp_Append (stmt : Stmt) (st : CState) : CState :=
  with_comp (fun c => set_Code (Code_Append (Comp_Code c) stmt) c) st.

(** A slice expression whose bound exceeds the length of the slice. *)
Definition slice_out_of_range : Error :=
  Errorf "runtime error: slice bounds out of range" [].

(** [c.Code.List = c.Code.List[0:n]]. *)
Definition truncate (n : nat) (st : CState) : result CState :=
  if Nat.leb n (Len st)
  then Ok (with_comp
             (fun c => set_Code (mkCode (firstn n (CodeList (Comp_Code c)))
                                        (WithDefers (Comp_Code c))) c) st)
  else Err slice_out_of_range.

(** [c.Code.WithDefers = true]. *)
Definition set_WithDefers (st : CState) : CState :=
  with_comp (fun c => set_Code (mkCode (CodeList (Comp_Code c)) true) c) st.

(** Modelled from the spec: [NewComp(outer, &outer.Code)] is not in the
    source given. A compiler frame is created per lexical block, owned by its
    parent, with no bindings yet, no loop info, no func info, up-cost 1, and
    it writes into the instruction stream of its parent. *)
Definition NewComp (outer : Comp) (code : Code) : Comp :=
  mkComp 0 0 1 (S (Depth outer)) code None None noDecls (Some outer).

(** Modelled from the spec: [LoopInfo.HasLabel] is not in the source given.
    The label matches one of the labels of this Loop Info. *)
Definition HasLabel (l : LoopInfo) (label : string) : bool :=
  existsb (String.eqb label) (ThisLabels l).

(** [sort.Strings]: the labels in increasing order. *)
Fixpoint insert_sorted (s : string) (l : list string) : list string :=
  match l with
  | [] => [s]
  | x :: r => if String.leb s x then s :: l else x :: insert_sorted s r
  end.

Definition sort_Strings (l : list string) : list string :=
  fold_right insert_sorted [] l.

(** Modelled from the spec: [Comp.Exprs] is not in the source given. It
    compiles each expression in order. *)
Fixpoint Comp_Exprs (nodes : list ast_Expr) (st : CState)
  : result (list Expr_c) :=
  match nodes with
  | [] => Ok []
  | node :: rest =>
      e <- Comp_Expr node st ;;
      es <- Comp_Exprs rest st ;;
      Ok (e :: es)
  end.

(** ** Scopes *)

Definition containLocalBinds (nodes : list ast_Stmt) : result bool :=
  match nodes with
  | [] => Err (Errorf
      "internal error: containLocalBinds() invoked on empty statement list" [])
  | _ => Ok (existsb stmt_declares nodes)
  end.

Definition pushEnvIfFlag (nbinds0 nbinds1 : cell) (flag : bool) (st : CState)
  : CState * bool :=
  let st1 := if flag then Comp_Append (pushEnv nbinds0 nbinds1) st else st in
  let c := comp st1 in
  let inner := NewComp c (Comp_Code c) in
  let inner := if flag then inner
               else set_Depth (pred (Depth inner)) (set_UpCost 0 inner) in
  (mkCState inner (cells st1), flag).

Definition pushEnvIfLocalBinds (nbinds0 nbinds1 : cell)
    (nodes : list ast_Stmt) (st : CState) : result (CState * bool) :=
  match nodes with
  | [] => Err (Errorf
      "internal error: pushEnvIfLocalBinds() invoked on empty statement list"
      [])
  | _ =>
      locals <- containLocalBinds nodes ;;
      Ok (pushEnvIfFlag nbinds0 nbinds1 locals st)
  end.

(** The format of the internal error of [popEnvIfLocalBinds], a raw string
    literal over four lines in the source. *)
Definition popEnvIfLocalBinds_format : string :=
  "internal error: containLocalBinds() returned %t, but block actually defined %d Binds and %d IntBinds:"
  ++ String "010" (String "009" "Binds = %v")
  ++ String "010" (String "009" "Block =")
  ++ String "010" "%v".

Definition popEnvIfLocalBinds (locals : bool) (nbinds0 nbinds1 : cell)
    (nodes : list ast_Stmt) (st : CState) : result CState :=
  match nodes with
  | [] => Err (Errorf
      "internal error: popEnvIfLocalBinds() invoked on empty statement list"
      [])
  | _ =>
      let inner := comp st in
      match Comp_Outer inner with
      | None => Err nil_deref
      | Some c =>
          let c := set_Code (Comp_Code inner) c in
          let h := store nbinds1 (IntBindNum inner)
                     (store nbinds0 (BindNum inner) (cells st)) in
          if negb (Bool.eqb locals
                     (negb (Nat.eqb (BindNum inner) 0)
                      || negb (Nat.eqb (IntBindNum inner) 0)))
          then Err (Errorf popEnvIfLocalBinds_format
            [ArgBool locals; ArgInt (BindNum inner);
             ArgInt (IntBindNum inner); ArgNode; ArgNode])
          else
            let st' := mkCState c h in
            Ok (if locals then Comp_Append popEnv st' else st')
      end
  end.

(** [pushEnvIfDefine]: a push if the token is [:=]. *)
Definition pushEnvIfDefine (nbinds0 nbinds1 : cell) (tok : Token)
    (st : CState) : CState * bool :=
  pushEnvIfFlag nbinds0 nbinds1 (Token_eqb tok DEFINE) st.

(** The format of the internal error of [popEnvIfFlag], a raw string
    literal over two lines in the source. *)
Definition popEnvIfFlag_format : string :=
  "popEnvIfFlag internal error: flag is %t, but block actually defined %d Binds and %d IntBinds:"
  ++ String "010" (String "009" "Binds = %v").

(** [popEnvIfFlag]: as [popEnvIfLocalBinds], with the flag given and no
    statement list to look at. *)
Definition popEnvIfFlag (nbinds0 nbinds1 : cell) (flag : bool) (st : CState)
  : result CState :=
  let inner := comp st in
  match Comp_Outer inner with
  | None => Err nil_deref
  | Some c =>
      let c := set_Code (Comp_Code inner) c in
      let h := store nbinds1 (IntBindNum inner)
                 (store nbinds0 (BindNum inner) (cells st)) in
      if negb (Bool.eqb flag
                 (negb (Nat.eqb (BindNum inner) 0)
                  || negb (Nat.eqb (IntBindNum inner) 0)))
      then Err (Errorf popEnvIfFlag_format
                       [ArgBool flag; ArgInt (BindNum inner);
                        ArgInt (IntBindNum inner); ArgNode])
      else
        let st' := mkCState c h in
        Ok (if flag then Comp_Append popEnv st' else st')
  end.

(** The loop [for _, node := range list { c2.Stmt(node) }]. *)
Fixpoint Stmts (rec : ast_Stmt -> CState -> result CState)
    (nodes : list ast_Stmt) (st : CState) : result CState :=
  match nodes with
  | [] => Ok st
  | node :: rest => st' <- rec node st ;; Stmts rec rest st'
  end.

Definition Comp_List (rec : ast_Stmt -> CState -> result CState)
    (nodes : list ast_Stmt) (st : CState) : result CState :=
  match nodes with
  | [] => Err (Errorf "List invoked on empty statement list" [])
  | _ =>
      let '(nbinds, st) := alloc 2 st in
      '(st2, locals) <- pushEnvIfLocalBinds nbinds (S nbinds) nodes st ;;
      st3 <- Stmts rec nodes st2 ;;
      popEnvIfLocalBinds locals nbinds (S nbinds) nodes st3
  end.

Definition Comp_Block (rec : ast_Stmt -> CState -> result CState)
    (block : list ast_Stmt) (st : CState) : result CState :=
  match block with
  | [] => Ok st
  | _ => Comp_List rec block st
  end.

(** ** Break and continue *)

(** [jumpOut(upn, ip)]: the four closures of the source are the four cases of
    [exec] on [jumpOut upn ip]. *)
Definition Comp_jumpOut (upn : nat) (ip : cell) (st : CState) : CState :=
  Comp_Append (jumpOut upn ip) st.

Definition label_of (Label : option string) : string :=
  match Label with
  | Some name => name
  | None => ""
  end.

(** The test of the loop body of [Break] on the frame [o]:
    [o.Loop != nil && o.Loop.Break != nil] and the label agrees. *)
Definition Break_target (label : string) (o : Comp) : option cell :=
  match Loop o with
  | Some l =>
      match Break l with
      | Some ip =>
          if Nat.eqb (String.length label) 0 || HasLabel l label
          then Some ip else None
      | None => None
      end
  | None => None
  end.

Definition Continue_target (label : string) (o : Comp) : option cell :=
  match Loop o with
  | Some l =>
      match Continue l with
      | Some ip =>
          if Nat.eqb (String.length label) 0 || HasLabel l label
          then Some ip else None
      | None => None
      end
  | None => None
  end.

(** The loop [for o := c; o != nil && o.Func == nil; o = o.Outer] shared by
    [Break] and [Continue]; [target] is the test of its body. *)
Fixpoint walk (target : Comp -> option cell) (upn : nat) (o : Comp)
  : option (nat * cell) :=
  match Func o with
  | Some _ => None
  | None =>
      match target o with
      | Some ip => Some (upn, ip)
      | None =>
          match Comp_Outer o with
          | Some o' => walk target (upn + UpCost o) o'
          | None => None
          end
      end
  end.

Definition Comp_Break (Label : option string) (st : CState)
  : result CState :=
  let label := label_of Label in
  match walk (Break_target label) 0 (comp st) with
  | Some (upn, ip) => Ok (Comp_jumpOut upn ip st)
  | None =>
      if negb (Nat.eqb (String.length label) 0)
      then Err (Errorf "break label not defined: %v" [ArgStr label])
      else Err (Errorf "break outside for/switch" [])
  end.

Definition Comp_Continue (Label : option string) (st : CState)
  : result CState :=
  let label := label_of Label in
  match walk (Continue_target label) 0 (comp st) with
  | Some (upn, ip) => Ok (Comp_jumpOut upn ip st)
  | None =>
      if negb (Nat.eqb (String.length label) 0)
      then Err (Errorf "continue label not defined: %v" [ArgStr label])
      else Err (Errorf "continue outside for" [])
  end.

Definition misplacedFallthrough : Error :=
  Errorf "misplaced fallthrough: not inside switch" [].

Definition misplacedCase (isdefault : bool) : Error :=
  Errorf "misplaced %s: not inside switch or select: %v <%v>"
         [ArgStr (if isdefault then "default" else "case"); ArgNode; ArgNode].

Definition Comp_Branch (Tok : Token) (Label : option string) (st : CState)
  : result CState :=
  match Tok with
  | BREAK => Comp_Break Label st
  | CONTINUE => Comp_Continue Label st
  | FALLTHROUGH => Err misplacedFallthrough
  | _ => Err (Errorf "unimplemented branch statement: %v <%v>"
                     [ArgNode; ArgNode])
  end.

(** ** Defer and go *)

Definition Comp_Defer (Call : ast_CallExpr) (st : CState) : result CState :=
  call <- Comp_prepareCall Call st ;;
  let fun_ := Expr_AsX1 (Call_Fun call) in
  let argfuns := Call_MakeArgfunsX1 call in
  let ellipsis := Call_Ellipsis call in
  Ok (set_WithDefers (Comp_Append (deferStmt fun_ argfuns ellipsis) st)).

Definition Comp_Go (Call : ast_CallExpr) (st : CState) : result CState :=
  let c := comp st in
  let c2 := mkCState (NewComp c (Comp_Code c)) (cells st) in
  call <- Comp_prepareCall Call c2 ;;
  let exprfun := Expr_AsX1 (Call_Fun call) in
  let argfunsX1 := Call_MakeArgfunsX1 call in
  let c2 := Comp_Append (goStmt exprfun argfunsX1) c2 in
  (* propagate back the compiled code *)
  Ok (mkCState (set_Code (Comp_Code (comp c2)) c) (cells c2)).

(** ** IncDec *)

Definition Comp_IncDec (X : ast_Expr) (Tok : Token) (st : CState)
  : result CState :=
  place <- Comp_Place X st ;;
  let op := if Token_eqb Tok DEC then SUB else ADD in
  let one := exprUntypedLit_one st in
  Comp_SetPlace place op one st.

(** ** Return *)

(** The loop [for cf = c; cf != nil; cf = cf.Outer] of [Return]. *)
Fixpoint Return_walk (upn : nat) (cf : Comp) : option (FuncInfo * nat) :=
  match Func cf with
  | Some cinfo => Some (cinfo, upn)
  | None =>
      match Comp_Outer cf with
      | Some o => Return_walk (upn + UpCost cf) o
      | None => None
      end
  end.

Definition Return_arity (n found : nat) : Error :=
  Errorf "return: expecting %d expressions, found %d: %v"
         [ArgInt n; ArgInt found; ArgNode].

Definition incompatible_types : Error :=
  Errorf "incompatible types in assignment: %v = %v" [ArgNode; ArgNode].

(** The loop [for i := 0; i < n; i++] of [returnMultiValues], at index [i]
    on the binds from [i] on. *)
Fixpoint returnMultiValues_assigns (e : Expr_c) (upn i : nat)
    (resultBinds : list Bind) (st : CState) : result (list AssignFun) :=
  match resultBinds with
  | [] => Ok []
  | b :: rest =>
      let texpected := Bind_Type b in
      let tactual := Expr_Out e i in
      if negb (AssignableTo tactual texpected)
      then Err incompatible_types
      else
        assign <- Comp_varSetValue (AsVar b upn) st ;;
        assigns <- returnMultiValues_assigns e upn (S i) rest st ;;
        Ok (assign :: assigns)
  end.

Definition returnMultiValues (resultBinds : list Bind) (upn : nat)
    (exprs : list ast_Expr) (st : CState) : result CState :=
  let n := length resultBinds in
  es <- Comp_ExprsMultipleValues exprs n st ;;
  match es with
  | [] => Err index_out_of_range
  | e :: _ =>
      let fun_ := Expr_AsXV e in
      assigns <- returnMultiValues_assigns e upn 0 resultBinds st ;;
      Ok (Comp_Append (returnMulti fun_ assigns) st)
  end.

(** The loop [for i := 0; i < n; i++ { c.SetVar(resultBinds[i]..., exprs[i]) }]
    of [Return], on the first [n] binds. *)
Fixpoint Return_SetVars (upn : nat) (resultBinds : list Bind)
    (exprs : list Expr_c) (st : CState) : result CState :=
  match resultBinds with
  | [] => Ok st
  | b :: rest =>
      match exprs with
      | [] => Err index_out_of_range
      | e :: es =>
          st' <- Comp_SetVar (AsVar b upn) ASSIGN e st ;;
          Return_SetVars upn rest es st'
      end
  end.

Definition Comp_Return (resultExprs : list ast_Expr) (st : CState)
  : result CState :=
  match Return_walk 0 (comp st) with
  | None => Err (Errorf "return outside function" [])
  | Some (cinfo, upn) =>
      let resultBinds := Results cinfo in
      let n := length resultBinds in
      let found := length resultExprs in
      let assign_and_return (n : nat) :=
        exprs <- Comp_Exprs resultExprs st ;;
        st' <- Return_SetVars upn (firstn n resultBinds) exprs st ;;
        Ok (Comp_Append stmtReturn st') in
      if Nat.eqb found n then assign_and_return n
      else if Nat.eqb found 1 then
        if Nat.eqb n 0 then Err (Return_arity n found)
        else returnMultiValues resultBinds upn resultExprs st
      else if Nat.eqb found 0 then
        if negb (NamedResults cinfo) then Err (Return_arity n found)
        else assign_and_return 0
      else Err (Return_arity n found)
  end.

(** ** For and if *)

(** [pred.TryAsPred()] on the optional condition of a for statement;
    "for { }" without a condition means "for true { }". *)
Definition For_pred (Cond : option ast_Expr) (st : CState)
  : result (bool * option PredFun) :=
  match Cond with
  | None => Ok (true, None)
  | Some cond =>
      pred <- Comp_Expr cond st ;;
      let '(flag, fun_, err) := Expr_TryAsPred pred in
      if err then Err (invalidPred cond pred) else Ok (flag, fun_)
  end.

(** [For]; the cells [jump], [jump+1], [jump+2] are the fields Cond, Post
    and Break of the local struct [jump]. *)
Definition Comp_For (rec : ast_Stmt -> CState -> result CState)
    (Init : ast_Stmt) (Cond : option ast_Expr) (Post : ast_Stmt)
    (Body : list ast_Stmt) (labels : list string) (st : CState)
  : result CState :=
  let '(initBinds, st) := alloc 2 st in
  '(st, initLocals) <-
     pushEnvIfLocalBinds initBinds (S initBinds) [Init] st ;;
  st <- (if is_nil Init then Ok st else rec Init st) ;;
  '(flag, fun_) <- For_pred Cond st ;;
  let '(jump, st) := alloc 3 st in
  let jump_Cond := jump in
  let jump_Post := S jump in
  let jump_Break := S (S jump) in
  let labels := sort_Strings labels in
  let st := with_comp (set_Loop (Some (mkLoopInfo (Some jump_Post)
                                         (Some jump_Break) labels))) st in
  (* compile the condition, if not a constant *)
  let st := write jump_Cond (Len st) st in
  let st := match fun_ with
            | Some f => Comp_Append (forCond f jump_Break) st
            | None => st
            end in
  (* compile the body *)
  st <- Comp_Block rec Body st ;;
  (* compile the post *)
  st <- (if is_nil Post
         then Ok (write jump_Post (load jump_Cond (cells st)) st)
         else
           let st := write jump_Post (Len st) st in
           declares <- containLocalBinds [Post] ;;
           if declares
           then Err (Errorf
             "invalid for: cannot declare new variables in post statement: %v"
             [ArgNode])
           else rec Post st) ;;
  let st := Comp_Append (forJump jump_Cond) st in
  st <- match fun_ with
        | None => if negb flag
                  then truncate (load jump_Cond (cells st)) st
                  else Ok st
        | Some _ => Ok st
        end ;;
  let st := write jump_Break (Len st) st in
  popEnvIfLocalBinds initLocals initBinds (S initBinds) [Init] st.

(** The statements of [If] that compile a present else branch: the parser
    guarantees a block or another if, anything else is wrapped in a block. *)
Definition If_else (rec : ast_Stmt -> CState -> result CState)
    (Else : ast_Stmt) (st : CState) : result CState :=
  match Else with
  | BlockStmt _ | IfStmt _ _ _ _ => rec Else st
  | _ => Comp_Block rec [Else] st
  end.

(** [If]; the cells [jump], [jump+1], [jump+2] are the fields Then, Else and
    End of the local struct [jump]. *)
Definition Comp_If (rec : ast_Stmt -> CState -> result CState)
    (Init : ast_Stmt) (Cond : ast_Expr) (Body : list ast_Stmt)
    (Else : ast_Stmt) (st : CState) : result CState :=
  let '(jump, st) := alloc 3 st in
  let jump_Then := jump in
  let jump_Else := S jump in
  let jump_End := S (S jump) in
  let '(initBinds, st) := alloc 2 st in
  '(st, initLocals) <-
     pushEnvIfLocalBinds initBinds (S initBinds) [Init] st ;;
  st <- (if is_nil Init then Ok st else rec Init st) ;;
  pred <- Comp_Expr Cond st ;;
  let '(flag, fun_, err) := Expr_TryAsPred pred in
  if err then Err (invalidPred Cond pred) else
  let st := match fun_ with
            | Some f => Comp_Append (ifCond f jump_Then jump_Else) st
            | None => st
            end in
  (* compile 'then' branch *)
  let st := write jump_Then (Len st) st in
  st <- Comp_Block rec Body st ;;
  st <- match fun_ with
        | None => if negb flag
                  then truncate (load jump_Then (cells st)) st
                  else Ok st
        | Some _ => Ok st
        end ;;
  (* compile a 'goto' between 'then' and 'else' branches *)
  let st := match fun_ with
            | Some _ => if negb (is_nil Else)
                        then Comp_Append (ifJumpEnd jump_End) st
                        else st
            | None => st
            end in
  (* compile 'else' branch *)
  let st := write jump_Else (Len st) st in
  st <- (if is_nil Else then Ok st
         else
           st <- If_else rec Else st ;;
           match fun_ with
           | None => if flag
                     then truncate (load jump_Else (cells st)) st
                     else Ok st
           | Some _ => Ok st
           end) ;;
  let st := write jump_End (Len st) st in
  popEnvIfLocalBinds initLocals initBinds (S initBinds) [Init] st.

(** ** The dispatcher *)

(** [Stmt]; [labels] is the local slice that the loop of the source extends
    at each LabeledStmt. Every nested call [c.Stmt(x)] starts with no
    labels. *)
Fixpoint Comp_Stmt (labels : list string) (in_ : ast_Stmt) (st : CState)
    {struct in_} : result CState :=
  match in_ with
  | NilStmt => Ok st
  | AssignStmt tok node => Comp_Assign tok node st
  | BlockStmt block => Comp_Block (Comp_Stmt []) block st
  | BranchStmt tok label => Comp_Branch tok label st
  | CaseClause isdefault _ => Err (misplacedCase isdefault)
  | CommClause isdefault _ => Err (misplacedCase isdefault)
  | DeclStmt decl => Comp_Decl decl st
  | DeferStmt call => Comp_Defer call st
  | EmptyStmt => Ok st
  | ExprStmt x =>
      expr <- Comp_Expr x st ;;
      if negb (Expr_Const expr)
      then match Expr_AsStmt expr with
           | Some stmt => Ok (Comp_Append (extStmt stmt) st)
           | None => Ok st
           end
      else Ok st
  | ForStmt init cond post body =>
      Comp_For (Comp_Stmt []) init cond post body labels st
  | GoStmt call => Comp_Go call st
  | IfStmt init cond body else_ =>
      Comp_If (Comp_Stmt []) init cond body else_ st
  | IncDecStmt x tok => Comp_IncDec x tok st
  | LabeledStmt label stmt => Comp_Stmt (labels ++ [label]) stmt st
  | RangeStmt node => Comp_Range node labels st
  | ReturnStmt results => Comp_Return results st
  | SelectStmt node => Comp_Select node labels st
  | SendStmt node => Comp_Send node st
  | SwitchStmt node => Comp_Switch node labels st
  | TypeSwitchStmt node => Comp_TypeSwitch node labels st
  | BadStmt => Err (Errorf "unimplemented statement: %v <%v>"
                           [ArgNode; ArgNode])
  end.

End Compiler.

(* ------------------------------------------------------------------ *)
(** * Run time: what the emitted instructions do *)

Section Machine.
Context {Sx : Syntax} {Hx : Host}.

Inductive Signal : Type := SigNone | SigReturn | SigDefer.

(** The closures [func() { f.Call(args) }] and [func() { f.CallSlice(args) }]
    that a defer statement installs. *)
Inductive Deferred : Type :=
| DeferCall (f : Value) (args : list Value)
| DeferCallSlice (f : Value) (args : list Value).

(** ThreadGlobals: the state shared by the environments of one thread. *)
Record ThreadGlobals : Type := mkThreadGlobals {
  FileEnv : option ref;
  TopEnv : option ref;
  Interrupt : option Stmt;
  TG_Signal : Signal;
  PoolSize : nat;
  Pool : list Env;
  InstallDefer : option Deferred;
  Globals : option ref
}.

(** A call started by a go statement: [go funv.Call(argv)], with the
    environment the function and arguments were evaluated in. *)
Record Goroutine : Type := mkGoroutine {
  go_funv : Value;
  go_argv : list Value;
  go_env : Env
}.

(** The machine: the instruction stream of the running function body, the
    heap of patchable integers, the store of variables, the heap of
    ThreadGlobals records and the goroutines started so far. *)
Record Machine : Type := mkMachine {
  M_Code : list Stmt;
  M_cells : list nat;
  M_store : Store;
  M_threads : list ThreadGlobals;
  M_spawned : list Goroutine
}.

(** The instructions emitted by the collaborators are run by them. *)
Class ExtExec : Type := {
  exec_ext : ext_Stmt -> Env -> Machine -> option (option Stmt * Env * Machine)
}.

Context {Ex : ExtExec}.

Definition set_IP (ip : nat) (env : Env) : Env :=
  mkEnv (Binds env) (IntBinds env) ip (Env_ThreadGlobals env) (Outer env).

Definition set_store (s : Store) (m : Machine) : Machine :=
  mkMachine (M_Code m) (M_cells m) s (M_threads m) (M_spawned m).

Fixpoint update {A : Type} (i : nat) (x : A) (l : list A) {struct l}
  : list A :=
  match l with
  | [] => []
  | y :: r =>
      match i with
      | 0 => x :: r
      | S i' => y :: update i' x r
      end
  end.

Definition set_thread (i : nat) (g : ThreadGlobals) (m : Machine) : Machine :=
  mkMachine (M_Code m) (M_cells m) (M_store m) (update i g (M_threads m))
            (M_spawned m).

(** [env.Code[ip]]. The executor ends the stream with a nil instruction, on
    which its loop stops: [None] is that end of the stream. *)
Definition fetch (m : Machine) (ip : nat) : option Stmt := nth_error (M_Code m) ip.

(** [env.Outer], [n] times; a nil environment on the way is a panic. *)
Fixpoint up (n : nat) (env : Env) : option Env :=
  match n with
  | 0 => Some env
  | S n' => env' <-? Outer env ;; up n' env'
  end.

(** The pool of reusable environments: taking one out leaves its slots to be
    resized by the caller, so only the size of the pool changes. *)
Definition pool_take (g : ThreadGlobals) : ThreadGlobals :=
  match Pool g with
  | [] => g
  | _ :: rest =>
      mkThreadGlobals (FileEnv g) (TopEnv g) (Interrupt g) (TG_Signal g)
                      (pred (PoolSize g)) rest (InstallDefer g) (Globals g)
  end.

Definition pool_give (env : Env) (g : ThreadGlobals) : ThreadGlobals :=
  mkThreadGlobals (FileEnv g) (TopEnv g) (Interrupt g) (TG_Signal g)
                  (S (PoolSize g)) (env :: Pool g) (InstallDefer g)
                  (Globals g).

(** Modelled from the spec: [NewEnv] is not in the source given. A runtime
    environment is created when control enters a block that declared
    bindings, with binding slots sized by the bind counts, the instruction
    pointer and ThreadGlobals of its parent, taken from the reuse pool of the
    thread when it has one. *)
Definition NewEnv (outer : Env) (nbinds nintbinds : nat) (m : Machine)
  : option (Env * Machine) :=
  let t := Env_ThreadGlobals outer in
  g <-? nth_error (M_threads m) t ;;
  Some (mkEnv (repeat None nbinds) (repeat 0 nintbinds) (IP outer) t
              (Some outer),
        set_thread t (pool_take g) m).

(** Modelled from the spec: [NewEnv4Func] is not in the source given. As
    [NewEnv], for the environment of a call: it starts at instruction 0. *)
Definition NewEnv4Func (outer : Env) (nbinds nintbinds : nat) (m : Machine)
  : option (Env * Machine) :=
  let t := Env_ThreadGlobals outer in
  g <-? nth_error (M_threads m) t ;;
  Some (mkEnv (repeat None nbinds) (repeat 0 nintbinds) 0 t (Some outer),
        set_thread t (pool_take g) m).

(** Modelled from the spec: [Env.FreeEnv] is not in the source given. The
    environment is returned to the reuse pool of its thread. *)
Definition FreeEnv (env : Env) (m : Machine) : option Machine :=
  let t := Env_ThreadGlobals env in
  g <-? nth_error (M_threads m) t ;;
  Some (set_thread t (pool_give env g) m).

(** The loop of the closure of [Defer] over [argfuns]: each argument is
    evaluated, and copied if it is settable. *)
Fixpoint Defer_args (argfuns : list XFun) (env : Env) (s : Store)
  : option (list Value * Store) :=
  match argfuns with
  | [] => Some ([], s)
  | argfun :: rest =>
      '(v, s1) <-? argfun env s ;;
      let v := if CanSet v then Convert s1 v else v in
      '(args, s2) <-? Defer_args rest env s1 ;;
      Some (v :: args, s2)
  end.

(** The loop of the closure of [Go] over [argfunsX1]. *)
Fixpoint Go_args (argfuns : list XFun) (env : Env) (s : Store)
  : option (list Value * Store) :=
  match argfuns with
  | [] => Some ([], s)
  | argfun :: rest =>
      '(v, s1) <-? argfun env s ;;
      '(argv, s2) <-? Go_args rest env s1 ;;
      Some (v :: argv, s2)
  end.

(** The loop [for i, assign := range assigns { assign(env, vals[i]) }]. *)
Fixpoint run_assigns (assigns : list AssignFun) (vals : list Value)
    (env : Env) (s : Store) : option Store :=
  match assigns with
  | [] => Some s
  | assign :: rest =>
      match vals with
      | [] => None
      | v :: vs => s1 <-? assign env v s ;; run_assigns rest vs env s1
      end
  end.

Definition set_Signal (sig : Signal) (g : ThreadGlobals) : ThreadGlobals :=
  mkThreadGlobals (FileEnv g) (TopEnv g) (Interrupt g) sig (PoolSize g)
                  (Pool g) (InstallDefer g) (Globals g).

Definition set_InstallDefer (d : Deferred) (g : ThreadGlobals)
  : ThreadGlobals :=
  mkThreadGlobals (FileEnv g) (TopEnv g) (Interrupt g) (TG_Signal g)
                  (PoolSize g) (Pool g) (Some d) (Globals g).

(** [env = env.Outer...; ip := *ip; env.IP = ip; return env.Code[ip], env]. *)
Definition jump_to (ip : nat) (env : Env) (m : Machine)
  : option (option Stmt * Env * Machine) :=
  Some (fetch m ip, set_IP ip env, m).

(** One instruction: the body of the closure, returning the next instruction
    and environment as the closure does. [None] is a panic. *)
Definition exec (stmt : Stmt) (env : Env) (m : Machine)
  : option (option Stmt * Env * Machine) :=
  match stmt with
  | stmtNop => jump_to (S (IP env)) env m
  | popEnv =>
      outer <-? Outer env ;;
      let outer := set_IP (S (IP env)) outer in
      m' <-? FreeEnv env m ;;
      Some (fetch m' (IP outer), outer, m')
  | stmtReturn =>
      let t := Env_ThreadGlobals env in
      common <-? nth_error (M_threads m) t ;;
      Some (Interrupt common, env, set_thread t (set_Signal SigReturn common) m)
  | pushEnv nbinds0 nbinds1 =>
      '(inner, m') <-? NewEnv env (load nbinds0 (M_cells m))
                              (load nbinds1 (M_cells m)) m ;;
      jump_to (S (IP inner)) inner m'
  | jumpOut upn ip =>
      match upn with
      | 0 => jump_to (load ip (M_cells m)) env m
      | 1 =>
          env1 <-? Outer env ;;
          jump_to (load ip (M_cells m)) env1 m
      | 2 =>
          env1 <-? Outer env ;;
          env2 <-? Outer env1 ;;
          jump_to (load ip (M_cells m)) env2 m
      | S (S (S k)) =>
          env1 <-? Outer env ;;
          env2 <-? Outer env1 ;;
          env3 <-? Outer env2 ;;
          env' <-? up k env3 ;;
          jump_to (load ip (M_cells m)) env' m
      end
  | forCond fun_ jump_Break =>
      '(b, s) <-? fun_ env (M_store m) ;;
      let ip := if b then S (IP env) else load jump_Break (M_cells m) in
      jump_to ip env (set_store s m)
  | forJump jump_Cond => jump_to (load jump_Cond (M_cells m)) env m
  | ifCond fun_ jump_Then jump_Else =>
      '(b, s) <-? fun_ env (M_store m) ;;
      let ip := if b then load jump_Then (M_cells m)
                else load jump_Else (M_cells m) in
      jump_to ip env (set_store s m)
  | ifJumpEnd jump_End => jump_to (load jump_End (M_cells m)) env m
  | deferStmt fun_ argfuns ellipsis =>
      '(f, s1) <-? fun_ env (M_store m) ;;
      let f := if CanSet f then Convert s1 f else f in
      '(args, s2) <-? Defer_args argfuns env s1 ;;
      let env := set_IP (S (IP env)) env in
      let t := Env_ThreadGlobals env in
      g <-? nth_error (M_threads m) t ;;
      let d := if ellipsis then DeferCallSlice f args else DeferCall f args in
      let g := set_Signal SigDefer (set_InstallDefer d g) in
      Some (Interrupt g, env, set_thread t g (set_store s2 m))
  | goStmt exprfun argfunsX1 =>
      '(env2, m1) <-? NewEnv4Func env 0 0 m ;;
      tg <-? nth_error (M_threads m1) (Env_ThreadGlobals env) ;;
      let fresh := mkThreadGlobals (FileEnv tg) (TopEnv tg) None SigNone 0 []
                                   None (Globals tg) in
      let env2 := mkEnv (Binds env2) (IntBinds env2) (IP env2)
                        (length (M_threads m1)) (Outer env2) in
      let m2 := mkMachine (M_Code m1) (M_cells m1) (M_store m1)
                          (M_threads m1 ++ [fresh]) (M_spawned m1) in
      '(funv, s1) <-? exprfun env2 (M_store m2) ;;
      '(argv, s2) <-? Go_args argfunsX1 env2 s1 ;;
      let m3 := mkMachine (M_Code m2) (M_cells m2) s2 (M_threads m2)
                          (M_spawned m2 ++ [mkGoroutine funv argv env2]) in
      jump_to (S (IP env)) env m3
  | returnMulti fun_ assigns =>
      '(vals, s1) <-? fun_ env (M_store m) ;;
      s2 <-? run_assigns assigns vals env s1 ;;
      let t := Env_ThreadGlobals env in
      common <-? nth_error (M_threads m) t ;;
      Some (Interrupt common, env,
            set_thread t (set_Signal SigReturn common) (set_store s2 m))
  | extStmt x => exec_ext x env m
  end.

(** Modelled from the spec: the executor is not in the source given. A
    trampoline loop repeatedly invokes the current instruction and follows
    the returned (instruction, environment) pair; it stops at the end of the
    stream. [trace] lists the instructions executed. *)
Inductive Outcome : Type :=
| Finished (env : Env) (m : Machine) (trace : list Stmt)
| Panicked (trace : list Stmt)
| OutOfFuel.

Fixpoint run (fuel : nat) (stmt : option Stmt) (env : Env) (m : Machine)
    (trace : list Stmt) : Outcome :=
  match stmt with
  | None => Finished env m trace
  | Some s =>
      match fuel with
      | 0 => OutOfFuel
      | S fuel' =>
          match exec s env m with
          | None => Panicked (trace ++ [s])
          | Some (next, env', m') => run fuel' next env' m' (trace ++ [s])
          end
      end
  end.

End Machine.

(* ------------------------------------------------------------------ *)
(** * Vocabulary of the properties *)

Section Vocabulary.
Context {Sx : Syntax} {Hx : Host}.

Definition is_push (s : Stmt) : bool :=
  match s with pushEnv _ _ => true | _ => false end.

Definition is_pop (s : Stmt) : bool :=
  match s with popEnv => true | _ => false end.

(** The numbers of push-environment and pop-environment instructions. *)
Definition count_push (l : list Stmt) : nat := length (filter is_push l).
Definition count_pop (l : list Stmt) : nat := length (filter is_pop l).

Definition balanced (seg : list Stmt) : Prop := count_push seg = count_pop seg.

(** [st'] is [st] after the instructions [seg] were appended: the stream
    before is kept, the patchable integers that existed keep their values,
    and the enclosing frames are the same. *)
Record ext_by (seg : list Stmt) (st st' : CState) : Prop := mk_ext_by {
  eb_code : code_of st' = code_of st ++ seg;
  eb_cells : exists h, cells st' = cells st ++ h;
  eb_outer : Comp_Outer (comp st') = Comp_Outer (comp st)
}.

(** The same between two states inside one compilation, whose own
    patchable integers (those from [low] on) may have been written. *)
Record steps (low : nat) (seg : list Stmt) (st st' : CState) : Prop :=
  mk_steps {
  sp_code : code_of st' = code_of st ++ seg;
  sp_low : firstn low (cells st') = firstn low (cells st);
  sp_len : length (cells st) <= length (cells st');
  sp_outer : Comp_Outer (comp st') = Comp_Outer (comp st)
}.

(** What a well-behaved statement compiler does to the state. *)
Definition grows (st st' : CState) : Prop :=
  exists seg, balanced seg /\ ext_by seg st st'.

Definition grows_on (f : CState -> result CState) : Prop :=
  forall st st', f st = Ok st' -> grows st st'.

(** The contract of the collaborators that emit instructions: like the
    compilers of statement.go, they only append to the stream, they push as
    many environments as they pop, and they leave alone the patchable
    integers and the frames of their callers. *)
Class Disciplined (Cx : Collaborators) : Prop := {
  Assign_grows : forall tok node, grows_on (Comp_Assign tok node);
  Decl_grows : forall decl, grows_on (Comp_Decl decl);
  Range_grows : forall node labels, grows_on (Comp_Range node labels);
  Select_grows : forall node labels, grows_on (Comp_Select node labels);
  Send_grows : forall node, grows_on (Comp_Send node);
  Switch_grows : forall node labels, grows_on (Comp_Switch node labels);
  TypeSwitch_grows :
    forall node labels, grows_on (Comp_TypeSwitch node labels);
  SetPlace_grows : forall place op e, grows_on (Comp_SetPlace place op e);
  SetVar_grows : forall v op e, grows_on (Comp_SetVar v op e)
}.

(** ** Executions of a compiled stream *)

(** The instructions that leave the stream of the statements around them:
    the jump of a break or continue, a return, and a defer, which hands
    control to the interrupt instruction of the thread. *)
Definition leaves (i : Stmt) : bool :=
  match i with
  | jumpOut _ _ | stmtReturn | returnMulti _ _ | deferStmt _ _ _ => true
  | _ => false
  end.

(** The instructions that go on to the next instruction whatever the
    machine holds: the no-op, the push, the pop, the go statement and the
    instructions of the collaborators. *)
Definition sequential (i : Stmt) : bool :=
  match i with
  | stmtNop | pushEnv _ _ | popEnv | goStmt _ _ | extStmt _ => true
  | _ => false
  end.

(** The patchable integer [c] holds, in [h], a position of the range from
    [a] to [b] whose depth is that of [ip]. *)
Definition target_ok (h : list nat) (lo a b : nat) (d : nat -> nat)
    (ip : nat) (c : cell) : Prop :=
  lo <= c < length h /\
  a <= load c h <= b /\
  d (load c h) = d ip.

(** [d] gives to each position of the stream the number of environments
    pushed and not yet popped when control is there; the instruction [i] at
    [ip] agrees with it. Nothing is asked of the instructions that leave. *)
Definition instr_ok (h : list nat) (lo a b : nat) (d : nat -> nat)
    (ip : nat) (i : Stmt) : Prop :=
  match i with
  | pushEnv _ _ => d (S ip) = S (d ip)
  | popEnv => d ip = S (d (S ip))
  | forCond _ c => d (S ip) = d ip /\ target_ok h lo a b d ip c
  | forJump c => target_ok h lo a b d ip c
  | ifJumpEnd c => target_ok h lo a b d ip c
  | ifCond _ c1 c2 => target_ok h lo a b d ip c1 /\ target_ok h lo a b d ip c2
  | stmtNop | goStmt _ _ | extStmt _ => d (S ip) = d ip
  | jumpOut _ _ | stmtReturn | returnMulti _ _ | deferStmt _ _ _ => True
  end.

(** The instructions of [code] from [a] to [b] agree with the depths [d],
    with jumps that stay between [A] and [B]. *)
Definition region (code : list Stmt) (h : list nat) (lo A B : nat)
    (d : nat -> nat) (a b : nat) : Prop :=
  forall ip i,
    a <= ip < b -> nth_error code ip = Some i -> instr_ok h lo A B d ip i.

(** The instructions of [code] from [a] to [b] are those of complete scopes:
    depth 0 at both ends, every instruction in agreement with the depths, and
    the patchable integers they read are at [lo] or after. *)
Record typed (code : list Stmt) (h : list nat) (lo a b : nat)
    (d : nat -> nat) : Prop := mk_typed {
  ty_le : a <= b;
  ty_len : b <= length code;
  ty_start : d a = 0;
  ty_end : d b = 0;
  ty_instr : region code h lo a b d a b
}.

(** Depths of a sequence: those of [d1] before [m], those of [d2] from [m]. *)
Definition glue (m : nat) (d1 d2 : nat -> nat) : nat -> nat :=
  fun t => if Nat.ltb t m then d1 t else d2 t.

(** Depths of a scope: one more than [d] after the push at [a] and up to the
    pop at [b]. *)
Definition nest (a b : nat) (d : nat -> nat) : nat -> nat :=
  fun t => if Nat.ltb a t && Nat.leb t b then S (d t) else 0.

(** Depths of a part of a loop or of a branch: those of [d] from [a] to
    before [b], and 0 around. *)
Definition inside (a b : nat) (d : nat -> nat) : nat -> nat :=
  fun t => if Nat.leb a t && Nat.ltb t b then d t else 0.

(** A statement compiler whose output is so structured. *)
Definition typed_on (f : CState -> result CState) : Prop :=
  forall st st',
    f st = Ok st' ->
    exists d, typed (code_of st') (cells st') (length (cells st))
                    (Len st) (Len st') d.

(** The second contract of the collaborators that emit instructions: what
    they emit is made of complete scopes. *)
Class Structured (Cx : Collaborators) : Prop := {
  Assign_typed : forall tok node, typed_on (Comp_Assign tok node);
  Decl_typed : forall decl, typed_on (Comp_Decl decl);
  Range_typed : forall node labels, typed_on (Comp_Range node labels);
  Select_typed : forall node labels, typed_on (Comp_Select node labels);
  Send_typed : forall node, typed_on (Comp_Send node);
  Switch_typed : forall node labels, typed_on (Comp_Switch node labels);
  TypeSwitch_typed :
    forall node labels, typed_on (Comp_TypeSwitch node labels);
  SetPlace_typed : forall place op e, typed_on (Comp_SetPlace place op e);
  SetVar_typed : forall v op e, typed_on (Comp_SetVar v op e)
}.

(** The contract of the instructions of the collaborators at run time: they
    go on to the next instruction, as [stmtNop] does, and leave the stream
    and the patchable integers alone. *)
Definition Straight (Ex : ExtExec) : Prop :=
  forall x env m next env' m',
    exec_ext x env m = Some (next, env', m') ->
    IP env' = S (IP env) /\ next = fetch m' (IP env') /\
    M_Code m' = M_Code m /\ M_cells m' = M_cells m.

(** Modelled from the spec: the executor is not in the source given. An
    execution of instructions before position [b], as the trampoline loop
    makes it: from the instruction, environment and machine on the left,
    each instruction runs and returns the next one; [tr] lists the
    instructions that ran, up to the environment and machine on the right. *)
Inductive path {Ex : ExtExec} (b : nat)
  : option Stmt -> Env -> Machine -> list Stmt -> Env -> Machine -> Prop :=
| path_done (cur : option Stmt) (env : Env) (m : Machine) :
    path b cur env m [] env m
| path_step (i : Stmt) (env : Env) (m : Machine) (next : option Stmt)
            (env1 : Env) (m1 : Machine) (tr : list Stmt)
            (env2 : Env) (m2 : Machine) :
    IP env < b ->
    exec i env m = Some (next, env1, m1) ->
    path b next env1 m1 tr env2 m2 ->
    path b (Some i) env m (i :: tr) env2 m2.

(** The patchable integers from [lo] on keep their values from [h] to [h']. *)
Definition keeps_from (lo : nat) (h h' : list nat) : Prop :=
  length h <= length h' /\
  forall c, lo <= c < length h -> load c h' = load c h.

(** A further contract of the instructions of the collaborators at run time:
    like the instructions of statement.go other than the push and the pop,
    they return the environment they were given; whatever they change in it,
    its parent and its thread are the same. *)
Definition InPlace (Ex : ExtExec) : Prop :=
  forall x env m next env' m',
    exec_ext x env m = Some (next, env', m') ->
    Outer env' = Outer env /\
    Env_ThreadGlobals env' = Env_ThreadGlobals env.

(** [cur] is [d] environments below an environment with the parent and the
    thread of [env0]. *)
Definition anchored (env0 : Env) (d : nat) (cur : Env) : Prop :=
  exists e,
    up d cur = Some e /\
    Outer e = Outer env0 /\
    Env_ThreadGlobals e = Env_ThreadGlobals env0.

(** The frames that [Break], [Continue] and [Return] visit: from [o] outward,
    up to and without the first function-root frame. *)
Fixpoint scope_chain (o : Comp) : list Comp :=
  match Func o with
  | Some _ => []
  | None =>
      o :: match Comp_Outer o with
           | Some o' => scope_chain o'
           | None => []
           end
  end.

(** All the frames from [o] outward. *)
Fixpoint all_frames (o : Comp) : list Comp :=
  o :: match Comp_Outer o with
       | Some o' => all_frames o'
       | None => []
       end.

(** The frame [o] has a Loop Info whose slot [slot] (break or continue) is
    present, and the statement is unlabeled or names one of its labels. *)
Definition loop_matches (slot : LoopInfo -> option cell) (label : string)
    (o : Comp) (ip : cell) : Prop :=
  exists l, Loop o = Some l /\ slot l = Some ip /\
            (label = "" \/ In label (ThisLabels l)).

(** The first frame of [frames] that [target] accepts, with the frames
    before it. *)
Fixpoint nearest (target : Comp -> option cell) (frames : list Comp)
  : option (list Comp * cell) :=
  match frames with
  | [] => None
  | o :: rest =>
      match target o with
      | Some ip => Some ([], ip)
      | None =>
          match nearest target rest with
          | Some (pre, ip) => Some (o :: pre, ip)
          | None => None
          end
      end
  end.

(** Evaluating the closures [funs] in order from the store [s]: each value
    with the store right after its evaluation, and the final store. *)
Fixpoint eval_seq (funs : list XFun) (env : Env) (s : Store)
  : option (list (Value * Store) * Store) :=
  match funs with
  | [] => Some ([], s)
  | f :: rest =>
      '(v, s1) <-? f env s ;;
      '(vs, s2) <-? eval_seq rest env s1 ;;
      Some ((v, s1) :: vs, s2)
  end.


(** The test of the walk of a break or of a continue with the label [x],
    and the slot of the loop whose patchable integers start at [jump] that
    such a statement goes to. *)
Definition branch_target (tok : Token) (x : string) : Comp -> option cell :=
  match tok with
  | CONTINUE => Continue_target x
  | _ => Break_target x
  end.

Definition branch_slot (tok : Token) (jump : cell) : cell :=
  match tok with
  | CONTINUE => S jump
  | _ => S (S jump)
  end.

(** The state [st] with [code] for its instruction list. *)
Definition with_code (code : list Stmt) (st : CState) : CState :=
  with_comp
    (fun c => set_Code (mkCode code (WithDefers (Comp_Code c))) c) st.

(** [v] is a copy of what [v0] held when the store was [s0]: it is not
    settable, and whatever the store becomes, a callee receives from [v] what
    [v0] held then. *)
Definition snapshot (v0s0 : Value * Store) (v : Value) : Prop :=
  CanSet v = false /\
  forall s, Value_get s v = Value_get (snd v0s0) (fst v0s0).

(** The run-time environments to leave to get out of [frames]. *)
Definition hops (frames : list Comp) : nat :=
  fold_right (fun o n => UpCost o + n) 0 frames.

(** The frame [Comp.List] compiles the statements of a block without local
    binds in. *)
Definition block_frame (c : Comp) : Comp :=
  mkComp 0 0 0 (Depth c) (Comp_Code c) None None noDecls (Some c).

(** The patchable integers that the jumps of a loop or of an if statement
    read: the Break slot of a loop test, the Cond slot of a jump back, the
    Then and Else slots of an if test, the End slot of a jump over an else
    branch. *)
Definition jump_slots (i : Stmt) : list cell :=
  match i with
  | forCond _ c => [c]
  | forJump c => [c]
  | ifCond _ c1 c2 => [c1; c2]
  | ifJumpEnd c => [c]
  | _ => []
  end.

(** The statements that compile in frames of their own and give the frame
    of their caller back: a block, a for, an if and a go statement, also
    under labels. *)
Fixpoint scoped (s : ast_Stmt) : bool :=
  match s with
  | BlockStmt _ | ForStmt _ _ _ _ | IfStmt _ _ _ _ | GoStmt _ => true
  | LabeledStmt _ s' => scoped s'
  | _ => false
  end.

(** The statement [s] under the labels [ls], the outermost first. *)
Definition labeled (ls : list string) (s : ast_Stmt) : ast_Stmt :=
  fold_right LabeledStmt s ls.

(** The instructions that hand control to the interrupt instruction of the
    thread: the two returns and the defer. *)
Definition signals (i : Stmt) : bool :=
  match i with
  | stmtReturn | returnMulti _ _ | deferStmt _ _ _ => true
  | _ => false
  end.

(** ** The jumps of break and continue at run time *)

(** The number of environments that the first [n] instructions of [seg]
    push and do not pop. *)
Definition depth_at (seg : list Stmt) (n : nat) : nat :=
  count_push (firstn n seg) - count_pop (firstn n seg).

(** [seg] pops the environments it pushes, and never one it did not push. *)
Definition nested (seg : list Stmt) : Prop :=
  balanced seg /\
  forall n, count_pop (firstn n seg) <= count_push (firstn n seg).

(** The jump of the instruction at offset [n] of [seg], which starts at the
    position [a] of the stream, through the patchable integer [c] and [upn]
    environments up: [c] is an integer at [lo] or after, it holds a position
    of [seg], and the depth there is [upn] less than at the jump. *)
Definition lands (h : list nat) (lo a : nat) (seg : list Stmt)
    (n upn : nat) (c : cell) : Prop :=
  lo <= c < length h /\
  a <= load c h <= a + length seg /\
  depth_at seg (load c h - a) + upn = depth_at seg n.

(** The tests of the walks of [Break] and [Continue]. *)
Definition loop_target (tgt : Comp -> option cell) : Prop :=
  exists label, tgt = Break_target label \/ tgt = Continue_target label.

(** The jump of a break or continue at offset [n] of [seg] to a loop around
    [seg]: the walk from the frame [F], in which [seg] was compiled, finds
    the integer [c], and [upn] counts the environments pushed inside [seg]
    and those that the walk counts. *)
Definition escapes (F : Comp) (seg : list Stmt) (n upn : nat) (c : cell)
  : Prop :=
  exists tgt k,
    loop_target tgt /\ walk tgt 0 F = Some (k, c) /\
    upn = depth_at seg n + k.

Definition jump_ok (h : list nat) (lo a : nat) (F : Comp)
    (seg : list Stmt) (n : nat) (i : Stmt) : Prop :=
  match i with
  | jumpOut upn c => lands h lo a seg n upn c \/ escapes F seg n upn c
  | _ => forall c, In c (jump_slots i) -> lands h lo a seg n 0 c
  end.

(** The instructions of [part], which are at offset [off] of [seg], jump as
    said. *)
Definition jumps (h : list nat) (lo a : nat) (F : Comp) (seg : list Stmt)
    (off : nat) (part : list Stmt) : Prop :=
  forall n i, nth_error part n = Some i -> jump_ok h lo a F seg (off + n) i.

(** What a statement compiles to: scopes, with jumps that stay inside at
    the right depth, and jumps of break and continue to the loops around
    it. *)
Record sound (h : list nat) (lo a : nat) (F : Comp) (seg : list Stmt)
  : Prop := mk_sound {
  sd_nested : nested seg;
  sd_jumps : jumps h lo a F seg 0 seg
}.

(** Two frames that the walks of [Break] and [Continue] cannot tell apart. *)
Definition same_frame (c c' : Comp) : Prop :=
  Func c' = Func c /\ Loop c' = Loop c /\ UpCost c' = UpCost c /\
  Comp_Outer c' = Comp_Outer c.

(** A statement compiler that leaves the current frame as it is for these
    walks, and whose output is so made. *)
Definition orderly_on (f : CState -> result CState) : Prop :=
  forall st st',
    f st = Ok st' ->
    same_frame (comp st) (comp st') /\
    exists seg,
      code_of st' = code_of st ++ seg /\
      sound (cells st') (length (cells st)) (Len st) (comp st) seg.

(** The third contract of the collaborators that emit instructions: they
    keep the function info, the Loop Info and the up-cost of the frame they
    are called in, and what they emit is made of scopes whose jumps of break
    and continue go to their own loops or to the loops around them. *)
Class Orderly (Cx : Collaborators) : Prop := {
  Assign_orderly : forall tok node, orderly_on (Comp_Assign tok node);
  Decl_orderly : forall decl, orderly_on (Comp_Decl decl);
  Range_orderly : forall node labels, orderly_on (Comp_Range node labels);
  Select_orderly : forall node labels, orderly_on (Comp_Select node labels);
  Send_orderly : forall node, orderly_on (Comp_Send node);
  Switch_orderly : forall node labels, orderly_on (Comp_Switch node labels);
  TypeSwitch_orderly :
    forall node labels, orderly_on (Comp_TypeSwitch node labels);
  SetPlace_orderly :
    forall place op e, orderly_on (Comp_SetPlace place op e);
  SetVar_orderly : forall v op e, orderly_on (Comp_SetVar v op e)
}.

(** The walks from the frame [F'], in which a part of [seg] is compiled [k]
    environments deep, end at an integer that holds a position of [seg] at
    the depth they reach, or go on as the walks from [F], the frame in which
    [seg] is compiled. *)
Definition exits_to (h : list nat) (lo a : nat) (F : Comp)
    (seg : list Stmt) (k : nat) (F' : Comp) : Prop :=
  forall tgt r c,
    loop_target tgt ->
    walk tgt 0 F' = Some (r, c) ->
    (exists r0, walk tgt 0 F = Some (r0, c) /\ r = k + r0) \/
    (lo <= c < length h /\
     a <= load c h <= a + length seg /\
     depth_at seg (load c h - a) + r = k).

(** The instructions that stay in a statement whose patchable integers
    start at [lo]: all but a return, a defer, and the jump of a break or
    continue through an integer allocated before the statement. *)
Definition stays (lo : nat) (i : Stmt) : bool :=
  match i with
  | jumpOut _ c => Nat.leb lo c
  | stmtReturn | returnMulti _ _ | deferStmt _ _ _ => false
  | _ => true
  end.

(** The Loop Infos of the frames around the state hold patchable integers
    that are allocated. *)
Definition closed_slots (st : CState) : Prop :=
  forall tgt k c,
    loop_target tgt -> walk tgt 0 (comp st) = Some (k, c) ->
    c < length (cells st).

End Vocabulary.

(* ------------------------------------------------------------------ *)
(** * A small instance of the collaborators

    Enough of an expression compiler and of the delegated statement
    compilers to run [Comp_Stmt] and [exec] on concrete programs. *)

(** Expressions: the constants true and false, a condition that is not
    constant, a variable, and a call with the types of its results. *)
Inductive toy_Expr : Type :=
| TTrue
| TFalse
| TCond (b : bool)
| TVar (l : nat)
| TCall (outs : list nat).

Section Toy.

#[local] Instance toy_Syntax : Syntax := {|
  ast_Expr := toy_Expr;
  ast_CallExpr := toy_Expr * list toy_Expr * bool;
  ast_Node := nat
|}.

#[local] Instance toy_Host : Host := {|
  data := nat;
  xr_Type := nat;
  ref := nat;
  ext_Stmt := nat;
  Expr_c := toy_Expr;
  Call_c := toy_Expr * list toy_Expr * bool;
  Place_c := nat;
  DeclTable := list string;
  noDecls := []
|}.

Definition add_binds (n : nat) (c : Comp) : Comp :=
  mkComp (BindNum c + n) (IntBindNum c) (UpCost c) (Depth c) (Comp_Code c)
         (Loop c) (Func c) (Decls c) (Comp_Outer c).

Definition add_decl (name : string) (c : Comp) : Comp :=
  mkComp (BindNum c) (IntBindNum c) (UpCost c) (Depth c) (Comp_Code c)
         (Loop c) (Func c) (name :: Decls c) (Comp_Outer c).

(** Declare [n] bindings in the current frame and append one instruction. *)
Definition toy_emit (x n : nat) (st : CState) : result CState :=
  Ok (Comp_Append (extStmt x) (with_comp (add_binds n) st)).

Definition count_non_blank (specs : list ast_Spec) : nat :=
  fold_right
    (fun spec n =>
       match spec with
       | ValueSpec names _ =>
           length (filter (fun name => negb (String.eqb name "_")) names) + n
       | OtherSpec _ => n
       end) 0 specs.

Definition toy_Decl (decl : ast_Decl) (st : CState) : result CState :=
  match decl with
  | FuncDecl (Some name) _ =>
      if String.eqb name "_" then Ok st else toy_emit 0 1 st
  | FuncDecl None _ => Ok st
  | GenDecl tok specs =>
      if Token_eqb tok VAR
      then Ok (with_comp (add_binds (count_non_blank specs)) st)
      else Ok (with_comp (add_decl "declared") st)
  | BadDecl => Err (Errorf "unimplemented declaration" [])
  end.

Definition toy_value (e : toy_Expr) : XFun :=
  fun _ s =>
    match e with
    | TVar l => Some (Settable l, s)
    | TTrue => Some (Plain 1, s)
    | _ => Some (Plain 0, s)
    end.

Definition toy_pred (e : toy_Expr) : bool * option PredFun * bool :=
  match e with
  | TTrue => (true, None, false)
  | TFalse => (false, None, false)
  | TCond b => (false, Some (fun _ s => Some (b, s)), false)
  | _ => (false, None, true)
  end.

Definition toy_assign (v : Var) : AssignFun :=
  fun _ val s =>
    Some (fun l => if Nat.eqb l (Bind_Index (Var_Bind v))
                   then Value_get s val else s l).

#[local] Instance toy_Collab : Collaborators := {|
  Comp_Assign := fun tok node =>
    toy_emit node (if Token_eqb tok DEFINE then 1 else 0);
  Comp_Decl := toy_Decl;
  Comp_Range := fun node _ => toy_emit node 0;
  Comp_Select := fun node _ => toy_emit node 0;
  Comp_Send := fun node => toy_emit node 0;
  Comp_Switch := fun node _ => toy_emit node 0;
  Comp_TypeSwitch := fun node _ => toy_emit node 0;
  Comp_Expr := fun node _ => Ok node;
  Comp_ExprsMultipleValues := fun nodes _ _ => Ok nodes;
  Comp_prepareCall := fun call _ => Ok call;
  Comp_Place := fun _ _ => Ok 0;
  Comp_SetPlace := fun place _ _ => toy_emit place 0;
  Comp_SetVar := fun v _ _ => toy_emit (Bind_Index (Var_Bind v)) 0;
  Comp_varSetValue := fun v _ => Ok (toy_assign v);
  exprUntypedLit_one := fun _ => TTrue;
  invalidPred := fun _ _ => Errorf "invalid predicate" [];
  Expr_Const := fun e =>
    match e with TTrue | TFalse => true | _ => false end;
  Expr_AsStmt := fun _ => Some 0;
  Expr_TryAsPred := toy_pred;
  Expr_AsX1 := toy_value;
  Expr_AsXV := fun e _ s =>
    match e with
    | TCall outs => Some (map Plain outs, s)
    | _ => None
    end;
  Expr_Out := fun e i =>
    match e with TCall outs => nth i outs 0 | _ => 0 end;
  Call_Fun := fun call => fst (fst call);
  Call_MakeArgfunsX1 := fun call => map toy_value (snd (fst call));
  Call_Ellipsis := fun call => snd call;
  AssignableTo := Nat.eqb
|}.

(** An instruction of a collaborator does its work and goes on to the next
    instruction. *)
#[local] Instance toy_ExtExec : ExtExec := {|
  exec_ext := fun _ env m => jump_to (S (IP env)) env m
|}.

(** The body of a function without results, and its frame. *)
Definition toy_info0 : FuncInfo := mkFuncInfo [] false.

Definition toy_func : Comp :=
  mkComp 0 0 1 0 (mkCode [] false) None (Some toy_info0) [] None.

Definition toy_state : CState := mkCState toy_func [].

(** A frame that is in no function and in no loop. *)
Definition toy_top : CState :=
  mkCState (mkComp 0 0 1 0 (mkCode [] false) None None [] None) [].

Definition toy_thread : ThreadGlobals :=
  mkThreadGlobals None None None SigNone 0 [] None None.

Definition toy_env : Env := mkEnv [] [] 0 0 None.

(** The machine that runs the stream compiled into [st], from its start. *)
Definition toy_machine (st : CState) : Machine :=
  mkMachine (code_of st) (cells st) (fun _ => 0) [toy_thread] [].

Definition toy_run (fuel : nat) (st : CState) : Outcome :=
  let m := toy_machine st in
  run fuel (fetch m 0) toy_env m [].

(** [for { x := 1; break }] *)
Definition prog_break : list ast_Stmt :=
  [ForStmt NilStmt None NilStmt
     [AssignStmt DEFINE 1; BranchStmt BREAK None]].

(** [x := 1; if c { y := 2 }] with a condition [c] that is not constant. *)
Definition prog_scopes : list ast_Stmt :=
  [AssignStmt DEFINE 1;
   IfStmt NilStmt (TCond true) [AssignStmt DEFINE 2] NilStmt].

(** [x := 1; return] *)
Definition prog_return : list ast_Stmt :=
  [AssignStmt DEFINE 1; ReturnStmt []].

(** [outer: for { x := 1; for { y := 2; continue outer } }] *)
Definition prog_nested : ast_Stmt :=
  LabeledStmt "outer"
    (ForStmt NilStmt None NilStmt
       [AssignStmt DEFINE 1;
        ForStmt NilStmt None NilStmt
          [AssignStmt DEFINE 2; BranchStmt CONTINUE (Some "outer")]]).

(** The frames [Comp.For] and [Comp.List] build while compiling
    [prog_nested], at the continue statement: the body of the inner loop, the
    inner loop, the body of the outer loop, the outer loop labeled "outer",
    the function. *)
Definition toy_outer_for : Comp :=
  mkComp 0 0 0 0 (mkCode [] false)
         (Some (mkLoopInfo (Some 3) (Some 4) ["outer"])) None [] (Some toy_func).

Definition toy_outer_body : Comp :=
  mkComp 1 0 1 1 (mkCode [] false) None None [] (Some toy_outer_for).

Definition toy_inner_for : Comp :=
  mkComp 0 0 0 1 (mkCode [] false)
         (Some (mkLoopInfo (Some 10) (Some 11) [])) None []
         (Some toy_outer_body).

Definition toy_inner_body : Comp :=
  mkComp 1 0 1 2 (mkCode [] false) None None [] (Some toy_inner_for).

Definition toy_nested : CState := mkCState toy_inner_body (repeat 0 14).

(** The state after compiling [s] from [st], or [st] if that fails. *)
Definition compiled (r : result CState) (st : CState) : CState :=
  match r with
  | Ok st' => st'
  | Err _ => st
  end.

Definition toy_compiled_break : CState :=
  compiled (Comp_List (Comp_Stmt []) prog_break toy_state) toy_state.

Definition toy_compiled_scopes : CState :=
  compiled (Comp_List (Comp_Stmt []) prog_scopes toy_state) toy_state.

Definition toy_compiled_return : CState :=
  compiled (Comp_List (Comp_Stmt []) prog_return toy_state) toy_state.



(** A function with two results of types 1 and 2, and a frame of its body. *)
Definition toy_info2 : FuncInfo :=
  mkFuncInfo [mkBind 1 0; mkBind 2 1] false.

Definition toy_func2 : Comp :=
  mkComp 0 0 1 0 (mkCode [] false) None (Some toy_info2) [] None.

Definition toy_state2 : CState :=
  mkCState (mkComp 0 0 0 1 (mkCode [] false) None None [] (Some toy_func2))
           [].



(** [{ x = 1; { y := 2 } }], a block that declares nothing itself. *)
Definition prog_plain_block : list ast_Stmt :=
  [AssignStmt ASSIGN 1; BlockStmt [AssignStmt DEFINE 2]].

(** The branches [{ x = 1 }] and [{ y = 2 }], the constant false, the init
    statement [i := 0] and the post statement [i++]. *)
Definition toy_then : list ast_Stmt := [AssignStmt ASSIGN 1].

Definition toy_else : ast_Stmt := BlockStmt [AssignStmt ASSIGN 2].

Definition toy_false : ast_Expr := TFalse.

Definition toy_for_init : ast_Stmt := AssignStmt DEFINE 0.

Definition toy_for_post : ast_Stmt := IncDecStmt (TVar 0) INC.

(** [if i := 0; c { x = 1 } else { y = 2 }] *)
Definition prog_if_init (c : ast_Expr) : ast_Stmt :=
  IfStmt toy_for_init c toy_then toy_else.

(** [for i := 0; false; i++ { x = 1 }] *)
Definition prog_for_false : ast_Stmt :=
  ForStmt toy_for_init (Some toy_false) toy_for_post toy_then.

(** [defer f(x)] with [f] a constant and [x] the variable at location 5, and
    the same call as a go statement. *)
Definition toy_call : toy_Expr * list toy_Expr * bool :=
  (TTrue, [TVar 5], false).

Definition toy_compiled_block : CState :=
  compiled (Comp_Stmt [] (BlockStmt prog_plain_block) toy_state) toy_state.

Definition toy_compiled_if_init (c : ast_Expr) : CState :=
  compiled (Comp_Stmt [] (prog_if_init c) toy_state) toy_state.

Definition toy_compiled_for : CState :=
  compiled (Comp_Stmt [] prog_for_false toy_state) toy_state.

Definition toy_deferred : CState :=
  compiled (Comp_Defer toy_call toy_state) toy_state.

Definition toy_launched : CState :=
  compiled (Comp_Go toy_call toy_state) toy_state.

(** A machine whose variable at location 5 holds 42. *)
Definition toy_machine42 (st : CState) : Machine :=
  mkMachine (code_of st) (cells st)
            (fun l => if Nat.eqb l 5 then 42 else 0) [toy_thread] [].

(** [for i := 0; c; i++ { x = 1 }] with a condition [c] that is tested at
    run time and does not hold, the same loop without its post statement,
    and a post statement that declares a variable. *)
Definition toy_run_cond : ast_Expr := TCond false.

Definition prog_for_run : ast_Stmt :=
  ForStmt toy_for_init (Some toy_run_cond) toy_for_post toy_then.

Definition toy_compiled_for_run : CState :=
  compiled (Comp_Stmt [] prog_for_run toy_state) toy_state.

Definition toy_compiled_for_nopost : CState :=
  compiled (Comp_Stmt [] (ForStmt toy_for_init (Some toy_run_cond) NilStmt
                            toy_then) toy_state) toy_state.

Definition toy_post_define : ast_Stmt := AssignStmt DEFINE 3.

(** A condition that is tested at run time and holds. *)
Definition toy_held_cond : ast_Expr := TCond true.

(** [L: x := 1], a list whose declaration is under a label, and the state
    in which its statements are compiled and the one they leave. *)
Definition prog_labeled_define : list ast_Stmt :=
  [LabeledStmt "L" (AssignStmt DEFINE 1)].

Definition toy_inner_start (flag : bool) : CState :=
  fst (pushEnvIfFlag 0 1 flag (snd (alloc 2 toy_state))).

Definition toy_inner_labeled : CState :=
  compiled (Stmts (Comp_Stmt []) prog_labeled_define
              (toy_inner_start false)) toy_state.

(** The state after one declaration was compiled in the frame that
    [pushEnvIfDefine] makes for the token [tok]. *)
Definition toy_inner_define (tok : Token) : CState :=
  compiled (toy_emit 1 1 (fst (pushEnvIfDefine 0 1 tok
                                 (snd (alloc 2 toy_state))))) toy_state.

(** The state in which [For] compiles the body of a loop with the labels
    [labels] whose condition is absent or a constant, from the state [st3]
    that the init statement left with two patchable integers. *)
Definition toy_for_body_state (labels : list string) (st3 : CState)
  : CState :=
  with_code (code_of st3)
    (write 2 (length (code_of st3))
       (with_comp (set_Loop (Some (mkLoopInfo (Some 3) (Some 4)
                                              (sort_Strings labels))))
                  (snd (alloc 3 st3)))).

(** The states of [For] at [for i := 0; false; i++ { x = 1 }]: after the
    init statement, after the body and after the post statement. *)
Definition toy_for_after_init : CState :=
  compiled (Comp_Stmt [] toy_for_init (toy_inner_start true)) toy_state.

Definition toy_for_after_body : CState :=
  compiled (Comp_Block (Comp_Stmt []) toy_then
              (toy_for_body_state [] toy_for_after_init)) toy_state.

Definition toy_for_after_post : CState :=
  compiled (Comp_Stmt [] toy_for_post
              (write 3 (Len toy_for_after_body) toy_for_after_body))
           toy_state.

(** [for false {}] *)
Definition prog_for_empty : ast_Stmt :=
  ForStmt NilStmt (Some toy_false) NilStmt [].

Definition toy_compiled_for_empty : CState :=
  compiled (Comp_Stmt [] prog_for_empty toy_state) toy_state.

(** [for i := 0; false; i++ { break nowhere }] *)
Definition prog_for_bad_body : ast_Stmt :=
  ForStmt toy_for_init (Some toy_false) toy_for_post
          [BranchStmt BREAK (Some "nowhere")].

(** [return] in a function without results. *)
Definition toy_compiled_bare_return : CState :=
  compiled (Comp_Return [] toy_state) toy_state.

(** [outer: for i := 0; ; { x := 1; continue outer }] *)
Definition toy_loop_body : list ast_Stmt :=
  [AssignStmt DEFINE 1; BranchStmt CONTINUE (Some "outer")].

Definition prog_labeled_for : ast_Stmt :=
  labeled ["outer"] (ForStmt toy_for_init None NilStmt toy_loop_body).

Definition toy_compiled_labeled_for : CState :=
  compiled (Comp_Stmt [] prog_labeled_for toy_state) toy_state.

(** [outer: for i := 0; ; { x := 1; continue zzz }] *)
Definition prog_for_unknown_label : ast_Stmt :=
  labeled ["outer"]
    (ForStmt toy_for_init None NilStmt
       [AssignStmt DEFINE 1; BranchStmt CONTINUE (Some "zzz")]).

(** [for { x := 1; break }] as a statement. *)
Definition prog_for_break : ast_Stmt :=
  ForStmt NilStmt None NilStmt [AssignStmt DEFINE 1; BranchStmt BREAK None].

Definition toy_compiled_for_break : CState :=
  compiled (Comp_Stmt [] prog_for_break toy_state) toy_state.

End Toy.

(* ------------------------------------------------------------------ *)
(** * Basic facts *)

Unset Implicit Arguments.

Section CoreFacts.
Context {Sx : Syntax} {Hx : Host}.

Lemma bind_Ok {A B : Type} (r : result A) (k : A -> result B) (b : B) :
  bind r k = Ok b -> exists a, r = Ok a /\ k a = Ok b.
Proof.
  destruct r as [a|e]; simpl; intros H.
  - exists a. split; [reflexivity | exact H].
  - discriminate H.
Qed.

(** Induction on a frame along its chain of enclosing frames. *)
Lemma Comp_chain_ind (P : Comp -> Prop) :
  (forall c, Comp_Outer c = None -> P c) ->
  (forall c o, Comp_Outer c = Some o -> P o -> P c) ->
  forall c, P c.
Proof.
  intros Hnone Hsome.
  fix IH 1.
  intros [b ib u d code l f dt [o|]].
  - apply Hsome with (o := o); [reflexivity | apply IH].
  - apply Hnone. reflexivity.
Qed.

(** ** The heap of patchable integers *)

Lemma length_store (p v : nat) (h : list nat) :
  length (store p v h) = length h.
Proof.
  revert p. induction h as [|x r IH]; intros [|p]; simpl; auto.
Qed.

Lemma load_store_same (p v : nat) (h : list nat) :
  p < length h -> load p (store p v h) = v.
Proof.
  unfold load. revert p.
  induction h as [|x r IH]; intros [|p]; simpl; intros Hp;
    try lia; auto.
  apply IH. lia.
Qed.

Lemma load_store_other (p q v : nat) (h : list nat) :
  p <> q -> load p (store q v h) = load p h.
Proof.
  unfold load. revert p q.
  induction h as [|x r IH]; intros [|p] [|q]; simpl; intros Hpq;
    try reflexivity; try lia.
  apply IH. lia.
Qed.

Lemma load_app_l (p : nat) (h h' : list nat) :
  p < length h -> load p (h ++ h') = load p h.
Proof. intros Hp. unfold load. apply app_nth1. exact Hp. Qed.

(** ** Counting pushes and pops *)

Lemma count_push_app (a b : list Stmt) :
  count_push (a ++ b) = count_push a + count_push b.
Proof. unfold count_push. rewrite filter_app, length_app. reflexivity. Qed.

Lemma count_pop_app (a b : list Stmt) :
  count_pop (a ++ b) = count_pop a + count_pop b.
Proof. unfold count_pop. rewrite filter_app, length_app. reflexivity. Qed.

Lemma balanced_nil : balanced [].
Proof. reflexivity. Qed.

Lemma balanced_app (a b : list Stmt) :
  balanced a -> balanced b -> balanced (a ++ b).
Proof.
  unfold balanced. intros Ha Hb.
  rewrite count_push_app, count_pop_app. lia.
Qed.

Lemma balanced_single (s : Stmt) :
  is_push s = false -> is_pop s = false -> balanced [s].
Proof.
  unfold balanced, count_push, count_pop. simpl.
  intros -> ->. reflexivity.
Qed.

Lemma balanced_push_pop (locals : bool) (p : Stmt) (seg : list Stmt) :
  is_push p = true -> is_pop p = false -> balanced seg ->
  balanced ((if locals then [p] else []) ++ seg
            ++ (if locals then [popEnv] else [])).
Proof.
  unfold balanced. intros Hp Hq Hseg.
  rewrite !count_push_app, !count_pop_app.
  destruct locals; unfold count_push, count_pop in *; simpl;
    rewrite ?Hp, ?Hq; simpl; lia.
Qed.

End CoreFacts.

(* ------------------------------------------------------------------ *)
(** * Break, continue and return: the walk through the frames *)

Section Walk.
Context {Sx : Syntax} {Hx : Host}.

Lemma length_zero_iff (s : string) :
  Nat.eqb (String.length s) 0 = true <-> s = "".
Proof.
  destruct s as [|a s]; simpl; split; intros H;
    try reflexivity; discriminate H.
Qed.

Lemma HasLabel_In (l : LoopInfo) (label : string) :
  HasLabel l label = true <-> In label (ThisLabels l).
Proof.
  unfold HasLabel. rewrite existsb_exists. split.
  - intros [x [Hin Heq]]. apply String.eqb_eq in Heq. subst x. exact Hin.
  - intros Hin. exists label. split; [exact Hin | apply String.eqb_refl].
Qed.

Lemma label_test (l : LoopInfo) (label : string) :
  Nat.eqb (String.length label) 0 || HasLabel l label = true <->
  label = "" \/ In label (ThisLabels l).
Proof.
  rewrite orb_true_iff, length_zero_iff, HasLabel_In. reflexivity.
Qed.

Lemma Break_target_spec (label : string) (o : Comp) (ip : cell) :
  Break_target label o = Some ip <-> loop_matches Break label o ip.
Proof.
  unfold Break_target, loop_matches. split.
  - destruct (Loop o) as [l|]; [|discriminate].
    destruct (Break l) as [b|] eqn:Hb; [|discriminate].
    destruct (Nat.eqb (String.length label) 0 || HasLabel l label) eqn:Ht;
      [|discriminate].
    intros H. injection H as <-. exists l.
    repeat split; [exact Hb | apply label_test; exact Ht].
  - intros [l [-> [-> Ht]]]. apply label_test in Ht. rewrite Ht. reflexivity.
Qed.

Lemma Continue_target_spec (label : string) (o : Comp) (ip : cell) :
  Continue_target label o = Some ip <-> loop_matches Continue label o ip.
Proof.
  unfold Continue_target, loop_matches. split.
  - destruct (Loop o) as [l|]; [|discriminate].
    destruct (Continue l) as [b|] eqn:Hb; [|discriminate].
    destruct (Nat.eqb (String.length label) 0 || HasLabel l label) eqn:Ht;
      [|discriminate].
    intros H. injection H as <-. exists l.
    repeat split; [exact Hb | apply label_test; exact Ht].
  - intros [l [-> [-> Ht]]]. apply label_test in Ht. rewrite Ht. reflexivity.
Qed.

Lemma walk_eq (target : Comp -> option cell) (upn : nat) (o : Comp) :
  walk target upn o =
  match Func o with
  | Some _ => None
  | None =>
      match target o with
      | Some ip => Some (upn, ip)
      | None =>
          match Comp_Outer o with
          | Some o' => walk target (upn + UpCost o) o'
          | None => None
          end
      end
  end.
Proof. destruct o; reflexivity. Qed.

Lemma scope_chain_eq (o : Comp) :
  scope_chain o =
  match Func o with
  | Some _ => []
  | None =>
      o :: match Comp_Outer o with
           | Some o' => scope_chain o'
           | None => []
           end
  end.
Proof. destruct o; reflexivity. Qed.

Lemma all_frames_eq (o : Comp) :
  all_frames o =
  o :: match Comp_Outer o with
       | Some o' => all_frames o'
       | None => []
       end.
Proof. destruct o; reflexivity. Qed.

Lemma Return_walk_eq (upn : nat) (cf : Comp) :
  Return_walk upn cf =
  match Func cf with
  | Some cinfo => Some (cinfo, upn)
  | None =>
      match Comp_Outer cf with
      | Some o => Return_walk (upn + UpCost cf) o
      | None => None
      end
  end.
Proof. destruct cf; reflexivity. Qed.

(** The loop of [Break] and [Continue] finds the nearest accepted frame of
    the scope chain, and has then added up the up-costs of the frames before
    it. *)
Lemma walk_nearest (target : Comp -> option cell) (o : Comp) :
  forall upn,
    walk target upn o =
    match nearest target (scope_chain o) with
    | Some (pre, ip) => Some (upn + hops pre, ip)
    | None => None
    end.
Proof.
  induction o as [c Hc | c o' Hc IH] using Comp_chain_ind; intros upn;
    rewrite walk_eq, scope_chain_eq; rewrite Hc;
    destruct (Func c) as [f|]; simpl; try reflexivity;
    destruct (target c) as [ip|]; simpl;
    try (f_equal; f_equal; lia); try reflexivity.
  rewrite IH.
  destruct (nearest target (scope_chain o')) as [[pre ip]|]; simpl;
    [f_equal; f_equal; lia | reflexivity].
Qed.

Lemma nearest_found (target : Comp -> option cell) (frames : list Comp) :
  forall pre o post ip,
    frames = pre ++ o :: post ->
    (forall x, In x pre -> target x = None) ->
    target o = Some ip ->
    nearest target frames = Some (pre, ip).
Proof.
  induction frames as [|x rest IH]; intros pre o post ip Heq Hpre Ho.
  - destruct pre; discriminate Heq.
  - destruct pre as [|y pre]; simpl in Heq; injection Heq as Hhd Htl; subst.
    + simpl. rewrite Ho. reflexivity.
    + simpl. rewrite (Hpre y) by (left; reflexivity).
      rewrite (IH pre o post ip); auto.
      intros z Hz. apply Hpre. right. exact Hz.
Qed.

Lemma nearest_none (target : Comp -> option cell) (frames : list Comp) :
  (forall x, In x frames -> target x = None) ->
  nearest target frames = None.
Proof.
  induction frames as [|x rest IH]; intros H; simpl; [reflexivity|].
  rewrite (H x) by (left; reflexivity).
  rewrite IH; [reflexivity|].
  intros z Hz. apply H. right. exact Hz.
Qed.

Lemma no_match_None (slot : LoopInfo -> option cell)
    (target : string -> Comp -> option cell) (label : string) (x : Comp) :
  (forall o ip, target label o = Some ip <-> loop_matches slot label o ip) ->
  (forall ip, ~ loop_matches slot label x ip) ->
  target label x = None.
Proof.
  intros Hspec Hno. destruct (target label x) as [ip|] eqn:Ht;
    [|reflexivity].
  exfalso. apply (Hno ip). apply Hspec. exact Ht.
Qed.

(** The loop of [Return] finds the nearest function-root frame. *)
Lemma Return_walk_found (c : Comp) :
  forall upn pre o post cinfo,
    all_frames c = pre ++ o :: post ->
    (forall x, In x pre -> Func x = None) ->
    Func o = Some cinfo ->
    Return_walk upn c = Some (cinfo, upn + hops pre).
Proof.
  induction c as [c Hc | c o' Hc IH] using Comp_chain_ind;
    intros upn pre o post cinfo Heq Hpre Ho;
    rewrite all_frames_eq, Hc in Heq; rewrite Return_walk_eq, Hc.
  - destruct pre as [|y pre]; simpl in Heq.
    + injection Heq as -> _. rewrite Ho. simpl. f_equal. f_equal. lia.
    + injection Heq as _ Heq. destruct pre; discriminate Heq.
  - destruct pre as [|y pre]; simpl in Heq.
    + injection Heq as -> _. rewrite Ho. simpl. f_equal. f_equal. lia.
    + injection Heq as Hhd Heq. subst y.
      rewrite (Hpre c) by (left; reflexivity).
      rewrite (IH (upn + UpCost c) pre o post cinfo Heq); auto.
      * simpl. f_equal. f_equal. lia.
      * intros z Hz. apply Hpre. right. exact Hz.
Qed.

Lemma Return_walk_none (c : Comp) :
  forall upn,
    (forall x, In x (all_frames c) -> Func x = None) ->
    Return_walk upn c = None.
Proof.
  induction c as [c Hc | c o' Hc IH] using Comp_chain_ind;
    intros upn H; rewrite Return_walk_eq, Hc;
    rewrite all_frames_eq, Hc in H;
    rewrite (H c) by (left; reflexivity).
  - reflexivity.
  - apply IH. intros z Hz. apply H. right. exact Hz.
Qed.

(** The four closures of [jumpOut] leave [upn] environments. *)
Lemma exec_jumpOut {Ex : ExtExec} (upn : nat) (ip : cell) (env : Env)
    (m : Machine) :
  exec (jumpOut upn ip) env m =
  obind (up upn env) (fun env' => jump_to (load ip (M_cells m)) env' m).
Proof.
  destruct upn as [|[|[|k]]]; simpl; try reflexivity.
  - destruct (Outer env); reflexivity.
  - destruct (Outer env) as [e1|]; simpl; [|reflexivity].
    destruct (Outer e1); reflexivity.
  - destruct (Outer env) as [e1|]; simpl; [|reflexivity].
    destruct (Outer e1) as [e2|]; simpl; [|reflexivity].
    destruct (Outer e2) as [e3|]; simpl; reflexivity.
Qed.

End Walk.

(* ------------------------------------------------------------------ *)
(** * Facts on the instructions of defer, go and return *)

Section RuntimeFacts.
Context {Sx : Syntax} {Hx : Host}.

Lemma obind_Some {A B : Type} (o : option A) (k : A -> option B) (b : B) :
  obind o k = Some b -> exists a, o = Some a /\ k a = Some b.
Proof.
  destruct o as [a|]; simpl; intros H.
  - exists a. split; [reflexivity | exact H].
  - discriminate H.
Qed.

Lemma nth_error_update_same {A : Type} (l : list A) (i : nat) (x y : A) :
  nth_error l i = Some x -> nth_error (update i y l) i = Some y.
Proof.
  revert i. induction l as [|a l IH]; intros [|i]; simpl; intros H;
    try discriminate H; auto.
Qed.

Lemma length_update {A : Type} (l : list A) (i : nat) (y : A) :
  length (update i y l) = length l.
Proof.
  revert i. induction l as [|a l IH]; intros [|i]; simpl; auto.
Qed.

Lemma Forall2_right_In {A B : Type} (R : A -> B -> Prop) (l : list A)
    (l' : list B) (y : B) :
  Forall2 R l l' -> In y l' -> exists x, R x y.
Proof.
  induction 1 as [|a b l l' Hab Hall IH]; intros Hin.
  - destruct Hin.
  - destruct Hin as [<- | Hin]; [exists a; exact Hab | apply IH; exact Hin].
Qed.

(** The copy that the closure of [Defer] makes of a settable value. *)
Lemma copy_snapshot (v0 : Value) (s1 : Store) :
  snapshot (v0, s1) (if CanSet v0 then Convert s1 v0 else v0).
Proof.
  unfold snapshot. destruct v0 as [l|d]; simpl; split; reflexivity.
Qed.

Lemma Defer_args_spec (argfuns : list XFun) (env : Env) :
  forall s args s',
    Defer_args argfuns env s = Some (args, s') ->
    exists raw,
      eval_seq argfuns env s = Some (raw, s') /\ Forall2 snapshot raw args.
Proof.
  induction argfuns as [|argfun rest IH]; intros s args s' H; simpl in H.
  - injection H as <- <-. exists []. split; [reflexivity | constructor].
  - apply obind_Some in H. destruct H as [[v s1] [Hv H]].
    apply obind_Some in H. destruct H as [[args' s2] [Hrest H]].
    injection H as <- <-.
    destruct (IH _ _ _ Hrest) as [raw [Hraw Hall]].
    exists ((v, s1) :: raw). split.
    + simpl. rewrite Hv. simpl. rewrite Hraw. reflexivity.
    + constructor; [apply copy_snapshot | exact Hall].
Qed.

Lemma Go_args_spec (argfuns : list XFun) (env : Env) :
  forall s argv s',
    Go_args argfuns env s = Some (argv, s') ->
    exists raw,
      eval_seq argfuns env s = Some (raw, s') /\ argv = map fst raw.
Proof.
  induction argfuns as [|argfun rest IH]; intros s argv s' H; simpl in H.
  - injection H as <- <-. exists []. split; reflexivity.
  - apply obind_Some in H. destruct H as [[v s1] [Hv H]].
    apply obind_Some in H. destruct H as [[argv' s2] [Hrest H]].
    injection H as <- <-.
    destruct (IH _ _ _ Hrest) as [raw [Hraw Hmap]].
    exists ((v, s1) :: raw). split.
    + simpl. rewrite Hv. simpl. rewrite Hraw. reflexivity.
    + simpl. rewrite Hmap. reflexivity.
Qed.

Lemma snapshot_stable (v0s0 : Value * Store) (v : Value) :
  snapshot v0s0 v -> forall s1 s2, Value_get s1 v = Value_get s2 v.
Proof.
  intros [_ H] s1 s2. rewrite (H s1), (H s2). reflexivity.
Qed.

End RuntimeFacts.

(* ------------------------------------------------------------------ *)
(** * Growth of the instruction stream *)

Section Steps.
Context {Sx : Syntax} {Hx : Host}.

(** Induction on a statement, through the lists of statements it holds. *)
Lemma ast_Stmt_induction (P : ast_Stmt -> Prop) :
  P NilStmt ->
  (forall tok node, P (AssignStmt tok node)) ->
  (forall block, Forall P block -> P (BlockStmt block)) ->
  (forall tok label, P (BranchStmt tok label)) ->
  (forall d node, P (CaseClause d node)) ->
  (forall d node, P (CommClause d node)) ->
  (forall decl, P (DeclStmt decl)) ->
  (forall call, P (DeferStmt call)) ->
  P EmptyStmt ->
  (forall x, P (ExprStmt x)) ->
  (forall init cond post body,
      P init -> P post -> Forall P body -> P (ForStmt init cond post body)) ->
  (forall call, P (GoStmt call)) ->
  (forall init cond body else_,
      P init -> Forall P body -> P else_ -> P (IfStmt init cond body else_)) ->
  (forall x tok, P (IncDecStmt x tok)) ->
  (forall label s, P s -> P (LabeledStmt label s)) ->
  (forall node, P (RangeStmt node)) ->
  (forall results, P (ReturnStmt results)) ->
  (forall node, P (SelectStmt node)) ->
  (forall node, P (SendStmt node)) ->
  (forall node, P (SwitchStmt node)) ->
  (forall node, P (TypeSwitchStmt node)) ->
  P BadStmt ->
  forall s, P s.
Proof.
  intros HNil HAssign HBlock HBranch HCase HComm HDecl HDefer HEmpty HExpr
         HFor HGo HIf HIncDec HLabeled HRange HReturn HSelect HSend HSwitch
         HTypeSwitch HBad.
  fix IH 1.
  assert (IHl : forall l, Forall P l).
  { fix IHl 1. intros [|s l]; constructor; [apply IH | apply IHl]. }
  intros [ | tok node | block | tok label | d node | d node | decl | call
         | | x | init cond post body | call | init cond body else_ | x tok
         | label s | node | results | node | node | node | node | ].
  - exact HNil.
  - apply HAssign.
  - apply HBlock. apply IHl.
  - apply HBranch.
  - apply HCase.
  - apply HComm.
  - apply HDecl.
  - apply HDefer.
  - exact HEmpty.
  - apply HExpr.
  - apply HFor; [apply IH | apply IH | apply IHl].
  - apply HGo.
  - apply HIf; [apply IH | apply IHl | apply IH].
  - apply HIncDec.
  - apply HLabeled. apply IH.
  - apply HRange.
  - apply HReturn.
  - apply HSelect.
  - apply HSend.
  - apply HSwitch.
  - apply HTypeSwitch.
  - exact HBad.
Qed.

(** ** Steps inside one compilation *)

Lemma steps_refl (low : nat) (st : CState) : steps low [] st st.
Proof.
  constructor; auto. rewrite app_nil_r. reflexivity.
Qed.

Lemma steps_trans (low : nat) (a b : list Stmt) (s1 s2 s3 : CState) :
  steps low a s1 s2 -> steps low b s2 s3 -> steps low (a ++ b) s1 s3.
Proof.
  intros [c1 l1 n1 o1] [c2 l2 n2 o2]. constructor.
  - rewrite c2, c1, app_assoc. reflexivity.
  - congruence.
  - lia.
  - congruence.
Qed.

Lemma ext_by_steps (low : nat) (seg : list Stmt) (st st' : CState) :
  ext_by seg st st' -> low <= length (cells st) -> steps low seg st st'.
Proof.
  intros [c [h Hh] o] Hlow. constructor; auto.
  - rewrite Hh. rewrite firstn_app.
    replace (low - length (cells st)) with 0 by lia.
    rewrite firstn_O, app_nil_r. reflexivity.
  - rewrite Hh, length_app. lia.
Qed.

Lemma steps_ext_by (seg : list Stmt) (st st' : CState) :
  steps (length (cells st)) seg st st' -> ext_by seg st st'.
Proof.
  intros [c l n o]. constructor; auto.
  exists (skipn (length (cells st)) (cells st')).
  rewrite firstn_all in l. rewrite <- l at 1.
  symmetry. apply firstn_skipn.
Qed.

Lemma steps_Append (low : nat) (s : Stmt) (st : CState) :
  steps low [s] st (Comp_Append s st).
Proof. constructor; auto. Qed.

Lemma steps_write (low p v : nat) (st : CState) :
  low <= p -> steps low [] st (write p v st).
Proof.
  intros Hp. constructor; simpl; auto.
  - unfold code_of. simpl. rewrite app_nil_r. reflexivity.
  - remember (cells st) as h eqn:Hh. clear Hh.
    revert low p Hp. induction h as [|x r IH]; intros low p Hp.
    + simpl. reflexivity.
    + destruct p as [|p].
      * replace low with 0 by lia. reflexivity.
      * destruct low as [|low]; [reflexivity|].
        simpl. rewrite IH by lia. reflexivity.
  - rewrite length_store. lia.
Qed.

Lemma steps_alloc (low n : nat) (st : CState) :
  low <= length (cells st) -> steps low [] st (snd (alloc n st)).
Proof.
  intros Hlow. apply ext_by_steps; [|exact Hlow].
  constructor; simpl; auto.
  - unfold code_of. simpl. rewrite app_nil_r. reflexivity.
  - eexists. reflexivity.
Qed.

Lemma steps_set_Loop (low : nat) (l : option LoopInfo) (st : CState) :
  steps low [] st (with_comp (set_Loop l) st).
Proof.
  constructor; simpl; auto.
  unfold code_of. simpl. rewrite app_nil_r. reflexivity.
Qed.

Lemma steps_set_WithDefers (low : nat) (st : CState) :
  steps low [] st (set_WithDefers st).
Proof.
  constructor; simpl; auto.
  unfold code_of. simpl. rewrite app_nil_r. reflexivity.
Qed.

(** Dropping what was appended since [mark]. *)
Lemma steps_truncate (low : nat) (seg : list Stmt) (mark st st' : CState) :
  steps low seg mark st ->
  truncate (length (code_of mark)) st = Ok st' ->
  steps low [] mark st' /\ cells st' = cells st.
Proof.
  intros [c l n o] H. unfold truncate in H.
  destruct (Nat.leb _ _); [|discriminate H].
  injection H as <-. split; [|reflexivity].
  constructor; simpl; auto.
  unfold code_of in *. simpl. rewrite c.
  rewrite firstn_app, firstn_all, Nat.sub_diag, firstn_O, !app_nil_r.
  reflexivity.
Qed.

Lemma grows_steps (low : nat) (st st' : CState) :
  grows st st' -> low <= length (cells st) ->
  exists seg, balanced seg /\ steps low seg st st'.
Proof.
  intros [seg [Hb He]] Hlow. exists seg. split; [exact Hb|].
  apply ext_by_steps; assumption.
Qed.

Lemma grows_refl (st : CState) : grows st st.
Proof.
  exists []. split; [apply balanced_nil|].
  apply steps_ext_by. apply steps_refl.
Qed.

Lemma grows_trans (s1 s2 s3 : CState) :
  grows s1 s2 -> grows s2 s3 -> grows s1 s3.
Proof.
  intros [a [Ha Ea]] [b [Hb Eb]]. exists (a ++ b).
  split; [apply balanced_app; assumption|].
  apply steps_ext_by.
  apply steps_trans with (s2 := s2).
  - apply ext_by_steps; [exact Ea | lia].
  - apply ext_by_steps; [exact Eb|].
    destruct Ea as [_ [h Hh] _]. rewrite Hh, length_app. lia.
Qed.

Lemma grows_Append (s : Stmt) (st : CState) :
  is_push s = false -> is_pop s = false -> grows st (Comp_Append s st).
Proof.
  intros Hp Hq. exists [s]. split; [apply balanced_single; assumption|].
  apply steps_ext_by. apply steps_Append.
Qed.

End Steps.

(* ------------------------------------------------------------------ *)
(** * Patchable integers that are left alone *)

Section Keeps.

Lemma keeps_from_refl (lo : nat) (h : list nat) : keeps_from lo h h.
Proof. split; [lia | reflexivity]. Qed.

Lemma keeps_from_trans (lo : nat) (h1 h2 h3 : list nat) :
  keeps_from lo h1 h2 -> keeps_from lo h2 h3 -> keeps_from lo h1 h3.
Proof.
  intros [L1 K1] [L2 K2]. split; [lia|].
  intros c Hc. rewrite K2 by lia. apply K1. exact Hc.
Qed.

Lemma keeps_from_app (lo : nat) (h1 h2 x : list nat) :
  keeps_from lo h1 h2 -> keeps_from lo h1 (h2 ++ x).
Proof.
  intros [L K]. split; [rewrite length_app; lia|].
  intros c Hc. rewrite load_app_l by lia. apply K. exact Hc.
Qed.

(** A write below [lo], or to an integer allocated after [h1]. *)
Lemma keeps_from_store (lo p v : nat) (h1 h2 : list nat) :
  keeps_from lo h1 h2 -> p < lo \/ length h1 <= p ->
  keeps_from lo h1 (store p v h2).
Proof.
  intros [L K] Hp. split; [rewrite length_store; exact L|].
  intros c Hc. rewrite load_store_other by lia. apply K. exact Hc.
Qed.

Lemma keeps_from_weaken (lo lo' : nat) (h1 h2 : list nat) :
  lo <= lo' -> keeps_from lo h1 h2 -> keeps_from lo' h1 h2.
Proof.
  intros Hlo [L K]. split; [exact L|].
  intros c Hc. apply K. lia.
Qed.

Lemma keeps_from_length (lo : nat) (h1 h2 : list nat) :
  keeps_from lo h1 h2 -> length h1 <= length h2.
Proof. intros [L _]. exact L. Qed.

End Keeps.

(* ------------------------------------------------------------------ *)
(** * What the compilers of scopes emit *)

Section Shapes.
Context {Sx : Syntax} {Hx : Host} {Cx : Collaborators}.

Lemma set_Code_set_Code (a b : Code) (c : Comp) :
  set_Code a (set_Code b c) = set_Code a c.
Proof. reflexivity. Qed.

Lemma set_Code_same (c : Comp) : set_Code (Comp_Code c) c = c.
Proof. destruct c; reflexivity. Qed.

Lemma pushEnvIfFlag_facts (nb0 nb1 : cell) (flag : bool) (st : CState) :
  let st2 := fst (pushEnvIfFlag nb0 nb1 flag st) in
  code_of st2 = code_of st ++ (if flag then [pushEnv nb0 nb1] else []) /\
  cells st2 = cells st /\
  Comp_Outer (comp st2)
    = Some (set_Code (Comp_Code (comp st2)) (comp st)) /\
  UpCost (comp st2) = (if flag then 1 else 0) /\
  (flag = false -> comp st2 = block_frame (comp st)).
Proof.
  destruct flag; simpl; unfold code_of; simpl.
  - repeat split. intros H; discriminate H.
  - rewrite app_nil_r, set_Code_same. repeat split.
Qed.

Lemma pushEnvIfLocalBinds_Ok (nb0 nb1 : cell) (nodes : list ast_Stmt)
    (st st2 : CState) (locals : bool) :
  pushEnvIfLocalBinds nb0 nb1 nodes st = Ok (st2, locals) ->
  nodes <> [] /\
  locals = existsb stmt_declares nodes /\
  st2 = fst (pushEnvIfFlag nb0 nb1 locals st).
Proof.
  unfold pushEnvIfLocalBinds, containLocalBinds, pushEnvIfFlag.
  destruct nodes as [|node rest]; [discriminate|].
  cbn [bind]. intros H. injection H as <- <-.
  repeat split. discriminate.
Qed.

Lemma popEnvIfLocalBinds_Ok (locals : bool) (nb0 nb1 : cell)
    (nodes : list ast_Stmt) (st3 st' : CState) :
  popEnvIfLocalBinds locals nb0 nb1 nodes st3 = Ok st' ->
  exists c,
    Comp_Outer (comp st3) = Some c /\
    code_of st' = code_of st3 ++ (if locals then [popEnv] else []) /\
    cells st' = store nb1 (IntBindNum (comp st3))
                  (store nb0 (BindNum (comp st3)) (cells st3)) /\
    comp st' = set_Code (Comp_Code (comp st')) c /\
    locals = negb (Nat.eqb (BindNum (comp st3)) 0)
             || negb (Nat.eqb (IntBindNum (comp st3)) 0).
Proof.
  unfold popEnvIfLocalBinds.
  destruct nodes as [|node rest]; [discriminate|].
  destruct (Comp_Outer (comp st3)) as [c|]; [|discriminate].
  destruct (Bool.eqb locals _) eqn:Heq; simpl; [|discriminate].
  apply Bool.eqb_prop in Heq.
  intros H. injection H as <-. exists c.
  destruct locals; unfold code_of; simpl;
    rewrite ?app_nil_r; repeat split; exact Heq.
Qed.

(** The statements of a list, one after the other. *)
Lemma Stmts_grows (rec : ast_Stmt -> CState -> result CState)
    (nodes : list ast_Stmt) :
  Forall (fun s => grows_on (rec s)) nodes ->
  forall st st', Stmts rec nodes st = Ok st' -> grows st st'.
Proof.
  induction 1 as [|node rest Hnode Hrest IH]; intros st st' H; simpl in H.
  - injection H as <-. apply grows_refl.
  - apply bind_Ok in H. destruct H as [st1 [H1 H2]].
    apply grows_trans with (s2 := st1); [apply (Hnode _ _ H1) | apply (IH _ _ H2)].
Qed.

(** A scope: between the push and the pop that [locals] guards, the
    instructions [seg] compiled in the inner frame. *)
Lemma scope_ext_by (st sa st2 st3 st' : CState) (nb : cell)
    (nodes : list ast_Stmt) (locals : bool) (seg : list Stmt) :
  comp sa = comp st ->
  (exists h, cells sa = cells st ++ h) ->
  length (cells st) <= nb ->
  pushEnvIfLocalBinds nb (S nb) nodes sa = Ok (st2, locals) ->
  steps (length (cells st)) seg st2 st3 ->
  popEnvIfLocalBinds locals nb (S nb) nodes st3 = Ok st' ->
  ext_by ((if locals then [pushEnv nb (S nb)] else []) ++ seg
          ++ (if locals then [popEnv] else [])) st st' /\
  comp st' = set_Code (Comp_Code (comp st')) (comp st).
Proof.
  intros Hcomp [h Hh] Hnb Hpush Hsteps Hpop.
  apply pushEnvIfLocalBinds_Ok in Hpush. destruct Hpush as [_ [_ ->]].
  destruct (pushEnvIfFlag_facts nb (S nb) locals sa)
    as [Hc2 [Hh2 [Ho2 _]]].
  apply popEnvIfLocalBinds_Ok in Hpop.
  destruct Hpop as [c [Ho3 [Hc' [Hh' [Hcomp' _]]]]].
  destruct Hsteps as [Hc3 Hlow Hlen Ho].
  rewrite Ho, Ho2 in Ho3. injection Ho3 as <-.
  rewrite Hcomp in Hcomp'. rewrite set_Code_set_Code in Hcomp'.
  split; [|exact Hcomp'].
  apply steps_ext_by. constructor.
  - rewrite Hc', Hc3, Hc2. unfold code_of. rewrite Hcomp.
    rewrite <- !app_assoc. reflexivity.
  - rewrite Hh'.
    assert (Hw : forall p v l, length (cells st) <= p ->
              firstn (length (cells st)) (store p v l)
              = firstn (length (cells st)) l).
    { intros p v l Hp.
      pose (s := mkCState (comp st) l).
      apply (sp_low (steps_write (length (cells st)) p v s Hp)). }
    rewrite !Hw by lia. rewrite Hlow, Hh2, Hh.
    rewrite firstn_app, Nat.sub_diag, firstn_O, app_nil_r. reflexivity.
  - rewrite Hh', !length_store.
    rewrite Hh2, Hh, length_app in Hlen. lia.
  - rewrite Hcomp'. reflexivity.
Qed.

Lemma Comp_List_eq (rec : ast_Stmt -> CState -> result CState)
    (nodes : list ast_Stmt) (st : CState) :
  nodes <> [] ->
  Comp_List rec nodes st =
  let nb := length (cells st) in
  '(st2, locals) <-
     pushEnvIfLocalBinds nb (S nb) nodes (snd (alloc 2 st)) ;;
  st3 <- Stmts rec nodes st2 ;;
  popEnvIfLocalBinds locals nb (S nb) nodes st3.
Proof.
  intros Hne. destruct nodes; [congruence | reflexivity].
Qed.

(** [Comp.List]: the push and the pop of the list around its statements. *)
Lemma Comp_List_shape (rec : ast_Stmt -> CState -> result CState)
    (nodes : list ast_Stmt) (st st' : CState) :
  Forall (fun s => grows_on (rec s)) nodes ->
  Comp_List rec nodes st = Ok st' ->
  let nb := length (cells st) in
  let locals := existsb stmt_declares nodes in
  let st2 := fst (pushEnvIfFlag nb (S nb) locals (snd (alloc 2 st))) in
  exists seg st3,
    nodes <> [] /\
    balanced seg /\
    Stmts rec nodes st2 = Ok st3 /\
    code_of st3 = code_of st2 ++ seg /\
    popEnvIfLocalBinds locals nb (S nb) nodes st3 = Ok st' /\
    ext_by ((if locals then [pushEnv nb (S nb)] else []) ++ seg
            ++ (if locals then [popEnv] else [])) st st' /\
    comp st' = set_Code (Comp_Code (comp st')) (comp st).
Proof.
  intros Hrec H nb locals st2.
  assert (Hne : nodes <> []) by (intros ->; discriminate H).
  rewrite (Comp_List_eq rec nodes st Hne) in H. cbv zeta in H. fold nb in H.
  apply bind_Ok in H. destruct H as [[s2 loc] [Hpush H]].
  apply bind_Ok in H. destruct H as [st3 [Hstmts Hpop]].
  pose proof Hpush as Hpush'.
  apply pushEnvIfLocalBinds_Ok in Hpush'.
  destruct Hpush' as [_ [Hloc Hs2]].
  fold locals in Hloc. subst loc.
  assert (Hst2 : s2 = st2) by (rewrite Hs2; reflexivity).
  subst s2.
  destruct (pushEnvIfFlag_facts nb (S nb) locals (snd (alloc 2 st)))
    as [_ [Hh2 _]]. fold st2 in Hh2.
  pose proof (Stmts_grows rec nodes Hrec _ _ Hstmts) as Hg.
  destruct (grows_steps (length (cells st)) _ _ Hg) as [seg [Hbal Hsteps]].
  { change (length (cells st) <= length (cells st2)).
    rewrite Hh2. simpl. rewrite length_app. lia. }
  exists seg, st3.
  destruct (scope_ext_by st (mkCState (comp st) (cells st ++ repeat 0 2))
              st2 st3 st' nb nodes locals seg) as [Hext Hframe]; auto.
  - eexists. reflexivity.
  - split; [exact Hne|]. split; [exact Hbal|]. split; [exact Hstmts|].
    split; [apply (sp_code Hsteps)|]. split; [exact Hpop|].
    split; [exact Hext | exact Hframe].
Qed.

End Shapes.

(* ------------------------------------------------------------------ *)
(** * What [Comp.For] and [Comp.If] emit *)

Section ForIf.
Context {Sx : Syntax} {Hx : Host} {Cx : Collaborators}.

Lemma with_code_same (st : CState) : with_code (code_of st) st = st.
Proof.
  destruct st as [c h]. unfold with_code, with_comp, code_of. simpl.
  f_equal. destruct c as [? ? ? ? code ? ? ? ?]. destruct code. reflexivity.
Qed.

Lemma Append_with_code (i : Stmt) (code : list Stmt) (a b : CState) :
  b = with_code code a ->
  Comp_Append i b = with_code (code_of (Comp_Append i b)) a.
Proof. intros ->. reflexivity. Qed.

Lemma steps_nil_l (low : nat) (seg : list Stmt) (a b c : CState) :
  steps low [] a b -> steps low seg b c -> steps low seg a c.
Proof. intros H1 H2. apply (steps_trans low [] seg a b c H1 H2). Qed.

Lemma steps_nil_r (low : nat) (seg : list Stmt) (a b c : CState) :
  steps low seg a b -> steps low [] b c -> steps low seg a c.
Proof.
  intros H1 H2. rewrite <- (app_nil_r seg).
  apply (steps_trans low seg [] a b c H1 H2).
Qed.

Lemma ext_by_load (seg : list Stmt) (a b : CState) (p : cell) :
  ext_by seg a b -> p < length (cells a) ->
  load p (cells b) = load p (cells a).
Proof.
  intros [_ [h Hh] _] Hp. rewrite Hh. apply load_app_l. exact Hp.
Qed.

Lemma ext_by_length (seg : list Stmt) (a b : CState) :
  ext_by seg a b -> length (cells a) <= length (cells b).
Proof. intros [_ [h Hh] _]. rewrite Hh, length_app. lia. Qed.

Lemma Comp_Block_grows (rec : ast_Stmt -> CState -> result CState)
    (block : list ast_Stmt) :
  Forall (fun s => grows_on (rec s)) block ->
  grows_on (Comp_Block rec block).
Proof.
  intros Hrec st st' H. unfold Comp_Block in H.
  destruct block as [|node rest] eqn:Hblock.
  - injection H as <-. apply grows_refl.
  - rewrite <- Hblock in *.
    destruct (Comp_List_shape rec block st st' Hrec H)
      as [seg [st3 [_ [Hbal [_ [_ [_ [Hext _]]]]]]]].
    eexists. split; [|exact Hext].
    apply balanced_push_pop; [reflexivity | reflexivity | exact Hbal].
Qed.

(** An optional statement: the Init of a for or if statement. *)
Lemma optional_grows (rec : ast_Stmt -> CState -> result CState)
    (s : ast_Stmt) :
  grows_on (rec s) ->
  grows_on (fun st => if is_nil s then Ok st else rec s st).
Proof.
  intros Hrec st st' H. destruct (is_nil s).
  - injection H as <-. apply grows_refl.
  - apply (Hrec _ _ H).
Qed.

(** The condition of a for statement, when there is one, goes through
    [Comp.Expr] and [TryAsPred]. *)
Lemma For_pred_Some (cond : ast_Expr) (st : CState) (flag : bool)
    (fun_ : option PredFun) :
  For_pred (Some cond) st = Ok (flag, fun_) ->
  exists pred, Comp_Expr cond st = Ok pred /\
               Expr_TryAsPred pred = (flag, fun_, false).
Proof.
  intros H. unfold For_pred in H.
  apply bind_Ok in H. destruct H as [pred [Hpred H]].
  exists pred. split; [exact Hpred|].
  destruct (Expr_TryAsPred pred) as [[flag' fun'] err].
  destruct err; [discriminate H|]. injection H as <- <-. reflexivity.
Qed.

(** [Comp.For]: [seg_init] is what the init statement emits and [seg_loop]
    the range from the loop test to the jump back; the range is dropped when
    the condition is the constant false. *)
Lemma Comp_For_shape (rec : ast_Stmt -> CState -> result CState)
    (Init : ast_Stmt) (Cond : option ast_Expr) (Post : ast_Stmt)
    (Body : list ast_Stmt) (labels : list string) (st st' : CState) :
  grows_on (rec Init) ->
  grows_on (rec Post) ->
  Forall (fun s => grows_on (rec s)) Body ->
  Comp_For rec Init Cond Post Body labels st = Ok st' ->
  let low := length (cells st) in
  let locals := existsb stmt_declares [Init] in
  let st2 := fst (pushEnvIfFlag low (S low) locals (snd (alloc 2 st))) in
  exists st3 flag fun_ seg_init seg_body seg_post,
    (if is_nil Init then Ok st2 else rec Init st2) = Ok st3 /\
    code_of st3 = code_of st2 ++ seg_init /\
    balanced seg_init /\
    For_pred Cond st3 = Ok (flag, fun_) /\
    balanced seg_body /\
    balanced seg_post /\
    let jump := length (cells st3) in
    let test := match fun_ with
                | Some f => [forCond f (S (S jump))]
                | None => []
                end in
    (exists s7 s8 s9,
        Loop (comp s7) = Some (mkLoopInfo (Some (S jump)) (Some (S (S jump)))
                                          (sort_Strings labels)) /\
        code_of s7 = code_of st3 ++ test /\
        Comp_Block rec Body s7 = Ok s8 /\
        code_of s8 = code_of s7 ++ seg_body /\
        (is_nil Post = false ->
         containLocalBinds [Post] = Ok false /\
         rec Post (write (S jump) (Len s8) s8) = Ok s9) /\
        code_of s9 = code_of s8 ++ seg_post /\
        (is_nil Post = true -> seg_post = []) /\
        length (cells st2) = low + 2 /\
        low + 2 <= jump /\
        length (cells s7) = jump + 3 /\
        jump + 3 <= length (cells s8) /\
        keeps_from (low + 2) (cells st3) (cells st') /\
        keeps_from (jump + 3) (cells s8) (cells st') /\
        keeps_from (jump + 3) (cells s9) (cells st') /\
        load (S jump) (cells st')
        = (if is_nil Post then length (code_of st3) else Len s8) /\
        comp s7
        = set_Code (Comp_Code (comp s7))
            (set_Loop (Some (mkLoopInfo (Some (S jump)) (Some (S (S jump)))
                                        (sort_Strings labels)))
                      (comp st3)) /\
        s7 = with_code (code_of st3 ++ test)
               (write jump (length (code_of st3))
                  (with_comp
                     (set_Loop (Some (mkLoopInfo (Some (S jump))
                                                 (Some (S (S jump)))
                                                 (sort_Strings labels))))
                     (snd (alloc 3 st3))))) /\
    let seg_loop := test ++ seg_body ++ seg_post ++ [forJump jump] in
    let dropped := match fun_ with
                   | None => negb flag
                   | Some _ => false
                   end in
    let kept := if dropped then [] else seg_loop in
    ext_by ((if locals then [pushEnv low (S low)] else [])
            ++ (seg_init ++ kept)
            ++ (if locals then [popEnv] else [])) st st' /\
    load jump (cells st') = length (code_of st3) /\
    load (S (S jump)) (cells st') = length (code_of st3) + length kept /\
    comp st' = set_Code (Comp_Code (comp st')) (comp st).
Proof.
  intros HInit HPost HBody H low locals st2.
  unfold Comp_For in H. unfold alloc at 1 in H. cbv iota in H.
  fold low in H.
  apply bind_Ok in H. destruct H as [[s2 loc] [Hpush H]].
  apply bind_Ok in H. destruct H as [s3 [Hinit H]].
  apply bind_Ok in H. destruct H as [[flag fun_] [Hpred H]].
  unfold alloc in H. cbv iota zeta in H.
  apply bind_Ok in H. destruct H as [s8 [Hbody H]].
  apply bind_Ok in H. destruct H as [s9 [Hpost H]].
  apply bind_Ok in H. destruct H as [s11 [Htrunc Hpop]].
  (* the push *)
  pose proof Hpush as Hpush'.
  apply pushEnvIfLocalBinds_Ok in Hpush'.
  destruct Hpush' as [_ [Hloc Hs2]]. fold locals in Hloc. subst loc.
  assert (Hst2 : s2 = st2) by (rewrite Hs2; reflexivity). clear Hs2.
  subst s2.
  destruct (pushEnvIfFlag_facts low (S low) locals (snd (alloc 2 st)))
    as [_ [Hh2 _]]. fold st2 in Hh2.
  assert (Hlen2 : length (cells st2) = low + 2).
  { rewrite Hh2. simpl. rewrite length_app. reflexivity. }
  (* the init statement *)
  pose proof (optional_grows rec Init HInit _ _ Hinit) as Hg3.
  destruct Hg3 as [seg_init [Hbal_init Hext3]].
  pose proof (ext_by_length _ _ _ Hext3) as Hlen3.
  pose proof (ext_by_steps low _ _ _ Hext3 ltac:(lia)) as Hsteps3.
  (* the loop *)
  set (jump := length (cells s3)) in *.
  set (loop := Some (mkLoopInfo (Some (S jump)) (Some (S (S jump)))
                                (sort_Strings labels))) in *.
  set (s4 := mkCState (comp s3) (cells s3 ++ repeat 0 3)) in *.
  set (s5 := with_comp (set_Loop loop) s4) in *.
  set (s6 := write jump (Len s5) s5) in *.
  set (test := match fun_ with
               | Some f => [forCond f (S (S jump))]
               | None => []
               end).
  set (s7 := match fun_ with
             | Some f => Comp_Append (forCond f (S (S jump))) s6
             | None => s6
             end) in *.
  set (s10 := Comp_Append (forJump jump) s9) in *.
  assert (Hlen6 : length (cells s6) = jump + 3).
  { unfold s6, write. simpl. rewrite length_store, length_app. reflexivity. }
  assert (Hcode6 : code_of s6 = code_of s3) by reflexivity.
  assert (Hload6 : load jump (cells s6) = length (code_of s3)).
  { unfold s6, write. simpl. apply load_store_same.
    rewrite length_app. simpl. lia. }
  assert (Hsteps6 : steps low [] s3 s6).
  { apply steps_nil_l with (b := s4).
    - apply (steps_alloc low 3 s3). lia.
    - apply steps_nil_l with (b := s5).
      + apply steps_set_Loop.
      + apply steps_write. lia. }
  assert (Hsteps7 : steps low test s6 s7 /\ cells s7 = cells s6).
  { unfold s7, test. destruct fun_; split;
      try reflexivity; [apply steps_Append | apply steps_refl]. }
  destruct Hsteps7 as [Hsteps7 Hcells7].
  assert (Hlen7 : length (cells s7) = jump + 3)
    by (rewrite Hcells7; exact Hlen6).
  (* the body *)
  pose proof (Comp_Block_grows rec Body HBody _ _ Hbody) as Hg8.
  destruct Hg8 as [seg_body [Hbal_body Hext8]].
  pose proof (ext_by_length _ _ _ Hext8) as Hlen8.
  pose proof (ext_by_load _ _ _ jump Hext8 ltac:(lia)) as Hload8.
  pose proof (ext_by_steps low _ _ _ Hext8 ltac:(lia)) as Hsteps8.
  (* the post statement *)
  assert (Hpost' : exists seg_post,
             balanced seg_post /\ steps low seg_post s8 s9 /\
             load jump (cells s9) = load jump (cells s8) /\
             (is_nil Post = false ->
              containLocalBinds [Post] = Ok false /\
              rec Post (write (S jump) (Len s8) s8) = Ok s9) /\
             (is_nil Post = true -> seg_post = []) /\
             (forall lo h1,
                 keeps_from lo h1 (cells s8) ->
                 S jump < lo \/ length h1 <= S jump ->
                 keeps_from lo h1 (cells s9)) /\
             load (S jump) (cells s9)
             = (if is_nil Post then load jump (cells s8) else Len s8)).
  { destruct (is_nil Post).
    - injection Hpost as <-. exists []. split; [apply balanced_nil|].
      split; [apply steps_write; lia|].
      split; [|split; [discriminate|split; [reflexivity|split]]].
      + simpl. apply load_store_other. lia.
      + intros lo h1 HK Hp. simpl. apply keeps_from_store; assumption.
      + simpl. apply load_store_same. lia.
    - apply bind_Ok in Hpost. destruct Hpost as [declares [Hdecl Hpost]].
      destruct declares; [discriminate Hpost|].
      destruct (HPost _ _ Hpost) as [seg_post [Hbal_post Hext9]].
      exists seg_post. split; [exact Hbal_post|].
      split; [|split; [|split; [|split; [|split]]]].
      + apply steps_nil_l with (b := write (S jump) (Len s8) s8).
        * apply steps_write. lia.
        * apply ext_by_steps; [exact Hext9|].
          simpl. rewrite length_store. lia.
      + rewrite (ext_by_load _ _ _ jump Hext9).
        * simpl. apply load_store_other. lia.
        * simpl. rewrite length_store. lia.
      + intros _. split; [exact Hdecl | exact Hpost].
      + intros Hf. discriminate Hf.
      + intros lo h1 HK Hp. destruct (eb_cells Hext9) as [x Hx9].
        rewrite Hx9. simpl. apply keeps_from_app.
        apply keeps_from_store; assumption.
      + rewrite (ext_by_load _ _ _ (S jump) Hext9).
        * simpl. apply load_store_same. lia.
        * simpl. rewrite length_store. lia. }
  destruct Hpost'
    as [seg_post [Hbal_post [Hsteps9 [Hload9 [Hpost9 [Hnil9 [HK9 HP9]]]]]]].
  set (seg_loop := test ++ seg_body ++ seg_post ++ [forJump jump]).
  assert (Hsteps10 : steps low seg_loop s6 s10).
  { unfold seg_loop.
    apply steps_trans with (s2 := s7); [exact Hsteps7|].
    apply steps_trans with (s2 := s8); [exact Hsteps8|].
    apply steps_trans with (s2 := s9); [exact Hsteps9|].
    apply steps_Append. }
  assert (Hload10 : load jump (cells s10) = length (code_of s6)).
  { change (cells s10) with (cells s9).
    rewrite Hload9, Hload8, Hcells7, Hload6, Hcode6. reflexivity. }
  (* the range is dropped when the condition is the constant false *)
  set (dropped := match fun_ with
                  | None => negb flag
                  | Some _ => false
                  end).
  set (kept := if dropped then [] else seg_loop).
  assert (Hsteps11 : steps low kept s6 s11 /\ cells s11 = cells s10).
  { unfold kept, dropped.
    destruct fun_;
      [injection Htrunc as <-; split; [exact Hsteps10 | reflexivity]|].
    destruct (negb flag);
      [|injection Htrunc as <-; split; [exact Hsteps10 | reflexivity]].
    rewrite Hload10 in Htrunc.
    apply (steps_truncate low seg_loop _ _ _ Hsteps10 Htrunc). }
  destruct Hsteps11 as [Hsteps11 Hcells11].
  set (s12 := write (S (S jump)) (Len s11) s11) in *.
  assert (Hlen10 : jump + 3 <= length (cells s10)).
  { pose proof (sp_len Hsteps10). lia. }
  assert (Hsteps12 : steps low (seg_init ++ kept) st2 s12).
  { apply steps_trans with (s2 := s3); [exact Hsteps3|].
    apply steps_nil_l with (b := s6); [exact Hsteps6|].
    apply steps_nil_r with (b := s11); [exact Hsteps11|].
    apply steps_write. lia. }
  destruct (scope_ext_by st (snd (alloc 2 st)) st2 s12 st' low [Init]
              locals (seg_init ++ kept)) as [Hext Hframe]; auto.
  { simpl. eexists. reflexivity. }
  (* the patchable integers at the end *)
  apply popEnvIfLocalBinds_Ok in Hpop.
  destruct Hpop as [c [_ [_ [Hcells' _]]]].
  assert (Hload12 : forall p, low + 2 <= p ->
             load p (cells st') = load p (cells s12)).
  { intros p Hp. rewrite Hcells'.
    rewrite !load_store_other by lia. reflexivity. }
  (* the patchable integers of the parts are left alone afterwards *)
  assert (Hfin : forall lo h1,
             keeps_from lo h1 (cells s9) -> low + 2 <= lo ->
             S (S jump) < lo \/ length h1 <= S (S jump) ->
             keeps_from lo h1 (cells st')).
  { intros lo h1 HK Hlo Hp. rewrite Hcells'.
    apply keeps_from_store; [|lia]. apply keeps_from_store; [|lia].
    unfold s12. simpl. apply keeps_from_store; [|exact Hp].
    rewrite Hcells11. exact HK. }
  assert (HK3 : keeps_from (low + 2) (cells s3) (cells st')).
  { apply Hfin; [|lia|right; fold jump; lia].
    apply HK9; [|right; fold jump; lia].
    destruct (eb_cells Hext8) as [x Hx8]. rewrite Hx8, Hcells7.
    apply keeps_from_app. unfold s6, write. simpl.
    apply keeps_from_store; [|right; fold jump; lia].
    apply keeps_from_app. apply keeps_from_refl. }
  assert (HK8 : keeps_from (jump + 3) (cells s8) (cells st')).
  { apply Hfin; [|lia|left; lia].
    apply HK9; [apply keeps_from_refl | left; lia]. }
  assert (HK9' : keeps_from (jump + 3) (cells s9) (cells st')).
  { apply Hfin; [apply keeps_from_refl | lia | left; lia]. }
  exists s3, flag, fun_, seg_init, seg_body, seg_post.
  split; [exact Hinit|]. split; [apply (eb_code Hext3)|].
  split; [exact Hbal_init|]. split; [exact Hpred|].
  split; [exact Hbal_body|]. split; [exact Hbal_post|].
  cbv zeta. fold jump. fold test. fold seg_loop. fold dropped. fold kept.
  split.
  { exists s7, s8, s9.
    split; [unfold s7; destruct fun_; reflexivity|].
    split; [rewrite (sp_code Hsteps7), Hcode6; reflexivity|].
    split; [exact Hbody|]. split; [apply (eb_code Hext8)|].
    split; [exact Hpost9|]. split; [apply (sp_code Hsteps9)|].
    split; [exact Hnil9|]. split; [exact Hlen2|]. split; [lia|]. split; [exact Hlen7|].
    split; [lia|]. split; [exact HK3|]. split; [exact HK8|].
    split; [exact HK9'|]. split.
    { rewrite Hload12 by lia. unfold s12. simpl.
      rewrite load_store_other by lia.
      rewrite Hcells11. change (cells s10) with (cells s9). rewrite HP9.
      destruct (is_nil Post); [|reflexivity].
      rewrite Hload8, Hcells7, Hload6. reflexivity. }
    split.
    { unfold s7. destruct fun_; [reflexivity|].
      symmetry. apply set_Code_same. }
    unfold s7, test. destruct fun_; [reflexivity|].
    rewrite app_nil_r. change (code_of s3) with (code_of s6) at 1.
    symmetry. apply with_code_same. }
  split; [exact Hext|]. split; [|split; [|exact Hframe]].
  - rewrite Hload12 by lia. unfold s12. simpl.
    rewrite load_store_other by lia.
    rewrite Hcells11, Hload10, Hcode6. reflexivity.
  - rewrite Hload12 by lia. unfold s12. simpl.
    rewrite load_store_same by (rewrite Hcells11; lia).
    unfold Len, Code_Len. fold (code_of s11).
    rewrite (sp_code Hsteps11), length_app, Hcode6. reflexivity.
Qed.

Lemma If_else_grows (rec : ast_Stmt -> CState -> result CState)
    (Else : ast_Stmt) :
  grows_on (rec Else) -> grows_on (If_else rec Else).
Proof.
  intros Hrec.
  assert (Hblock : grows_on (Comp_Block rec [Else])).
  { apply Comp_Block_grows. constructor; [exact Hrec | constructor]. }
  destruct Else; simpl; solve [exact Hrec | exact Hblock].
Qed.

(** [Comp.If]: [seg_init] is what the init statement emits, [seg_then] and
    [seg_else] what the two branches emit; the branch that a constant
    condition excludes is dropped. *)
Lemma Comp_If_shape (rec : ast_Stmt -> CState -> result CState)
    (Init : ast_Stmt) (Cond : ast_Expr) (Body : list ast_Stmt)
    (Else : ast_Stmt) (st st' : CState) :
  grows_on (rec Init) ->
  Forall (fun s => grows_on (rec s)) Body ->
  grows_on (rec Else) ->
  Comp_If rec Init Cond Body Else st = Ok st' ->
  let low := length (cells st) in
  let locals := existsb stmt_declares [Init] in
  let st2 := fst (pushEnvIfFlag (low + 3) (S (low + 3)) locals
                    (snd (alloc 2 (snd (alloc 3 st))))) in
  exists st3 pred flag fun_ seg_init seg_then seg_else,
    (if is_nil Init then Ok st2 else rec Init st2) = Ok st3 /\
    code_of st3 = code_of st2 ++ seg_init /\
    balanced seg_init /\
    Comp_Expr Cond st3 = Ok pred /\
    Expr_TryAsPred pred = (flag, fun_, false) /\
    balanced seg_then /\
    balanced seg_else /\
    let test := match fun_ with
                | Some f => [ifCond f low (S low)]
                | None => []
                end in
    let skip := match fun_ with
                | Some _ => if negb (is_nil Else)
                            then [ifJumpEnd (S (S low))] else []
                | None => []
                end in
    let kept_then := match fun_ with
                     | None => if negb flag then [] else seg_then
                     | Some _ => seg_then
                     end in
    let kept_else := match fun_ with
                     | None => if flag then [] else seg_else
                     | Some _ => seg_else
                     end in
    (exists s5 s6 s9,
        code_of s5 = code_of st3 ++ test /\
        Comp_Block rec Body s5 = Ok s6 /\
        code_of s6 = code_of s5 ++ seg_then /\
        code_of s9 = code_of st3 ++ test ++ kept_then ++ skip /\
        (is_nil Else = true -> seg_else = []) /\
        (is_nil Else = false ->
         exists s10, If_else rec Else s9 = Ok s10 /\
                     code_of s10 = code_of s9 ++ seg_else /\
                     keeps_from (low + 5) (cells s10) (cells st')) /\
        length (cells st2) = low + 5 /\
        length (cells s5) = length (cells st3) /\
        length (cells s9) = length (cells s6) /\
        keeps_from (low + 5) (cells st3) (cells st') /\
        keeps_from (low + 5) (cells s6) (cells st') /\
        comp s5 = set_Code (Comp_Code (comp s5)) (comp st3) /\
        comp s9 = set_Code (Comp_Code (comp s9)) (comp s6) /\
        s5 = write low (length (code_of st3 ++ test))
               (with_code (code_of st3 ++ test) st3) /\
        s9 = write (S low) (length (code_of st3 ++ test ++ kept_then ++ skip))
               (with_code (code_of st3 ++ test ++ kept_then ++ skip) s6)) /\
    ext_by ((if locals then [pushEnv (low + 3) (S (low + 3))] else [])
            ++ (seg_init ++ test ++ kept_then ++ skip ++ kept_else)
            ++ (if locals then [popEnv] else [])) st st' /\
    load low (cells st') = length (code_of st3 ++ test) /\
    load (S low) (cells st')
      = length (code_of st3 ++ test ++ kept_then ++ skip) /\
    load (S (S low)) (cells st')
      = length (code_of st3 ++ test ++ kept_then ++ skip ++ kept_else) /\
    comp st' = set_Code (Comp_Code (comp st')) (comp st).
Proof.
  intros HInit HBody HElse H low locals st2.
  unfold Comp_If in H. unfold alloc in H. cbv iota zeta in H.
  cbn [cells comp] in H. fold low in H.
  assert (Hnb : length (cells st ++ repeat 0 3) = low + 3)
    by (rewrite length_app; reflexivity).
  rewrite Hnb in H.
  apply bind_Ok in H. destruct H as [[s2 loc] [Hpush H]].
  apply bind_Ok in H. destruct H as [s3 [Hinit H]].
  apply bind_Ok in H. destruct H as [pred [Hpred H]].
  destruct (Expr_TryAsPred pred) as [[flag fun_] err] eqn:Htry.
  destruct err; [discriminate H|].
  apply bind_Ok in H. destruct H as [s6 [Hbody H]].
  apply bind_Ok in H. destruct H as [s7 [Htrunc H]].
  apply bind_Ok in H. destruct H as [s11 [Helse Hpop]].
  (* the push *)
  pose proof Hpush as Hpush'.
  apply pushEnvIfLocalBinds_Ok in Hpush'.
  destruct Hpush' as [_ [Hloc Hs2]]. fold locals in Hloc. subst loc.
  assert (Hst2 : s2 = st2).
  { rewrite Hs2. reflexivity. }
  clear Hs2. subst s2.
  assert (Hlen2 : length (cells st2) = low + 5).
  { unfold st2.
    destruct (pushEnvIfFlag_facts (low + 3) (S (low + 3)) locals
                (snd (alloc 2 (snd (alloc 3 st))))) as [_ [Hh2 _]].
    rewrite Hh2. simpl. rewrite !length_app. simpl. fold low. lia. }
  (* the init statement *)
  pose proof (optional_grows rec Init HInit _ _ Hinit) as Hg3.
  destruct Hg3 as [seg_init [Hbal_init Hext3]].
  pose proof (ext_by_length _ _ _ Hext3) as Hlen3.
  pose proof (ext_by_steps low _ _ _ Hext3 ltac:(lia)) as Hsteps3.
  (* the test and the then branch *)
  set (test := match fun_ with
               | Some f => [ifCond f low (S low)]
               | None => []
               end).
  set (s4 := match fun_ with
             | Some f => Comp_Append (ifCond f low (S low)) s3
             | None => s3
             end) in *.
  set (s5 := write low (Len s4) s4) in *.
  assert (Hsteps4 : steps low test s3 s4 /\ cells s4 = cells s3).
  { unfold s4, test. destruct fun_; split;
      try reflexivity; [apply steps_Append | apply steps_refl]. }
  destruct Hsteps4 as [Hsteps4 Hcells4].
  assert (Hlen5 : length (cells s5) = length (cells s3)).
  { unfold s5. simpl. rewrite length_store, Hcells4. reflexivity. }
  assert (Hcode5 : code_of s5 = code_of s4) by reflexivity.
  assert (Hload5 : load low (cells s5) = length (code_of s5)).
  { unfold s5. simpl. apply load_store_same. rewrite Hcells4. lia. }
  assert (Hsteps5 : steps low test s3 s5).
  { apply steps_nil_r with (b := s4); [exact Hsteps4|].
    apply steps_write. lia. }
  pose proof (Comp_Block_grows rec Body HBody _ _ Hbody) as Hg6.
  destruct Hg6 as [seg_then [Hbal_then Hext6]].
  pose proof (ext_by_length _ _ _ Hext6) as Hlen6.
  pose proof (ext_by_load _ _ _ low Hext6 ltac:(lia)) as Hload6.
  pose proof (ext_by_steps low _ _ _ Hext6 ltac:(lia)) as Hsteps6.
  set (kept_then := match fun_ with
                    | None => if negb flag then [] else seg_then
                    | Some _ => seg_then
                    end).
  assert (Hsteps7 : steps low kept_then s5 s7 /\ cells s7 = cells s6).
  { unfold kept_then.
    destruct fun_;
      [injection Htrunc as <-; split; [exact Hsteps6|reflexivity]|].
    destruct (negb flag);
      [|injection Htrunc as <-; split; [exact Hsteps6|reflexivity]].
    rewrite Hload6, Hload5 in Htrunc.
    apply (steps_truncate low seg_then _ _ _ Hsteps6 Htrunc). }
  destruct Hsteps7 as [Hsteps7 Hcells7].
  (* the jump over the else branch *)
  set (skip := match fun_ with
               | Some _ => if negb (is_nil Else)
                           then [ifJumpEnd (S (S low))] else []
               | None => []
               end).
  set (s8 := match fun_ with
             | Some _ => if negb (is_nil Else)
                         then Comp_Append (ifJumpEnd (S (S low))) s7
                         else s7
             | None => s7
             end) in *.
  set (s9 := write (S low) (Len s8) s8) in *.
  assert (Hsteps8 : steps low skip s7 s8 /\ cells s8 = cells s7).
  { unfold s8, skip. destruct fun_; [|split; [apply steps_refl|reflexivity]].
    destruct (negb (is_nil Else)); split;
      try reflexivity; [apply steps_Append | apply steps_refl]. }
  destruct Hsteps8 as [Hsteps8 Hcells8].
  assert (Hlen9 : length (cells s9) = length (cells s6)).
  { unfold s9. simpl. rewrite length_store, Hcells8, Hcells7. reflexivity. }
  assert (Hcode9 : code_of s9 = code_of s8) by reflexivity.
  assert (Hload9 : load (S low) (cells s9) = length (code_of s9)).
  { unfold s9. simpl. apply load_store_same.
    rewrite Hcells8, Hcells7. lia. }
  assert (Hload9' : load low (cells s9) = length (code_of s5)).
  { unfold s9. simpl. rewrite load_store_other by lia.
    rewrite Hcells8, Hcells7, Hload6, Hload5. reflexivity. }
  assert (Hsteps9 : steps low (test ++ kept_then ++ skip) s3 s9).
  { apply steps_trans with (s2 := s5); [exact Hsteps5|].
    apply steps_trans with (s2 := s7); [exact Hsteps7|].
    apply steps_nil_r with (b := s8); [exact Hsteps8|].
    apply steps_write. lia. }
  (* the else branch *)
  assert (Helse' : exists seg_else,
             balanced seg_else /\
             steps low (match fun_ with
                        | None => if flag then [] else seg_else
                        | Some _ => seg_else
                        end) s9 s11 /\
             load low (cells s11) = load low (cells s9) /\
             load (S low) (cells s11) = load (S low) (cells s9) /\
             (is_nil Else = true -> seg_else = []) /\
             (is_nil Else = false ->
              exists s10, If_else rec Else s9 = Ok s10 /\
                          code_of s10 = code_of s9 ++ seg_else /\
                          cells s11 = cells s10) /\
             (forall lo h1, keeps_from lo h1 (cells s9) ->
                            keeps_from lo h1 (cells s11))).
  { destruct (is_nil Else).
    - injection Helse as <-. exists [].
      split; [apply balanced_nil|]. split.
      + destruct fun_; [|destruct flag]; apply steps_refl.
      + split; [reflexivity|]. split; [reflexivity|].
        split; [reflexivity|]. split; [intros Hf; discriminate Hf|].
        intros lo h1 HK. exact HK.
    - apply bind_Ok in Helse. destruct Helse as [s10 [Hs10 Hs11]].
      destruct (If_else_grows rec Else HElse _ _ Hs10)
        as [seg_else [Hbal_else Hext10]].
      pose proof (ext_by_load _ _ _ low Hext10 ltac:(lia)) as Hl0.
      pose proof (ext_by_load _ _ _ (S low) Hext10 ltac:(lia)) as Hl1.
      pose proof (ext_by_steps low _ _ _ Hext10 ltac:(lia)) as Hsteps10.
      assert (H11 : steps low (match fun_ with
                               | None => if flag then [] else seg_else
                               | Some _ => seg_else
                               end) s9 s11 /\ cells s11 = cells s10).
      { destruct fun_;
          [injection Hs11 as <-; split; [exact Hsteps10|reflexivity]|].
        destruct flag;
          [|injection Hs11 as <-; split; [exact Hsteps10|reflexivity]].
        rewrite Hl1, Hload9 in Hs11.
        apply (steps_truncate low seg_else _ _ _ Hsteps10 Hs11). }
      destruct H11 as [H11 Hcells11].
      exists seg_else. split; [exact Hbal_else|]. split; [exact H11|].
      rewrite Hcells11. split; [exact Hl0|]. split; [exact Hl1|].
      split; [intros Hf; discriminate Hf|]. split.
      + intros _. exists s10. split; [exact Hs10|].
        split; [apply (eb_code Hext10) | reflexivity].
      + intros lo h1 HK.
        destruct (eb_cells Hext10) as [x Hx10]. rewrite Hx10.
        apply keeps_from_app. exact HK. }
  destruct Helse'
    as [seg_else [Hbal_else [Hsteps11 [Hl0 [Hl1 [Hnil [Hcomp HK11]]]]]]].
  set (kept_else := match fun_ with
                    | None => if flag then [] else seg_else
                    | Some _ => seg_else
                    end) in *.
  set (s12 := write (S (S low)) (Len s11) s11) in *.
  assert (Hlen11 : low + 5 <= length (cells s11)).
  { pose proof (sp_len Hsteps11). lia. }
  assert (Hsteps12 :
            steps low (seg_init ++ test ++ kept_then ++ skip ++ kept_else)
                  st2 s12).
  { apply steps_trans with (s2 := s3); [exact Hsteps3|].
    replace (test ++ kept_then ++ skip ++ kept_else)
      with ((test ++ kept_then ++ skip) ++ kept_else)
      by (rewrite <- !app_assoc; reflexivity).
    apply steps_trans with (s2 := s9); [exact Hsteps9|].
    apply steps_nil_r with (b := s11); [exact Hsteps11|].
    apply steps_write. lia. }
  destruct (scope_ext_by st (snd (alloc 2 (snd (alloc 3 st)))) st2 s12 st'
              (low + 3) [Init] locals
              (seg_init ++ test ++ kept_then ++ skip ++ kept_else))
    as [Hext Hframe]; auto.
  { simpl. rewrite <- app_assoc. eexists. reflexivity. }
  { fold low. lia. }
  (* the patchable integers at the end *)
  apply popEnvIfLocalBinds_Ok in Hpop.
  destruct Hpop as [c [_ [_ [Hcells' _]]]].
  assert (Hload12 : forall p, p < low + 3 ->
             load p (cells st') = load p (cells s12)).
  { intros p Hp. rewrite Hcells'.
    rewrite !load_store_other by lia. reflexivity. }
  assert (Hc5 : code_of s5 = code_of s3 ++ test)
    by apply (sp_code Hsteps5).
  assert (Hc9 : code_of s9 = code_of s3 ++ test ++ kept_then ++ skip)
    by apply (sp_code Hsteps9).
  (* the patchable integers of the parts are left alone afterwards *)
  assert (Hfin : forall h1,
             keeps_from (low + 5) h1 (cells s11) ->
             keeps_from (low + 5) h1 (cells st')).
  { intros h1 HK. rewrite Hcells'.
    apply keeps_from_store; [|lia]. apply keeps_from_store; [|lia].
    unfold s12. simpl. apply keeps_from_store; [exact HK | lia]. }
  assert (HK6 : keeps_from (low + 5) (cells s6) (cells st')).
  { apply Hfin. apply HK11. unfold s9. simpl.
    apply keeps_from_store; [|lia].
    rewrite Hcells8, Hcells7. apply keeps_from_refl. }
  assert (HK3 : keeps_from (low + 5) (cells s3) (cells st')).
  { apply keeps_from_trans with (h2 := cells s6); [|exact HK6].
    destruct (eb_cells Hext6) as [x Hx6]. rewrite Hx6.
    apply keeps_from_app. unfold s5. simpl.
    apply keeps_from_store; [|lia].
    rewrite Hcells4. apply keeps_from_refl. }
  exists s3, pred, flag, fun_, seg_init, seg_then, seg_else.
  split; [exact Hinit|]. split; [apply (eb_code Hext3)|].
  split; [exact Hbal_init|]. split; [exact Hpred|]. split; [exact Htry|].
  split; [exact Hbal_then|]. split; [exact Hbal_else|].
  cbv zeta. fold test. fold skip. fold kept_then. fold kept_else.
  split.
  { exists s5, s6, s9.
    split; [exact Hc5|]. split; [exact Hbody|].
    split; [apply (eb_code Hext6)|]. split; [exact Hc9|].
    split; [exact Hnil|]. split.
    { intros Hf. destruct (Hcomp Hf) as [s10 [Hs10 [Hc10 Hcells10]]].
      exists s10. split; [exact Hs10|]. split; [exact Hc10|].
      apply Hfin. rewrite Hcells10. apply keeps_from_refl. }
    split; [exact Hlen2|]. split; [exact Hlen5|]. split; [exact Hlen9|].
    split; [exact HK3|]. split; [exact HK6|]. split.
    { unfold s5, s4. destruct fun_; [reflexivity|].
      symmetry. apply set_Code_same. }
    assert (H7 : comp s7 = set_Code (Comp_Code (comp s7)) (comp s6)).
    { destruct fun_;
        [injection Htrunc as <-; symmetry; apply set_Code_same|].
      destruct (negb flag);
        [|injection Htrunc as <-; symmetry; apply set_Code_same].
      unfold truncate in Htrunc.
      destruct (Nat.leb _ _); [|discriminate Htrunc].
      injection Htrunc as <-. reflexivity. }
    split.
    { unfold s9, s8.
      destruct fun_; [destruct (negb (is_nil Else))|];
        cbn [comp write Comp_Append with_comp]; rewrite H7; reflexivity. }
    split.
    { unfold s5, s4, test. destruct fun_; [reflexivity|].
      rewrite app_nil_r, with_code_same. reflexivity. }
    assert (W7 : s7 = with_code (code_of s7) s6).
    { destruct fun_;
        [injection Htrunc as <-; symmetry; apply with_code_same|].
      destruct (negb flag);
        [|injection Htrunc as <-; symmetry; apply with_code_same].
      unfold truncate in Htrunc.
      destruct (Nat.leb _ _); [|discriminate Htrunc].
      injection Htrunc as <-. reflexivity. }
    assert (W8 : s8 = with_code (code_of s8) s6).
    { unfold s8. destruct fun_; [destruct (negb (is_nil Else))|];
        try exact W7.
      apply (Append_with_code _ _ _ _ W7). }
    rewrite <- Hc9. change (code_of s9) with (code_of s8).
    rewrite <- W8. reflexivity. }
  split; [exact Hext|].
  split; [|split; [|split; [|exact Hframe]]].
  - rewrite Hload12 by lia. unfold s12. simpl.
    rewrite load_store_other by lia.
    rewrite Hl0, Hload9', Hc5. reflexivity.
  - rewrite Hload12 by lia. unfold s12. simpl.
    rewrite load_store_other by lia.
    rewrite Hl1, Hload9, Hc9. reflexivity.
  - rewrite Hload12 by lia. unfold s12. simpl.
    rewrite load_store_same by lia.
    unfold Len, Code_Len. fold (code_of s11).
    rewrite (sp_code Hsteps11), Hc9. rewrite <- !app_assoc. reflexivity.
Qed.

End ForIf.

(* ------------------------------------------------------------------ *)
(** * Every statement compiler is well-behaved *)

Section Grows.
Context {Sx : Syntax} {Hx : Host} {Cx : Collaborators}
        {Dx : Disciplined Cx}.

Lemma Return_SetVars_grows (upn : nat) (binds : list Bind) :
  forall exprs, grows_on (Return_SetVars upn binds exprs).
Proof.
  induction binds as [|b rest IH]; intros exprs st st' H; simpl in H.
  - injection H as <-. apply grows_refl.
  - destruct exprs as [|e es]; [discriminate H|].
    apply bind_Ok in H. destruct H as [s1 [H1 H2]].
    apply grows_trans with (s2 := s1).
    + eapply SetVar_grows; exact H1.
    + apply (IH _ _ _ H2).
Qed.

Lemma Comp_Return_grows (results : list ast_Expr) :
  grows_on (Comp_Return results).
Proof.
  intros st st' H. unfold Comp_Return in H.
  destruct (Return_walk 0 (comp st)) as [[cinfo upn]|]; [|discriminate H].
  assert (Hassign : forall n,
            (exprs <- Comp_Exprs results st ;;
             st1 <- Return_SetVars upn (firstn n (Results cinfo)) exprs st ;;
             Ok (Comp_Append stmtReturn st1)) = Ok st' ->
            grows st st').
  { intros n Hn.
    apply bind_Ok in Hn. destruct Hn as [exprs [_ Hn]].
    apply bind_Ok in Hn. destruct Hn as [s1 [H1 Hn]].
    injection Hn as <-.
    apply grows_trans with (s2 := s1).
    - apply (Return_SetVars_grows _ _ _ _ _ H1).
    - apply grows_Append; reflexivity. }
  cbv zeta in H.
  destruct (Nat.eqb (length results) (length (Results cinfo)));
    [apply (Hassign _ H)|].
  destruct (Nat.eqb (length results) 1).
  - destruct (Nat.eqb (length (Results cinfo)) 0); [discriminate H|].
    unfold returnMultiValues in H.
    apply bind_Ok in H. destruct H as [es [_ H]].
    destruct es as [|e es]; [discriminate H|].
    apply bind_Ok in H. destruct H as [assigns [_ H]].
    injection H as <-. apply grows_Append; reflexivity.
  - destruct (Nat.eqb (length results) 0); [|discriminate H].
    destruct (negb (NamedResults cinfo)); [discriminate H|].
    apply (Hassign _ H).
Qed.

Lemma Comp_Branch_grows (tok : Token) (label : option string) :
  grows_on (Comp_Branch tok label).
Proof.
  intros st st' H. unfold Comp_Branch in H.
  destruct tok; try discriminate H.
  - unfold Comp_Break in H.
    destruct (walk _ 0 (comp st)) as [[upn ip]|].
    + injection H as <-. apply grows_Append; reflexivity.
    + destruct (negb _); discriminate H.
  - unfold Comp_Continue in H.
    destruct (walk _ 0 (comp st)) as [[upn ip]|].
    + injection H as <-. apply grows_Append; reflexivity.
    + destruct (negb _); discriminate H.
Qed.

Lemma Comp_Defer_grows (call : ast_CallExpr) : grows_on (Comp_Defer call).
Proof.
  intros st st' H. unfold Comp_Defer in H.
  apply bind_Ok in H. destruct H as [c [_ H]]. injection H as <-.
  exists [deferStmt (Expr_AsX1 (Call_Fun c)) (Call_MakeArgfunsX1 c)
                    (Call_Ellipsis c)].
  split; [apply balanced_single; reflexivity|].
  apply steps_ext_by.
  apply steps_nil_r with (b := Comp_Append
    (deferStmt (Expr_AsX1 (Call_Fun c)) (Call_MakeArgfunsX1 c)
               (Call_Ellipsis c)) st).
  - apply steps_Append.
  - apply steps_set_WithDefers.
Qed.

Lemma Comp_Go_grows (call : ast_CallExpr) : grows_on (Comp_Go call).
Proof.
  intros st st' H. unfold Comp_Go in H.
  apply bind_Ok in H. destruct H as [c [_ H]]. injection H as <-.
  exists [goStmt (Expr_AsX1 (Call_Fun c)) (Call_MakeArgfunsX1 c)].
  split; [apply balanced_single; reflexivity|].
  constructor; simpl.
  - reflexivity.
  - exists []. rewrite app_nil_r. reflexivity.
  - reflexivity.
Qed.

Lemma balanced_loop (test : list Stmt) (seg_body seg_post : list Stmt)
    (last : Stmt) :
  balanced test -> balanced seg_body -> balanced seg_post ->
  is_push last = false -> is_pop last = false ->
  balanced (test ++ seg_body ++ seg_post ++ [last]).
Proof.
  intros. repeat apply balanced_app; auto. apply balanced_single; auto.
Qed.

(** Every statement compiler appends a balanced segment and leaves the
    patchable integers and the frames of its caller alone. *)
Lemma Comp_Stmt_grows (s : ast_Stmt) :
  forall labels, grows_on (Comp_Stmt labels s).
Proof.
  induction s as
    [ | tok node | block IHblock | tok label | d node | d node | decl | call
    | | x | init cond post body IHinit IHpost IHbody | call
    | init cond body else_ IHinit IHbody IHelse | x tok
    | label s IHs | node | results | node | node | node | node | ]
    using ast_Stmt_induction;
    intros labels st st' H; cbn [Comp_Stmt] in H.
  - injection H as <-. apply grows_refl.
  - eapply Assign_grows; exact H.
  - apply (Comp_Block_grows (Comp_Stmt []) block); [|exact H].
    apply (Forall_impl _ (fun a Ha => Ha []) IHblock).
  - apply (Comp_Branch_grows _ _ _ _ H).
  - discriminate H.
  - discriminate H.
  - eapply Decl_grows; exact H.
  - apply (Comp_Defer_grows _ _ _ H).
  - injection H as <-. apply grows_refl.
  - apply bind_Ok in H. destruct H as [e [_ H]].
    destruct (negb (Expr_Const e)).
    + destruct (Expr_AsStmt e).
      * injection H as <-. apply grows_Append; reflexivity.
      * injection H as <-. apply grows_refl.
    + injection H as <-. apply grows_refl.
  - destruct (Comp_For_shape (Comp_Stmt []) init cond post body labels st st'
                (IHinit []) (IHpost [])
                (Forall_impl _ (fun a Ha => Ha []) IHbody) H)
      as [st3 [flag [fun_ [seg_init [seg_body [seg_post
         [_ [_ [Hbi [_ [Hbb [Hbp [_ [Hext _]]]]]]]]]]]]]].
    eexists. split; [|exact Hext].
    apply balanced_push_pop; [reflexivity | reflexivity |].
    apply balanced_app; [exact Hbi|].
    destruct fun_ as [f|]; [|destruct (negb flag)];
      try apply balanced_nil;
      apply balanced_loop; auto;
      try apply balanced_nil; apply balanced_single; reflexivity.
  - apply (Comp_Go_grows _ _ _ H).
  - destruct (Comp_If_shape (Comp_Stmt []) init cond body else_ st st'
                (IHinit []) (Forall_impl _ (fun a Ha => Ha []) IHbody)
                (IHelse []) H)
      as [st3 [pred [flag [fun_ [seg_init [seg_then [seg_else
         [_ [_ [Hbi [_ [_ [Hbt [Hbe [_ [Hext _]]]]]]]]]]]]]]]].
    eexists. split; [|exact Hext].
    apply balanced_push_pop; [reflexivity | reflexivity |].
    apply balanced_app; [exact Hbi|].
    destruct fun_ as [f|].
    + repeat apply balanced_app; auto.
      * apply balanced_single; reflexivity.
      * destruct (negb (is_nil else_));
          [apply balanced_single; reflexivity | apply balanced_nil].
    + destruct flag; simpl;
        repeat apply balanced_app; auto; apply balanced_nil.
  - unfold Comp_IncDec in H.
    apply bind_Ok in H. destruct H as [place [_ H]].
    eapply SetPlace_grows; exact H.
  - apply (IHs _ _ _ H).
  - eapply Range_grows; exact H.
  - apply (Comp_Return_grows _ _ _ H).
  - eapply Select_grows; exact H.
  - eapply Send_grows; exact H.
  - eapply Switch_grows; exact H.
  - eapply TypeSwitch_grows; exact H.
  - discriminate H.
Qed.

End Grows.

(* ------------------------------------------------------------------ *)
(** * Streams made of complete scopes *)

Section Typing.
Context {Sx : Syntax} {Hx : Host}.

Lemma target_ok_mono (h h' : list nat) (lo lo' a a' b b' : nat)
    (d d' : nat -> nat) (k ip : nat) (c : cell) :
  target_ok h lo a b d ip c ->
  keeps_from lo h h' -> lo' <= lo -> a' <= a -> b <= b' ->
  (forall t, a <= t <= b -> d' t = k + d t) ->
  a <= ip <= b ->
  target_ok h' lo' a' b' d' ip c.
Proof.
  intros [Hc [Hr Hd]] [L K] Hlo Ha Hb Hagree Hip.
  unfold target_ok. rewrite (K c Hc).
  split; [lia|]. split; [lia|].
  rewrite (Hagree _ Hr), (Hagree _ Hip), Hd. reflexivity.
Qed.

Lemma instr_ok_mono (h h' : list nat) (lo lo' a a' b b' : nat)
    (d d' : nat -> nat) (k ip : nat) (i : Stmt) :
  instr_ok h lo a b d ip i ->
  keeps_from lo h h' -> lo' <= lo -> a' <= a -> b <= b' ->
  (forall t, a <= t <= b -> d' t = k + d t) ->
  a <= ip < b ->
  instr_ok h' lo' a' b' d' ip i.
Proof.
  intros H HK Hlo Ha Hb Hagree Hip.
  assert (Hip' : a <= ip <= b) by lia.
  assert (HS : a <= S ip <= b) by lia.
  pose proof (Hagree _ Hip') as E1. pose proof (Hagree _ HS) as E2.
  destruct i; simpl in *; try exact I; try lia.
  - destruct H as [H1 H2]. split; [lia|].
    apply (target_ok_mono h h' lo lo' a a' b b' d d' k ip _ H2); assumption.
  - apply (target_ok_mono h h' lo lo' a a' b b' d d' k ip _ H); assumption.
  - destruct H as [H1 H2]. split.
    + apply (target_ok_mono h h' lo lo' a a' b b' d d' k ip _ H1);
        assumption.
    + apply (target_ok_mono h h' lo lo' a a' b b' d d' k ip _ H2);
        assumption.
  - apply (target_ok_mono h h' lo lo' a a' b b' d d' k ip _ H); assumption.
Qed.

(** ** Regions *)

Lemma region_nil (code : list Stmt) (h : list nat) (lo A B : nat)
    (d : nat -> nat) (a : nat) :
  region code h lo A B d a a.
Proof. intros ip i Hip. lia. Qed.

Lemma region_app (code : list Stmt) (h : list nat) (lo A B : nat)
    (d : nat -> nat) (a m b : nat) :
  region code h lo A B d a m -> region code h lo A B d m b ->
  region code h lo A B d a b.
Proof.
  intros H1 H2 ip i Hip Hnth.
  destruct (Nat.lt_ge_cases ip m) as [Hlt|Hge].
  - apply H1; [lia | exact Hnth].
  - apply H2; [lia | exact Hnth].
Qed.

Lemma region_one (code : list Stmt) (h : list nat) (lo A B : nat)
    (d : nat -> nat) (a : nat) (i : Stmt) :
  nth_error code a = Some i -> instr_ok h lo A B d a i ->
  region code h lo A B d a (S a).
Proof.
  intros Hnth Hok ip i' Hip Hnth'.
  assert (ip = a) by lia. subst ip.
  rewrite Hnth in Hnth'. injection Hnth' as <-. exact Hok.
Qed.

(** The region of a stream of complete scopes, inside a longer range and
    [k] environments deep. *)
Lemma region_of_typed (code : list Stmt) (h : list nat) (lo A B a b : nat)
    (d0 d : nat -> nat) (k : nat) :
  typed code h lo a b d0 -> A <= a -> b <= B ->
  (forall t, a <= t <= b -> d t = k + d0 t) ->
  region code h lo A B d a b.
Proof.
  intros T HA HB Hagree ip i Hip Hnth.
  apply (instr_ok_mono h h lo lo a A b B d0 d k ip i); auto.
  - apply (ty_instr T); assumption.
  - apply keeps_from_refl.
Qed.

(** ** Moving to a later state of the compilation *)

Lemma typed_mono (code more : list Stmt) (h h' : list nat)
    (lo lo' a b : nat) (d : nat -> nat) :
  typed code h lo a b d -> keeps_from lo h h' -> lo' <= lo ->
  typed (code ++ more) h' lo' a b d.
Proof.
  intros T HK Hlo. constructor.
  - apply (ty_le T).
  - rewrite length_app. pose proof (ty_len T). lia.
  - apply (ty_start T).
  - apply (ty_end T).
  - intros ip i Hip Hnth.
    pose proof (ty_len T) as Hlen.
    rewrite nth_error_app1 in Hnth by lia.
    apply (instr_ok_mono h h' lo lo' a a b b d d 0 ip i); auto.
    apply (ty_instr T); assumption.
Qed.

(** ** Building streams of complete scopes *)

Lemma typed_nil (code : list Stmt) (h : list nat) (lo a : nat) :
  a <= length code -> typed code h lo a a (fun _ => 0).
Proof.
  intros Ha. constructor; auto. apply region_nil.
Qed.

Lemma typed_single (code : list Stmt) (h : list nat) (lo a : nat)
    (i : Stmt) :
  nth_error code a = Some i ->
  instr_ok h lo a (S a) (fun _ => 0) a i ->
  typed code h lo a (S a) (fun _ => 0).
Proof.
  intros Hnth Hok. constructor; auto.
  - apply nth_error_Some. congruence.
  - apply (region_one _ _ _ _ _ _ _ i); assumption.
Qed.

Lemma glue_left (m : nat) (d1 d2 : nat -> nat) (t : nat) :
  t <= m -> d1 m = d2 m -> glue m d1 d2 t = d1 t.
Proof.
  intros Ht E. unfold glue. destruct (Nat.ltb_spec t m); [reflexivity|].
  assert (t = m) by lia. subst t. symmetry. exact E.
Qed.

Lemma glue_right (m : nat) (d1 d2 : nat -> nat) (t : nat) :
  m <= t -> glue m d1 d2 t = d2 t.
Proof.
  intros Ht. unfold glue. destruct (Nat.ltb_spec t m); [lia | reflexivity].
Qed.

Lemma typed_seq (code : list Stmt) (h : list nat) (lo a m b : nat)
    (d1 d2 : nat -> nat) :
  typed code h lo a m d1 -> typed code h lo m b d2 ->
  typed code h lo a b (glue m d1 d2).
Proof.
  intros T1 T2.
  pose proof (ty_le T1). pose proof (ty_le T2).
  assert (E : d1 m = d2 m) by (rewrite (ty_end T1), (ty_start T2); reflexivity).
  constructor.
  - lia.
  - apply (ty_len T2).
  - rewrite glue_left by (auto; lia). apply (ty_start T1).
  - rewrite glue_right by lia. apply (ty_end T2).
  - apply region_app with (m := m).
    + apply (region_of_typed code h lo a b a m d1 _ 0 T1); try lia.
      intros t Ht. simpl. apply glue_left; [lia | exact E].
    + apply (region_of_typed code h lo a b m b d2 _ 0 T2); try lia.
      intros t Ht. simpl. apply glue_right. lia.
Qed.

Lemma nest_in (a b : nat) (d : nat -> nat) (t : nat) :
  a < t <= b -> nest a b d t = S (d t).
Proof.
  intros Ht. unfold nest.
  destruct (Nat.ltb_spec a t); [|lia].
  destruct (Nat.leb_spec t b); [reflexivity | lia].
Qed.

Lemma nest_out (a b : nat) (d : nat -> nat) (t : nat) :
  t <= a \/ b < t -> nest a b d t = 0.
Proof.
  intros Ht. unfold nest.
  destruct (Nat.ltb_spec a t); [|reflexivity].
  destruct (Nat.leb_spec t b); [lia | reflexivity].
Qed.

(** A push, a stream of complete scopes, a pop. *)
Lemma typed_scope (code : list Stmt) (h : list nat) (lo a b : nat)
    (d : nat -> nat) (n0 n1 : cell) :
  typed code h lo (S a) b d ->
  nth_error code a = Some (pushEnv n0 n1) ->
  nth_error code b = Some popEnv ->
  typed code h lo a (S b) (nest a b d).
Proof.
  intros T Hpush Hpop. pose proof (ty_le T) as Hle.
  constructor.
  - lia.
  - apply nth_error_Some. congruence.
  - apply nest_out. lia.
  - apply nest_out. lia.
  - apply region_app with (m := S a).
    + apply (region_one _ _ _ _ _ _ _ _ Hpush). simpl.
      rewrite nest_in by lia. rewrite nest_out by lia.
      rewrite (ty_start T). reflexivity.
    + apply region_app with (m := b).
      * apply (region_of_typed code h lo a (S b) (S a) b d _ 1 T); try lia.
        intros t Ht. simpl. apply nest_in. lia.
      * apply (region_one _ _ _ _ _ _ _ _ Hpop). simpl.
        rewrite nest_in by lia. rewrite nest_out by lia.
        rewrite (ty_end T). reflexivity.
Qed.

Lemma inside_in (a b : nat) (d : nat -> nat) (t : nat) :
  a <= t <= b -> d b = 0 -> inside a b d t = d t.
Proof.
  intros Ht E. unfold inside.
  destruct (Nat.leb_spec a t); [|lia].
  destruct (Nat.ltb_spec t b); [reflexivity|].
  assert (t = b) by lia. subst t. symmetry. exact E.
Qed.

Lemma inside_out (a b : nat) (d : nat -> nat) (t : nat) :
  t <= a \/ b <= t -> d a = 0 -> inside a b d t = 0.
Proof.
  intros Ht E. unfold inside.
  destruct (Nat.leb_spec a t); [|reflexivity].
  destruct (Nat.ltb_spec t b); [|reflexivity].
  assert (t = a) by lia. subst t. exact E.
Qed.

(** A loop: the test if there is one, the body and post statement, the jump
    back. The test leaves the loop for the instruction after the jump. *)
Lemma typed_loop (code : list Stmt) (h : list nat) (lo c cb j : nat)
    (d : nat -> nat) (jc : cell) :
  typed code h lo cb j d ->
  cb = c \/
  (cb = S c /\
   exists f jb, nth_error code c = Some (forCond f jb) /\
                lo <= jb < length h /\ load jb h = S j) ->
  nth_error code j = Some (forJump jc) ->
  lo <= jc < length h -> load jc h = c ->
  typed code h lo c (S j) (inside cb j d).
Proof.
  intros T Htest Hjump Hjc Hload. pose proof (ty_le T) as Hle.
  pose proof (ty_start T) as E0. pose proof (ty_end T) as E1.
  assert (Hc : c <= cb) by (destruct Htest as [->|[-> _]]; lia).
  assert (Z : forall t, t <= cb \/ j <= t -> inside cb j d t = 0).
  { intros t Ht. apply inside_out; assumption. }
  constructor.
  - lia.
  - apply nth_error_Some. congruence.
  - apply Z. lia.
  - apply Z. lia.
  - apply region_app with (m := cb).
    + destruct Htest as [->|[-> [f [jb [Hnth [Hjb Hlb]]]]]].
      * apply region_nil.
      * apply (region_one _ _ _ _ _ _ _ _ Hnth). simpl.
        rewrite !Z by lia. split; [reflexivity|].
        unfold target_ok. rewrite Hlb, !Z by lia.
        split; [exact Hjb|]. split; [lia | reflexivity].
    + apply region_app with (m := j).
      * apply (region_of_typed code h lo c (S j) cb j d _ 0 T); try lia.
        intros t Ht. simpl. apply inside_in; assumption.
      * apply (region_one _ _ _ _ _ _ _ _ Hjump). simpl.
        unfold target_ok. rewrite Hload, !Z by lia.
        split; [exact Hjc|]. split; [lia | reflexivity].
Qed.

(** The two branches of an if statement after its test: the then branch,
    the jump over the else branch if there is one, the else branch. *)
Lemma typed_branch (code : list Stmt) (h : list nat)
    (lo t0 e1 tE en : nat) (dT dE : nat -> nat)
    (f : PredFun) (jT jE : cell) :
  typed code h lo (S t0) e1 dT ->
  typed code h lo tE en dE ->
  nth_error code t0 = Some (ifCond f jT jE) ->
  lo <= jT < length h -> load jT h = S t0 ->
  lo <= jE < length h -> load jE h = tE ->
  tE = e1 \/
  (tE = S e1 /\
   exists jEnd, nth_error code e1 = Some (ifJumpEnd jEnd) /\
                lo <= jEnd < length h /\ load jEnd h = en) ->
  typed code h lo t0 en (glue e1 (inside (S t0) e1 dT) (inside tE en dE)).
Proof.
  intros TT TE Hcond HjT HlT HjE HlE Hskip.
  pose proof (ty_le TT) as HleT. pose proof (ty_le TE) as HleE.
  pose proof (ty_start TT) as T0. pose proof (ty_end TT) as T1.
  pose proof (ty_start TE) as E0. pose proof (ty_end TE) as E1.
  assert (He : e1 <= tE) by (destruct Hskip as [->|[-> _]]; lia).
  set (d := glue e1 (inside (S t0) e1 dT) (inside tE en dE)).
  assert (ZL : forall t, t <= S t0 -> d t = 0).
  { intros t Ht. unfold d, glue. destruct (Nat.ltb_spec t e1).
    - apply inside_out; [lia | exact T0].
    - apply inside_out; [lia | exact E0]. }
  assert (ZR : forall t, e1 <= t <= tE \/ en <= t -> d t = 0).
  { intros t Ht. unfold d. rewrite glue_right by lia.
    apply inside_out; [lia | exact E0]. }
  constructor.
  - lia.
  - apply (ty_len TE).
  - apply ZL. lia.
  - apply ZR. lia.
  - apply region_app with (m := S t0).
    + apply (region_one _ _ _ _ _ _ _ _ Hcond). simpl.
      unfold target_ok. rewrite HlT, HlE.
      rewrite (ZL (S t0)), (ZL t0), (ZR tE) by lia.
      split; (split; [assumption|]); split; [lia | reflexivity | lia
                                                | reflexivity].
    + apply region_app with (m := e1).
      * apply (region_of_typed code h lo t0 en (S t0) e1 dT _ 0 TT);
          try lia.
        intros t Ht. simpl. unfold d.
        destruct (Nat.eq_dec t e1) as [->|Hne].
        -- rewrite ZR by lia. rewrite T1. reflexivity.
        -- unfold glue. destruct (Nat.ltb_spec t e1); [|lia].
           apply inside_in; [lia | exact T1].
      * apply region_app with (m := tE).
        -- destruct Hskip as [->|[-> [jEnd [Hnth [HjEnd HlEnd]]]]].
           ++ apply region_nil.
           ++ apply (region_one _ _ _ _ _ _ _ _ Hnth). simpl.
              unfold target_ok. rewrite HlEnd.
              rewrite (ZR en), (ZR e1) by lia.
              split; [exact HjEnd|]. split; [lia | reflexivity].
        -- apply (region_of_typed code h lo t0 en tE en dE _ 0 TE);
             try lia.
           intros t Ht. simpl. unfold d. rewrite glue_right by lia.
           apply inside_in; [lia | exact E1].
Qed.

End Typing.

(* ------------------------------------------------------------------ *)
(** * Executions of streams made of complete scopes *)

Section Paths.
Context {Sx : Syntax} {Hx : Host} {Ex : ExtExec}.

Lemma count_push_cons (i : Stmt) (tr : list Stmt) :
  count_push (i :: tr) = count_push [i] + count_push tr.
Proof. apply (count_push_app [i] tr). Qed.

Lemma count_pop_cons (i : Stmt) (tr : list Stmt) :
  count_pop (i :: tr) = count_pop [i] + count_pop tr.
Proof. apply (count_pop_app [i] tr). Qed.

(** One instruction that does not leave: the stream and the patchable
    integers stay, control stays in the range, and the depth follows the
    push or pop executed. *)
Lemma exec_depth (lo a b : nat) (d : nat -> nat) (i : Stmt)
    (env env' : Env) (m m' : Machine) (next : option Stmt) :
  Straight Ex ->
  instr_ok (M_cells m) lo a b d (IP env) i ->
  leaves i = false ->
  a <= IP env < b ->
  exec i env m = Some (next, env', m') ->
  next = fetch m' (IP env') /\
  M_Code m' = M_Code m /\
  M_cells m' = M_cells m /\
  a <= IP env' <= b /\
  d (IP env') + count_pop [i] = d (IP env) + count_push [i].
Proof.
  intros HS Hok Hlv Hip H.
  destruct i as [| | |nb0 nb1|upn ip|f jb|jc|f jT jE|jEnd|df da de|ef ea
                 |rf ra|x];
    simpl in Hlv; try discriminate Hlv; simpl in H, Hok;
    unfold count_pop, count_push; simpl.
  - (* stmtNop *)
    injection H as <- <- <-. simpl. repeat split; try reflexivity; lia.
  - (* popEnv *)
    destruct (Outer env) as [outer|]; [|discriminate H]. simpl in H.
    unfold FreeEnv in H.
    destruct (nth_error (M_threads m) (Env_ThreadGlobals env));
      [|discriminate H].
    simpl in H. injection H as <- <- <-. simpl. repeat split; try reflexivity; lia.
  - (* pushEnv *)
    unfold NewEnv in H.
    destruct (nth_error (M_threads m) (Env_ThreadGlobals env));
      [|discriminate H].
    simpl in H. injection H as <- <- <-. simpl. repeat split; try reflexivity; lia.
  - (* forCond *)
    destruct (f env (M_store m)) as [[c s]|]; [|discriminate H].
    simpl in H. injection H as <- <- <-. simpl.
    destruct Hok as [Hn [_ [Hr Hd]]].
    destruct c; repeat split; try reflexivity; lia.
  - (* forJump *)
    injection H as <- <- <-. simpl.
    destruct Hok as [_ [Hr Hd]]. repeat split; try reflexivity; lia.
  - (* ifCond *)
    destruct (f env (M_store m)) as [[c s]|]; [|discriminate H].
    simpl in H. injection H as <- <- <-. simpl.
    destruct Hok as [[_ [Hr1 Hd1]] [_ [Hr2 Hd2]]].
    destruct c; repeat split; try reflexivity; lia.
  - (* ifJumpEnd *)
    injection H as <- <- <-. simpl.
    destruct Hok as [_ [Hr Hd]]. repeat split; try reflexivity; lia.
  - (* goStmt *)
    unfold NewEnv4Func in H.
    destruct (nth_error (M_threads m) (Env_ThreadGlobals env));
      [|discriminate H].
    simpl in H.
    match type of H with
    | context [nth_error ?l ?n] => destruct (nth_error l n)
    end; [|discriminate H].
    simpl in H.
    match type of H with
    | context [ef ?x ?y] => destruct (ef x y) as [[funv s1]|]
    end; [|discriminate H].
    simpl in H.
    match type of H with
    | context [Go_args ?x ?y ?z] => destruct (Go_args x y z) as [[argv s2]|]
    end; [|discriminate H].
    simpl in H. injection H as <- <- <-. simpl. repeat split; try reflexivity; lia.
  - (* extStmt *)
    destruct (HS _ _ _ _ _ _ H) as [E1 [E0 [E2 E3]]].
    rewrite E1 in *. repeat split; auto; lia.
Qed.

(** Along an execution that stays before [b] and runs no instruction that
    leaves, the depth at the instruction pointer is the number of pushes
    executed less the number of pops executed. *)
Lemma path_depth (lo a b : nat) (d : nat -> nat) (cur : option Stmt)
    (env env' : Env) (m m' : Machine) (tr : list Stmt) :
  Straight Ex ->
  path b cur env m tr env' m' ->
  cur = fetch m (IP env) ->
  typed (M_Code m) (M_cells m) lo a b d ->
  a <= IP env <= b ->
  Forall (fun i => leaves i = false) tr ->
  a <= IP env' <= b /\
  d (IP env') + count_pop tr = d (IP env) + count_push tr.
Proof.
  intros HS Hp. induction Hp as [cur env m|i env m next env1 m1 tr env2 m2
                                  Hlt Hexec Hp IH];
    intros Hcur T Hip Hall.
  - split; [exact Hip | reflexivity].
  - inversion Hall as [|i' tr' Hi Htr]; subst.
    assert (Hin : a <= IP env < b) by lia.
    symmetry in Hcur. unfold fetch in Hcur.
    pose proof (ty_instr T Hin Hcur) as Hok.
    destruct (exec_depth lo a b d i env env1 m m1 next HS Hok Hi Hin Hexec)
      as [En [Ec [Eh [Hr Hd]]]].
    rewrite <- Ec, <- Eh in T.
    destruct (IH En T Hr Htr) as [Hr2 Hd2].
    split; [exact Hr2|].
    rewrite count_push_cons, count_pop_cons. lia.
Qed.

(** From the start to the end of a stream of complete scopes, without an
    instruction that leaves: as many pushes as pops. *)
Lemma path_balanced (lo a b : nat) (d : nat -> nat) (env env' : Env)
    (m m' : Machine) (tr : list Stmt) :
  Straight Ex ->
  typed (M_Code m) (M_cells m) lo a b d ->
  path b (fetch m (IP env)) env m tr env' m' ->
  IP env = a -> IP env' = b ->
  Forall (fun i => leaves i = false) tr ->
  count_push tr = count_pop tr.
Proof.
  intros HS T Hp Ha Hb Hall.
  pose proof (ty_le T) as Hle.
  destruct (path_depth lo a b d _ env env' m m' tr HS Hp eq_refl T
              ltac:(lia) Hall) as [_ Hd].
  rewrite Ha, Hb, (ty_start T), (ty_end T) in Hd. lia.
Qed.

(** Along an execution that stays before [b], every instruction that runs is
    at a position of the range, up to and including the first one that
    leaves. *)
Lemma path_within (lo a b : nat) (d : nat -> nat) (cur : option Stmt)
    (env env' : Env) (m m' : Machine) (tr : list Stmt) :
  Straight Ex ->
  path b cur env m tr env' m' ->
  cur = fetch m (IP env) ->
  typed (M_Code m) (M_cells m) lo a b d ->
  a <= IP env <= b ->
  Forall (fun i => leaves i = false) (removelast tr) ->
  Forall (fun i => exists ip,
              a <= ip < b /\ nth_error (M_Code m) ip = Some i) tr.
Proof.
  intros HS Hp. induction Hp as [cur env m|i env m next env1 m1 tr env2 m2
                                  Hlt Hexec Hp IH];
    intros Hcur T Hip Hall.
  - constructor.
  - assert (Hin : a <= IP env < b) by lia.
    symmetry in Hcur. unfold fetch in Hcur.
    constructor; [exists (IP env); split; assumption|].
    destruct tr as [|j tr]; [constructor|].
    change (removelast (i :: j :: tr)) with (i :: removelast (j :: tr))
      in Hall.
    inversion Hall as [|i' tr' Hi Htr]; subst.
    pose proof (ty_instr T Hin Hcur) as Hok.
    destruct (exec_depth lo a b d i env env1 m m1 next HS Hok Hi Hin Hexec)
      as [En [Ec [Eh [Hr _]]]].
    rewrite <- Ec, <- Eh in T. rewrite <- Ec.
    apply (IH En T Hr Htr).
Qed.

(** An instruction that goes on: control is at the next position, and the
    stream is the same. *)
Lemma exec_sequential (i : Stmt) (env env' : Env) (m m' : Machine)
    (next : option Stmt) :
  Straight Ex ->
  sequential i = true ->
  exec i env m = Some (next, env', m') ->
  IP env' = S (IP env) /\ next = fetch m' (IP env') /\ M_Code m' = M_Code m.
Proof.
  intros HS Hs H.
  destruct i as [| | |nb0 nb1|upn ip|f jb|jc|f jT jE|jEnd|df da de|ef ea
                 |rf ra|x];
    simpl in Hs; try discriminate Hs; simpl in H.
  - injection H as <- <- <-. repeat split.
  - destruct (Outer env) as [outer|]; [|discriminate H]. simpl in H.
    unfold FreeEnv in H.
    destruct (nth_error (M_threads m) (Env_ThreadGlobals env));
      [|discriminate H].
    simpl in H. injection H as <- <- <-. repeat split.
  - unfold NewEnv in H.
    destruct (nth_error (M_threads m) (Env_ThreadGlobals env));
      [|discriminate H].
    simpl in H. injection H as <- <- <-. repeat split.
  - unfold NewEnv4Func in H.
    destruct (nth_error (M_threads m) (Env_ThreadGlobals env));
      [|discriminate H].
    simpl in H.
    match type of H with
    | context [nth_error ?l ?n] => destruct (nth_error l n)
    end; [|discriminate H].
    simpl in H.
    match type of H with
    | context [ef ?x ?y] => destruct (ef x y) as [[funv s1]|]
    end; [|discriminate H].
    simpl in H.
    match type of H with
    | context [Go_args ?x ?y ?z] => destruct (Go_args x y z) as [[argv s2]|]
    end; [|discriminate H].
    simpl in H. injection H as <- <- <-. repeat split.
  - destruct (HS _ _ _ _ _ _ H) as [E1 [E0 [E2 _]]]. repeat split; assumption.
Qed.

Lemma skipn_nth_error {A : Type} (l : list A) :
  forall k x, nth_error l k = Some x -> skipn k l = x :: skipn (S k) l.
Proof.
  induction l as [|a l IH]; intros [|k] x H; simpl in H; try discriminate H.
  - injection H as <-. reflexivity.
  - apply (IH k x H).
Qed.

(** An execution through instructions that all go on to the next one runs
    them in order, each once. *)
Lemma path_sequential (pre seg more : list Stmt) (b : nat)
    (cur : option Stmt) (env env' : Env) (m m' : Machine) (tr : list Stmt) :
  Straight Ex ->
  path b cur env m tr env' m' ->
  cur = fetch m (IP env) ->
  M_Code m = pre ++ seg ++ more ->
  b = length pre + length seg ->
  length pre <= IP env <= b ->
  Forall (fun i => sequential i = true) seg ->
  IP env' = b ->
  tr = skipn (IP env - length pre) seg.
Proof.
  intros HS Hp. induction Hp as [cur env m|i env m next env1 m1 tr env2 m2
                                  Hlt Hexec Hp IH];
    intros Hcur HM Hb Hip Hall Hend.
  - rewrite skipn_all2; [reflexivity | lia].
  - symmetry in Hcur. unfold fetch in Hcur. rewrite HM in Hcur.
    rewrite nth_error_app2 in Hcur by lia.
    rewrite nth_error_app1 in Hcur by lia.
    assert (Hseq : sequential i = true).
    { rewrite Forall_forall in Hall. apply Hall.
      apply (nth_error_In _ _ Hcur). }
    destruct (exec_sequential i env env1 m m1 next HS Hseq Hexec)
      as [E1 [En Ec]].
    rewrite (skipn_nth_error _ _ _ Hcur). f_equal.
    replace (S (IP env - length pre)) with (IP env1 - length pre) by lia.
    apply IH; auto.
    + rewrite Ec. exact HM.
    + lia.
Qed.
End Paths.

(* ------------------------------------------------------------------ *)
(** * Every statement compiler emits complete scopes *)

Section TypedCompile.
Context {Sx : Syntax} {Hx : Host} {Cx : Collaborators}.

Lemma ext_by_keeps (lo : nat) (seg : list Stmt) (a b : CState) :
  ext_by seg a b -> keeps_from lo (cells a) (cells b).
Proof.
  intros [_ [h Hh] _]. rewrite Hh. apply keeps_from_app, keeps_from_refl.
Qed.

Lemma typed_weaken (code : list Stmt) (h : list nat) (lo lo' a b : nat)
    (d : nat -> nat) :
  typed code h lo a b d -> lo' <= lo -> typed code h lo' a b d.
Proof.
  intros T Hlo. rewrite <- (app_nil_r code).
  apply (typed_mono code [] h h lo lo' a b d T (keeps_from_refl _ _) Hlo).
Qed.

(** What was emitted stays a stream of complete scopes when more is
    appended. *)
Lemma typed_later (seg : list Stmt) (s1 s2 : CState) (lo lo' a b : nat)
    (d : nat -> nat) :
  typed (code_of s1) (cells s1) lo a b d -> ext_by seg s1 s2 -> lo' <= lo ->
  typed (code_of s2) (cells s2) lo' a b d.
Proof.
  intros T E Hlo. rewrite (eb_code E).
  apply (typed_mono _ _ (cells s1) _ lo lo' a b d T); [|exact Hlo].
  apply (ext_by_keeps lo seg s1 s2 E).
Qed.

Lemma typed_here (st : CState) (lo : nat) :
  typed (code_of st) (cells st) lo (Len st) (Len st) (fun _ => 0).
Proof. apply typed_nil. apply Nat.le_refl. Qed.

Lemma nth_error_here {A : Type} (l r : list A) (x : A) :
  nth_error (l ++ x :: r) (length l) = Some x.
Proof.
  rewrite nth_error_app2 by lia. rewrite Nat.sub_diag. reflexivity.
Qed.

(** One instruction appended. *)
Lemma Append_typed (i : Stmt) (st : CState) (h : list nat) (lo : nat) :
  instr_ok h lo (Len st) (S (Len st)) (fun _ => 0) (Len st) i ->
  typed (code_of (Comp_Append i st)) h lo (Len st) (Len (Comp_Append i st))
        (fun _ => 0).
Proof.
  intros Hok.
  assert (Hc : code_of (Comp_Append i st) = code_of st ++ [i])
    by reflexivity.
  assert (Hl : Len (Comp_Append i st) = S (Len st)).
  { change (Len (Comp_Append i st))
      with (length (code_of (Comp_Append i st))).
    rewrite Hc, length_app. simpl. unfold Len, Code_Len, code_of. lia. }
  rewrite Hl, Hc. apply (typed_single _ _ _ _ i); [|exact Hok].
  apply nth_error_here.
Qed.

(** A push, what is between, a pop; or what is between alone. *)
Lemma scope_typed (pre mid : list Stmt) (h : list nat) (lo : nat)
    (locals : bool) (n0 n1 : cell) (d : nat -> nat) :
  let opening := if locals then [pushEnv n0 n1] else [] in
  let closing := if locals then [popEnv] else [] in
  let code := pre ++ opening ++ mid ++ closing in
  typed code h lo (length (pre ++ opening))
        (length (pre ++ opening) + length mid) d ->
  exists d', typed code h lo (length pre) (length code) d'.
Proof.
  destruct locals; cbv zeta; intros T.
  - exists (nest (length pre) (length pre + 1 + length mid) d).
    replace (length (pre ++ [pushEnv n0 n1] ++ mid ++ [popEnv]))
      with (S (length pre + 1 + length mid))
      by (rewrite !length_app; simpl; lia).
    rewrite length_app in T. simpl in T.
    apply typed_scope with (n0 := n0) (n1 := n1).
    + replace (S (length pre)) with (length pre + 1) by lia. exact T.
    + apply nth_error_here.
    + replace (length pre + 1 + length mid)
        with (length (pre ++ [pushEnv n0 n1] ++ mid))
        by (rewrite !length_app; simpl; lia).
      replace (pre ++ [pushEnv n0 n1] ++ mid ++ [popEnv])
        with ((pre ++ [pushEnv n0 n1] ++ mid) ++ [popEnv])
        by (rewrite <- !app_assoc; reflexivity).
      apply nth_error_here.
  - exists d. rewrite !app_nil_r in *. simpl in *.
    rewrite length_app. exact T.
Qed.

Lemma scope_typed_st (st st2 st' : CState) (mid : list Stmt)
    (locals : bool) (n0 n1 : cell) (d : nat -> nat) (lo : nat) :
  code_of st2 = code_of st ++ (if locals then [pushEnv n0 n1] else []) ->
  code_of st' = code_of st ++ (if locals then [pushEnv n0 n1] else [])
                ++ mid ++ (if locals then [popEnv] else []) ->
  typed (code_of st') (cells st') lo (Len st2) (Len st2 + length mid) d ->
  exists d', typed (code_of st') (cells st') lo (Len st) (Len st') d'.
Proof.
  intros E2 E' T.
  change (Len st2) with (length (code_of st2)) in T.
  change (Len st) with (length (code_of st)).
  change (Len st') with (length (code_of st')).
  rewrite E2 in T. rewrite E' in *.
  apply (scope_typed _ mid _ lo locals n0 n1 d T).
Qed.

(** ** Lists and blocks *)

Lemma Stmts_typed (rec : ast_Stmt -> CState -> result CState)
    (nodes : list ast_Stmt) :
  Forall (fun s => grows_on (rec s)) nodes ->
  Forall (fun s => typed_on (rec s)) nodes ->
  typed_on (Stmts rec nodes).
Proof.
  intros Hg Ht. induction nodes as [|node rest IH]; intros st st' H;
    simpl in H.
  - injection H as <-. eexists. apply typed_here.
  - apply bind_Ok in H. destruct H as [s1 [H1 H2]].
    inversion Hg as [|? ? Hg1 Hgr]; subst.
    inversion Ht as [|? ? Ht1 Htr]; subst.
    destruct (Ht1 _ _ H1) as [d1 T1].
    destruct (IH Hgr Htr _ _ H2) as [d2 T2].
    destruct (Hg1 _ _ H1) as [seg1 [_ E1]].
    destruct (Stmts_grows rec rest Hgr _ _ H2) as [seg2 [_ E2]].
    exists (glue (Len s1) d1 d2). apply typed_seq.
    + apply (typed_later seg2 s1 st' _ _ _ _ _ T1 E2). lia.
    + apply (typed_weaken _ _ _ _ _ _ _ T2).
      apply (ext_by_length _ _ _ E1).
Qed.

Lemma Comp_List_typed (rec : ast_Stmt -> CState -> result CState)
    (nodes : list ast_Stmt) :
  Forall (fun s => grows_on (rec s)) nodes ->
  Forall (fun s => typed_on (rec s)) nodes ->
  typed_on (Comp_List rec nodes).
Proof.
  intros Hg Ht st st' H.
  destruct (Comp_List_shape rec nodes st st' Hg H)
    as [seg [st3 [_ [_ [Hstmts [Hc3 [Hpop [Hext _]]]]]]]].
  set (nb := length (cells st)) in *.
  set (locals := existsb stmt_declares nodes) in *.
  set (st2 := fst (pushEnvIfFlag nb (S nb) locals (snd (alloc 2 st)))) in *.
  destruct (pushEnvIfFlag_facts nb (S nb) locals (snd (alloc 2 st)))
    as [Hc2 [Hh2 _]].
  fold st2 in Hc2, Hh2.
  change (code_of (snd (alloc 2 st))) with (code_of st) in Hc2.
  assert (Hlen2 : length (cells st2) = nb + 2).
  { rewrite Hh2. simpl. rewrite length_app. reflexivity. }
  destruct (Stmts_typed rec nodes Hg Ht _ _ Hstmts) as [d0 T0].
  apply popEnvIfLocalBinds_Ok in Hpop.
  destruct Hpop as [c [_ [Hc' [Hh' _]]]].
  apply (scope_typed_st st st2 st' seg locals nb (S nb) d0 nb Hc2
           (eb_code Hext)).
  replace (Len st2 + length seg) with (Len st3).
  2:{ change (Len st3) with (length (code_of st3)).
      rewrite Hc3, length_app. reflexivity. }
  rewrite Hc', Hh'.
  apply (typed_mono _ _ (cells st3) _ (length (cells st2)) nb _ _ d0 T0);
    [|lia].
  apply keeps_from_store; [|lia]. apply keeps_from_store; [|lia].
  apply keeps_from_refl.
Qed.

Lemma Comp_Block_typed (rec : ast_Stmt -> CState -> result CState)
    (block : list ast_Stmt) :
  Forall (fun s => grows_on (rec s)) block ->
  Forall (fun s => typed_on (rec s)) block ->
  typed_on (Comp_Block rec block).
Proof.
  intros Hg Ht st st' H. unfold Comp_Block in H.
  destruct block as [|node rest] eqn:Hblock.
  - injection H as <-. eexists. apply typed_here.
  - rewrite <- Hblock in *. apply (Comp_List_typed rec block Hg Ht _ _ H).
Qed.

Lemma optional_typed (rec : ast_Stmt -> CState -> result CState)
    (s : ast_Stmt) :
  typed_on (rec s) ->
  typed_on (fun st => if is_nil s then Ok st else rec s st).
Proof.
  intros Hrec st st' H. destruct (is_nil s).
  - injection H as <-. eexists. apply typed_here.
  - apply (Hrec _ _ H).
Qed.

(** ** For *)

Lemma Comp_For_typed (rec : ast_Stmt -> CState -> result CState)
    (Init : ast_Stmt) (Cond : option ast_Expr) (Post : ast_Stmt)
    (Body : list ast_Stmt) (labels : list string) :
  grows_on (rec Init) -> grows_on (rec Post) ->
  Forall (fun s => grows_on (rec s)) Body ->
  typed_on (rec Init) -> typed_on (rec Post) ->
  Forall (fun s => typed_on (rec s)) Body ->
  typed_on (Comp_For rec Init Cond Post Body labels).
Proof.
  intros GI GP GB TI TP TB st st' H.
  destruct (Comp_For_shape rec Init Cond Post Body labels st st' GI GP GB H)
    as [st3 [flag [fun_ [seg_init [seg_body [seg_post
       [Hinit [Hc3 [_ [_ [_ [_ [Hbr [Hext [Hjc [Hjb _]]]]]]]]]]]]]]]].
  destruct Hbr
    as [s7 [s8 [s9 [_ [Hc7 [Hbody [Hc8 [Hpost [Hc9 [Hnil [Hlen2 [Hlo
       [Hlen7 [Hlen8 [K3 [K8 [K9 _]]]]]]]]]]]]]]]]].
  cbv zeta in *.
  set (low := length (cells st)) in *.
  set (locals := existsb stmt_declares [Init]) in *.
  set (st2 := fst (pushEnvIfFlag low (S low) locals (snd (alloc 2 st)))) in *.
  set (jump := length (cells st3)) in *.
  remember (match fun_ with
            | Some f => [forCond f (S (S jump))]
            | None => []
            end) as test eqn:Htest.
  remember (test ++ seg_body ++ seg_post ++ [forJump jump]) as seg_loop
    eqn:Hseg.
  remember (if match fun_ with
               | Some _ => false
               | None => negb flag
               end then [] else seg_loop) as kept eqn:Hkept.
  set (closing := if locals then [popEnv] else []) in *.
  destruct (pushEnvIfFlag_facts low (S low) locals (snd (alloc 2 st)))
    as [Hc2 _].
  fold st2 in Hc2.
  change (code_of (snd (alloc 2 st))) with (code_of st) in Hc2.
  pose proof (eb_code Hext) as Hc'.
  pose proof (keeps_from_length _ _ _ K8) as Hlen'.
  (* the init statement *)
  destruct (optional_typed rec Init TI _ _ Hinit) as [d1 T1].
  assert (E3 : code_of st' = code_of st3 ++ kept ++ closing).
  { rewrite Hc', Hc3, Hc2. rewrite <- !app_assoc. reflexivity. }
  assert (T1' : typed (code_of st') (cells st') low (Len st2) (Len st3) d1).
  { rewrite E3.
    apply (typed_mono _ _ (cells st3) _ (length (cells st2)) low _ _ d1 T1);
      [rewrite Hlen2; exact K3 | lia]. }
  assert (L3 : Len st3 = Len st2 + length seg_init).
  { change (Len st3) with (length (code_of st3)).
    rewrite Hc3, length_app. reflexivity. }
  assert (Hmid : exists d, typed (code_of st') (cells st') low (Len st2)
                                 (Len st3 + length kept) d).
  { assert (Hloop : kept = seg_loop ->
              exists d, typed (code_of st') (cells st') low (Len st2)
                              (Len st3 + length kept) d).
    { intros Hk.
      assert (L7 : Len s7 = Len st3 + length test).
      { change (Len s7) with (length (code_of s7)).
        rewrite Hc7, length_app. reflexivity. }
      assert (L8 : Len s8 = Len s7 + length seg_body).
      { change (Len s8) with (length (code_of s8)).
        rewrite Hc8, length_app. reflexivity. }
      assert (L9 : Len s9 = Len s8 + length seg_post).
      { change (Len s9) with (length (code_of s9)).
        rewrite Hc9, length_app. reflexivity. }
      assert (Lk : length kept
                   = length test + length seg_body + length seg_post + 1).
      { rewrite Hk, Hseg. rewrite !length_app. simpl. lia. }
      assert (E9 : code_of st' = code_of s9 ++ forJump jump :: closing).
      { rewrite E3, Hk, Hc9, Hc8, Hc7, Hseg.
        rewrite <- !app_assoc. reflexivity. }
      assert (E8 : code_of st'
                   = code_of s8 ++ seg_post ++ forJump jump :: closing).
      { rewrite E9, Hc9, <- app_assoc. reflexivity. }
      (* the body *)
      destruct (Comp_Block_typed rec Body GB TB _ _ Hbody) as [d2 T2].
      assert (T2' : typed (code_of st') (cells st') low (Len s7) (Len s8)
                          d2).
      { rewrite E8.
        apply (typed_mono _ _ (cells s8) _ (length (cells s7)) low _ _ d2
                 T2); [rewrite Hlen7; exact K8 | lia]. }
      (* the post statement *)
      assert (T3' : exists d3, typed (code_of st') (cells st') low (Len s8)
                                     (Len s9) d3).
      { destruct (is_nil Post) eqn:Hn.
        - rewrite (Hnil eq_refl) in L9. simpl in L9.
          rewrite L9, Nat.add_0_r. eexists. apply typed_nil.
          apply (ty_len T2').
        - destruct (Hpost eq_refl) as [_ Hp].
          destruct (TP _ _ Hp) as [d3 T3]. exists d3.
          simpl in T3. rewrite length_store in T3.
          change (Len (write (S jump) (Len s8) s8)) with (Len s8) in T3.
          rewrite E9.
          apply (typed_mono _ _ (cells s9) _ (length (cells s8)) low _ _ d3
                   T3); [|lia].
          apply (keeps_from_weaken (jump + 3)); [exact Hlen8 | exact K9]. }
      destruct T3' as [d3 T3'].
      pose proof (typed_seq _ _ _ _ _ _ _ _ T2' T3') as T23.
      (* the test and the jump back *)
      assert (Tloop : typed (code_of st') (cells st') low (Len st3)
                            (S (Len s9))
                            (inside (Len s7) (Len s9) (glue (Len s8) d2 d3))).
      { apply (typed_loop _ _ _ _ _ _ _ jump T23).
        - destruct fun_ as [f|]; rewrite Htest in L7; simpl in L7.
          + right. split; [lia|].
            exists f, (S (S jump)). split.
            * rewrite E3, Hk, Hseg, Htest. simpl. apply nth_error_here.
            * split; [lia|]. rewrite Hjb.
              change (length (code_of st3)) with (Len st3).
              rewrite Lk, Htest. simpl. lia.
          + left. lia.
        - rewrite E9. apply nth_error_here.
        - lia.
        - exact Hjc. }
      eexists.
      replace (Len st3 + length kept) with (S (Len s9)) by lia.
      apply (typed_seq _ _ _ _ _ _ _ _ T1' Tloop). }
    destruct fun_ as [f|]; [apply Hloop; exact Hkept|].
    destruct flag; simpl in Hkept; [apply Hloop; exact Hkept|].
    exists d1. rewrite Hkept. simpl. rewrite Nat.add_0_r. exact T1'. }
  destruct Hmid as [d Tmid].
  apply (scope_typed_st st st2 st' (seg_init ++ kept) locals low (S low) d
           low Hc2 Hc').
  rewrite length_app, Nat.add_assoc, <- L3. exact Tmid.
Qed.

(** ** If *)

Lemma If_else_typed (rec : ast_Stmt -> CState -> result CState)
    (Else : ast_Stmt) :
  grows_on (rec Else) -> typed_on (rec Else) -> typed_on (If_else rec Else).
Proof.
  intros Hg Ht.
  assert (Hblock : typed_on (Comp_Block rec [Else])).
  { apply Comp_Block_typed; constructor; auto. }
  destruct Else; simpl; solve [exact Ht | exact Hblock].
Qed.

Lemma Comp_If_typed (rec : ast_Stmt -> CState -> result CState)
    (Init : ast_Stmt) (Cond : ast_Expr) (Body : list ast_Stmt)
    (Else : ast_Stmt) :
  grows_on (rec Init) -> Forall (fun s => grows_on (rec s)) Body ->
  grows_on (rec Else) ->
  typed_on (rec Init) -> Forall (fun s => typed_on (rec s)) Body ->
  typed_on (rec Else) ->
  typed_on (Comp_If rec Init Cond Body Else).
Proof.
  intros GI GB GE TI TB TE st st' H.
  destruct (Comp_If_shape rec Init Cond Body Else st st' GI GB GE H)
    as [st3 [pred [flag [fun_ [seg_init [seg_then [seg_else
       [Hinit [Hc3 [_ [_ [_ [_ [_ [Hbr [Hext [HjT [HjE [HjEnd _]]]]]]]]]]]]]]]]]]].
  destruct Hbr
    as [s5 [s6 [s9 [Hc5 [Hbody [Hc6 [Hc9 [Hnil [Helse [Hlen2 [Hlen5 [Hlen9
       [K3 [K6 _]]]]]]]]]]]]]].
  cbv zeta in *.
  set (low := length (cells st)) in *.
  set (locals := existsb stmt_declares [Init]) in *.
  set (st2 := fst (pushEnvIfFlag (low + 3) (S (low + 3)) locals
                     (snd (alloc 2 (snd (alloc 3 st)))))) in *.
  remember (match fun_ with
            | Some f => [ifCond f low (S low)]
            | None => []
            end) as test eqn:Htest.
  remember (match fun_ with
            | Some _ => if negb (is_nil Else)
                        then [ifJumpEnd (S (S low))] else []
            | None => []
            end) as skip eqn:Hskip.
  remember (match fun_ with
            | Some _ => seg_then
            | None => if negb flag then [] else seg_then
            end) as kept_then eqn:Hkt.
  remember (match fun_ with
            | Some _ => seg_else
            | None => if flag then [] else seg_else
            end) as kept_else eqn:Hke.
  set (closing := if locals then [popEnv] else []) in *.
  set (rest := test ++ kept_then ++ skip ++ kept_else) in *.
  destruct (pushEnvIfFlag_facts (low + 3) (S (low + 3)) locals
              (snd (alloc 2 (snd (alloc 3 st))))) as [Hc2 _].
  fold st2 in Hc2.
  change (code_of (snd (alloc 2 (snd (alloc 3 st))))) with (code_of st)
    in Hc2.
  pose proof (eb_code Hext) as Hc'.
  pose proof (keeps_from_length _ _ _ K3) as Hlen'.
  (* the patchable integers of the parts *)
  destruct (optional_grows rec Init GI _ _ Hinit) as [x3 [_ X3]].
  pose proof (ext_by_length _ _ _ X3) as Hlen3.
  destruct (Comp_Block_grows rec Body GB _ _ Hbody) as [x6 [_ X6]].
  pose proof (ext_by_length _ _ _ X6) as Hlen6.
  (* the init statement *)
  destruct (optional_typed rec Init TI _ _ Hinit) as [d1 T1].
  assert (E3 : code_of st' = code_of st3 ++ rest ++ closing).
  { rewrite Hc', Hc3, Hc2. unfold rest. rewrite <- !app_assoc.
    reflexivity. }
  assert (T1' : typed (code_of st') (cells st') low (Len st2) (Len st3) d1).
  { rewrite E3.
    apply (typed_mono _ _ (cells st3) _ (length (cells st2)) low _ _ d1 T1);
      [rewrite Hlen2; exact K3 | lia]. }
  assert (L3 : Len st3 = Len st2 + length seg_init).
  { change (Len st3) with (length (code_of st3)).
    rewrite Hc3, length_app. reflexivity. }
  assert (L5 : Len s5 = Len st3 + length test).
  { change (Len s5) with (length (code_of s5)).
    rewrite Hc5, length_app. reflexivity. }
  assert (L6 : Len s6 = Len s5 + length seg_then).
  { change (Len s6) with (length (code_of s6)).
    rewrite Hc6, length_app. reflexivity. }
  assert (L9 : Len s9
               = Len st3 + length test + length kept_then + length skip).
  { change (Len s9) with (length (code_of s9)).
    rewrite Hc9, !length_app. change (length (code_of st3)) with (Len st3).
    lia. }
  assert (Lr : length rest = length test + length kept_then + length skip
                             + length kept_else).
  { unfold rest. rewrite !length_app. lia. }
  (* the then branch, where it is kept *)
  destruct (Comp_Block_typed rec Body GB TB _ _ Hbody) as [dT TT].
  assert (TT' : kept_then = seg_then ->
                typed (code_of st') (cells st') low (Len s5) (Len s6) dT).
  { intros Hk.
    assert (E6 : code_of st' = code_of s6 ++ skip ++ kept_else ++ closing).
    { rewrite E3, Hc6, Hc5. unfold rest. rewrite Hk, <- !app_assoc.
      reflexivity. }
    rewrite E6.
    apply (typed_mono _ _ (cells s6) _ (length (cells s5)) low _ _ dT TT);
      [|lia].
    apply (keeps_from_weaken (low + 5)); [lia | exact K6]. }
  (* the else branch, where there is one and it is kept *)
  assert (TE' : is_nil Else = false -> kept_else = seg_else ->
                exists s10 dE,
                  Len s10 = Len s9 + length seg_else /\
                  typed (code_of st') (cells st') low (Len s9) (Len s10) dE).
  { intros Hn Hk. destruct (Helse Hn) as [s10 [Hs10 [Hc10 K10]]].
    destruct (If_else_typed rec Else GE TE _ _ Hs10) as [dE T10].
    exists s10, dE. split.
    { change (Len s10) with (length (code_of s10)).
      rewrite Hc10, length_app. reflexivity. }
    assert (E10 : code_of st' = code_of s10 ++ closing).
    { rewrite E3, Hc10, Hc9. unfold rest. rewrite Hk, <- !app_assoc.
      reflexivity. }
    rewrite E10.
    apply (typed_mono _ _ (cells s10) _ (length (cells s9)) low _ _ dE T10);
      [|lia].
    apply (keeps_from_weaken (low + 5)); [lia | exact K10]. }
  assert (Hmid : exists d, typed (code_of st') (cells st') low (Len st2)
                                 (Len st3 + length rest) d).
  { destruct fun_ as [f|].
    - (* a test at run time *)
      specialize (TT' Hkt).
      assert (Hcond : nth_error (code_of st') (Len st3)
                      = Some (ifCond f low (S low))).
      { rewrite E3. unfold rest. rewrite Htest. simpl.
        apply nth_error_here. }
      assert (Ht1 : length test = 1) by (rewrite Htest; reflexivity).
      assert (HjT' : load low (cells st') = S (Len st3)).
      { rewrite HjT, length_app, Ht1.
        change (length (code_of st3)) with (Len st3). lia. }
      assert (HjE' : load (S low) (cells st') = Len s9).
      { rewrite HjE, <- Hc9. reflexivity. }
      replace (Len s5) with (S (Len st3)) in TT' by lia.
      destruct (is_nil Else) eqn:Hn.
      + (* no else branch *)
        assert (Hs0 : length skip = 0) by (rewrite Hskip; reflexivity).
        assert (He0 : length kept_else = 0)
          by (rewrite Hke, (Hnil eq_refl); reflexivity).
        assert (TN : typed (code_of st') (cells st') low (Len s6) (Len s6)
                           (fun _ => 0)).
        { apply typed_nil. apply (ty_len TT'). }
        eexists.
        replace (Len st3 + length rest) with (Len s6)
          by (rewrite Hkt in Lr; lia).
        eapply typed_seq; [exact T1'|].
        apply (typed_branch _ _ _ _ _ _ _ _ _ f low (S low) TT' TN Hcond);
          try lia.
        rewrite HjE', L9, Hkt. lia.
      + (* an else branch *)
        destruct (TE' eq_refl Hke) as [s10 [dE [L10 T10]]].
        assert (Hs1 : skip = [ifJumpEnd (S (S low))])
          by (rewrite Hskip; reflexivity).
        eexists.
        replace (Len st3 + length rest) with (Len s10)
          by (rewrite Hkt, Hke in *; lia).
        eapply typed_seq; [exact T1'|].
        apply (typed_branch _ _ _ _ _ _ _ _ _ f low (S low) TT' T10 Hcond);
          try lia.
        right. split; [rewrite L9, Hkt, Hs1; simpl; lia|].
        exists (S (S low)). split; [|split; [lia|]].
        * assert (E6 : code_of st'
                       = code_of s6 ++ skip ++ kept_else ++ closing).
          { rewrite E3, Hc6, Hc5. unfold rest. rewrite Hkt, <- !app_assoc.
            reflexivity. }
          rewrite E6, Hs1. simpl. apply nth_error_here.
        * rewrite HjEnd, !length_app.
          change (length (code_of st3)) with (Len st3).
          rewrite Hkt, Hke in *. lia.
    - (* a constant condition *)
      assert (Ht0 : length test = 0) by (rewrite Htest; reflexivity).
      assert (Hs0 : length skip = 0) by (rewrite Hskip; reflexivity).
      destruct flag; simpl in Hkt, Hke.
      + (* the then branch alone *)
        specialize (TT' Hkt).
        eexists.
        replace (Len st3 + length rest) with (Len s6)
          by (rewrite Hkt, Hke in *; simpl in *; lia).
        replace (Len s5) with (Len st3) in TT' by lia.
        apply (typed_seq _ _ _ _ _ _ _ _ T1' TT').
      + (* the else branch alone *)
        destruct (is_nil Else) eqn:Hn.
        * exists d1.
          replace (Len st3 + length rest) with (Len st3); [exact T1'|].
          rewrite Lr, Hkt, Hke, (Hnil eq_refl), Ht0, Hs0. simpl. lia.
        * destruct (TE' eq_refl Hke) as [s10 [dE [L10 T10]]].
          eexists.
          replace (Len st3 + length rest) with (Len s10)
            by (rewrite Hkt, Hke in *; simpl in *; lia).
          replace (Len s9) with (Len st3) in T10
            by (rewrite Hkt in *; simpl in *; lia).
          apply (typed_seq _ _ _ _ _ _ _ _ T1' T10). }
  destruct Hmid as [d Tmid].
  apply (scope_typed_st st st2 st' (seg_init ++ rest) locals (low + 3)
           (S (low + 3)) d low Hc2 Hc').
  rewrite length_app, Nat.add_assoc, <- L3. exact Tmid.
Qed.

End TypedCompile.

(* ------------------------------------------------------------------ *)
(** * The statement compiler emits complete scopes *)

Section TypedAll.
Context {Sx : Syntax} {Hx : Host} {Cx : Collaborators}
        {Dx : Disciplined Cx} {Tx : Structured Cx}.

(** One compiler after the other. *)
Lemma typed_then (st s1 st' : CState) (d1 d2 : nat -> nat) :
  typed (code_of s1) (cells s1) (length (cells st)) (Len st) (Len s1) d1 ->
  typed (code_of st') (cells st') (length (cells s1)) (Len s1) (Len st') d2 ->
  grows st s1 -> grows s1 st' ->
  typed (code_of st') (cells st') (length (cells st)) (Len st) (Len st')
        (glue (Len s1) d1 d2).
Proof.
  intros T1 T2 [seg1 [_ E1]] [seg2 [_ E2]]. apply typed_seq.
  - apply (typed_later seg2 s1 st' _ _ _ _ _ T1 E2). lia.
  - apply (typed_weaken _ _ _ _ _ _ _ T2). apply (ext_by_length _ _ _ E1).
Qed.

(** One instruction that reads no patchable integer and does not change the
    depth, or that leaves. *)
Lemma Append_typed_on (i : Stmt) (st : CState) :
  (forall h lo a, instr_ok h lo a (S a) (fun _ => 0) a i) ->
  exists d, typed (code_of (Comp_Append i st)) (cells (Comp_Append i st))
                  (length (cells st)) (Len st) (Len (Comp_Append i st)) d.
Proof.
  intros Hok. eexists. apply Append_typed. apply Hok.
Qed.

Lemma Return_SetVars_typed (upn : nat) (binds : list Bind) :
  forall exprs, typed_on (Return_SetVars upn binds exprs).
Proof.
  induction binds as [|b rest IH]; intros exprs st st' H; simpl in H.
  - injection H as <-. eexists. apply typed_here.
  - destruct exprs as [|e es]; [discriminate H|].
    apply bind_Ok in H. destruct H as [s1 [H1 H2]].
    pose proof (SetVar_typed (AsVar b upn) ASSIGN e) as HT.
    destruct (HT _ _ H1) as [d1 T1].
    destruct (IH _ _ _ H2) as [d2 T2].
    eexists. apply (typed_then st s1 st' d1 d2 T1 T2).
    + eapply SetVar_grows; exact H1.
    + apply (Return_SetVars_grows _ _ _ _ _ H2).
Qed.

Lemma Comp_Return_typed (results : list ast_Expr) :
  typed_on (Comp_Return results).
Proof.
  intros st st' H. unfold Comp_Return in H.
  destruct (Return_walk 0 (comp st)) as [[cinfo upn]|]; [|discriminate H].
  assert (Hassign : forall n,
            (exprs <- Comp_Exprs results st ;;
             st1 <- Return_SetVars upn (firstn n (Results cinfo)) exprs st ;;
             Ok (Comp_Append stmtReturn st1)) = Ok st' ->
            exists d, typed (code_of st') (cells st') (length (cells st))
                            (Len st) (Len st') d).
  { intros n Hn.
    apply bind_Ok in Hn. destruct Hn as [exprs [_ Hn]].
    apply bind_Ok in Hn. destruct Hn as [s1 [H1 Hn]].
    injection Hn as <-.
    destruct (Return_SetVars_typed _ _ _ _ _ H1) as [d1 T1].
    eexists. apply (typed_then st s1 _ d1 (fun _ => 0) T1).
    - apply Append_typed. exact I.
    - apply (Return_SetVars_grows _ _ _ _ _ H1).
    - apply grows_Append; reflexivity. }
  cbv zeta in H.
  destruct (Nat.eqb (length results) (length (Results cinfo)));
    [apply (Hassign _ H)|].
  destruct (Nat.eqb (length results) 1).
  - destruct (Nat.eqb (length (Results cinfo)) 0); [discriminate H|].
    unfold returnMultiValues in H.
    apply bind_Ok in H. destruct H as [es [_ H]].
    destruct es as [|e es]; [discriminate H|].
    apply bind_Ok in H. destruct H as [assigns [_ H]].
    injection H as <-. apply Append_typed_on. intros; exact I.
  - destruct (Nat.eqb (length results) 0); [|discriminate H].
    destruct (negb (NamedResults cinfo)); [discriminate H|].
    apply (Hassign _ H).
Qed.

Lemma Comp_Branch_typed (tok : Token) (label : option string) :
  typed_on (Comp_Branch tok label).
Proof.
  intros st st' H. unfold Comp_Branch in H.
  destruct tok; try discriminate H.
  - unfold Comp_Break in H.
    destruct (walk _ 0 (comp st)) as [[upn ip]|].
    + injection H as <-. apply Append_typed_on. intros; exact I.
    + destruct (negb _); discriminate H.
  - unfold Comp_Continue in H.
    destruct (walk _ 0 (comp st)) as [[upn ip]|].
    + injection H as <-. apply Append_typed_on. intros; exact I.
    + destruct (negb _); discriminate H.
Qed.

Lemma Comp_Defer_typed (call : ast_CallExpr) : typed_on (Comp_Defer call).
Proof.
  intros st st' H. unfold Comp_Defer in H.
  apply bind_Ok in H. destruct H as [c [_ H]]. injection H as <-.
  eexists.
  apply (Append_typed
           (deferStmt (Expr_AsX1 (Call_Fun c)) (Call_MakeArgfunsX1 c)
                      (Call_Ellipsis c)) st (cells st) (length (cells st))).
  exact I.
Qed.

Lemma Comp_Go_typed (call : ast_CallExpr) : typed_on (Comp_Go call).
Proof.
  intros st st' H. unfold Comp_Go in H.
  apply bind_Ok in H. destruct H as [c [_ H]]. injection H as <-.
  eexists.
  apply (Append_typed
           (goStmt (Expr_AsX1 (Call_Fun c)) (Call_MakeArgfunsX1 c))
           st (cells st) (length (cells st))).
  reflexivity.
Qed.

(** Every statement compiler emits a stream of complete scopes. *)
Lemma Comp_Stmt_typed (s : ast_Stmt) :
  forall labels, typed_on (Comp_Stmt labels s).
Proof.
  induction s as
    [ | tok node | block IHblock | tok label | d node | d node | decl | call
    | | x | init cond post body IHinit IHpost IHbody | call
    | init cond body else_ IHinit IHbody IHelse | x tok
    | label s IHs | node | results | node | node | node | node | ]
    using ast_Stmt_induction;
    intros labels st st' H; cbn [Comp_Stmt] in H.
  - injection H as <-. eexists. apply typed_here.
  - eapply Assign_typed; exact H.
  - apply (Comp_Block_typed (Comp_Stmt []) block); [| |exact H].
    + apply Forall_forall. intros a _. apply Comp_Stmt_grows.
    + apply (Forall_impl _ (fun a Ha => Ha []) IHblock).
  - apply (Comp_Branch_typed _ _ _ _ H).
  - discriminate H.
  - discriminate H.
  - eapply Decl_typed; exact H.
  - apply (Comp_Defer_typed _ _ _ H).
  - injection H as <-. eexists. apply typed_here.
  - apply bind_Ok in H. destruct H as [e [_ H]].
    destruct (negb (Expr_Const e)).
    + destruct (Expr_AsStmt e).
      * injection H as <-. apply Append_typed_on. intros; reflexivity.
      * injection H as <-. eexists. apply typed_here.
    + injection H as <-. eexists. apply typed_here.
  - apply (Comp_For_typed (Comp_Stmt []) init cond post body labels);
      try apply Comp_Stmt_grows; auto.
    + apply Forall_forall. intros a _. apply Comp_Stmt_grows.
    + apply (Forall_impl _ (fun a Ha => Ha []) IHbody).
  - apply (Comp_Go_typed _ _ _ H).
  - apply (Comp_If_typed (Comp_Stmt []) init cond body else_);
      try apply Comp_Stmt_grows; auto.
    + apply Forall_forall. intros a _. apply Comp_Stmt_grows.
    + apply (Forall_impl _ (fun a Ha => Ha []) IHbody).
  - unfold Comp_IncDec in H.
    apply bind_Ok in H. destruct H as [place [_ H]].
    eapply SetPlace_typed; exact H.
  - apply (IHs _ _ _ H).
  - eapply Range_typed; exact H.
  - apply (Comp_Return_typed _ _ _ H).
  - eapply Select_typed; exact H.
  - eapply Send_typed; exact H.
  - eapply Switch_typed; exact H.
  - eapply TypeSwitch_typed; exact H.
  - discriminate H.
Qed.

End TypedAll.

(* ------------------------------------------------------------------ *)
(** * What runs while control is in a compiled statement *)

Section Runs.
Context {Sx : Syntax} {Hx : Host} {Cx : Collaborators}
        {Dx : Disciplined Cx} {Tx : Structured Cx} {Ex : ExtExec}.

(** While control is in the instructions [seg] compiled for a statement,
    every instruction that runs is one of [seg], up to and including the
    first one that leaves. *)
Lemma Comp_Stmt_runs_inside (s : ast_Stmt) (labels : list string)
    (st st' : CState) (seg more : list Stmt) (m m' : Machine)
    (env env' : Env) (tr : list Stmt) :
  Straight Ex ->
  Comp_Stmt labels s st = Ok st' ->
  code_of st' = code_of st ++ seg ->
  M_Code m = code_of st' ++ more ->
  keeps_from (length (cells st)) (cells st') (M_cells m) ->
  Len st <= IP env <= Len st' ->
  path (Len st') (fetch m (IP env)) env m tr env' m' ->
  Forall (fun i => leaves i = false) (removelast tr) ->
  Forall (fun i => In i seg) tr.
Proof.
  intros HS H Hcode HM HK Hip Hp Hall.
  destruct (Comp_Stmt_typed s labels st st' H) as [d T].
  pose proof (typed_mono _ more _ _ _ (length (cells st)) _ _ _ T HK
                (Nat.le_refl _)) as T'.
  rewrite <- HM in T'.
  pose proof (path_within _ _ _ _ _ _ _ _ _ _ HS Hp eq_refl T' Hip Hall)
    as Hin.
  apply (Forall_impl _ (P := fun i => exists ip,
                            Len st <= ip < Len st' /\
                            nth_error (M_Code m) ip = Some i));
    [|exact Hin].
  intros i [ip [Hr Hnth]].
  rewrite HM in Hnth. unfold Len, Code_Len in Hr.
  fold (code_of st) in Hr. fold (code_of st') in Hr.
  rewrite nth_error_app1 in Hnth by lia.
  rewrite Hcode in Hnth. rewrite nth_error_app2 in Hnth by lia.
  apply (nth_error_In _ _ Hnth).
Qed.

(** An execution from the first of the instructions [seg] compiled for a
    statement to the position after the last one, when all of them go on to
    the next instruction, runs exactly [seg]. *)
Lemma runs_through (st st' : CState) (seg more : list Stmt) (m m' : Machine)
    (env env' : Env) (tr : list Stmt) :
  Straight Ex ->
  code_of st' = code_of st ++ seg ->
  M_Code m = code_of st' ++ more ->
  Forall (fun i => sequential i = true) seg ->
  IP env = Len st ->
  path (Len st') (fetch m (IP env)) env m tr env' m' ->
  IP env' = Len st' ->
  tr = seg.
Proof.
  intros HS Hcode HM Hseq Hip Hp Hend.
  assert (HL : Len st' = length (code_of st) + length seg).
  { unfold Len, Code_Len. fold (code_of st'). rewrite Hcode, length_app.
    reflexivity. }
  assert (Ha : IP env = length (code_of st)) by (rewrite Hip; reflexivity).
  rewrite (path_sequential (code_of st) seg more (Len st') _ env env' m m' tr
             HS Hp eq_refl).
  - rewrite Ha, Nat.sub_diag. reflexivity.
  - rewrite HM, Hcode, <- app_assoc. reflexivity.
  - exact HL.
  - lia.
  - exact Hseq.
  - exact Hend.
Qed.

End Runs.

(* ------------------------------------------------------------------ *)
(** * Claims on the dispatcher, break, continue and return *)

Section ClaimsWalk.
Context {Sx : Syntax} {Hx : Host} {Cx : Collaborators} {Ex : ExtExec}.

(** C10. A nil statement node is a silent no-op of the dispatcher: the state
    (hence the instruction stream) is returned as it is and no error is
    raised, as for the empty statement and also under labels, whereas a
    statement kind that the dispatcher does not know is the fatal error
    "unimplemented statement". *)
Theorem C10_nil_statement_is_noop (labels : list string) (label : string)
    (st : CState) :
  Comp_Stmt labels NilStmt st = Ok st /\
  Comp_Stmt labels (LabeledStmt label NilStmt) st = Ok st /\
  Comp_Stmt labels EmptyStmt st = Ok st /\
  Comp_Stmt labels BadStmt st =
    Err (Errorf "unimplemented statement: %v <%v>" [ArgNode; ArgNode]).
Proof. repeat split; reflexivity. Qed.

Lemma not_defined_or_outside (label : string) (A : Type) (x y : A) :
  (if negb (Nat.eqb (String.length label) 0) then x else y) =
  (if String.eqb label "" then y else x).
Proof. destruct label; reflexivity. Qed.

(** C2 (amended). For a break (resp. continue) statement the compiler walks
    outward through the frames of the scope chain, which stops before the
    first function-root frame. With [o] the nearest frame whose Loop Info has
    a break (resp. continue) slot and, when the statement is labeled, the
    label, it appends a jump to that slot whose up-cost is the sum of the
    up-costs of the frames walked past, and that jump leaves exactly that
    many run-time environments. If no frame matches, compilation fails with
    "break label not defined" (resp. "continue label not defined") when a
    label was given, and otherwise with "break outside for/switch" for break
    and "continue outside for" for continue. *)
Theorem C2_break_continue_resolution (Label : option string) (st : CState) :
  let label := label_of Label in
  let frames := scope_chain (comp st) in
  (forall pre o post ip,
      frames = pre ++ o :: post ->
      (forall x ip', In x pre -> ~ loop_matches Break label x ip') ->
      loop_matches Break label o ip ->
      Comp_Break Label st = Ok (Comp_Append (jumpOut (hops pre) ip) st)) /\
  ((forall x ip', In x frames -> ~ loop_matches Break label x ip') ->
      Comp_Break Label st =
      Err (if String.eqb label ""
           then Errorf "break outside for/switch" []
           else Errorf "break label not defined: %v" [ArgStr label])) /\
  (forall pre o post ip,
      frames = pre ++ o :: post ->
      (forall x ip', In x pre -> ~ loop_matches Continue label x ip') ->
      loop_matches Continue label o ip ->
      Comp_Continue Label st = Ok (Comp_Append (jumpOut (hops pre) ip) st)) /\
  ((forall x ip', In x frames -> ~ loop_matches Continue label x ip') ->
      Comp_Continue Label st =
      Err (if String.eqb label ""
           then Errorf "continue outside for" []
           else Errorf "continue label not defined: %v" [ArgStr label])) /\
  (forall upn ip env m,
      exec (jumpOut upn ip) env m =
      obind (up upn env) (fun env' => jump_to (load ip (M_cells m)) env' m)).
Proof.
  intros label frames. repeat split.
  - intros pre o post ip Hfr Hpre Ho.
    unfold Comp_Break. fold label. rewrite walk_nearest. fold frames.
    rewrite (nearest_found _ _ pre o post ip Hfr).
    + reflexivity.
    + intros x Hin. apply (no_match_None Break Break_target).
      * intros; apply Break_target_spec.
      * intros ip'. apply Hpre. exact Hin.
    + apply Break_target_spec. exact Ho.
  - intros Hno. unfold Comp_Break. fold label. rewrite walk_nearest.
    fold frames. rewrite nearest_none.
    + rewrite not_defined_or_outside. destruct (String.eqb label "");
        reflexivity.
    + intros x Hin. apply (no_match_None Break Break_target).
      * intros; apply Break_target_spec.
      * intros ip'. apply Hno. exact Hin.
  - intros pre o post ip Hfr Hpre Ho.
    unfold Comp_Continue. fold label. rewrite walk_nearest. fold frames.
    rewrite (nearest_found _ _ pre o post ip Hfr).
    + reflexivity.
    + intros x Hin. apply (no_match_None Continue Continue_target).
      * intros; apply Continue_target_spec.
      * intros ip'. apply Hpre. exact Hin.
    + apply Continue_target_spec. exact Ho.
  - intros Hno. unfold Comp_Continue. fold label. rewrite walk_nearest.
    fold frames. rewrite nearest_none.
    + rewrite not_defined_or_outside. destruct (String.eqb label "");
        reflexivity.
    + intros x Hin. apply (no_match_None Continue Continue_target).
      * intros; apply Continue_target_spec.
      * intros ip'. apply Hno. exact Hin.
  - intros. apply exec_jumpOut.
Qed.

(** C3 (amended). A return statement with no enclosing function-root frame
    fails with "return outside function". Otherwise, with [n] the number of
    results of the nearest enclosing function: a return with zero expressions
    is legal exactly when [n] is zero or the results are named, and then the
    only instruction appended is the return-signal instruction; when it is
    not legal, and when the number of expressions is neither 0, nor 1, nor
    [n], compilation fails with the arity error "expecting n expressions,
    found m". *)
Theorem C3_return_arity (resultExprs : list ast_Expr) (st : CState) :
  let found := length resultExprs in
  ((forall x, In x (all_frames (comp st)) -> Func x = None) ->
     Comp_Return resultExprs st = Err (Errorf "return outside function" [])) /\
  (forall pre o post cinfo,
     all_frames (comp st) = pre ++ o :: post ->
     (forall x, In x pre -> Func x = None) ->
     Func o = Some cinfo ->
     let n := length (Results cinfo) in
     (found = 0 -> n = 0 \/ NamedResults cinfo = true ->
        Comp_Return resultExprs st = Ok (Comp_Append stmtReturn st)) /\
     (found = 0 -> n <> 0 -> NamedResults cinfo = false ->
        Comp_Return resultExprs st = Err (Return_arity n 0)) /\
     (found <> 0 -> found <> 1 -> found <> n ->
        Comp_Return resultExprs st = Err (Return_arity n found))).
Proof.
  intros found. split.
  - intros Hno. unfold Comp_Return. rewrite Return_walk_none by exact Hno.
    reflexivity.
  - intros pre o post cinfo Hfr Hpre Ho n.
    unfold Comp_Return.
    rewrite (@Return_walk_found _ (comp st) 0 pre o post cinfo Hfr Hpre Ho).
    fold n. subst found. repeat split.
    + intros Hf Hlegal.
      assert (Hnil : resultExprs = [])
        by (destruct resultExprs; [reflexivity | discriminate Hf]).
      subst resultExprs. cbn [length].
      destruct (Nat.eqb 0 n) eqn:Hn.
      * apply Nat.eqb_eq in Hn. rewrite <- Hn. reflexivity.
      * destruct Hlegal as [H0 | Hnamed].
        -- apply Nat.eqb_neq in Hn. lia.
        -- cbn [Nat.eqb]. rewrite Hnamed. reflexivity.
    + intros Hf Hn Hunnamed. rewrite Hf.
      destruct (Nat.eqb 0 n) eqn:Hn'.
      * apply Nat.eqb_eq in Hn'. lia.
      * cbn [Nat.eqb]. rewrite Hunnamed. reflexivity.
    + intros H0 H1 Hn.
      apply Nat.eqb_neq in H0, H1, Hn. rewrite H0, H1, Hn. reflexivity.
Qed.

End ClaimsWalk.

(* ------------------------------------------------------------------ *)
(** * Claims on defer and go *)

Section ClaimsRuntime.
Context {Sx : Syntax} {Hx : Host} {Cx : Collaborators} {Ex : ExtExec}.

(** C5. Compiling a defer statement appends one instruction and marks the
    code as having defers. When that instruction executes it evaluates, on
    the store of that moment and in order, the function expression and every
    argument expression of the call; what it keeps of each is a copy that is
    not settable, so that whatever the store becomes afterwards the deferred
    call receives what the expression held when it was evaluated. It installs
    the call (a spread call if the source used a variadic spread, a plain
    call otherwise) in the pending-deferred-call slot of the thread, sets the
    signal of the thread to defer-pending, advances the instruction pointer
    and returns the interrupt instruction of the thread. *)
Theorem C5_defer_evaluates_immediately (Call : ast_CallExpr)
    (st st' : CState) :
  Comp_Defer Call st = Ok st' ->
  exists call,
    Comp_prepareCall Call st = Ok call /\
    let fun_ := Expr_AsX1 (Call_Fun call) in
    let argfuns := Call_MakeArgfunsX1 call in
    let ellipsis := Call_Ellipsis call in
    code_of st' = code_of st ++ [deferStmt fun_ argfuns ellipsis] /\
    WithDefers (Comp_Code (comp st')) = true /\
    forall env m next env' m',
      exec (deferStmt fun_ argfuns ellipsis) env m = Some (next, env', m') ->
      exists f0 s1 raw f args g,
        fun_ env (M_store m) = Some (f0, s1) /\
        eval_seq argfuns env s1 = Some (raw, M_store m') /\
        snapshot (f0, s1) f /\
        Forall2 snapshot raw args /\
        (forall v, In v (f :: args) ->
                   forall sa sb, Value_get sa v = Value_get sb v) /\
        nth_error (M_threads m') (Env_ThreadGlobals env) = Some g /\
        InstallDefer g =
          Some (if ellipsis then DeferCallSlice f args else DeferCall f args) /\
        TG_Signal g = SigDefer /\
        next = Interrupt g /\
        env' = set_IP (S (IP env)) env.
Proof.
  unfold Comp_Defer. intros H.
  apply bind_Ok in H. destruct H as [call [Hcall H]].
  injection H as <-. exists call. split; [exact Hcall|].
  cbv zeta. split; [reflexivity|]. split; [reflexivity|].
  intros env m next env' m' Hexec. simpl in Hexec.
  apply obind_Some in Hexec. destruct Hexec as [[f0 s1] [Hf Hexec]].
  apply obind_Some in Hexec. destruct Hexec as [[args s2] [Hargs Hexec]].
  apply obind_Some in Hexec. destruct Hexec as [g0 [Hg Hexec]].
  injection Hexec as <- <- <-.
  destruct (Defer_args_spec _ _ _ _ _ Hargs) as [raw [Hraw Hsnap]].
  exists f0, s1, raw, (if CanSet f0 then Convert s1 f0 else f0), args.
  eexists. split; [exact Hf|]. split; [exact Hraw|].
  split; [apply copy_snapshot|]. split; [exact Hsnap|]. split.
  - intros v [<- | Hin] sa sb.
    + apply (snapshot_stable _ _ (copy_snapshot f0 s1)).
    + destruct (@Forall2_right_In _ _ snapshot raw args v Hsnap Hin) as [x Hx'].
      apply (snapshot_stable _ _ Hx').
  - split.
    + simpl. apply nth_error_update_same with (x := g0). exact Hg.
    + repeat split.
Qed.

(** C9. Compiling a go statement prepares the call in a synthetic child
    frame and appends one instruction. When that instruction executes it
    creates a ThreadGlobals record of its own for the task: the record shares
    with that of the launching thread the file-scope environment, the
    top-level environment and the Globals table, while its signal, interrupt
    instruction, pool and pending defer are zero; the record of the launcher
    keeps its signal and interrupt. The function value and all arguments are
    evaluated in order in the launching thread, in a new environment that
    carries the new record, before the call is started; the step ends by
    handing the call over as a new goroutine, without running it, and the
    launcher goes on to its next instruction. *)
Theorem C9_go_launches_isolated_task (Call : ast_CallExpr) (st st' : CState) :
  Comp_Go Call st = Ok st' ->
  exists call,
    Comp_prepareCall Call
      (mkCState (NewComp (comp st) (Comp_Code (comp st))) (cells st))
      = Ok call /\
    let exprfun := Expr_AsX1 (Call_Fun call) in
    let argfunsX1 := Call_MakeArgfunsX1 call in
    code_of st' = code_of st ++ [goStmt exprfun argfunsX1] /\
    forall env m next env' m',
      exec (goStmt exprfun argfunsX1) env m = Some (next, env', m') ->
      exists tg tg' fresh env2 funv s1 raw,
        let t := Env_ThreadGlobals env in
        nth_error (M_threads m) t = Some tg /\
        M_threads m' = update t tg' (M_threads m) ++ [fresh] /\
        FileEnv fresh = FileEnv tg /\
        TopEnv fresh = TopEnv tg /\
        Globals fresh = Globals tg /\
        TG_Signal fresh = SigNone /\
        Interrupt fresh = None /\
        PoolSize fresh = 0 /\
        Pool fresh = [] /\
        InstallDefer fresh = None /\
        TG_Signal tg' = TG_Signal tg /\
        Interrupt tg' = Interrupt tg /\
        Env_ThreadGlobals env2 = length (M_threads m) /\
        Env_ThreadGlobals env2 <> t /\
        Outer env2 = Some env /\
        exprfun env2 (M_store m) = Some (funv, s1) /\
        eval_seq argfunsX1 env2 s1 = Some (raw, M_store m') /\
        M_spawned m' =
          M_spawned m ++ [mkGoroutine funv (map fst raw) env2] /\
        env' = set_IP (S (IP env)) env /\
        next = nth_error (M_Code m) (S (IP env)).
Proof.
  unfold Comp_Go. intros H.
  apply bind_Ok in H. destruct H as [call [Hcall H]].
  injection H as <-. exists call. split; [exact Hcall|].
  cbv zeta. split; [reflexivity|].
  intros env m next env' m' Hexec. simpl in Hexec.
  unfold NewEnv4Func in Hexec.
  apply obind_Some in Hexec. destruct Hexec as [[env2 m1] [Hnew Hexec]].
  apply obind_Some in Hnew. destruct Hnew as [tg [Htg Hnew]].
  injection Hnew as <- <-.
  apply obind_Some in Hexec. destruct Hexec as [tg1 [Htg1 Hexec]].
  apply obind_Some in Hexec. destruct Hexec as [[funv s1] [Hfun Hexec]].
  apply obind_Some in Hexec. destruct Hexec as [[argv s2] [Hargs Hexec]].
  unfold jump_to in Hexec. injection Hexec as <- <- <-.
  destruct (Go_args_spec _ _ _ _ _ Hargs) as [raw [Hraw ->]].
  simpl in Htg1.
  erewrite nth_error_update_same in Htg1 by exact Htg. injection Htg1 as <-.
  simpl in *. rewrite length_update in *.
  exists tg, (pool_take tg).
  eexists. eexists. exists funv, s1, raw.
  split; [exact Htg|]. split; [reflexivity|].
  assert (Hlt : Env_ThreadGlobals env < length (M_threads m))
    by (apply nth_error_Some; rewrite Htg; discriminate).
  assert (Hpool : TG_Signal (pool_take tg) = TG_Signal tg /\
                  Interrupt (pool_take tg) = Interrupt tg /\
                  FileEnv (pool_take tg) = FileEnv tg /\
                  TopEnv (pool_take tg) = TopEnv tg /\
                  Globals (pool_take tg) = Globals tg)
    by (unfold pool_take; destruct (Pool tg); repeat split).
  destruct Hpool as [Hsig [Hint [Hfile [Htop Hglob]]]].
  simpl. repeat split; auto; try lia.
  cbn [Env_ThreadGlobals]. lia.
Qed.

End ClaimsRuntime.

(* ------------------------------------------------------------------ *)
(** * Claim on a return of the values of one call *)

Section ClaimsReturn.
Context {Sx : Syntax} {Hx : Host} {Cx : Collaborators} {Ex : ExtExec}.





End ClaimsReturn.

(* ------------------------------------------------------------------ *)
(** * Claims on blocks, lists, if and for *)

Section ClaimsScopes.
Context {Sx : Syntax} {Hx : Host} {Cx : Collaborators}
        {Dx : Disciplined Cx}.

Lemma all_grow (nodes : list ast_Stmt) :
  Forall (fun s => grows_on (Comp_Stmt [] s)) nodes.
Proof.
  apply Forall_forall. intros s _. apply Comp_Stmt_grows.
Qed.

(** C1 (amended). When a non-empty statement list L compiles, with
    collaborators that keep their contract, the stream is the stream before,
    then a push-environment instruction if and only if the static pre-scan of
    L finds a local bind, then what the statements of L emit, then a
    pop-environment instruction under the same condition: the pop is emitted
    if and only if the push was. The statements in between emit as many push
    as pop instructions, so the instructions emitted for L contain as many
    push-environment as pop-environment instructions. At run time, when the
    collaborators emit complete scopes and their instructions go on to the
    next instruction, every execution that goes from the first instruction
    of L to the position after its last one, and on which no jump of a break
    or continue, no return and no defer runs, runs as many push-environment
    as pop-environment instructions. *)
Theorem C1_push_and_pop_guarded_alike (L : list ast_Stmt) (st st' : CState) :
  Comp_List (Comp_Stmt []) L st = Ok st' ->
  let nb := length (cells st) in
  exists (locals : bool) (seg : list Stmt) (st2 st3 : CState),
    L <> [] /\
    containLocalBinds L = Ok locals /\
    code_of st2 = code_of st ++ (if locals then [pushEnv nb (S nb)] else []) /\
    Stmts (Comp_Stmt []) L st2 = Ok st3 /\
    code_of st3 = code_of st2 ++ seg /\
    code_of st' = code_of st3 ++ (if locals then [popEnv] else []) /\
    count_push seg = count_pop seg /\
    let emitted := (if locals then [pushEnv nb (S nb)] else []) ++ seg
                   ++ (if locals then [popEnv] else []) in
    code_of st' = code_of st ++ emitted /\
    count_push emitted = count_pop emitted /\
    (Structured Cx ->
     forall (Ex : ExtExec) (more : list Stmt) (m m' : Machine)
            (env env' : Env) (tr : list Stmt),
       Straight Ex ->
       M_Code m = code_of st' ++ more ->
       keeps_from nb (cells st') (M_cells m) ->
       path (Len st') (fetch m (IP env)) env m tr env' m' ->
       IP env = Len st -> IP env' = Len st' ->
       Forall (fun i => leaves i = false) tr ->
       count_push tr = count_pop tr).
Proof.
  intros H nb.
  destruct (Comp_List_shape (Comp_Stmt []) L st st' (all_grow L) H)
    as [seg [st3 [Hne [Hbal [Hstmts [Hcode3 [Hpop [Hext _]]]]]]]].
  fold nb in Hstmts, Hcode3, Hpop, Hext.
  set (locals := existsb stmt_declares L) in *.
  set (st2 := fst (pushEnvIfFlag nb (S nb) locals (snd (alloc 2 st)))) in *.
  exists locals, seg, st2, st3.
  split; [exact Hne|]. split.
  { unfold containLocalBinds. destruct L; [congruence | reflexivity]. }
  split.
  { apply (pushEnvIfFlag_facts nb (S nb) locals (snd (alloc 2 st))). }
  split; [exact Hstmts|]. split; [exact Hcode3|]. split.
  { apply popEnvIfLocalBinds_Ok in Hpop.
    destruct Hpop as [c [_ [Hc _]]]. exact Hc. }
  split; [exact Hbal|]. cbv zeta. split; [apply (eb_code Hext)|].
  split; [apply balanced_push_pop; [reflexivity | reflexivity | exact Hbal]|].
  intros Tx Ex more m m' env env' tr HS Hcode Hcells Hpath Ha Hb Hall.
  assert (Hty : Forall (fun s => typed_on (Comp_Stmt [] s)) L).
  { apply Forall_forall. intros s _. apply Comp_Stmt_typed. }
  destruct (Comp_List_typed (Comp_Stmt []) L (all_grow L) Hty st st' H)
    as [d T].
  apply (path_balanced nb (Len st) (Len st') d env env' m m' tr HS);
    try assumption.
  rewrite Hcode.
  apply (typed_mono _ more (cells st') _ nb nb _ _ d T Hcells).
  apply Nat.le_refl.
Qed.

Lemma Token_eqb_eq (a b : Token) : Token_eqb a b = true <-> a = b.
Proof.
  split.
  - destruct a, b; simpl; intros H; try discriminate H; reflexivity.
  - intros <-. destruct a; reflexivity.
Qed.

Lemma has_non_blank_spec (names : list string) :
  has_non_blank names = true <-> exists name, In name names /\ name <> "_".
Proof.
  unfold has_non_blank. rewrite existsb_exists. split.
  - intros [name [Hin Hneq]]. exists name. split; [exact Hin|].
    apply negb_true_iff in Hneq. apply String.eqb_neq. exact Hneq.
  - intros [name [Hin Hneq]]. exists name. split; [exact Hin|].
    apply negb_true_iff. apply String.eqb_neq. exact Hneq.
Qed.

(** What the pre-scan [containLocalBinds] looks for in one statement. *)
Lemma stmt_declares_spec (s : ast_Stmt) :
  stmt_declares s = true <->
  (exists node, s = AssignStmt DEFINE node) \/
  (exists name body, s = DeclStmt (FuncDecl (Some name) body) /\ name <> "_")
  \/
  (exists specs names body name,
      s = DeclStmt (GenDecl VAR specs) /\
      In (ValueSpec names body) specs /\ In name names /\ name <> "_").
Proof.
  split.
  - destruct s as [ | tok node | | | | | decl | | | | | | | | | | | | | | | ];
      simpl; try discriminate.
    + intros H. apply Token_eqb_eq in H. subst tok.
      left. exists node. reflexivity.
    + destruct decl as [[name|] body | tok specs | ]; try discriminate.
      * intros H. apply negb_true_iff, String.eqb_neq in H.
        right. left. exists name, body. split; [reflexivity | exact H].
      * destruct (Token_eqb tok VAR) eqn:Htok; [|discriminate].
        apply Token_eqb_eq in Htok. subst tok.
        unfold specs_declare. rewrite existsb_exists.
        intros [[names body | body] [Hin H]]; [|discriminate H].
        apply has_non_blank_spec in H. destruct H as [name [Hname Hneq]].
        right. right. exists specs, names, body, name.
        repeat split; assumption.
  - intros [[node ->] | [[name [body [-> Hneq]]]
                        | [specs [names [body [name [-> [Hin [Hname Hneq]]]]]]]]];
      simpl.
    + reflexivity.
    + apply negb_true_iff, String.eqb_neq. exact Hneq.
    + unfold specs_declare. rewrite existsb_exists.
      exists (ValueSpec names body). split; [exact Hin|].
      apply has_non_blank_spec. exists name. split; assumption.
Qed.

(** C8. A block with zero statements compiles to nothing. A non-empty block
    whose direct statements declare nothing (no assignment with declaration,
    no local function with a name other than the blank one, no var
    declaration of a name other than the blank one; nested blocks are not
    examined) has its statements compiled in a fresh frame of up-cost 0 that
    holds no declaration and whose parent is the current frame; no
    instruction is emitted before its statements and none after them, so no
    push and no pop of its own, and what comes back is the current frame
    with nothing but its instruction stream changed. *)
Theorem C8_block_without_local_binds (labels : list string)
    (block : list ast_Stmt) (st st' : CState) :
  Comp_Stmt labels (BlockStmt []) st = Ok st /\
  (block <> [] ->
   (forall s, In s block ->
      (forall node, s <> AssignStmt DEFINE node) /\
      (forall name body,
          s = DeclStmt (FuncDecl (Some name) body) -> name = "_") /\
      (forall specs names body name,
          s = DeclStmt (GenDecl VAR specs) ->
          In (ValueSpec names body) specs -> In name names -> name = "_")) ->
   Comp_Stmt labels (BlockStmt block) st = Ok st' ->
   let inner := mkCState (block_frame (comp st)) (cells st ++ [0; 0]) in
   exists st3,
     UpCost (comp inner) = 0 /\
     Decls (comp inner) = noDecls /\
     BindNum (comp inner) = 0 /\
     Comp_Outer (comp inner) = Some (comp st) /\
     code_of inner = code_of st /\
     Stmts (Comp_Stmt []) block inner = Ok st3 /\
     code_of st' = code_of st3 /\
     comp st' = set_Code (Comp_Code (comp st')) (comp st)).
Proof.
  split; [reflexivity|].
  intros Hne Hnone H inner.
  assert (Hno : existsb stmt_declares block = false).
  { apply not_true_is_false. intros Hex.
    apply existsb_exists in Hex. destruct Hex as [s [Hin Hs]].
    destruct (Hnone s Hin) as [Ha [Hf Hv]].
    apply stmt_declares_spec in Hs.
    destruct Hs as [[node ->] | [[name [body [-> Hneq]]]
                   | [specs [names [body [name [-> [Hsp [Hname Hneq]]]]]]]]].
    - apply (Ha node). reflexivity.
    - apply Hneq. apply (Hf name body). reflexivity.
    - apply Hneq. apply (Hv specs names body name eq_refl Hsp Hname). }
  cbn [Comp_Stmt] in H. unfold Comp_Block in H.
  assert (HL : Comp_List (Comp_Stmt []) block st = Ok st')
    by (destruct block; [congruence | exact H]).
  destruct (Comp_List_shape (Comp_Stmt []) block st st' (all_grow block) HL)
    as [seg [st3 [_ [_ [Hstmts [_ [Hpop [_ Hframe]]]]]]]].
  rewrite Hno in Hstmts, Hpop.
  exists st3. repeat split; auto.
  apply popEnvIfLocalBinds_Ok in Hpop.
  destruct Hpop as [c [_ [Hc _]]]. rewrite Hc, app_nil_r. reflexivity.
Qed.

(** C6. An if statement compiles both of its branches whatever its
    condition: after the push of its init statement, if that declares, and
    the init statement, the then branch is compiled from the position
    recorded in the Then slot, and a present else branch from the position
    recorded in the Else slot, so that the statement compiles only if both
    branches do. When the condition is a compile-time constant no test and no
    jump are emitted, the else branch is compiled from where the then branch
    started if the constant is false, and what the statement adds to the
    stream is the push, the instructions of the init statement, those of the
    then branch alone if the constant is true and those of the else branch
    alone if it is false, and the pop. At run time, for collaborators whose
    instructions are made of complete scopes and go on to the next
    instruction, every instruction that runs while control is in the
    statement is one of those, up to and including the first one that
    leaves; and when those instructions all go on to the next one, an
    execution from the first instruction of the statement to the position
    after its last one runs exactly them, in that order. *)
Theorem C6_constant_if_keeps_one_branch (labels : list string)
    (Init : ast_Stmt) (Cond : ast_Expr) (Body : list ast_Stmt)
    (Else : ast_Stmt) (st st' : CState) :
  Comp_Stmt labels (IfStmt Init Cond Body Else) st = Ok st' ->
  let low := length (cells st) in
  let locals := existsb stmt_declares [Init] in
  let opening := if locals then [pushEnv (low + 3) (S (low + 3))] else [] in
  let closing := if locals then [popEnv] else [] in
  let st2 := fst (pushEnvIfFlag (low + 3) (S (low + 3)) locals
                    (snd (alloc 2 (snd (alloc 3 st))))) in
  exists st3 pred flag fun_ seg_init seg_then seg_else s6,
    code_of st2 = code_of st ++ opening /\
    (if is_nil Init then Ok st2 else Comp_Stmt [] Init st2) = Ok st3 /\
    code_of st3 = code_of st2 ++ seg_init /\
    Comp_Expr Cond st3 = Ok pred /\
    Expr_TryAsPred pred = (flag, fun_, false) /\
    let test := match fun_ with
                | Some f => [ifCond f low (S low)]
                | None => []
                end in
    let skip := match fun_ with
                | Some _ => if negb (is_nil Else)
                            then [ifJumpEnd (S (S low))] else []
                | None => []
                end in
    let kept_then := match fun_ with
                     | None => if negb flag then [] else seg_then
                     | Some _ => seg_then
                     end in
    let s5 := write low (length (code_of st3 ++ test))
                (with_code (code_of st3 ++ test) st3) in
    let s9 := write (S low)
                (length (code_of st3 ++ test ++ kept_then ++ skip))
                (with_code (code_of st3 ++ test ++ kept_then ++ skip) s6) in
    Comp_Block (Comp_Stmt []) Body s5 = Ok s6 /\
    code_of s6 = code_of s5 ++ seg_then /\
    (is_nil Else = true -> seg_else = []) /\
    (is_nil Else = false ->
     exists s10, If_else (Comp_Stmt []) Else s9 = Ok s10 /\
                 code_of s10 = code_of s9 ++ seg_else) /\
    (fun_ = None ->
     let kept := if flag then seg_then else seg_else in
     code_of s5 = code_of st3 /\
     code_of s9 = code_of st3 ++ (if flag then seg_then else []) /\
     code_of st' = code_of st ++ opening ++ seg_init ++ kept ++ closing /\
     (forall (Tx : Structured Cx) (Ex : ExtExec) (more : list Stmt)
             (m m' : Machine) (env env' : Env) (tr : list Stmt),
       Straight Ex ->
       M_Code m = code_of st' ++ more ->
       keeps_from low (cells st') (M_cells m) ->
       Len st <= IP env <= Len st' ->
       path (Len st') (fetch m (IP env)) env m tr env' m' ->
       Forall (fun i => leaves i = false) (removelast tr) ->
       Forall (fun i => In i (opening ++ seg_init ++ kept ++ closing)) tr) /\
     forall (Ex : ExtExec) (more : list Stmt) (m m' : Machine)
            (env env' : Env) (tr : list Stmt),
       Straight Ex ->
       M_Code m = code_of st' ++ more ->
       Forall (fun i => sequential i = true)
              (opening ++ seg_init ++ kept ++ closing) ->
       IP env = Len st ->
       path (Len st') (fetch m (IP env)) env m tr env' m' ->
       IP env' = Len st' ->
       tr = opening ++ seg_init ++ kept ++ closing).
Proof.
  intros H low locals opening closing st2.
  pose proof H as H0. cbn [Comp_Stmt] in H.
  destruct (Comp_If_shape (Comp_Stmt []) Init Cond Body Else st st'
              (Comp_Stmt_grows Init []) (all_grow Body)
              (Comp_Stmt_grows Else []) H)
    as [st3 [pred [flag [fun_ [seg_init [seg_then [seg_else
       [Hinit [Hc3 [_ [Hpred [Htry [_ [_ [Hbr [Hext _]]]]]]]]]]]]]]]].
  cbv zeta in Hbr.
  destruct Hbr as [s5 [s6 [s9 [Hc5 [Hbody [Hc6 [Hc9 [Hnil [Helse Hrest]]]]]]]]].
  destruct Hrest as [_ [_ [_ [_ [_ [_ [_ [Hs5 Hs9]]]]]]]].
  fold low in Hinit, Hc3, Hs5, Hs9, Hext. fold locals in Hinit, Hc3, Hext.
  fold st2 in Hinit, Hc3.
  destruct (pushEnvIfFlag_facts (low + 3) (S (low + 3)) locals
              (snd (alloc 2 (snd (alloc 3 st))))) as [Hc2 _].
  fold st2 in Hc2.
  change (code_of (snd (alloc 2 (snd (alloc 3 st))))) with (code_of st)
    in Hc2.
  fold opening in Hc2.
  exists st3, pred, flag, fun_, seg_init, seg_then, seg_else, s6.
  split; [exact Hc2|]. split; [exact Hinit|]. split; [exact Hc3|].
  split; [exact Hpred|]. split; [exact Htry|].
  cbv zeta. rewrite <- Hs5, <- Hs9.
  split; [exact Hbody|]. split; [exact Hc6|]. split; [exact Hnil|].
  split.
  { intros Hf. destruct (Helse Hf) as [s10 [Hs10 [Hc10 _]]].
    exists s10. split; [exact Hs10 | exact Hc10]. }
  intros Hfun. subst fun_.
  pose proof (eb_code Hext) as Hc'. cbv zeta in Hc'.
  rewrite app_nil_r in Hc5. rewrite app_nil_l, app_nil_r in Hc9.
  assert (Hfinal : code_of st' =
                   code_of st ++ opening ++ seg_init
                   ++ (if flag then seg_then else seg_else) ++ closing).
  { rewrite Hc'. fold opening. fold closing. f_equal. f_equal.
    rewrite <- !app_assoc.
    destruct flag; simpl; rewrite ?app_nil_r; reflexivity. }
  split; [exact Hc5|]. split.
  { rewrite Hc9. destruct flag; reflexivity. }
  split; [exact Hfinal|]. split.
  - intros Tx Ex more m m' env env' tr HS HM HK Hip Hp Hall.
    apply (Comp_Stmt_runs_inside (IfStmt Init Cond Body Else)
             labels st st' _ more m m' env env' tr HS H0 Hfinal HM HK Hip Hp
             Hall).
  - intros Ex more m m' env env' tr HS HM Hseq Hip Hp Hend.
    apply (runs_through st st' _ more m m' env env' tr HS Hfinal HM Hseq Hip
             Hp Hend).
Qed.

(** C7 (amended). A for statement with a condition compiles, after the push
    of its init statement, if that declares, and the init statement, its
    body in the frame of the loop and then its post statement, so that it
    compiles only if they do. When the condition is the compile-time constant
    false no test is emitted, and the range compiled from the position
    recorded before the loop test is made of the instructions of the body,
    those of the post statement and the jump back to the condition: it is
    not empty because of that jump, whatever body and post emit. That range
    contributes nothing to the final stream: what the statement adds is the
    push, the instructions of the init statement and the pop; the Cond slot
    and the Break slot, recorded after the cut, hold the recorded position.
    At run time, for collaborators whose instructions are made of complete
    scopes and go on to the next instruction, every instruction that runs
    while control is in the statement is one of the push, the init
    statement and the pop, up to and including the first one that leaves;
    and when those instructions all go on to the next one, an execution from
    the first instruction of the statement to the position after its last
    one runs exactly them, in that order. *)
Theorem C7_constant_false_for_is_dropped (labels : list string)
    (Init : ast_Stmt) (cond : ast_Expr) (Post : ast_Stmt)
    (Body : list ast_Stmt) (st st' : CState) :
  Comp_Stmt labels (ForStmt Init (Some cond) Post Body) st = Ok st' ->
  let low := length (cells st) in
  let locals := existsb stmt_declares [Init] in
  let opening := if locals then [pushEnv low (S low)] else [] in
  let closing := if locals then [popEnv] else [] in
  let st2 := fst (pushEnvIfFlag low (S low) locals (snd (alloc 2 st))) in
  exists st3 pred flag fun_ seg_init seg_body seg_post s8 s9,
    code_of st2 = code_of st ++ opening /\
    (if is_nil Init then Ok st2 else Comp_Stmt [] Init st2) = Ok st3 /\
    code_of st3 = code_of st2 ++ seg_init /\
    Comp_Expr cond st3 = Ok pred /\
    Expr_TryAsPred pred = (flag, fun_, false) /\
    let jump := length (cells st3) in
    let test := match fun_ with
                | Some f => [forCond f (S (S jump))]
                | None => []
                end in
    let s7 := with_code (code_of st3 ++ test)
                (write jump (length (code_of st3))
                   (with_comp
                      (set_Loop (Some (mkLoopInfo (Some (S jump))
                                                  (Some (S (S jump)))
                                                  (sort_Strings labels))))
                      (snd (alloc 3 st3)))) in
    Comp_Block (Comp_Stmt []) Body s7 = Ok s8 /\
    code_of s8 = code_of s7 ++ seg_body /\
    (is_nil Post = true -> seg_post = []) /\
    (is_nil Post = false ->
     containLocalBinds [Post] = Ok false /\
     Comp_Stmt [] Post (write (S jump) (Len s8) s8) = Ok s9) /\
    code_of s9 = code_of s8 ++ seg_post /\
    (fun_ = None -> flag = false ->
     let compiled := seg_body ++ seg_post ++ [forJump jump] in
     code_of s7 = code_of st3 /\
     code_of (Comp_Append (forJump jump) s9) = code_of st3 ++ compiled /\
     length (code_of st3) < length (code_of st3 ++ compiled) /\
     load jump (cells st') = length (code_of st3) /\
     load (S (S jump)) (cells st') = length (code_of st3) /\
     code_of st' = code_of st ++ opening ++ seg_init ++ closing /\
     (forall (Tx : Structured Cx) (Ex : ExtExec) (more : list Stmt)
             (m m' : Machine) (env env' : Env) (tr : list Stmt),
       Straight Ex ->
       M_Code m = code_of st' ++ more ->
       keeps_from low (cells st') (M_cells m) ->
       Len st <= IP env <= Len st' ->
       path (Len st') (fetch m (IP env)) env m tr env' m' ->
       Forall (fun i => leaves i = false) (removelast tr) ->
       Forall (fun i => In i (opening ++ seg_init ++ closing)) tr) /\
     forall (Ex : ExtExec) (more : list Stmt) (m m' : Machine)
            (env env' : Env) (tr : list Stmt),
       Straight Ex ->
       M_Code m = code_of st' ++ more ->
       Forall (fun i => sequential i = true)
              (opening ++ seg_init ++ closing) ->
       IP env = Len st ->
       path (Len st') (fetch m (IP env)) env m tr env' m' ->
       IP env' = Len st' ->
       tr = opening ++ seg_init ++ closing).
Proof.
  intros H low locals opening closing st2.
  pose proof H as H0. cbn [Comp_Stmt] in H.
  destruct (Comp_For_shape (Comp_Stmt []) Init (Some cond) Post Body labels
              st st' (Comp_Stmt_grows Init []) (Comp_Stmt_grows Post [])
              (all_grow Body) H)
    as [st3 [flag [fun_ [seg_init [seg_body [seg_post
       [Hinit [Hc3 [_ [Hpred [_ [_ [Hbr [Hext [Hjc [Hjb _]]]]]]]]]]]]]]]].
  cbv zeta in Hbr.
  destruct Hbr as [s7 [s8 [s9 [_ [Hc7 [Hbody [Hc8 [Hpost [Hc9 [Hnil Hrest]]]]]]]]]].
  destruct Hrest as [_ [_ [_ [_ [_ [_ [_ [_ [_ Hs7]]]]]]]]].
  fold low in Hinit, Hc3, Hext. fold locals in Hinit, Hc3, Hext.
  fold st2 in Hinit, Hc3.
  destruct (pushEnvIfFlag_facts low (S low) locals (snd (alloc 2 st)))
    as [Hc2 _].
  fold st2 in Hc2.
  change (code_of (snd (alloc 2 st))) with (code_of st) in Hc2.
  fold opening in Hc2.
  destruct (For_pred_Some _ _ _ _ Hpred) as [pred [Hexpr Htry]].
  exists st3, pred, flag, fun_, seg_init, seg_body, seg_post, s8, s9.
  split; [exact Hc2|]. split; [exact Hinit|]. split; [exact Hc3|].
  split; [exact Hexpr|]. split; [exact Htry|].
  cbv zeta. rewrite <- Hs7.
  split; [exact Hbody|]. split; [exact Hc8|]. split; [exact Hnil|].
  split; [exact Hpost|]. split; [exact Hc9|].
  intros Hfun Hflag. subst fun_ flag. cbv zeta in *.
  pose proof (eb_code Hext) as Hc'.
  rewrite app_nil_r in Hc7. simpl in Hjb. rewrite Nat.add_0_r in Hjb.
  assert (Hfinal : code_of st' =
                   code_of st ++ opening ++ seg_init ++ closing).
  { rewrite Hc'. fold opening. fold closing. simpl.
    rewrite app_nil_r. reflexivity. }
  split; [exact Hc7|]. split.
  { unfold code_of at 1. simpl. fold (code_of s9).
    rewrite Hc9, Hc8, Hc7. rewrite <- !app_assoc. reflexivity. }
  split; [rewrite !length_app; simpl; lia|].
  split; [exact Hjc|]. split; [exact Hjb|]. split; [exact Hfinal|]. split.
  - intros Tx Ex more m m' env env' tr HS HM HK Hip Hp Hall.
    apply (Comp_Stmt_runs_inside (ForStmt Init (Some cond) Post Body)
             labels st st' _ more m m' env env' tr HS H0 Hfinal HM HK Hip Hp
             Hall).
  - intros Ex more m m' env env' tr HS HM Hseq Hip Hp Hend.
    apply (runs_through st st' _ more m m' env env' tr HS Hfinal HM Hseq Hip
             Hp Hend).
Qed.

End ClaimsScopes.

(* ------------------------------------------------------------------ *)
(** * Further properties: what every statement compiler keeps *)

Section ExtrasStructure.
Context {Sx : Syntax} {Hx : Host} {Cx : Collaborators}
        {Dx : Disciplined Cx} {Tx : Structured Cx}.

(** X1. Whatever the statement, when it compiles (with collaborators that
    keep their contract) the instruction stream after is the stream before
    followed by new instructions: nothing that was there is removed or
    replaced, also when a for or an if statement drops code of its own. The
    new instructions hold as many push-environment as pop-environment
    instructions, the patchable integers that existed keep their values, and
    the current frame has the enclosing frame it had. *)
Theorem X1_statement_only_appends (labels : list string) (s : ast_Stmt)
    (st st' : CState) :
  Comp_Stmt labels s st = Ok st' ->
  exists seg,
    code_of st' = code_of st ++ seg /\
    count_push seg = count_pop seg /\
    (exists h, cells st' = cells st ++ h) /\
    Comp_Outer (comp st') = Comp_Outer (comp st).
Proof.
  intros H. destruct (Comp_Stmt_grows s labels st st' H) as [seg [Hbal E]].
  exists seg. split; [apply (eb_code E)|]. split; [exact Hbal|].
  split; [apply (eb_cells E) | apply (eb_outer E)].
Qed.

Lemma Comp_Block_frame (block : list ast_Stmt) (st st' : CState) :
  Comp_Block (Comp_Stmt []) block st = Ok st' ->
  comp st' = set_Code (Comp_Code (comp st')) (comp st).
Proof.
  intros H. unfold Comp_Block in H.
  destruct block as [|node rest] eqn:Hblock.
  - injection H as <-. symmetry. apply set_Code_same.
  - rewrite <- Hblock in H.
    assert (Hg : Forall (fun s => grows_on (Comp_Stmt [] s)) block).
    { apply Forall_forall. intros a _. apply Comp_Stmt_grows. }
    destruct (Comp_List_shape (Comp_Stmt []) block st st' Hg H)
      as [seg [st3 [_ [_ [_ [_ [_ [_ Hframe]]]]]]]].
    exact Hframe.
Qed.

(** X2. A block, a for statement, an if statement and a go statement, also
    under labels, give back the frame they were called in with nothing but
    its code changed: the numbers of bindings, the up-cost, the depth, the
    Loop Info, the function info, the declarations and the enclosing frame
    are what they were. What is declared inside, the init statement of a for
    or if included, and the Loop Info of a for, are not seen after it. *)
Theorem X2_scoped_statement_restores_frame (s : ast_Stmt) :
  forall (labels : list string) (st st' : CState),
    scoped s = true ->
    Comp_Stmt labels s st = Ok st' ->
    comp st' = set_Code (Comp_Code (comp st')) (comp st).
Proof.
  assert (Hg : forall l, Forall (fun a => grows_on (Comp_Stmt [] a)) l).
  { intros l. apply Forall_forall. intros a _. apply Comp_Stmt_grows. }
  induction s; intros labels st st' Hs H; try discriminate Hs;
    cbn [Comp_Stmt] in H.
  - apply (Comp_Block_frame _ _ _ H).
  - destruct (Comp_For_shape (Comp_Stmt []) _ _ _ _ labels st st'
                (Comp_Stmt_grows _ []) (Comp_Stmt_grows _ []) (Hg _) H)
      as [st3 [flag [fun_ [seg_init [seg_body [seg_post
         [_ [_ [_ [_ [_ [_ [_ [_ [_ [_ Hframe]]]]]]]]]]]]]]]].
    exact Hframe.
  - unfold Comp_Go in H.
    apply bind_Ok in H. destruct H as [c [_ H]]. injection H as <-.
    reflexivity.
  - destruct (Comp_If_shape (Comp_Stmt []) _ _ _ _ st st'
                (Comp_Stmt_grows _ []) (Hg _) (Comp_Stmt_grows _ []) H)
      as [st3 [pred [flag [fun_ [seg_init [seg_then [seg_else
         [_ [_ [_ [_ [_ [_ [_ [_ [_ [_ [_ [_ Hframe]]]]]]]]]]]]]]]]]]].
    exact Hframe.
  - apply (IHs _ _ _ Hs H).
Qed.

(** X3. The jumps that a compiled statement holds for its loops and its if
    statements stay inside it: the patchable integer read by a loop test, a
    jump back, an if test or a jump over an else branch was allocated by the
    statement itself, and the position it holds when the statement is
    compiled lies between the first instruction of the statement and the
    position after its last one. Only the jump of a break or continue can
    leave the statement. *)
Theorem X3_jumps_stay_inside (labels : list string) (s : ast_Stmt)
    (st st' : CState) (ip : nat) (i : Stmt) (c : cell) :
  Comp_Stmt labels s st = Ok st' ->
  Len st <= ip < Len st' ->
  nth_error (code_of st') ip = Some i ->
  In c (jump_slots i) ->
  length (cells st) <= c < length (cells st') /\
  Len st <= load c (cells st') <= Len st'.
Proof.
  intros H Hip Hnth Hin.
  destruct (Comp_Stmt_typed s labels st st' H) as [d T].
  pose proof (ty_instr T Hip Hnth) as Hok.
  destruct i; simpl in Hin, Hok; try contradiction.
  - destruct Hin as [<-|[]]. destruct Hok as [_ [Hc [Hr _]]]. split; assumption.
  - destruct Hin as [<-|[]]. destruct Hok as [Hc [Hr _]]. split; assumption.
  - destruct Hok as [[Hc1 [Hr1 _]] [Hc2 [Hr2 _]]].
    destruct Hin as [<-|[<-|[]]]; split; assumption.
  - destruct Hin as [<-|[]]. destruct Hok as [Hc [Hr _]]. split; assumption.
Qed.

(** X4. An execution of a compiled statement that goes from its first
    instruction to the position after its last one, however many times it
    goes round the loops of the statement, and on which no jump of a break
    or continue, no return and no defer runs, runs as many push-environment
    as pop-environment instructions. The instructions of the collaborators
    are taken to go on to the next instruction; the machine may hold more
    code after the statement and later values in the patchable integers of
    the statements around it. *)
Theorem X4_statement_runs_balanced {Ex : ExtExec} (labels : list string)
    (s : ast_Stmt) (st st' : CState) (more : list Stmt) (m m' : Machine)
    (env env' : Env) (tr : list Stmt) :
  Straight Ex ->
  Comp_Stmt labels s st = Ok st' ->
  M_Code m = code_of st' ++ more ->
  keeps_from (length (cells st)) (cells st') (M_cells m) ->
  path (Len st') (fetch m (IP env)) env m tr env' m' ->
  IP env = Len st -> IP env' = Len st' ->
  Forall (fun i => leaves i = false) tr ->
  count_push tr = count_pop tr.
Proof.
  intros HS H Hcode Hcells Hpath Ha Hb Hall.
  destruct (Comp_Stmt_typed s labels st st' H) as [d T].
  apply (path_balanced (length (cells st)) (Len st) (Len st') d env env' m m'
           tr HS); try assumption.
  rewrite Hcode.
  apply (typed_mono _ more (cells st') _ _ _ _ _ d T Hcells).
  apply Nat.le_refl.
Qed.

End ExtrasStructure.

(* ------------------------------------------------------------------ *)
(** * Further properties: pushes, pops and the numbers of bindings *)

Section ExtrasScopes.
Context {Sx : Syntax} {Hx : Host} {Cx : Collaborators}
        {Dx : Disciplined Cx}.

Lemma firstn_store_above (low p v : nat) (h : list nat) :
  low <= p -> firstn low (store p v h) = firstn low h.
Proof.
  intros Hp. pose (s := mkCState (mkComp 0 0 0 0 (mkCode [] false) None None
                                         noDecls None) h).
  apply (sp_low (steps_write low p v s Hp)).
Qed.

Lemma declared_iff (b ib : nat) :
  negb (Nat.eqb b 0) || negb (Nat.eqb ib 0) = true <-> b <> 0 \/ ib <> 0.
Proof.
  rewrite orb_true_iff, !negb_true_iff, !Nat.eqb_neq. reflexivity.
Qed.

(** The state in which [Comp.List] compiles the statements of a list. *)
Lemma list_inner_state (nodes : list ast_Stmt) (st st3 : CState) :
  let nb := length (cells st) in
  let st2 := fst (pushEnvIfFlag nb (S nb) (existsb stmt_declares nodes)
                    (snd (alloc 2 st))) in
  Stmts (Comp_Stmt []) nodes st2 = Ok st3 ->
  nb + 2 <= length (cells st3) /\
  Comp_Outer (comp st3)
  = Some (set_Code (Comp_Code (comp st2)) (comp st)).
Proof.
  intros nb st2 H.
  destruct (pushEnvIfFlag_facts nb (S nb) (existsb stmt_declares nodes)
              (snd (alloc 2 st))) as [_ [Hh2 [Ho2 _]]].
  fold st2 in Hh2, Ho2.
  assert (Hg : Forall (fun a => grows_on (Comp_Stmt [] a)) nodes).
  { apply Forall_forall. intros a _. apply Comp_Stmt_grows. }
  destruct (Stmts_grows (Comp_Stmt []) nodes Hg _ _ H) as [seg [_ E]].
  split.
  - pose proof (ext_by_length _ _ _ E) as Hlen. rewrite Hh2 in Hlen.
    simpl in Hlen. rewrite length_app in Hlen. simpl in Hlen.
    fold nb in Hlen. lia.
  - rewrite (eb_outer E). exact Ho2.
Qed.

(** X5. When a statement list compiles, the two patchable integers that its
    push-environment instruction reads hold the numbers of bindings and of
    integer bindings that the frame of the list has declared when its last
    statement is compiled, and the pre-scan found a local bind exactly when
    one of the two numbers is not zero. *)
Theorem X5_list_records_bind_counts (nodes : list ast_Stmt)
    (st st' : CState) :
  Comp_List (Comp_Stmt []) nodes st = Ok st' ->
  let nb := length (cells st) in
  let locals := existsb stmt_declares nodes in
  exists st3,
    Stmts (Comp_Stmt []) nodes
          (fst (pushEnvIfFlag nb (S nb) locals (snd (alloc 2 st)))) = Ok st3 /\
    load nb (cells st') = BindNum (comp st3) /\
    load (S nb) (cells st') = IntBindNum (comp st3) /\
    (locals = true <->
     BindNum (comp st3) <> 0 \/ IntBindNum (comp st3) <> 0).
Proof.
  intros H nb locals.
  assert (Hg : Forall (fun a => grows_on (Comp_Stmt [] a)) nodes).
  { apply Forall_forall. intros a _. apply Comp_Stmt_grows. }
  destruct (Comp_List_shape (Comp_Stmt []) nodes st st' Hg H)
    as [seg [st3 [_ [_ [Hstmts [_ [Hpop _]]]]]]].
  fold nb locals in Hstmts, Hpop.
  destruct (list_inner_state nodes st st3 Hstmts) as [Hlen _]. fold nb in Hlen.
  apply popEnvIfLocalBinds_Ok in Hpop.
  destruct Hpop as [c [_ [_ [Hcells [_ Hloc]]]]].
  exists st3. split; [exact Hstmts|]. rewrite Hcells. split; [|split].
  - rewrite load_store_other by lia. apply load_store_same. lia.
  - apply load_store_same. rewrite length_store. lia.
  - rewrite Hloc at 1. apply declared_iff.
Qed.

(** X6. A statement list whose statements compile, but for which the
    pre-scan and the bindings actually declared disagree, does not compile:
    the list fails with the internal error of [popEnvIfLocalBinds], whose
    arguments are what the pre-scan returned and the two numbers of bindings
    declared. The pre-scan looks at no statement under a label, so a list
    whose only declaration is a labeled [x := e] fails in this way. *)
Theorem X6_list_fails_on_prescan_mismatch (nodes : list ast_Stmt)
    (st st3 : CState) :
  let nb := length (cells st) in
  let locals := existsb stmt_declares nodes in
  Stmts (Comp_Stmt []) nodes
        (fst (pushEnvIfFlag nb (S nb) locals (snd (alloc 2 st)))) = Ok st3 ->
  nodes <> [] ->
  locals <> (negb (Nat.eqb (BindNum (comp st3)) 0)
             || negb (Nat.eqb (IntBindNum (comp st3)) 0)) ->
  exists e,
    Comp_List (Comp_Stmt []) nodes st = Err e /\
    fmt_args e = [ArgBool locals; ArgInt (BindNum (comp st3));
                  ArgInt (IntBindNum (comp st3)); ArgNode; ArgNode].
Proof.
  intros nb locals Hstmts Hne Hmis.
  destruct (list_inner_state nodes st st3 Hstmts) as [_ Ho].
  rewrite (Comp_List_eq (Comp_Stmt []) nodes st Hne). cbv zeta. fold nb.
  assert (Hpush : pushEnvIfLocalBinds nb (S nb) nodes (snd (alloc 2 st))
                  = Ok (pushEnvIfFlag nb (S nb) locals (snd (alloc 2 st)))).
  { unfold pushEnvIfLocalBinds, containLocalBinds.
    destruct nodes; [congruence | reflexivity]. }
  rewrite Hpush. cbn [bind].
  destruct (pushEnvIfFlag nb (S nb) locals (snd (alloc 2 st)))
    as [st2 loc] eqn:Hp.
  assert (Hloc : loc = locals) by (unfold pushEnvIfFlag in Hp; congruence).
  subst loc. cbn [fst] in Hstmts. rewrite Hstmts. cbn [bind].
  unfold popEnvIfLocalBinds. destruct nodes as [|n r]; [congruence|].
  rewrite Ho.
  destruct (Bool.eqb locals _) eqn:Heq.
  - apply Bool.eqb_prop in Heq. contradiction.
  - simpl. eexists. split; reflexivity.
Qed.

(** What [popEnvIfFlag] does when the flag agrees with the bindings
    declared. *)
Lemma popEnvIfFlag_Ok (nb0 nb1 : cell) (flag : bool) (st3 : CState)
    (c : Comp) :
  Comp_Outer (comp st3) = Some c ->
  flag = negb (Nat.eqb (BindNum (comp st3)) 0)
         || negb (Nat.eqb (IntBindNum (comp st3)) 0) ->
  exists st',
    popEnvIfFlag nb0 nb1 flag st3 = Ok st' /\
    code_of st' = code_of st3 ++ (if flag then [popEnv] else []) /\
    cells st' = store nb1 (IntBindNum (comp st3))
                  (store nb0 (BindNum (comp st3)) (cells st3)) /\
    comp st' = set_Code (Comp_Code (comp st')) c.
Proof.
  intros Ho Hflag. unfold popEnvIfFlag. rewrite Ho.
  rewrite <- Hflag. rewrite Bool.eqb_reflx. cbn [negb].
  eexists. split; [reflexivity|].
  destruct flag; unfold code_of; simpl; rewrite ?app_nil_r;
    repeat split.
Qed.

(** X7. [pushEnvIfDefine] and [popEnvIfFlag] around what is compiled in the
    frame between them, for a caller that declares the two patchable
    integers: when the token is [:=] exactly if bindings were declared in
    between, the stream gets a push-environment instruction, the
    instructions compiled in between and a pop-environment instruction (the
    instructions in between alone for another token), the frame of the
    caller comes back with its code changed only, the two integers hold the
    numbers of bindings declared, and the integers that existed before are
    left alone. Otherwise [popEnvIfFlag] fails with its internal error. On a
    list that is not empty [popEnvIfLocalBinds] succeeds when [popEnvIfFlag]
    does, with the same result. *)
Theorem X7_define_scope_round_trip (tok : Token) (seg : list Stmt)
    (nodes : list ast_Stmt) (st st3 : CState) :
  let nb := length (cells st) in
  let flag := Token_eqb tok DEFINE in
  let st2 := fst (pushEnvIfDefine nb (S nb) tok (snd (alloc 2 st))) in
  let declared := negb (Nat.eqb (BindNum (comp st3)) 0)
                  || negb (Nat.eqb (IntBindNum (comp st3)) 0) in
  steps nb seg st2 st3 ->
  (flag = declared ->
   exists st',
     popEnvIfFlag nb (S nb) flag st3 = Ok st' /\
     (nodes <> [] ->
      popEnvIfLocalBinds flag nb (S nb) nodes st3 = Ok st') /\
     code_of st' = code_of st
                   ++ (if flag then [pushEnv nb (S nb)] else [])
                   ++ seg ++ (if flag then [popEnv] else []) /\
     comp st' = set_Code (Comp_Code (comp st')) (comp st) /\
     load nb (cells st') = BindNum (comp st3) /\
     load (S nb) (cells st') = IntBindNum (comp st3) /\
     firstn nb (cells st') = cells st) /\
  (flag <> declared ->
   popEnvIfFlag nb (S nb) flag st3 =
   Err (Errorf popEnvIfFlag_format
               [ArgBool flag; ArgInt (BindNum (comp st3));
                ArgInt (IntBindNum (comp st3)); ArgNode])).
Proof.
  intros nb flag st2 declared Hsteps.
  destruct (pushEnvIfFlag_facts nb (S nb) flag (snd (alloc 2 st)))
    as [Hc2 [Hh2 [Ho2 _]]].
  change (fst (pushEnvIfFlag nb (S nb) flag (snd (alloc 2 st))))
    with st2 in Hc2, Hh2, Ho2.
  change (code_of (snd (alloc 2 st))) with (code_of st) in Hc2.
  change (comp (snd (alloc 2 st))) with (comp st) in Ho2.
  change (cells (snd (alloc 2 st))) with (cells st ++ repeat 0 2) in Hh2.
  destruct Hsteps as [Hc3 Hlow Hlen Ho].
  rewrite Ho2 in Ho.
  assert (Hlen3 : nb + 2 <= length (cells st3)).
  { rewrite Hh2, length_app in Hlen. simpl in Hlen. fold nb in Hlen. lia. }
  split.
  - intros Hflag.
    destruct (popEnvIfFlag_Ok nb (S nb) flag st3 _ Ho Hflag)
      as [st' [Hpop [Hc' [Hh' Hcomp']]]].
    exists st'. split; [exact Hpop|]. split; [|split; [|split; [|split;
      [|split]]]].
    + intros Hne. rewrite <- Hpop.
      unfold popEnvIfLocalBinds, popEnvIfFlag.
      destruct nodes as [|n r]; [congruence|].
      rewrite Ho. fold declared. rewrite <- Hflag, Bool.eqb_reflx.
      reflexivity.
    + rewrite Hc', Hc3, Hc2, <- !app_assoc. reflexivity.
    + rewrite Hcomp'. rewrite set_Code_set_Code. reflexivity.
    + rewrite Hh'. rewrite load_store_other by lia.
      apply load_store_same. lia.
    + rewrite Hh'. apply load_store_same. rewrite length_store. lia.
    + rewrite Hh', !firstn_store_above by lia.
      rewrite Hlow, Hh2, firstn_app.
      replace (nb - length (cells st)) with 0 by (unfold nb; lia).
      rewrite firstn_O, app_nil_r. apply firstn_all.
  - intros Hflag. unfold popEnvIfFlag. rewrite Ho. fold declared.
    destruct (Bool.eqb flag declared) eqn:Heq.
    + apply Bool.eqb_prop in Heq. contradiction.
    + reflexivity.
Qed.

End ExtrasScopes.

(* ------------------------------------------------------------------ *)
(** * Further properties: the layout of loops and of if statements *)

Section ExtrasForIf.
Context {Sx : Syntax} {Hx : Host} {Cx : Collaborators}
        {Dx : Disciplined Cx}.

Lemma all_grow' (nodes : list ast_Stmt) :
  Forall (fun s => grows_on (Comp_Stmt [] s)) nodes.
Proof.
  apply Forall_forall. intros s _. apply Comp_Stmt_grows.
Qed.

(** X8. A for statement that is not dropped (its condition is absent, the
    constant true, or tested at run time) adds to the stream: the push of a
    declaring init statement, the instructions of the init statement, the
    loop test if the condition is tested at run time, the body, the post
    statement, the jump back, and the pop of a declaring init statement. The
    body is compiled in the state the init statement left, with three more
    patchable integers, the Cond slot recorded, the loop test appended, and
    a Loop Info with the Post and Break slots and the sorted labels in the
    frame. Once compiled, the Cond slot holds the position of the test (of
    the body when there is no test), the Post slot, which is the target of
    continue, the position of the post statement or, when there is none,
    the position the Cond slot holds, and the Break slot the position after
    the jump back. At run time the jump back goes to the position in the
    Cond slot, and the test goes on to the next instruction when the
    condition holds and to the position in the Break slot when it does
    not. *)
Theorem X8_for_loop_layout {Ex : ExtExec} (labels : list string)
    (Init : ast_Stmt) (Cond : option ast_Expr) (Post : ast_Stmt)
    (Body : list ast_Stmt) (st st' : CState) :
  Comp_Stmt labels (ForStmt Init Cond Post Body) st = Ok st' ->
  let low := length (cells st) in
  let locals := existsb stmt_declares [Init] in
  let opening := if locals then [pushEnv low (S low)] else [] in
  let closing := if locals then [popEnv] else [] in
  let st2 := fst (pushEnvIfFlag low (S low) locals (snd (alloc 2 st))) in
  exists st3 flag fun_ seg_init seg_body seg_post s8 s9,
    code_of st2 = code_of st ++ opening /\
    (if is_nil Init then Ok st2 else Comp_Stmt [] Init st2) = Ok st3 /\
    code_of st3 = code_of st2 ++ seg_init /\
    match Cond with
    | None => flag = true /\ fun_ = None
    | Some cond =>
        exists pred, Comp_Expr cond st3 = Ok pred /\
                     Expr_TryAsPred pred = (flag, fun_, false)
    end /\
    let jump := length (cells st3) in
    let test := match fun_ with
                | Some f => [forCond f (S (S jump))]
                | None => []
                end in
    let s7 := with_code (code_of st3 ++ test)
                (write jump (length (code_of st3))
                   (with_comp
                      (set_Loop (Some (mkLoopInfo (Some (S jump))
                                                  (Some (S (S jump)))
                                                  (sort_Strings labels))))
                      (snd (alloc 3 st3)))) in
    Comp_Block (Comp_Stmt []) Body s7 = Ok s8 /\
    code_of s8 = code_of s7 ++ seg_body /\
    (is_nil Post = true -> seg_post = []) /\
    (is_nil Post = false ->
     Comp_Stmt [] Post (write (S jump) (Len s8) s8) = Ok s9) /\
    code_of s9 = code_of s8 ++ seg_post /\
    let c := length (code_of st3) in
    let e := c + length test + length seg_body + length seg_post + 1 in
    Loop (comp s7) = Some (mkLoopInfo (Some (S jump)) (Some (S (S jump)))
                                      (sort_Strings labels)) /\
    ((fun_ = None -> flag = true) ->
     code_of st' = code_of st ++ opening ++ seg_init ++ test ++ seg_body
                   ++ seg_post ++ [forJump jump] ++ closing /\
     load jump (cells st') = c /\
     load (S jump) (cells st')
     = (if is_nil Post then c else c + length test + length seg_body) /\
     load (S (S jump)) (cells st') = e /\
     forall env m,
       M_cells m = cells st' ->
       exec (forJump jump) env m = jump_to c env m /\
       forall f b s,
         fun_ = Some f -> f env (M_store m) = Some (b, s) ->
         exec (forCond f (S (S jump))) env m
         = jump_to (if b then S (IP env) else e) env (set_store s m)).
Proof.
  intros H low locals opening closing st2. cbn [Comp_Stmt] in H.
  destruct (Comp_For_shape (Comp_Stmt []) Init Cond Post Body labels
              st st' (Comp_Stmt_grows Init []) (Comp_Stmt_grows Post [])
              (all_grow' Body) H)
    as [st3 [flag [fun_ [seg_init [seg_body [seg_post
       [Hinit [Hc3 [_ [Hpred [_ [_ [Hbr [Hext [Hjc [Hjb _]]]]]]]]]]]]]]]].
  cbv zeta in Hbr.
  destruct Hbr
    as [s7 [s8 [s9 [Hloop [Hc7 [Hbody [Hc8 [Hpost [Hc9 [Hnil [_ [_ [_ [_ [_
       [_ [_ [Hjp [_ Hs7]]]]]]]]]]]]]]]]]]].
  fold low in Hinit, Hc3, Hext. fold locals in Hinit, Hc3, Hext.
  fold st2 in Hinit, Hc3.
  destruct (pushEnvIfFlag_facts low (S low) locals (snd (alloc 2 st)))
    as [Hc2 _].
  fold st2 in Hc2.
  change (code_of (snd (alloc 2 st))) with (code_of st) in Hc2.
  fold opening in Hc2.
  exists st3, flag, fun_, seg_init, seg_body, seg_post, s8, s9.
  split; [exact Hc2|]. split; [exact Hinit|]. split; [exact Hc3|].
  split.
  { destruct Cond as [cond|].
    - apply (For_pred_Some _ _ _ _ Hpred).
    - simpl in Hpred. injection Hpred as <- <-. split; reflexivity. }
  cbv zeta. rewrite <- Hs7.
  split; [exact Hbody|]. split; [exact Hc8|]. split; [exact Hnil|].
  split; [intros Hp; apply (Hpost Hp)|].
  split; [exact Hc9|]. split; [exact Hloop|].
  cbv zeta in *.
  intros Hkept.
  pose proof (eb_code Hext) as Hc'.
  assert (Hk : (if match fun_ with
                   | Some _ => false
                   | None => negb flag
                   end
                then []
                else match fun_ with
                     | Some f => [forCond f (S (S (length (cells st3))))]
                     | None => []
                     end ++ seg_body ++ seg_post
                     ++ [forJump (length (cells st3))])
               = match fun_ with
                 | Some f => [forCond f (S (S (length (cells st3))))]
                 | None => []
                 end ++ seg_body ++ seg_post
                 ++ [forJump (length (cells st3))]).
  { destruct fun_ as [f|]; [reflexivity|].
    rewrite (Hkept eq_refl). reflexivity. }
  rewrite Hk in Hc', Hjb.
  assert (L8 : Len s8 = length (code_of st3)
                        + length match fun_ with
                                 | Some f =>
                                     [forCond f (S (S (length (cells st3))))]
                                 | None => []
                                 end
                        + length seg_body).
  { change (Len s8) with (length (code_of s8)).
    rewrite Hc8, Hc7, !length_app. reflexivity. }
  assert (Hbreak : load (S (S (length (cells st3)))) (cells st')
                   = length (code_of st3)
                     + length match fun_ with
                              | Some f =>
                                  [forCond f (S (S (length (cells st3))))]
                              | None => []
                              end
                     + length seg_body + length seg_post + 1).
  { rewrite Hjb, !length_app. simpl. lia. }
  split.
  { rewrite Hc'. fold opening. fold closing.
    rewrite <- !app_assoc. reflexivity. }
  split; [exact Hjc|]. split.
  { rewrite Hjp. destruct (is_nil Post); [reflexivity | exact L8]. }
  split; [exact Hbreak|].
  intros env m Hm. split.
  - simpl. rewrite Hm, Hjc. reflexivity.
  - intros f b s Hf Hfb. simpl. rewrite Hfb. simpl.
    rewrite Hm, Hbreak. reflexivity.
Qed.

Lemma declares_not_nil (s : ast_Stmt) :
  stmt_declares s = true -> is_nil s = false.
Proof. destruct s; simpl; intros H; try reflexivity; discriminate H. Qed.

(** X9. A for statement whose post statement declares a variable never
    compiles. When the same loop without its post statement compiles, so
    that the init statement, the condition and the body are in order, the
    failure is the error "invalid for: cannot declare new variables in post
    statement". *)
Theorem X9_for_post_cannot_declare (labels : list string) (Init : ast_Stmt)
    (Cond : option ast_Expr) (Post : ast_Stmt) (Body : list ast_Stmt)
    (st : CState) :
  stmt_declares Post = true ->
  (forall st', Comp_Stmt labels (ForStmt Init Cond Post Body) st <> Ok st') /\
  (forall st0,
      Comp_Stmt labels (ForStmt Init Cond NilStmt Body) st = Ok st0 ->
      Comp_Stmt labels (ForStmt Init Cond Post Body) st =
      Err (Errorf
        "invalid for: cannot declare new variables in post statement: %v"
        [ArgNode])).
Proof.
  intros Hd. pose proof (declares_not_nil Post Hd) as Hn.
  assert (Hc : containLocalBinds [Post] = Ok true).
  { unfold containLocalBinds. simpl. rewrite Hd. reflexivity. }
  split.
  - intros st' H. cbn [Comp_Stmt] in H. unfold Comp_For in H.
    unfold alloc at 1 in H. cbv iota in H.
    apply bind_Ok in H. destruct H as [[s2 loc] [_ H]].
    apply bind_Ok in H. destruct H as [s3 [_ H]].
    apply bind_Ok in H. destruct H as [[flag fun_] [_ H]].
    unfold alloc in H. cbv iota zeta in H.
    apply bind_Ok in H. destruct H as [s8 [_ H]].
    apply bind_Ok in H. destruct H as [s9 [Hpost _]].
    rewrite Hn, Hc in Hpost. discriminate Hpost.
  - intros st0 H. cbn [Comp_Stmt] in H. cbn [Comp_Stmt].
    unfold Comp_For in *. unfold alloc at 1 in H. unfold alloc at 1.
    cbv iota in *.
    apply bind_Ok in H. destruct H as [[s2 loc] [Hpush H]].
    rewrite Hpush. cbn [bind].
    apply bind_Ok in H. destruct H as [s3 [Hinit H]].
    rewrite Hinit. cbn [bind].
    apply bind_Ok in H. destruct H as [[flag fun_] [Hpred H]].
    rewrite Hpred. cbn [bind].
    unfold alloc in *. cbv iota zeta in *.
    apply bind_Ok in H. destruct H as [s8 [Hbody _]].
    rewrite Hbody. cbn [bind].
    rewrite Hn, Hc. reflexivity.
Qed.

(** X10. An if statement whose condition is tested at run time adds to the
    stream: the push of a declaring init statement, the instructions of the
    init statement, the test, the then branch, a jump over the else branch
    if there is one, the else branch, and the pop of a declaring init
    statement. The then branch is compiled in the state the init statement
    left, with the test appended and the Then slot recorded, and the else
    branch in the state the then branch left, with the jump appended and the
    Else slot recorded. Once compiled, the Then slot holds the position
    after the test, the Else slot the position where the else branch starts,
    which without an else branch is the end, and the End slot the position
    after the else branch. At run time the test goes to the position in the
    Then slot when the condition holds and to the position in the Else slot
    when it does not, and the jump after the then branch goes to the
    position in the End slot. *)
Theorem X10_if_layout {Ex : ExtExec} (labels : list string)
    (Init : ast_Stmt) (Cond : ast_Expr) (Body : list ast_Stmt)
    (Else : ast_Stmt) (st st' : CState) :
  Comp_Stmt labels (IfStmt Init Cond Body Else) st = Ok st' ->
  let low := length (cells st) in
  let locals := existsb stmt_declares [Init] in
  let opening := if locals then [pushEnv (low + 3) (S (low + 3))] else [] in
  let closing := if locals then [popEnv] else [] in
  let st2 := fst (pushEnvIfFlag (low + 3) (S (low + 3)) locals
                    (snd (alloc 2 (snd (alloc 3 st))))) in
  exists st3 pred flag fun_ seg_init seg_then seg_else s6,
    code_of st2 = code_of st ++ opening /\
    (if is_nil Init then Ok st2 else Comp_Stmt [] Init st2) = Ok st3 /\
    code_of st3 = code_of st2 ++ seg_init /\
    Comp_Expr Cond st3 = Ok pred /\
    Expr_TryAsPred pred = (flag, fun_, false) /\
    let skip := if is_nil Else then [] else [ifJumpEnd (S (S low))] in
    let t := length (code_of st3) in
    let el := t + 1 + length seg_then + length skip in
    let en := el + length seg_else in
    forall f,
      fun_ = Some f ->
      let test := [ifCond f low (S low)] in
      let s5 := write low (length (code_of st3 ++ test))
                  (with_code (code_of st3 ++ test) st3) in
      let s9 := write (S low)
                  (length (code_of st3 ++ test ++ seg_then ++ skip))
                  (with_code (code_of st3 ++ test ++ seg_then ++ skip) s6) in
      Comp_Block (Comp_Stmt []) Body s5 = Ok s6 /\
      code_of s6 = code_of s5 ++ seg_then /\
      (is_nil Else = true -> seg_else = []) /\
      (is_nil Else = false ->
       exists s10, If_else (Comp_Stmt []) Else s9 = Ok s10 /\
                   code_of s10 = code_of s9 ++ seg_else) /\
      code_of st' = code_of st ++ opening ++ seg_init ++ test ++ seg_then
                    ++ skip ++ seg_else ++ closing /\
      load low (cells st') = t + 1 /\
      load (S low) (cells st') = el /\
      load (S (S low)) (cells st') = en /\
      forall env m,
        M_cells m = cells st' ->
        exec (ifJumpEnd (S (S low))) env m = jump_to en env m /\
        forall b s,
          f env (M_store m) = Some (b, s) ->
          exec (ifCond f low (S low)) env m
          = jump_to (if b then t + 1 else el) env (set_store s m).
Proof.
  intros H low locals opening closing st2. cbn [Comp_Stmt] in H.
  destruct (Comp_If_shape (Comp_Stmt []) Init Cond Body Else st st'
              (Comp_Stmt_grows Init []) (all_grow' Body)
              (Comp_Stmt_grows Else []) H)
    as [st3 [pred [flag [fun_ [seg_init [seg_then [seg_else
       [Hinit [Hc3 [_ [Hpred [Htry [_ [_ [Hbr [Hext [HjT [HjE [HjEnd _]]]]]]]]]]]]]]]]]]].
  cbv zeta in Hbr.
  destruct Hbr as [s5 [s6 [s9 [Hc5 [Hbody [Hc6 [Hc9 [Hnil [Helse Hrest]]]]]]]]].
  destruct Hrest as [_ [_ [_ [_ [_ [_ [_ [Hs5 Hs9]]]]]]]].
  fold low in Hinit, Hc3, Hs5, Hs9, Hext, HjT, HjE, HjEnd.
  fold locals in Hinit, Hc3, Hext. fold st2 in Hinit, Hc3.
  destruct (pushEnvIfFlag_facts (low + 3) (S (low + 3)) locals
              (snd (alloc 2 (snd (alloc 3 st))))) as [Hc2 _].
  fold st2 in Hc2.
  change (code_of (snd (alloc 2 (snd (alloc 3 st))))) with (code_of st)
    in Hc2.
  fold opening in Hc2.
  exists st3, pred, flag, fun_, seg_init, seg_then, seg_else, s6.
  split; [exact Hc2|]. split; [exact Hinit|]. split; [exact Hc3|].
  split; [exact Hpred|]. split; [exact Htry|].
  cbv zeta in *. intros f ->.
  pose proof (eb_code Hext) as Hc'.
  assert (Hskip : (if negb (is_nil Else)
                   then [ifJumpEnd (S (S low))] else [])
                  = (if is_nil Else
                     then [] else [ifJumpEnd (S (S low))])).
  { destruct (is_nil Else); reflexivity. }
  rewrite Hskip in Hc', HjE, HjEnd, Hs9.
  rewrite <- Hs5, <- Hs9.
  assert (HT : load low (cells st') = length (code_of st3) + 1).
  { rewrite HjT, length_app. reflexivity. }
  assert (HE : load (S low) (cells st')
               = length (code_of st3) + 1 + length seg_then
                 + length (if is_nil Else
                           then []
                           else [ifJumpEnd (S (S low))])).
  { rewrite HjE, !length_app. simpl. lia. }
  assert (HEnd : load (S (S low)) (cells st')
                 = length (code_of st3) + 1 + length seg_then
                   + length (if is_nil Else
                             then []
                             else [ifJumpEnd (S (S low))])
                   + length seg_else).
  { rewrite HjEnd, !length_app. simpl. lia. }
  split; [exact Hbody|]. split; [exact Hc6|]. split; [exact Hnil|].
  split.
  { intros Hf. destruct (Helse Hf) as [s10 [Hs10 [Hc10 _]]].
    exists s10. split; [exact Hs10 | exact Hc10]. }
  split.
  { rewrite Hc'. fold opening. fold closing.
    rewrite <- !app_assoc. reflexivity. }
  split; [exact HT|]. split; [exact HE|]. split; [exact HEnd|].
  intros env m Hm. split.
  - simpl. rewrite Hm, HEnd. reflexivity.
  - intros b s Hfb. simpl. rewrite Hfb. simpl. rewrite Hm, HT, HE.
    reflexivity.
Qed.

End ExtrasForIf.

(* ------------------------------------------------------------------ *)
(** * Further properties: instructions, returns, labels *)

Section ExtrasMisc.
Context {Sx : Syntax} {Hx : Host} {Cx : Collaborators}.

(** X11. Every instruction that statement.go builds leaves the instruction
    stream and the patchable integers alone. The two returns and the defer
    return the interrupt instruction of the thread of the environment; every
    other one returns the instruction at the instruction pointer of the
    environment it returns, so that the executor and the instruction pointer
    stay in step. *)
Theorem X11_next_instruction_is_at_IP {Ex : ExtExec} (i : Stmt)
    (env env' : Env) (m m' : Machine) (next : option Stmt) :
  (forall x, i <> extStmt x) ->
  exec i env m = Some (next, env', m') ->
  M_Code m' = M_Code m /\
  M_cells m' = M_cells m /\
  (if signals i
   then exists g,
       nth_error (M_threads m) (Env_ThreadGlobals env) = Some g /\
       next = Interrupt g
   else next = fetch m' (IP env')).
Proof.
  intros Hext H.
  destruct i as [| | |nb0 nb1|upn ip|f jb|jc|f jT jE|jEnd|df da de|ef ea
                 |rf ra|x]; cbn [signals].
  - simpl in H. injection H as <- <- <-. repeat split.
  - simpl in H.
    destruct (Outer env) as [outer|]; [|discriminate H]. simpl in H.
    unfold FreeEnv in H.
    destruct (nth_error (M_threads m) (Env_ThreadGlobals env));
      [|discriminate H].
    simpl in H. injection H as <- <- <-. repeat split.
  - simpl in H.
    destruct (nth_error (M_threads m) (Env_ThreadGlobals env)) as [g|];
      [|discriminate H].
    simpl in H. injection H as <- <- <-.
    split; [reflexivity|]. split; [reflexivity|].
    exists g. split; reflexivity.
  - simpl in H. unfold NewEnv in H.
    destruct (nth_error (M_threads m) (Env_ThreadGlobals env));
      [|discriminate H].
    simpl in H. injection H as <- <- <-. repeat split.
  - rewrite exec_jumpOut in H.
    destruct (up upn env) as [e|]; [|discriminate H].
    simpl in H. injection H as <- <- <-. repeat split.
  - simpl in H.
    destruct (f env (M_store m)) as [[c s]|]; [|discriminate H].
    simpl in H. injection H as <- <- <-. repeat split.
  - simpl in H. injection H as <- <- <-. repeat split.
  - simpl in H.
    destruct (f env (M_store m)) as [[c s]|]; [|discriminate H].
    simpl in H. injection H as <- <- <-. repeat split.
  - simpl in H. injection H as <- <- <-. repeat split.
  - simpl in H.
    destruct (df env (M_store m)) as [[f s1]|]; [|discriminate H].
    simpl in H.
    match type of H with
    | context [Defer_args ?x ?y ?z] =>
        destruct (Defer_args x y z) as [[args s2]|]
    end; [|discriminate H].
    simpl in H.
    destruct (nth_error (M_threads m) (Env_ThreadGlobals env)) as [g|];
      [|discriminate H].
    simpl in H. injection H as <- <- <-.
    split; [reflexivity|]. split; [reflexivity|].
    exists g. split; reflexivity.
  - simpl in H. unfold NewEnv4Func in H.
    destruct (nth_error (M_threads m) (Env_ThreadGlobals env));
      [|discriminate H].
    simpl in H.
    match type of H with
    | context [nth_error ?l ?n] => destruct (nth_error l n)
    end; [|discriminate H].
    simpl in H.
    match type of H with
    | context [ef ?x ?y] => destruct (ef x y) as [[funv s1]|]
    end; [|discriminate H].
    simpl in H.
    match type of H with
    | context [Go_args ?x ?y ?z] => destruct (Go_args x y z) as [[argv s2]|]
    end; [|discriminate H].
    simpl in H. injection H as <- <- <-. repeat split.
  - simpl in H.
    destruct (rf env (M_store m)) as [[vals s1]|]; [|discriminate H].
    simpl in H.
    match type of H with
    | context [run_assigns ?a ?b ?c ?d] =>
        destruct (run_assigns a b c d) as [s2|]
    end; [|discriminate H].
    simpl in H.
    destruct (nth_error (M_threads m) (Env_ThreadGlobals env)) as [g|];
      [|discriminate H].
    simpl in H. injection H as <- <- <-.
    split; [reflexivity|]. split; [reflexivity|].
    exists g. split; reflexivity.
  - exfalso. apply (Hext x). reflexivity.
Qed.



(** The dispatcher under labels: the labels are added to those it has. *)
Lemma Comp_Stmt_labeled (ls : list string) (s : ast_Stmt) :
  forall labels st,
    Comp_Stmt labels (labeled ls s) st = Comp_Stmt (labels ++ ls) s st.
Proof.
  induction ls as [|l ls IH]; intros labels st; simpl.
  - rewrite app_nil_r. reflexivity.
  - rewrite IH, <- app_assoc. reflexivity.
Qed.

(** X13. A case clause, a communication clause, a fallthrough and a goto
    never compile as statements, however many labels are put on them: the
    clauses fail with "misplaced case" or, for a clause without a list or a
    communication, "misplaced default"; a fallthrough fails with "misplaced
    fallthrough: not inside switch"; a goto is an unimplemented branch
    statement. *)
Theorem X13_misplaced_statements_never_compile (ls labels : list string)
    (isdefault : bool) (node : ast_Node) (label : option string)
    (st : CState) :
  Comp_Stmt labels (labeled ls (CaseClause isdefault node)) st
  = Err (Errorf "misplaced %s: not inside switch or select: %v <%v>"
                [ArgStr (if isdefault then "default" else "case");
                 ArgNode; ArgNode]) /\
  Comp_Stmt labels (labeled ls (CommClause isdefault node)) st
  = Err (Errorf "misplaced %s: not inside switch or select: %v <%v>"
                [ArgStr (if isdefault then "default" else "case");
                 ArgNode; ArgNode]) /\
  Comp_Stmt labels (labeled ls (BranchStmt FALLTHROUGH label)) st
  = Err (Errorf "misplaced fallthrough: not inside switch" []) /\
  Comp_Stmt labels (labeled ls (BranchStmt GOTO label)) st
  = Err (Errorf "unimplemented branch statement: %v <%v>"
                [ArgNode; ArgNode]).
Proof.
  rewrite !Comp_Stmt_labeled. repeat split.
Qed.

Lemma In_insert_sorted (x s : string) (l : list string) :
  In x (insert_sorted s l) <-> x = s \/ In x l.
Proof.
  induction l as [|y r IH]; simpl.
  - split; [intros [<-|[]]; left; reflexivity | intros [->|[]]; left;
                                                  reflexivity].
  - destruct (String.leb s y); simpl.
    + split; [intros [<-|H]; [left; reflexivity | right; exact H]
             | intros [->|H]; [left; reflexivity | right; exact H]].
    + rewrite IH. split.
      * intros [<-|[->|H]]; auto.
      * intros [->|[<-|H]]; auto.
Qed.

Lemma In_sort_Strings (x : string) (l : list string) :
  In x (sort_Strings l) <-> In x l.
Proof.
  induction l as [|y r IH]; simpl; [reflexivity|].
  rewrite In_insert_sorted, IH. split.
  - intros [->|H]; auto.
  - intros [<-|H]; auto.
Qed.


End ExtrasMisc.

(* ------------------------------------------------------------------ *)
(** * Further properties: the environment a statement ends in *)

Section ExtrasEnv.
Context {Sx : Syntax} {Hx : Host} {Ex : ExtExec}.

Lemma anchored_keep (env0 : Env) (d : nat) (cur cur' : Env) :
  Outer cur' = Outer cur ->
  Env_ThreadGlobals cur' = Env_ThreadGlobals cur ->
  anchored env0 d cur -> anchored env0 d cur'.
Proof.
  intros Ho Ht [e [Hup [He Hg]]]. destruct d as [|d].
  - simpl in Hup. injection Hup as <-. exists cur'. simpl.
    split; [reflexivity|]. split; congruence.
  - exists e. simpl in *. rewrite Ho. auto.
Qed.

Lemma anchored_push (env0 : Env) (d : nat) (cur inner : Env) :
  Outer inner = Some cur ->
  anchored env0 d cur -> anchored env0 (S d) inner.
Proof.
  intros Ho [e [Hup H]]. exists e. simpl. rewrite Ho. simpl. auto.
Qed.

Lemma anchored_pop (env0 : Env) (d : nat) (cur outer : Env) :
  Outer cur = Some outer ->
  anchored env0 (S d) cur -> anchored env0 d outer.
Proof.
  intros Ho [e [Hup H]]. exists e. simpl in Hup. rewrite Ho in Hup.
  simpl in Hup. auto.
Qed.

(** One instruction that does not leave keeps the environment anchored, at
    the depth that follows the push or pop executed. *)
Lemma exec_anchored (env0 : Env) (d d' : nat) (i : Stmt) (env env' : Env)
    (m m' : Machine) (next : option Stmt) :
  InPlace Ex ->
  leaves i = false ->
  exec i env m = Some (next, env', m') ->
  d' + count_pop [i] = d + count_push [i] ->
  anchored env0 d env -> anchored env0 d' env'.
Proof.
  intros HI Hlv H Hd HA.
  destruct i as [| | |nb0 nb1|upn ip|f jb|jc|f jT jE|jEnd|df da de|ef ea
                 |rf ra|x];
    simpl in Hlv; try discriminate Hlv; simpl in H;
    unfold count_pop, count_push in Hd; simpl in Hd.
  - injection H as <- <- <-.
    replace d' with d by lia. apply (anchored_keep env0 d env); auto.
  - destruct (Outer env) as [outer|] eqn:Ho; [|discriminate H].
    simpl in H. unfold FreeEnv in H.
    destruct (nth_error (M_threads m) (Env_ThreadGlobals env));
      [|discriminate H].
    simpl in H. injection H as <- <- <-.
    replace d with (S d') in HA by lia.
    apply (anchored_keep env0 d' outer); [reflexivity | reflexivity |].
    apply (anchored_pop env0 d' env outer Ho HA).
  - unfold NewEnv in H.
    destruct (nth_error (M_threads m) (Env_ThreadGlobals env));
      [|discriminate H].
    simpl in H. injection H as <- <- <-.
    replace d' with (S d) by lia.
    apply (anchored_push env0 d env); [reflexivity | exact HA].
  - destruct (f env (M_store m)) as [[c s]|]; [|discriminate H].
    simpl in H. injection H as <- <- <-.
    replace d' with d by lia. apply (anchored_keep env0 d env); auto.
  - injection H as <- <- <-.
    replace d' with d by lia. apply (anchored_keep env0 d env); auto.
  - destruct (f env (M_store m)) as [[c s]|]; [|discriminate H].
    simpl in H. injection H as <- <- <-.
    replace d' with d by lia. apply (anchored_keep env0 d env); auto.
  - injection H as <- <- <-.
    replace d' with d by lia. apply (anchored_keep env0 d env); auto.
  - unfold NewEnv4Func in H.
    destruct (nth_error (M_threads m) (Env_ThreadGlobals env));
      [|discriminate H].
    simpl in H.
    match type of H with
    | context [nth_error ?l ?n] => destruct (nth_error l n)
    end; [|discriminate H].
    simpl in H.
    match type of H with
    | context [ef ?x ?y] => destruct (ef x y) as [[funv s1]|]
    end; [|discriminate H].
    simpl in H.
    match type of H with
    | context [Go_args ?x ?y ?z] => destruct (Go_args x y z) as [[argv s2]|]
    end; [|discriminate H].
    simpl in H. injection H as <- <- <-.
    replace d' with d by lia. apply (anchored_keep env0 d env); auto.
  - destruct (HI _ _ _ _ _ _ H) as [Ho Ht].
    replace d' with d by lia. apply (anchored_keep env0 d env); auto.
Qed.

(** Along an execution that stays before [b] and runs no instruction that
    leaves, the environment stays anchored at the depth of the instruction
    pointer. *)
Lemma path_anchored (env0 : Env) (lo a b : nat) (d : nat -> nat)
    (cur : option Stmt) (env env' : Env) (m m' : Machine) (tr : list Stmt) :
  Straight Ex -> InPlace Ex ->
  path b cur env m tr env' m' ->
  cur = fetch m (IP env) ->
  typed (M_Code m) (M_cells m) lo a b d ->
  a <= IP env <= b ->
  Forall (fun i => leaves i = false) tr ->
  anchored env0 (d (IP env)) env ->
  anchored env0 (d (IP env')) env'.
Proof.
  intros HS HI Hp. induction Hp as [cur env m|i env m next env1 m1 tr env2 m2
                                     Hlt Hexec Hp IH];
    intros Hcur T Hip Hall HA.
  - exact HA.
  - inversion Hall as [|i' tr' Hi Htr]; subst.
    assert (Hin : a <= IP env < b) by lia.
    symmetry in Hcur. unfold fetch in Hcur.
    pose proof (ty_instr T Hin Hcur) as Hok.
    destruct (exec_depth lo a b d i env env1 m m1 next HS Hok Hi Hin Hexec)
      as [En [Ec [Eh [Hr Hd]]]].
    rewrite <- Ec, <- Eh in T.
    apply (IH En T Hr Htr).
    apply (exec_anchored env0 (d (IP env)) (d (IP env1)) i env env1 m m1 next
             HI Hi Hexec Hd HA).
Qed.

(** X15. An execution of a compiled statement that goes from its first
    instruction to the position after its last one, on which no jump of a
    break or continue, no return and no defer runs, ends in the environment
    it started in: the environment at the end has the parent and the thread
    of the one at the start, so that every environment the statement pushed
    was popped again and no environment around it was popped. The
    instructions of the collaborators are taken to go on to the next
    instruction in the environment they were given. *)
Theorem X15_statement_ends_in_its_environment {Cx : Collaborators}
    {Dx : Disciplined Cx} {Tx : Structured Cx} (labels : list string)
    (s : ast_Stmt) (st st' : CState) (more : list Stmt) (m m' : Machine)
    (env env' : Env) (tr : list Stmt) :
  Straight Ex -> InPlace Ex ->
  Comp_Stmt labels s st = Ok st' ->
  M_Code m = code_of st' ++ more ->
  keeps_from (length (cells st)) (cells st') (M_cells m) ->
  path (Len st') (fetch m (IP env)) env m tr env' m' ->
  IP env = Len st -> IP env' = Len st' ->
  Forall (fun i => leaves i = false) tr ->
  Outer env' = Outer env /\
  Env_ThreadGlobals env' = Env_ThreadGlobals env.
Proof.
  intros HS HI H Hcode Hcells Hpath Ha Hb Hall.
  destruct (Comp_Stmt_typed s labels st st' H) as [d T].
  assert (T' : typed (M_Code m) (M_cells m) (length (cells st)) (Len st)
                     (Len st') d).
  { rewrite Hcode.
    apply (typed_mono _ more (cells st') _ _ _ _ _ d T Hcells).
    apply Nat.le_refl. }
  pose proof (ty_le T') as Hle.
  assert (HA : anchored env (d (IP env)) env).
  { rewrite Ha, (ty_start T'). exists env. simpl. auto. }
  pose proof (path_anchored env (length (cells st)) (Len st) (Len st') d _
                env env' m m' tr HS HI Hpath eq_refl T' ltac:(lia) Hall HA)
    as [e [Hup He]].
  rewrite Hb, (ty_end T') in Hup. simpl in Hup. injection Hup as <-.
  exact He.
Qed.

End ExtrasEnv.

(* ------------------------------------------------------------------ *)
(** * Break and continue at run time *)

Section Jumps.
Context {Sx : Syntax} {Hx : Host}.

(** ** Depths *)

Lemma counts_embed (pre s post : list Stmt) (n : nat) :
  n <= length s ->
  count_push (firstn (length pre + n) (pre ++ s ++ post))
  = count_push pre + count_push (firstn n s) /\
  count_pop (firstn (length pre + n) (pre ++ s ++ post))
  = count_pop pre + count_pop (firstn n s).
Proof.
  intros Hn. rewrite firstn_app_2, firstn_app.
  replace (n - length s) with 0 by lia.
  rewrite firstn_O, app_nil_r, count_push_app, count_pop_app.
  split; reflexivity.
Qed.

Lemma depth_at_embed (pre s post : list Stmt) (n k : nat) :
  n <= length s ->
  count_push pre = k + count_pop pre ->
  count_pop (firstn n s) <= count_push (firstn n s) ->
  depth_at (pre ++ s ++ post) (length pre + n) = k + depth_at s n.
Proof.
  intros Hn Hk Hp. unfold depth_at.
  destruct (counts_embed pre s post n Hn) as [-> ->]. lia.
Qed.

Lemma depth_at_0 (seg : list Stmt) : depth_at seg 0 = 0.
Proof. reflexivity. Qed.

Lemma depth_at_end (seg : list Stmt) :
  balanced seg -> depth_at seg (length seg) = 0.
Proof.
  intros Hb. unfold depth_at. rewrite firstn_all. unfold balanced in Hb. lia.
Qed.

Lemma firstn_succ (seg : list Stmt) (n : nat) (i : Stmt) :
  nth_error seg n = Some i -> firstn (S n) seg = firstn n seg ++ [i].
Proof.
  revert n. induction seg as [|x r IH]; intros [|n] H; simpl in *;
    try discriminate H.
  - injection H as ->. reflexivity.
  - rewrite (IH n H). reflexivity.
Qed.

(** ** Scopes *)

Lemma nested_nil : nested [].
Proof.
  split; [reflexivity|]. intros n. rewrite firstn_nil. apply Nat.le_refl.
Qed.

Lemma nested_single (i : Stmt) :
  is_push i = false -> is_pop i = false -> nested [i].
Proof.
  intros H1 H2. split.
  - apply balanced_single; assumption.
  - intros [|n]; simpl; [apply Nat.le_refl|].
    rewrite firstn_nil. unfold count_pop, count_push. simpl.
    rewrite H1, H2. apply Nat.le_refl.
Qed.

Lemma nested_app (a b : list Stmt) :
  nested a -> nested b -> nested (a ++ b).
Proof.
  intros [Ba Pa] [Bb Pb]. split.
  - apply balanced_app; assumption.
  - intros n. rewrite firstn_app, count_push_app, count_pop_app.
    specialize (Pa n). specialize (Pb (n - length a)). lia.
Qed.

Lemma nested_scope (locals : bool) (n0 n1 : cell) (seg : list Stmt) :
  nested seg ->
  nested ((if locals then [pushEnv n0 n1] else []) ++ seg
          ++ (if locals then [popEnv] else [])).
Proof.
  intros [B P]. destruct locals; [|simpl; rewrite app_nil_r; split; assumption].
  split.
  - apply (balanced_push_pop true (pushEnv n0 n1)); [reflexivity | reflexivity
                                                      | exact B].
  - intros [|n]; [apply Nat.le_refl|].
    change (firstn (S n) ([pushEnv n0 n1] ++ seg ++ [popEnv]))
      with (pushEnv n0 n1 :: firstn n (seg ++ [popEnv])).
    rewrite firstn_app.
    change (pushEnv n0 n1 :: firstn n seg ++ firstn (n - length seg) [popEnv])
      with ([pushEnv n0 n1] ++ firstn n seg
            ++ firstn (n - length seg) [popEnv]).
    rewrite !count_push_app, !count_pop_app.
    specialize (P n). unfold balanced in B.
    change (count_push [pushEnv n0 n1]) with 1.
    change (count_pop [pushEnv n0 n1]) with 0.
    assert (Hlast : count_push (firstn (n - length seg) [popEnv]) = 0 /\
                    count_pop (firstn (n - length seg) [popEnv]) <= 1 /\
                    (n <= length seg ->
                     count_pop (firstn (n - length seg) [popEnv]) = 0)).
    { destruct (n - length seg) as [|x] eqn:E.
      - repeat split; auto.
      - simpl. rewrite firstn_nil. repeat split; auto. intros Hle. lia. }
    destruct Hlast as [L1 [L2 L3]]. rewrite L1.
    destruct (Nat.le_gt_cases n (length seg)) as [Hle|Hgt].
    + rewrite (L3 Hle). lia.
    + rewrite firstn_all2 in * by lia. lia.
Qed.

(** ** Jumps of the parts of a stream *)

Lemma jumps_nil (h : list nat) (lo a : nat) (F : Comp) (seg : list Stmt)
    (off : nat) :
  jumps h lo a F seg off [].
Proof. intros [|n] i H; discriminate H. Qed.

Lemma jumps_one (h : list nat) (lo a : nat) (F : Comp) (seg : list Stmt)
    (off : nat) (i : Stmt) :
  jump_ok h lo a F seg off i -> jumps h lo a F seg off [i].
Proof.
  intros Hok [|n] x H; simpl in H.
  - injection H as <-. rewrite Nat.add_0_r. exact Hok.
  - destruct n; discriminate H.
Qed.

Lemma jumps_app (h : list nat) (lo a : nat) (F : Comp) (seg : list Stmt)
    (off : nat) (p1 p2 : list Stmt) :
  jumps h lo a F seg off p1 ->
  jumps h lo a F seg (off + length p1) p2 ->
  jumps h lo a F seg off (p1 ++ p2).
Proof.
  intros H1 H2 n i Hn.
  destruct (Nat.lt_ge_cases n (length p1)) as [Hlt|Hge].
  - rewrite nth_error_app1 in Hn by exact Hlt. apply (H1 n i Hn).
  - rewrite nth_error_app2 in Hn by exact Hge.
    replace (off + n) with (off + length p1 + (n - length p1)) by lia.
    apply (H2 _ i Hn).
Qed.

(** An instruction that jumps through no patchable integer. *)
Lemma jump_ok_plain (h : list nat) (lo a : nat) (F : Comp)
    (seg : list Stmt) (n : nat) (i : Stmt) :
  jump_slots i = [] -> (forall upn c, i <> jumpOut upn c) ->
  jump_ok h lo a F seg n i.
Proof.
  intros Hs Hj. destruct i; simpl in *; try discriminate Hs;
    try (intros c []).
  exfalso. apply (Hj upn ip). reflexivity.
Qed.

Lemma lands_embed (h h' : list nat) (lo lo' a : nat)
    (pre s post : list Stmt) (n upn k : nat) (c : cell) :
  lands h' lo' (a + length pre) s n upn c ->
  keeps_from lo' h' h -> lo <= lo' ->
  nested s -> n <= length s ->
  count_push pre = k + count_pop pre ->
  lands h lo a (pre ++ s ++ post) (length pre + n) upn c.
Proof.
  intros [Hc [Hr Hd]] [HL HK] Hlo [_ HP] Hn Hk.
  unfold lands. rewrite (HK c Hc).
  split; [lia|]. split; [rewrite !length_app; lia|].
  replace (load c h' - a)
    with (length pre + (load c h' - (a + length pre))) by lia.
  rewrite !(depth_at_embed pre s post _ k); auto; try lia.
Qed.

(** ** The walks of break and continue *)

Lemma target_Loop (tgt : Comp -> option cell) (o o' : Comp) :
  loop_target tgt -> Loop o' = Loop o -> tgt o' = tgt o.
Proof.
  intros [label [->| ->]] H; unfold Break_target, Continue_target;
    rewrite H; reflexivity.
Qed.

Lemma target_no_Loop (tgt : Comp -> option cell) (o : Comp) :
  loop_target tgt -> Loop o = None -> tgt o = None.
Proof.
  intros [label [->| ->]] H; unfold Break_target, Continue_target;
    rewrite H; reflexivity.
Qed.

(** The slot that a walk finds in a frame is one of the two of its Loop
    Info. *)
Lemma target_slot (tgt : Comp -> option cell) (o : Comp) (c : cell)
    (cont brk : option cell) (labels : list string) :
  loop_target tgt ->
  Loop o = Some (mkLoopInfo cont brk labels) ->
  tgt o = Some c -> cont = Some c \/ brk = Some c.
Proof.
  intros [label [->| ->]] HL; unfold Break_target, Continue_target;
    rewrite HL; simpl.
  - destruct brk as [b|]; [|discriminate].
    destruct (_ || _); [|discriminate].
    intros H. injection H as <-. right. reflexivity.
  - destruct cont as [b|]; [|discriminate].
    destruct (_ || _); [|discriminate].
    intros H. injection H as <-. left. reflexivity.
Qed.

Lemma walk_shift (tgt : Comp -> option cell) (o : Comp) :
  forall u,
    walk tgt u o = match walk tgt 0 o with
                   | Some (r, c) => Some (u + r, c)
                   | None => None
                   end.
Proof.
  induction o as [c Hc | c o' Hc IH] using Comp_chain_ind; intros u;
    rewrite (walk_eq tgt u c), (walk_eq tgt 0 c), Hc;
    destruct (Func c); try reflexivity;
    destruct (tgt c); try reflexivity;
    try (f_equal; f_equal; lia).
  rewrite (IH (u + UpCost c)), (IH (0 + UpCost c)).
  destruct (walk tgt 0 o') as [[r x]|]; [|reflexivity].
  f_equal. f_equal. lia.
Qed.

Lemma same_frame_refl (c : Comp) : same_frame c c.
Proof. repeat split. Qed.

Lemma same_frame_trans (a b c : Comp) :
  same_frame a b -> same_frame b c -> same_frame a c.
Proof.
  intros [A1 [A2 [A3 A4]]] [B1 [B2 [B3 B4]]].
  repeat split; congruence.
Qed.

Lemma same_frame_set_Code (code : Code) (c : Comp) :
  same_frame c (set_Code code c).
Proof. repeat split. Qed.

Lemma same_frame_eq_set_Code (code : Code) (c c' : Comp) :
  c' = set_Code code c -> same_frame c c'.
Proof. intros ->. apply same_frame_set_Code. Qed.

Lemma walk_same_frame (tgt : Comp -> option cell) (u : nat) (o o' : Comp) :
  loop_target tgt -> same_frame o o' -> walk tgt u o' = walk tgt u o.
Proof.
  intros Ht [H1 [H2 [H3 H4]]].
  rewrite (walk_eq tgt u o'), (walk_eq tgt u o).
  rewrite H1, H3, H4, (target_Loop tgt o o' Ht H2). reflexivity.
Qed.

(** The frame that [pushEnvIfFlag] makes holds no loop: the walks go on
    from the frame around it, one environment up if one is pushed. *)
Lemma pushEnvIfFlag_walk (nb0 nb1 : cell) (flag : bool) (st : CState)
    (tgt : Comp -> option cell) :
  loop_target tgt ->
  walk tgt 0 (comp (fst (pushEnvIfFlag nb0 nb1 flag st)))
  = walk tgt (if flag then 1 else 0) (comp st).
Proof.
  intros Ht. rewrite walk_eq.
  rewrite (target_no_Loop tgt _ Ht) by (destruct flag; reflexivity).
  destruct flag; cbn -[walk].
  - apply (walk_same_frame tgt 1 (comp st)); [exact Ht|].
    repeat split.
  - apply (walk_same_frame tgt 0 (comp st)); [exact Ht|].
    repeat split.
Qed.

(** ** Walks that reach the frame around *)

Lemma exits_under (h : list nat) (lo a : nat) (F F' : Comp)
    (seg : list Stmt) (k : nat) :
  (forall tgt, loop_target tgt -> walk tgt 0 F' = walk tgt k F) ->
  exits_to h lo a F seg k F'.
Proof.
  intros H tgt r c Ht Hw. left.
  rewrite (H tgt Ht), walk_shift in Hw.
  destruct (walk tgt 0 F) as [[r0 c0]|]; [|discriminate Hw].
  injection Hw as <- <-. exists r0. split; reflexivity.
Qed.

Lemma exits_same (h : list nat) (lo a : nat) (F F' : Comp)
    (seg : list Stmt) :
  same_frame F F' -> exits_to h lo a F seg 0 F'.
Proof.
  intros HF. apply exits_under. intros tgt Ht.
  apply (walk_same_frame tgt 0 F F' Ht HF).
Qed.

(** The frame of a loop: the walks that stop there find the Post slot or the
    Break slot, which hold positions in the scope of the loop. *)
Lemma exits_loop (h : list nat) (lo a : nat) (F F' : Comp)
    (seg : list Stmt) (k : nat) (cont brk : cell) (labels : list string) :
  Loop F' = Some (mkLoopInfo (Some cont) (Some brk) labels) ->
  (forall tgt, loop_target tgt -> tgt F' = None ->
               walk tgt 0 F' = walk tgt k F) ->
  (forall c, c = cont \/ c = brk ->
             lo <= c < length h /\
             a <= load c h <= a + length seg /\
             depth_at seg (load c h - a) = k) ->
  exits_to h lo a F seg k F'.
Proof.
  intros HL Hout Hin tgt r c Ht Hw.
  destruct (tgt F') as [x|] eqn:Htx.
  - right. rewrite walk_eq, Htx in Hw.
    destruct (Func F'); [discriminate Hw|]. injection Hw as <- <-.
    destruct (target_slot tgt F' x _ _ _ Ht HL Htx) as [E|E];
      injection E as E; subst x.
    + destruct (Hin cont (or_introl eq_refl)) as [H1 [H2 H3]].
      repeat split; try lia.
    + destruct (Hin brk (or_intror eq_refl)) as [H1 [H2 H3]].
      repeat split; try lia.
  - left. rewrite (Hout tgt Ht Htx), walk_shift in Hw.
    destruct (walk tgt 0 F) as [[r0 c0]|]; [|discriminate Hw].
    injection Hw as <- <-. exists r0. split; reflexivity.
Qed.

(** ** A part of a stream, in place *)

Lemma jumps_embed (h h' : list nat) (lo lo' a : nat) (F F' : Comp)
    (pre s post : list Stmt) (k : nat) :
  sound h' lo' (a + length pre) F' s ->
  keeps_from lo' h' h -> lo <= lo' ->
  count_push pre = k + count_pop pre ->
  exits_to h lo a F (pre ++ s ++ post) k F' ->
  jumps h lo a F (pre ++ s ++ post) (length pre) s.
Proof.
  intros [Hn Hj] HK Hlo Hk Hex n i Hnth.
  assert (Hlt : n < length s) by (apply nth_error_Some; congruence).
  specialize (Hj n i Hnth). simpl in Hj.
  assert (Hl : forall upn c,
             lands h' lo' (a + length pre) s n upn c ->
             lands h lo a (pre ++ s ++ post) (length pre + n) upn c).
  { intros upn c L.
    apply (lands_embed h h' lo lo' a pre s post n upn k c L); auto. lia. }
  assert (Hd : depth_at (pre ++ s ++ post) (length pre + n)
               = k + depth_at s n).
  { apply depth_at_embed; [lia | exact Hk | apply (proj2 Hn)]. }
  destruct i; simpl in *; try (intros c Hin; apply Hl, Hj, Hin).
  destruct Hj as [L|[tgt [r [Ht [Hw Hu]]]]]; [left; apply Hl, L|].
  destruct (Hex tgt r ip Ht Hw) as [[r0 [Hw0 Hr]]|[Hc [Hr Hdt]]].
  - right. exists tgt, r0. split; [exact Ht|]. split; [exact Hw0|]. lia.
  - left. unfold lands. split; [exact Hc|]. split; [exact Hr|]. lia.
Qed.

Lemma sound_nil (h : list nat) (lo a : nat) (F : Comp) : sound h lo a F [].
Proof. constructor; [apply nested_nil | apply jumps_nil]. Qed.

Lemma sound_plain (h : list nat) (lo a : nat) (F : Comp) (i : Stmt) :
  is_push i = false -> is_pop i = false ->
  jump_slots i = [] -> (forall upn c, i <> jumpOut upn c) ->
  sound h lo a F [i].
Proof.
  intros H1 H2 H3 H4. constructor; [apply nested_single; assumption|].
  apply jumps_one. apply jump_ok_plain; assumption.
Qed.

(** A sound stream is sound for later values of the other patchable
    integers and for a frame that the walks cannot tell apart. *)
Lemma sound_later (h h' : list nat) (lo lo' a : nat) (F F' : Comp)
    (s : list Stmt) :
  sound h' lo' a F' s ->
  keeps_from lo' h' h -> lo <= lo' -> same_frame F F' ->
  sound h lo a F s.
Proof.
  intros S HK Hlo HF. constructor; [apply (sd_nested S)|].
  pose proof (jumps_embed h h' lo lo' a F F' [] s [] 0) as H.
  simpl in H. rewrite app_nil_r, Nat.add_0_r in H.
  apply H; auto. apply exits_same. exact HF.
Qed.

End Jumps.

Section OrderlyCompile.
Context {Sx : Syntax} {Hx : Host} {Cx : Collaborators}.

Lemma jumps_part (h h' : list nat) (lo lo' a a' : nat) (F F' : Comp)
    (seg pre s post : list Stmt) (k : nat) :
  seg = pre ++ s ++ post -> a' = a + length pre ->
  sound h' lo' a' F' s ->
  keeps_from lo' h' h -> lo <= lo' ->
  count_push pre = k + count_pop pre ->
  exits_to h lo a F seg k F' ->
  jumps h lo a F seg (length pre) s.
Proof. intros -> ->. apply jumps_embed. Qed.

Lemma exits_to_same (h : list nat) (lo a : nat) (F F' F'' : Comp)
    (seg : list Stmt) (k : nat) :
  exits_to h lo a F seg k F' -> same_frame F' F'' ->
  exits_to h lo a F seg k F''.
Proof.
  intros H HF tgt r c Ht Hw.
  rewrite (walk_same_frame tgt 0 F' F'' Ht HF) in Hw.
  apply (H tgt r c Ht Hw).
Qed.

Lemma depth_at_prefix (pre post : list Stmt) (k : nat) :
  count_push pre = k + count_pop pre ->
  depth_at (pre ++ post) (length pre) = k.
Proof.
  intros Hk. unfold depth_at.
  rewrite <- (Nat.add_0_r (length pre)), firstn_app_2. simpl.
  rewrite app_nil_r. lia.
Qed.

Lemma Len_app (st st' : CState) (seg : list Stmt) :
  code_of st' = code_of st ++ seg -> Len st' = Len st + length seg.
Proof.
  intros H. change (Len st') with (length (code_of st')).
  rewrite H, length_app. reflexivity.
Qed.

(** One instruction appended that jumps through no patchable integer. *)
Lemma Append_orderly (i : Stmt) :
  is_push i = false -> is_pop i = false ->
  jump_slots i = [] -> (forall upn c, i <> jumpOut upn c) ->
  orderly_on (fun st => Ok (Comp_Append i st)).
Proof.
  intros H1 H2 H3 H4 st st' H. injection H as <-.
  split; [repeat split|].
  exists [i]. split; [reflexivity|]. apply sound_plain; assumption.
Qed.

Lemma orderly_refl (st : CState) :
  same_frame (comp st) (comp st) /\
  exists seg,
    code_of st = code_of st ++ seg /\
    sound (cells st) (length (cells st)) (Len st) (comp st) seg.
Proof.
  split; [apply same_frame_refl|]. exists [].
  split; [rewrite app_nil_r; reflexivity | apply sound_nil].
Qed.

(** One compiler after another. *)
Lemma orderly_then (f g : CState -> result CState) :
  grows_on f -> grows_on g -> orderly_on f -> orderly_on g ->
  orderly_on (fun st => st1 <- f st ;; g st1).
Proof.
  intros Gf Gg Of Og st st' H.
  apply bind_Ok in H. destruct H as [s1 [H1 H2]].
  destruct (Of _ _ H1) as [F1 [seg1 [C1 S1]]].
  destruct (Og _ _ H2) as [F2 [seg2 [C2 S2]]].
  destruct (Gf _ _ H1) as [x1 [_ E1]].
  destruct (Gg _ _ H2) as [x2 [_ E2]].
  split; [apply (same_frame_trans _ _ _ F1 F2)|].
  exists (seg1 ++ seg2).
  split; [rewrite C2, C1, app_assoc; reflexivity|].
  constructor; [apply nested_app; [apply (sd_nested S1)
                                  | apply (sd_nested S2)]|].
  apply jumps_app.
  - apply (jumps_part (cells st') (cells s1) (length (cells st))
             (length (cells st)) (Len st)
             (Len st) (comp st) (comp st) (seg1 ++ seg2) [] seg1 seg2 0);
      auto; try reflexivity.
    + apply (ext_by_keeps _ x2 s1 st' E2).
    + apply exits_same, same_frame_refl.
  - simpl.
    apply (jumps_part (cells st') (cells st') (length (cells st))
             (length (cells s1)) (Len st)
             (Len s1) (comp st) (comp s1) (seg1 ++ seg2) seg1 seg2 [] 0).
    + rewrite app_nil_r. reflexivity.
    + apply (Len_app _ _ _ C1).
    + exact S2.
    + apply keeps_from_refl.
    + apply (ext_by_length _ _ _ E1).
    + pose proof (proj1 (sd_nested S1)) as B. unfold balanced in B. lia.
    + apply exits_same. exact F1.
Qed.

Lemma Stmts_orderly (rec : ast_Stmt -> CState -> result CState)
    (nodes : list ast_Stmt) :
  Forall (fun s => grows_on (rec s)) nodes ->
  Forall (fun s => orderly_on (rec s)) nodes ->
  orderly_on (Stmts rec nodes).
Proof.
  intros Hg Ho. induction nodes as [|node rest IH].
  - intros st st' H. injection H as <-. apply orderly_refl.
  - inversion Hg as [|? ? Hg1 Hgr]; subst.
    inversion Ho as [|? ? Ho1 Hor]; subst.
    apply (orderly_then (rec node) (Stmts rec rest)); auto.
    intros a b Hab. apply (Stmts_grows rec rest Hgr a b Hab).
Qed.

(** A push, a sound stream, a pop; or the stream alone. *)
Lemma sound_scope (h h' : list nat) (lo lo' a : nat) (F F' : Comp)
    (locals : bool) (n0 n1 : cell) (s : list Stmt) :
  let opening := if locals then [pushEnv n0 n1] else [] in
  let closing := if locals then [popEnv] else [] in
  sound h' lo' (a + length opening) F' s ->
  keeps_from lo' h' h -> lo <= lo' ->
  (forall tgt, loop_target tgt ->
               walk tgt 0 F' = walk tgt (if locals then 1 else 0) F) ->
  sound h lo a F (opening ++ s ++ closing).
Proof.
  cbv zeta. intros S HK Hlo Hw.
  constructor; [apply nested_scope, (sd_nested S)|].
  apply jumps_app; [|apply jumps_app].
  - destruct locals; [|apply jumps_nil].
    apply jumps_one, jump_ok_plain; [reflexivity|]. intros; discriminate.
  - simpl.
    apply (jumps_part h h' lo lo' a
             (a + length (if locals then [pushEnv n0 n1] else [])) F F'
             ((if locals then [pushEnv n0 n1] else []) ++ s
              ++ (if locals then [popEnv] else []))
             (if locals then [pushEnv n0 n1] else []) s
             (if locals then [popEnv] else [])
             (if locals then 1 else 0)); auto.
    + destruct locals; reflexivity.
    + apply exits_under. exact Hw.
  - destruct locals; [|apply jumps_nil].
    apply jumps_one, jump_ok_plain; [reflexivity|]. intros; discriminate.
Qed.

Lemma Comp_List_orderly (rec : ast_Stmt -> CState -> result CState)
    (nodes : list ast_Stmt) :
  Forall (fun s => grows_on (rec s)) nodes ->
  Forall (fun s => orderly_on (rec s)) nodes ->
  orderly_on (Comp_List rec nodes).
Proof.
  intros Hg Ho st st' H.
  destruct (Comp_List_shape rec nodes st st' Hg H)
    as [seg [st3 [_ [_ [Hstmts [Hc3 [Hpop [Hext Hframe]]]]]]]].
  set (nb := length (cells st)) in *.
  set (locals := existsb stmt_declares nodes) in *.
  set (st2 := fst (pushEnvIfFlag nb (S nb) locals (snd (alloc 2 st)))) in *.
  destruct (pushEnvIfFlag_facts nb (S nb) locals (snd (alloc 2 st)))
    as [Hc2 [Hh2 _]].
  fold st2 in Hc2, Hh2.
  change (code_of (snd (alloc 2 st))) with (code_of st) in Hc2.
  assert (Hlen2 : length (cells st2) = nb + 2).
  { rewrite Hh2. simpl. rewrite length_app. reflexivity. }
  destruct (Stmts_orderly rec nodes Hg Ho _ _ Hstmts) as [_ [seg' [C' S']]].
  rewrite Hc3 in C'. apply app_inv_head in C'. subst seg'.
  apply popEnvIfLocalBinds_Ok in Hpop.
  destruct Hpop as [c [_ [Hc' [Hh' _]]]].
  split; [apply (same_frame_eq_set_Code _ _ _ Hframe)|].
  eexists. split; [apply (eb_code Hext)|].
  apply (sound_scope (cells st') (cells st3) nb (length (cells st2))
           (Len st) (comp st) (comp st2) locals nb (S nb) seg).
  - rewrite <- (Len_app _ _ _ Hc2). exact S'.
  - rewrite Hh'. apply keeps_from_store; [|lia].
    apply keeps_from_store; [|lia]. apply keeps_from_refl.
  - lia.
  - intros tgt Ht.
    apply (pushEnvIfFlag_walk nb (S nb) locals (snd (alloc 2 st)) tgt Ht).
Qed.

Lemma Comp_Block_orderly (rec : ast_Stmt -> CState -> result CState)
    (block : list ast_Stmt) :
  Forall (fun s => grows_on (rec s)) block ->
  Forall (fun s => orderly_on (rec s)) block ->
  orderly_on (Comp_Block rec block).
Proof.
  intros Hg Ho st st' H. unfold Comp_Block in H.
  destruct block as [|node rest] eqn:Hblock.
  - injection H as <-. apply orderly_refl.
  - rewrite <- Hblock in *. apply (Comp_List_orderly rec block Hg Ho _ _ H).
Qed.

Lemma optional_orderly (rec : ast_Stmt -> CState -> result CState)
    (s : ast_Stmt) :
  orderly_on (rec s) ->
  orderly_on (fun st => if is_nil s then Ok st else rec s st).
Proof.
  intros Hrec st st' H. destruct (is_nil s).
  - injection H as <-. apply orderly_refl.
  - apply (Hrec _ _ H).
Qed.

End OrderlyCompile.

Section OrderlyFor.
Context {Sx : Syntax} {Hx : Host} {Cx : Collaborators}.

Lemma depth_at_split (mid pre post : list Stmt) (n k : nat) :
  mid = pre ++ post -> count_push pre = k + count_pop pre ->
  n = length pre -> depth_at mid n = k.
Proof. intros -> Hk ->. apply depth_at_prefix. exact Hk. Qed.

Lemma Comp_For_orderly (rec : ast_Stmt -> CState -> result CState)
    (Init : ast_Stmt) (Cond : option ast_Expr) (Post : ast_Stmt)
    (Body : list ast_Stmt) (labels : list string) :
  grows_on (rec Init) -> grows_on (rec Post) ->
  Forall (fun s => grows_on (rec s)) Body ->
  orderly_on (rec Init) -> orderly_on (rec Post) ->
  Forall (fun s => orderly_on (rec s)) Body ->
  orderly_on (Comp_For rec Init Cond Post Body labels).
Proof.
  intros GI GP GB OI OP OB st st' H.
  destruct (Comp_For_shape rec Init Cond Post Body labels st st' GI GP GB H)
    as [st3 [flag [fun_ [seg_init [seg_body [seg_post
       [Hinit [Hc3 [Hbi [_ [Hbb [Hbp [Hbr [Hext [Hjc [Hjb Hframe]]]]]]]]]]]]]]]].
  destruct Hbr
    as [s7 [s8 [s9 [Hloop [Hc7 [Hbody [Hc8 [Hpost [Hc9 [Hnil [Hlen2 [Hlo
       [Hlen7 [Hlen8 [K3 [K8 [K9 [Hjp [Hf7 _]]]]]]]]]]]]]]]]]]].
  cbv zeta in *.
  set (low := length (cells st)) in *.
  set (locals := existsb stmt_declares [Init]) in *.
  set (st2 := fst (pushEnvIfFlag low (S low) locals (snd (alloc 2 st)))) in *.
  set (jump := length (cells st3)) in *.
  remember (match fun_ with
            | Some f => [forCond f (S (S jump))]
            | None => []
            end) as test eqn:Htest.
  remember (test ++ seg_body ++ seg_post ++ [forJump jump]) as seg_loop
    eqn:Hseg.
  remember (if match fun_ with
               | Some _ => false
               | None => negb flag
               end then [] else seg_loop) as kept eqn:Hkept.
  destruct (pushEnvIfFlag_facts low (S low) locals (snd (alloc 2 st)))
    as [Hc2 _].
  fold st2 in Hc2.
  change (code_of (snd (alloc 2 st))) with (code_of st) in Hc2.
  pose proof (keeps_from_length _ _ _ K8) as Hlen'.
  unfold balanced in Hbi, Hbb, Hbp.
  split; [apply (same_frame_eq_set_Code _ _ _ Hframe)|].
  eexists. split; [apply (eb_code Hext)|].
  (* the init statement *)
  destruct (optional_orderly rec Init OI _ _ Hinit) as [F3 [si [Ci Si]]].
  rewrite Hc3 in Ci. apply app_inv_head in Ci. subst si.
  pose proof (Len_app _ _ _ Hc3) as L3.
  assert (Hmid : sound (cells st') (low + 2) (Len st2) (comp st2)
                       (seg_init ++ kept)).
  { assert (Hdrop : kept = [] ->
              sound (cells st') (low + 2) (Len st2) (comp st2)
                    (seg_init ++ kept)).
    { intros ->. rewrite app_nil_r.
      apply (sound_later _ (cells st3) _ (length (cells st2)) _ _
               (comp st2) _ Si); [rewrite Hlen2; exact K3 | lia
                                 | apply same_frame_refl]. }
    assert (Hloop' : kept = seg_loop ->
              sound (cells st') (low + 2) (Len st2) (comp st2)
                    (seg_init ++ kept)).
    { intros ->.
      pose proof (Len_app _ _ _ Hc7) as L7.
      pose proof (Len_app _ _ _ Hc8) as L8.
      assert (Ht : count_push test = 0 /\ count_pop test = 0)
        by (rewrite Htest; destruct fun_; split; reflexivity).
      destruct Ht as [Ht1 Ht2].
      assert (Hj1 : count_push [forJump jump] = 0) by reflexivity.
      assert (Hj2 : count_pop [forJump jump] = 0) by reflexivity.
      (* the body *)
      destruct (Comp_Block_orderly rec Body GB OB _ _ Hbody)
        as [F8 [sb [Cb Sb]]].
      rewrite Hc8 in Cb. apply app_inv_head in Cb. subst sb.
      (* the frame of the loop *)
      destruct F3 as [E1 [E2 [E3 E4]]].
      assert (G1 : Func (comp s7) = Func (comp st2))
        by (rewrite Hf7; simpl; exact E1).
      assert (G3 : UpCost (comp s7) = UpCost (comp st2))
        by (rewrite Hf7; simpl; exact E3).
      assert (G4 : Comp_Outer (comp s7) = Comp_Outer (comp st2))
        by (rewrite Hf7; simpl; exact E4).
      assert (L2 : Loop (comp st2) = None)
        by (unfold st2; destruct locals; reflexivity).
      set (mid := seg_init ++ seg_loop).
      assert (Bmid : balanced mid).
      { unfold mid, balanced. rewrite Hseg.
        rewrite !count_push_app, !count_pop_app. lia. }
      assert (Lmid : length mid = length seg_init + length test
                                  + length seg_body + length seg_post + 1).
      { unfold mid. rewrite Hseg, !length_app. simpl. lia. }
      assert (D0 : depth_at mid (length seg_init) = 0).
      { apply (depth_at_split mid seg_init seg_loop); auto. }
      assert (D1 : depth_at mid (length seg_init + length test
                                 + length seg_body) = 0).
      { apply (depth_at_split mid (seg_init ++ test ++ seg_body)
                 (seg_post ++ [forJump jump])).
        - unfold mid. rewrite Hseg, <- !app_assoc. reflexivity.
        - rewrite !count_push_app, !count_pop_app. lia.
        - rewrite !length_app. lia. }
      assert (D2 : depth_at mid (length seg_init + length test
                                 + length seg_body + length seg_post) = 0).
      { apply (depth_at_split mid
                 (seg_init ++ test ++ seg_body ++ seg_post)
                 [forJump jump]).
        - unfold mid. rewrite Hseg, <- !app_assoc. reflexivity.
        - rewrite !count_push_app, !count_pop_app. lia.
        - rewrite !length_app. lia. }
      assert (D3 : depth_at mid (length mid) = 0)
        by (apply depth_at_end; exact Bmid).
      assert (Dt : depth_at mid (length seg_init + length test) = 0).
      { apply (depth_at_split mid (seg_init ++ test)
                 (seg_body ++ seg_post ++ [forJump jump])).
        - unfold mid. rewrite Hseg, <- !app_assoc. reflexivity.
        - rewrite !count_push_app, !count_pop_app. lia.
        - rewrite !length_app. lia. }
      assert (Hbrk : load (S (S jump)) (cells st') = Len st2 + length mid).
      { rewrite Hjb. change (length (code_of st3)) with (Len st3).
        rewrite L3, Lmid, Hseg, !length_app. simpl. lia. }
      assert (Hcont : load (S jump) (cells st') - Len st2
                      = (if is_nil Post then length seg_init
                         else length seg_init + length test
                              + length seg_body) /\
                      Len st2 <= load (S jump) (cells st')
                      <= Len st2 + length mid).
      { rewrite Hjp. change (length (code_of st3)) with (Len st3).
        destruct (is_nil Post); lia. }
      assert (Hcond : load jump (cells st') = Len st2 + length seg_init).
      { rewrite Hjc. change (length (code_of st3)) with (Len st3). lia. }
      assert (Hex7 : exits_to (cells st') (low + 2) (Len st2) (comp st2)
                              mid 0 (comp s7)).
      { apply (exits_loop _ _ _ _ _ _ _ (S jump) (S (S jump))
                 (sort_Strings labels) Hloop).
        - intros tgt Ht Hx7.
          rewrite (walk_eq tgt 0 (comp s7)), (walk_eq tgt 0 (comp st2)).
          rewrite Hx7, (target_no_Loop tgt _ Ht L2), G1, G3, G4.
          reflexivity.
        - intros c [->| ->].
          + destruct Hcont as [Hc1 Hc2']. split; [lia|].
            split; [exact Hc2'|]. rewrite Hc1.
            destruct (is_nil Post); assumption.
          + split; [lia|]. rewrite Hbrk. split; [lia|].
            replace (Len st2 + length mid - Len st2) with (length mid)
              by lia.
            exact D3. }
      (* the post statement *)
      assert (Ppost : nested seg_post /\
                      jumps (cells st') (low + 2) (Len st2) (comp st2) mid
                            (length (seg_init ++ test ++ seg_body))
                            seg_post).
      { destruct (is_nil Post) eqn:Hn.
        - rewrite (Hnil eq_refl). split; [apply nested_nil | apply jumps_nil].
        - destruct (Hpost eq_refl) as [_ Hp].
          destruct (OP _ _ Hp) as [_ [sp [Cp Sp]]].
          change (code_of (write (S jump) (Len s8) s8)) with (code_of s8)
            in Cp.
          rewrite Hc9 in Cp. apply app_inv_head in Cp. subst sp.
          split; [apply (sd_nested Sp)|].
          apply (jumps_part (cells st') (cells s9) (low + 2)
                   (length (cells (write (S jump) (Len s8) s8)))
                   (Len st2) (Len (write (S jump) (Len s8) s8))
                   (comp st2) (comp (write (S jump) (Len s8) s8)) mid
                   (seg_init ++ test ++ seg_body) seg_post
                   [forJump jump] 0).
          + unfold mid. rewrite Hseg, <- !app_assoc. reflexivity.
          + change (Len (write (S jump) (Len s8) s8)) with (Len s8).
            rewrite !length_app. lia.
          + exact Sp.
          + simpl. rewrite length_store.
            apply (keeps_from_weaken (jump + 3)); [exact Hlen8 | exact K9].
          + simpl. rewrite length_store. lia.
          + rewrite !count_push_app, !count_pop_app. lia.
          + apply (exits_to_same _ _ _ _ (comp s7)); [exact Hex7|].
            exact F8. }
      destruct Ppost as [Np Jp].
      constructor.
      - apply nested_app; [apply (sd_nested Si)|]. rewrite Hseg.
        apply nested_app;
          [rewrite Htest; destruct fun_;
           [apply nested_single; reflexivity | apply nested_nil]|].
        apply nested_app; [apply (sd_nested Sb)|].
        apply nested_app; [exact Np|].
        apply nested_single; reflexivity.
      - fold mid. unfold mid at 2. rewrite Hseg.
        apply jumps_app; [|apply jumps_app; [|apply jumps_app;
                                               [|apply jumps_app]]].
        + apply (jumps_part (cells st') (cells st3) (low + 2)
                   (length (cells st2)) (Len st2) (Len st2)
                   (comp st2) (comp st2) mid [] seg_init seg_loop 0);
            auto; try reflexivity.
          * rewrite Hlen2. exact K3.
          * lia.
          * apply exits_same, same_frame_refl.
        + rewrite Htest. destruct fun_ as [f|]; [|apply jumps_nil].
          apply jumps_one. simpl. intros c [<-|[]].
          split; [lia|]. rewrite Hbrk. split; [lia|].
          replace (Len st2 + length mid - Len st2) with (length mid) by lia.
          rewrite D3, D0. reflexivity.
        + replace (0 + length seg_init + length test)
            with (length (seg_init ++ test))
            by (rewrite length_app; lia).
          apply (jumps_part (cells st') (cells s8) (low + 2)
                   (length (cells s7)) (Len st2) (Len s7)
                   (comp st2) (comp s7) mid (seg_init ++ test) seg_body
                   (seg_post ++ [forJump jump]) 0).
          * unfold mid. rewrite Hseg, <- !app_assoc. reflexivity.
          * rewrite length_app. lia.
          * exact Sb.
          * rewrite Hlen7. exact K8.
          * lia.
          * rewrite !count_push_app, !count_pop_app. lia.
          * exact Hex7.
        + replace (0 + length seg_init + length test + length seg_body)
            with (length (seg_init ++ test ++ seg_body))
            by (rewrite !length_app; lia).
          exact Jp.
        + apply jumps_one. simpl. intros c [<-|[]].
          split; [lia|]. rewrite Hcond. split; [lia|].
          replace (Len st2 + length seg_init - Len st2)
            with (length seg_init) by lia.
          replace (0 + length seg_init + length test + length seg_body
                   + length seg_post + 0)
            with (length seg_init + length test + length seg_body
                  + length seg_post) by lia.
          rewrite D0, D2. reflexivity. }
    destruct fun_ as [f|]; [apply Hloop'; exact Hkept|].
    destruct flag; simpl in Hkept;
      [apply Hloop' | apply Hdrop]; exact Hkept. }
  apply (sound_scope (cells st') (cells st') low (low + 2) (Len st)
           (comp st) (comp st2) locals low (S low) (seg_init ++ kept)).
  - rewrite <- (Len_app _ _ _ Hc2). exact Hmid.
  - apply keeps_from_refl.
  - lia.
  - intros tgt Ht.
    apply (pushEnvIfFlag_walk low (S low) locals (snd (alloc 2 st)) tgt Ht).
Qed.

End OrderlyFor.

Section OrderlyIf.
Context {Sx : Syntax} {Hx : Host} {Cx : Collaborators}.

Lemma If_else_orderly (rec : ast_Stmt -> CState -> result CState)
    (Else : ast_Stmt) :
  grows_on (rec Else) -> orderly_on (rec Else) ->
  orderly_on (If_else rec Else).
Proof.
  intros Hg Ho.
  assert (Hblock : orderly_on (Comp_Block rec [Else])).
  { apply Comp_Block_orderly; constructor; auto. }
  destruct Else; simpl; solve [exact Ho | exact Hblock].
Qed.

Lemma Comp_If_orderly (rec : ast_Stmt -> CState -> result CState)
    (Init : ast_Stmt) (Cond : ast_Expr) (Body : list ast_Stmt)
    (Else : ast_Stmt) :
  grows_on (rec Init) -> Forall (fun s => grows_on (rec s)) Body ->
  grows_on (rec Else) ->
  orderly_on (rec Init) -> Forall (fun s => orderly_on (rec s)) Body ->
  orderly_on (rec Else) ->
  orderly_on (Comp_If rec Init Cond Body Else).
Proof.
  intros GI GB GE OI OB OE st st' H.
  destruct (Comp_If_shape rec Init Cond Body Else st st' GI GB GE H)
    as [st3 [pred [flag [fun_ [seg_init [seg_then [seg_else
       [Hinit [Hc3 [Hbi [_ [_ [Hbt [Hbe [Hbr [Hext [HjT [HjE [HjEnd
       Hframe]]]]]]]]]]]]]]]]]]].
  destruct Hbr
    as [s5 [s6 [s9 [Hc5 [Hbody [Hc6 [Hc9 [Hnil [Helse [Hlen2 [Hlen5 [Hlen9
       [K3 [K6 [Hf5 [Hf9 _]]]]]]]]]]]]]]]].
  cbv zeta in *.
  set (low := length (cells st)) in *.
  set (locals := existsb stmt_declares [Init]) in *.
  set (st2 := fst (pushEnvIfFlag (low + 3) (S (low + 3)) locals
                     (snd (alloc 2 (snd (alloc 3 st)))))) in *.
  remember (match fun_ with
            | Some f => [ifCond f low (S low)]
            | None => []
            end) as test eqn:Htest.
  remember (match fun_ with
            | Some _ => if negb (is_nil Else)
                        then [ifJumpEnd (S (S low))] else []
            | None => []
            end) as skip eqn:Hskip.
  remember (match fun_ with
            | Some _ => seg_then
            | None => if negb flag then [] else seg_then
            end) as kept_then eqn:Hkt.
  remember (match fun_ with
            | Some _ => seg_else
            | None => if flag then [] else seg_else
            end) as kept_else eqn:Hke.
  set (mid := seg_init ++ test ++ kept_then ++ skip ++ kept_else) in *.
  destruct (pushEnvIfFlag_facts (low + 3) (S (low + 3)) locals
              (snd (alloc 2 (snd (alloc 3 st))))) as [Hc2 _].
  fold st2 in Hc2.
  change (code_of (snd (alloc 2 (snd (alloc 3 st))))) with (code_of st)
    in Hc2.
  pose proof (keeps_from_length _ _ _ K3) as Hlen'.
  unfold balanced in Hbi, Hbt, Hbe.
  split; [apply (same_frame_eq_set_Code _ _ _ Hframe)|].
  eexists. split; [apply (eb_code Hext)|].
  (* the patchable integers of the parts *)
  destruct (optional_grows rec Init GI _ _ Hinit) as [x3 [_ X3]].
  pose proof (ext_by_length _ _ _ X3) as Hlen3.
  destruct (Comp_Block_grows rec Body GB _ _ Hbody) as [x6 [_ X6]].
  pose proof (ext_by_length _ _ _ X6) as Hlen6.
  (* the init statement and the then branch *)
  destruct (optional_orderly rec Init OI _ _ Hinit) as [F3 [si [Ci Si]]].
  rewrite Hc3 in Ci. apply app_inv_head in Ci. subst si.
  destruct (Comp_Block_orderly rec Body GB OB _ _ Hbody)
    as [F6 [sb [Cb Sb]]].
  rewrite Hc6 in Cb. apply app_inv_head in Cb. subst sb.
  pose proof (Len_app _ _ _ Hc3) as L3.
  pose proof (Len_app _ _ _ Hc5) as L5.
  pose proof (Len_app _ _ _ Hc9) as L9. rewrite !length_app in L9.
  assert (F5 : same_frame (comp st2) (comp s5)).
  { apply (same_frame_trans _ _ _ F3).
    apply (same_frame_eq_set_Code _ _ _ Hf5). }
  assert (F9 : same_frame (comp st2) (comp s9)).
  { apply (same_frame_trans _ _ _ F5). apply (same_frame_trans _ _ _ F6).
    apply (same_frame_eq_set_Code _ _ _ Hf9). }
  (* the counts of the parts *)
  assert (Ht : count_push test = 0 /\ count_pop test = 0)
    by (rewrite Htest; destruct fun_; split; reflexivity).
  destruct Ht as [Ht1 Ht2].
  assert (Hs : count_push skip = 0 /\ count_pop skip = 0).
  { rewrite Hskip. destruct fun_; [|split; reflexivity].
    destruct (negb (is_nil Else)); split; reflexivity. }
  destruct Hs as [Hs1 Hs2].
  assert (Bkt : count_push kept_then = count_pop kept_then).
  { rewrite Hkt. destruct fun_; [exact Hbt|].
    destruct (negb flag); [reflexivity | exact Hbt]. }
  assert (Bke : count_push kept_else = count_pop kept_else).
  { rewrite Hke. destruct fun_; [exact Hbe|].
    destruct flag; [reflexivity | exact Hbe]. }
  assert (Lmid : length mid = length seg_init + length test
                              + length kept_then + length skip
                              + length kept_else).
  { unfold mid. rewrite !length_app. lia. }
  assert (D0 : depth_at mid (length seg_init) = 0).
  { apply (depth_at_split mid seg_init
             (test ++ kept_then ++ skip ++ kept_else)); auto. }
  assert (D1 : depth_at mid (length seg_init + length test) = 0).
  { apply (depth_at_split mid (seg_init ++ test)
             (kept_then ++ skip ++ kept_else)).
    - unfold mid. rewrite <- !app_assoc. reflexivity.
    - rewrite !count_push_app, !count_pop_app. lia.
    - rewrite !length_app. lia. }
  assert (D2 : depth_at mid (length seg_init + length test
                             + length kept_then) = 0).
  { apply (depth_at_split mid (seg_init ++ test ++ kept_then)
             (skip ++ kept_else)).
    - unfold mid. rewrite <- !app_assoc. reflexivity.
    - rewrite !count_push_app, !count_pop_app. lia.
    - rewrite !length_app. lia. }
  assert (D3 : depth_at mid (length seg_init + length test
                             + length kept_then + length skip) = 0).
  { apply (depth_at_split mid (seg_init ++ test ++ kept_then ++ skip)
             kept_else).
    - unfold mid. rewrite <- !app_assoc. reflexivity.
    - rewrite !count_push_app, !count_pop_app. lia.
    - rewrite !length_app. lia. }
  assert (D4 : depth_at mid (length mid) = 0).
  { apply depth_at_end. unfold mid, balanced.
    rewrite !count_push_app, !count_pop_app. lia. }
  assert (HT : load low (cells st')
               = Len st2 + (length seg_init + length test)).
  { rewrite HjT, length_app.
    change (length (code_of st3)) with (Len st3). lia. }
  assert (HE : load (S low) (cells st')
               = Len st2 + (length seg_init + length test
                            + length kept_then + length skip)).
  { rewrite HjE, !length_app.
    change (length (code_of st3)) with (Len st3). lia. }
  assert (HEnd : load (S (S low)) (cells st') = Len st2 + length mid).
  { rewrite HjEnd, !length_app.
    change (length (code_of st3)) with (Len st3). lia. }
  (* the branches, where they are kept *)
  assert (Pthen : nested kept_then /\
                  jumps (cells st') low (Len st2) (comp st2) mid
                        (length (seg_init ++ test)) kept_then).
  { assert (Hk : kept_then = seg_then ->
              nested kept_then /\
              jumps (cells st') low (Len st2) (comp st2) mid
                    (length (seg_init ++ test)) kept_then).
    { intros Hk. rewrite Hk. split; [apply (sd_nested Sb)|].
      apply (jumps_part (cells st') (cells s6) low (length (cells s5))
               (Len st2) (Len s5) (comp st2) (comp s5) mid
               (seg_init ++ test) seg_then (skip ++ kept_else) 0).
      - unfold mid. rewrite Hk, <- !app_assoc. reflexivity.
      - rewrite length_app. lia.
      - exact Sb.
      - apply (keeps_from_weaken (low + 5)); [lia | exact K6].
      - lia.
      - rewrite !count_push_app, !count_pop_app. lia.
      - apply exits_same. exact F5. }
    assert (Hd : kept_then = [] ->
              nested kept_then /\
              jumps (cells st') low (Len st2) (comp st2) mid
                    (length (seg_init ++ test)) kept_then).
    { intros ->. split; [apply nested_nil | apply jumps_nil]. }
    destruct fun_; [apply Hk; exact Hkt|].
    destruct (negb flag); [apply Hd | apply Hk]; exact Hkt. }
  assert (Pelse : nested kept_else /\
                  jumps (cells st') low (Len st2) (comp st2) mid
                        (length (seg_init ++ test ++ kept_then ++ skip))
                        kept_else).
  { assert (Hd : kept_else = [] ->
              nested kept_else /\
              jumps (cells st') low (Len st2) (comp st2) mid
                    (length (seg_init ++ test ++ kept_then ++ skip))
                    kept_else).
    { intros ->. split; [apply nested_nil | apply jumps_nil]. }
    destruct (is_nil Else) eqn:Hn.
    { apply Hd. rewrite Hke, (Hnil eq_refl).
      destruct fun_; [|destruct flag]; reflexivity. }
    assert (Hk : kept_else = seg_else ->
              nested kept_else /\
              jumps (cells st') low (Len st2) (comp st2) mid
                    (length (seg_init ++ test ++ kept_then ++ skip))
                    kept_else).
    { intros Hk. rewrite Hk.
      destruct (Helse eq_refl) as [s10 [Hs10 [Hc10 K10]]].
      destruct (If_else_orderly rec Else GE OE _ _ Hs10)
        as [_ [se [Ce Se]]].
      rewrite Hc10 in Ce. apply app_inv_head in Ce. subst se.
      split; [apply (sd_nested Se)|].
      apply (jumps_part (cells st') (cells s10) low (length (cells s9))
               (Len st2) (Len s9) (comp st2) (comp s9) mid
               (seg_init ++ test ++ kept_then ++ skip) seg_else [] 0).
      - unfold mid. rewrite Hk, app_nil_r, <- !app_assoc. reflexivity.
      - rewrite !length_app. lia.
      - exact Se.
      - apply (keeps_from_weaken (low + 5)); [lia | exact K10].
      - lia.
      - rewrite !count_push_app, !count_pop_app. lia.
      - apply exits_same. exact F9. }
    destruct fun_; [apply Hk; exact Hke|].
    destruct flag; [apply Hd | apply Hk]; exact Hke. }
  destruct Pthen as [Nt Jt]. destruct Pelse as [Ne Je].
  assert (Hmid : sound (cells st') low (Len st2) (comp st2) mid).
  { constructor.
    - unfold mid. apply nested_app; [apply (sd_nested Si)|].
      apply nested_app;
        [rewrite Htest; destruct fun_;
         [apply nested_single; reflexivity | apply nested_nil]|].
      apply nested_app; [exact Nt|].
      apply nested_app; [|exact Ne].
      rewrite Hskip. destruct fun_; [|apply nested_nil].
      destruct (negb (is_nil Else));
        [apply nested_single; reflexivity | apply nested_nil].
    - unfold mid at 2.
      apply jumps_app; [|apply jumps_app; [|apply jumps_app;
                                             [|apply jumps_app]]].
      + apply (jumps_part (cells st') (cells st3) low
                 (length (cells st2)) (Len st2) (Len st2)
                 (comp st2) (comp st2) mid [] seg_init
                 (test ++ kept_then ++ skip ++ kept_else) 0);
          auto; try reflexivity.
        * apply (keeps_from_weaken (low + 5)); [lia | exact K3].
        * lia.
        * apply exits_same, same_frame_refl.
      + rewrite Htest. destruct fun_ as [f|]; [|apply jumps_nil].
        apply jumps_one. simpl. rewrite Htest in *. simpl in *.
        intros c [<-|[<-|[]]].
        * split; [lia|]. rewrite HT. split; [lia|].
          replace (Len st2 + (length seg_init + 1) - Len st2)
            with (length seg_init + 1) by lia.
          replace (0 + length seg_init + 0) with (length seg_init) by lia.
          rewrite D1, D0. reflexivity.
        * split; [lia|]. rewrite HE. split; [lia|].
          replace (Len st2 + (length seg_init + 1 + length kept_then
                              + length skip) - Len st2)
            with (length seg_init + 1 + length kept_then + length skip)
            by lia.
          replace (0 + length seg_init + 0) with (length seg_init) by lia.
          rewrite D3, D0. reflexivity.
      + replace (0 + length seg_init + length test)
          with (length (seg_init ++ test)) by (rewrite length_app; lia).
        exact Jt.
      + rewrite Hskip. destruct fun_ as [f|]; [|apply jumps_nil].
        destruct (negb (is_nil Else)); [|apply jumps_nil].
        apply jumps_one. simpl. intros c [<-|[]].
        split; [lia|]. rewrite HEnd. split; [lia|].
        replace (Len st2 + length mid - Len st2) with (length mid) by lia.
        replace (0 + length seg_init + length test + length kept_then + 0)
          with (length seg_init + length test + length kept_then) by lia.
        rewrite D4, D2. reflexivity.
      + replace (0 + length seg_init + length test + length kept_then
                 + length skip)
          with (length (seg_init ++ test ++ kept_then ++ skip))
          by (rewrite !length_app; lia).
        exact Je. }
  apply (sound_scope (cells st') (cells st') low low (Len st)
           (comp st) (comp st2) locals (low + 3) (S (low + 3)) mid).
  - rewrite <- (Len_app _ _ _ Hc2). exact Hmid.
  - apply keeps_from_refl.
  - lia.
  - intros tgt Ht.
    apply (pushEnvIfFlag_walk (low + 3) (S (low + 3)) locals
             (snd (alloc 2 (snd (alloc 3 st)))) tgt Ht).
Qed.

End OrderlyIf.

Section OrderlyAll.
Context {Sx : Syntax} {Hx : Host} {Cx : Collaborators}
        {Dx : Disciplined Cx} {Ox : Orderly Cx}.

Lemma Return_SetVars_orderly (upn : nat) (binds : list Bind) :
  forall exprs, orderly_on (Return_SetVars upn binds exprs).
Proof.
  induction binds as [|b rest IH]; intros exprs st st' H.
  - injection H as <-. apply orderly_refl.
  - destruct exprs as [|e es]; [discriminate H|].
    apply (orderly_then (Comp_SetVar (AsVar b upn) ASSIGN e)
             (Return_SetVars upn rest es)); auto.
    + apply SetVar_grows.
    + apply Return_SetVars_grows.
    + apply SetVar_orderly.
Qed.

Lemma Comp_Return_orderly (results : list ast_Expr) :
  orderly_on (Comp_Return results).
Proof.
  intros st st' H. unfold Comp_Return in H.
  destruct (Return_walk 0 (comp st)) as [[cinfo upn]|]; [|discriminate H].
  assert (Hassign : forall n,
            (exprs <- Comp_Exprs results st ;;
             st1 <- Return_SetVars upn (firstn n (Results cinfo)) exprs st ;;
             Ok (Comp_Append stmtReturn st1)) = Ok st' ->
            same_frame (comp st) (comp st') /\
            exists seg,
              code_of st' = code_of st ++ seg /\
              sound (cells st') (length (cells st)) (Len st) (comp st) seg).
  { intros n Hn.
    apply bind_Ok in Hn. destruct Hn as [exprs [_ Hn]].
    apply (orderly_then
             (Return_SetVars upn (firstn n (Results cinfo)) exprs)
             (fun s => Ok (Comp_Append stmtReturn s))); auto.
    - apply Return_SetVars_grows.
    - intros a b Hab. injection Hab as <-. apply grows_Append; reflexivity.
    - apply Return_SetVars_orderly.
    - apply Append_orderly; try reflexivity. intros; discriminate. }
  cbv zeta in H.
  destruct (Nat.eqb (length results) (length (Results cinfo)));
    [apply (Hassign _ H)|].
  destruct (Nat.eqb (length results) 1).
  - destruct (Nat.eqb (length (Results cinfo)) 0); [discriminate H|].
    unfold returnMultiValues in H.
    apply bind_Ok in H. destruct H as [es [_ H]].
    destruct es as [|e es]; [discriminate H|].
    apply bind_Ok in H. destruct H as [assigns [_ H]].
    apply (Append_orderly (returnMulti (Expr_AsXV e) assigns));
      try reflexivity; [intros; discriminate | exact H].
  - destruct (Nat.eqb (length results) 0); [|discriminate H].
    destruct (negb (NamedResults cinfo)); [discriminate H|].
    apply (Hassign _ H).
Qed.

(** The jump of a break or continue, where it is compiled. *)
Lemma jumpOut_orderly (tgt : Comp -> option cell) (st : CState)
    (upn : nat) (ip : cell) :
  loop_target tgt -> walk tgt 0 (comp st) = Some (upn, ip) ->
  same_frame (comp st) (comp (Comp_jumpOut upn ip st)) /\
  exists seg,
    code_of (Comp_jumpOut upn ip st) = code_of st ++ seg /\
    sound (cells (Comp_jumpOut upn ip st)) (length (cells st)) (Len st)
          (comp st) seg.
Proof.
  intros Ht Hw. split; [repeat split|].
  exists [jumpOut upn ip]. split; [reflexivity|].
  constructor; [apply nested_single; reflexivity|].
  apply jumps_one. right. exists tgt, upn.
  split; [exact Ht|]. split; [exact Hw | reflexivity].
Qed.

Lemma Comp_Branch_orderly (tok : Token) (label : option string) :
  orderly_on (Comp_Branch tok label).
Proof.
  intros st st' H. unfold Comp_Branch in H.
  destruct tok; try discriminate H.
  - unfold Comp_Break in H.
    destruct (walk _ 0 (comp st)) as [[upn ip]|] eqn:Hw.
    + injection H as <-.
      apply (jumpOut_orderly (Break_target (label_of label))); [|exact Hw].
      exists (label_of label). left. reflexivity.
    + destruct (negb _); discriminate H.
  - unfold Comp_Continue in H.
    destruct (walk _ 0 (comp st)) as [[upn ip]|] eqn:Hw.
    + injection H as <-.
      apply (jumpOut_orderly (Continue_target (label_of label)));
        [|exact Hw].
      exists (label_of label). right. reflexivity.
    + destruct (negb _); discriminate H.
Qed.

Lemma Comp_Defer_orderly (call : ast_CallExpr) :
  orderly_on (Comp_Defer call).
Proof.
  intros st st' H. unfold Comp_Defer in H.
  apply bind_Ok in H. destruct H as [c [_ H]]. injection H as <-.
  split; [repeat split|].
  eexists. split; [reflexivity|].
  apply sound_plain; try reflexivity. intros; discriminate.
Qed.

Lemma Comp_Go_orderly (call : ast_CallExpr) : orderly_on (Comp_Go call).
Proof.
  intros st st' H. unfold Comp_Go in H.
  apply bind_Ok in H. destruct H as [c [_ H]]. injection H as <-.
  split; [repeat split|].
  eexists. split; [reflexivity|].
  apply sound_plain; try reflexivity. intros; discriminate.
Qed.

(** Every statement compiler keeps the frame it is called in and emits a
    sound stream. *)
Lemma Comp_Stmt_orderly (s : ast_Stmt) :
  forall labels, orderly_on (Comp_Stmt labels s).
Proof.
  induction s as
    [ | tok node | block IHblock | tok label | d node | d node | decl | call
    | | x | init cond post body IHinit IHpost IHbody | call
    | init cond body else_ IHinit IHbody IHelse | x tok
    | label s IHs | node | results | node | node | node | node | ]
    using ast_Stmt_induction;
    intros labels st st' H; cbn [Comp_Stmt] in H.
  - injection H as <-. apply orderly_refl.
  - eapply Assign_orderly; exact H.
  - apply (Comp_Block_orderly (Comp_Stmt []) block); [| |exact H].
    + apply Forall_forall. intros a _. apply Comp_Stmt_grows.
    + apply (Forall_impl _ (fun a Ha => Ha []) IHblock).
  - apply (Comp_Branch_orderly _ _ _ _ H).
  - discriminate H.
  - discriminate H.
  - eapply Decl_orderly; exact H.
  - apply (Comp_Defer_orderly _ _ _ H).
  - injection H as <-. apply orderly_refl.
  - apply bind_Ok in H. destruct H as [e [_ H]].
    destruct (negb (Expr_Const e)).
    + destruct (Expr_AsStmt e) as [x0|].
      * apply (Append_orderly (extStmt x0)); try reflexivity;
          [intros; discriminate | exact H].
      * injection H as <-. apply orderly_refl.
    + injection H as <-. apply orderly_refl.
  - apply (Comp_For_orderly (Comp_Stmt []) init cond post body labels);
      try apply Comp_Stmt_grows; auto.
    + apply Forall_forall. intros a _. apply Comp_Stmt_grows.
    + apply (Forall_impl _ (fun a Ha => Ha []) IHbody).
  - apply (Comp_Go_orderly _ _ _ H).
  - apply (Comp_If_orderly (Comp_Stmt []) init cond body else_);
      try apply Comp_Stmt_grows; auto.
    + apply Forall_forall. intros a _. apply Comp_Stmt_grows.
    + apply (Forall_impl _ (fun a Ha => Ha []) IHbody).
  - unfold Comp_IncDec in H.
    apply bind_Ok in H. destruct H as [place [_ H]].
    eapply SetPlace_orderly; exact H.
  - apply (IHs _ _ _ H).
  - eapply Range_orderly; exact H.
  - apply (Comp_Return_orderly _ _ _ H).
  - eapply Select_orderly; exact H.
  - eapply Send_orderly; exact H.
  - eapply Switch_orderly; exact H.
  - eapply TypeSwitch_orderly; exact H.
  - discriminate H.
Qed.

End OrderlyAll.

(* ------------------------------------------------------------------ *)
(** * Further properties: break and continue at run time *)

Section OrderlyRun.
Context {Sx : Syntax} {Hx : Host} {Ex : ExtExec}.

Lemma anchored_up (env0 : Env) (upn d : nat) :
  forall env,
    anchored env0 (d + upn) env ->
    exists e, up upn env = Some e /\ anchored env0 d e.
Proof.
  induction upn as [|upn IH]; intros env H.
  - rewrite Nat.add_0_r in H. exists env. split; [reflexivity | exact H].
  - replace (d + S upn) with (S (d + upn)) in H by lia.
    destruct H as [e [Hup He]]. simpl in Hup.
    destruct (Outer env) as [o|] eqn:Ho; [|discriminate Hup].
    simpl in Hup.
    destruct (IH o) as [e' [Hup' HA]].
    { exists e. split; assumption. }
    exists e'. split; [simpl; rewrite Ho; exact Hup' | exact HA].
Qed.

Lemma depth_at_step (seg : list Stmt) (n : nat) (i : Stmt) :
  nested seg -> nth_error seg n = Some i ->
  depth_at seg (S n) + count_pop [i] = depth_at seg n + count_push [i].
Proof.
  intros [_ P] Hnth. unfold depth_at.
  pose proof (P n) as P0. pose proof (P (S n)) as P1.
  rewrite (firstn_succ seg n i Hnth) in *.
  rewrite count_push_app, count_pop_app in *. lia.
Qed.

(** One instruction of a sound stream that stays: control stays in the
    stream, in an environment that is as deep as the stream says. *)
Lemma exec_sound (env0 : Env) (h : list nat) (lo a : nat) (F : Comp)
    (seg : list Stmt) (i : Stmt) (env env' : Env) (m m' : Machine)
    (next : option Stmt) (n : nat) :
  Straight Ex -> InPlace Ex ->
  sound h lo a F seg ->
  (forall tgt k c, loop_target tgt -> walk tgt 0 F = Some (k, c) -> c < lo) ->
  keeps_from lo h (M_cells m) ->
  nth_error seg n = Some i -> IP env = a + n ->
  stays lo i = true ->
  exec i env m = Some (next, env', m') ->
  anchored env0 (depth_at seg n) env ->
  next = fetch m' (IP env') /\
  M_Code m' = M_Code m /\
  M_cells m' = M_cells m /\
  exists n',
    IP env' = a + n' /\ n' <= length seg /\
    anchored env0 (depth_at seg n') env'.
Proof.
  intros HS HI Sd Hclosed [HL HK] Hnth Hip Hst H HA.
  assert (Hlt : n < length seg) by (apply nth_error_Some; congruence).
  pose proof (depth_at_step seg n i (sd_nested Sd) Hnth) as Hd.
  pose proof (sd_jumps Sd) as Hj. unfold jumps in Hj.
  specialize (Hj n i Hnth). simpl in Hj.
  assert (Hnext : forall e,
             Outer e = Outer env ->
             Env_ThreadGlobals e = Env_ThreadGlobals env ->
             IP e = S (IP env) ->
             count_pop [i] = 0 -> count_push [i] = 0 ->
             exists n', IP e = a + n' /\ n' <= length seg /\
                        anchored env0 (depth_at seg n') e).
  { intros e Ho Ht Hi Hp0 Hp1. exists (S n).
    split; [lia|]. split; [lia|].
    replace (depth_at seg (S n)) with (depth_at seg n) by lia.
    apply (anchored_keep env0 _ env e Ho Ht HA). }
  assert (Hland : forall c upn e,
             lands h lo a seg n upn c ->
             up upn env = Some e ->
             anchored env0 (depth_at seg (load c h - a)) e ->
             exists n',
               IP (set_IP (load c (M_cells m)) e) = a + n' /\
               n' <= length seg /\
               anchored env0 (depth_at seg n')
                        (set_IP (load c (M_cells m)) e)).
  { intros c upn e [Hc [Hr _]] _ He. rewrite (HK c Hc).
    exists (load c h - a). simpl. split; [lia|]. split; [lia|].
    apply (anchored_keep env0 _ e); auto. }
  assert (Hjump : forall c,
             lands h lo a seg n 0 c ->
             exists n',
               IP (set_IP (load c (M_cells m)) env) = a + n' /\
               n' <= length seg /\
               anchored env0 (depth_at seg n')
                        (set_IP (load c (M_cells m)) env)).
  { intros c L. apply (Hland c 0 env L eq_refl).
    destruct L as [_ [_ L]]. rewrite Nat.add_0_r in L. rewrite L.
    exact HA. }
  destruct i as [| | |nb0 nb1|upn ip|f jb|jc|f jT jE|jEnd|df da de|ef ea
                 |rf ra|x];
    simpl in Hst; try discriminate Hst.
  - (* stmtNop *)
    simpl in H. injection H as <- <- <-.
    split; [reflexivity|]. split; [reflexivity|]. split; [reflexivity|].
    apply Hnext; reflexivity.
  - (* popEnv *)
    simpl in H.
    destruct (Outer env) as [outer|] eqn:Ho; [|discriminate H].
    simpl in H. unfold FreeEnv in H.
    destruct (nth_error (M_threads m) (Env_ThreadGlobals env));
      [|discriminate H].
    simpl in H. injection H as <- <- <-.
    split; [reflexivity|]. split; [reflexivity|]. split; [reflexivity|].
    exists (S n). simpl. split; [lia|]. split; [lia|].
    change (count_pop [popEnv]) with 1 in Hd.
    change (count_push [popEnv]) with 0 in Hd.
    replace (depth_at seg n) with (S (depth_at seg (S n))) in HA by lia.
    apply (anchored_keep env0 _ outer); [reflexivity | reflexivity|].
    apply (anchored_pop env0 _ env outer Ho HA).
  - (* pushEnv *)
    simpl in H.
    unfold NewEnv in H.
    destruct (nth_error (M_threads m) (Env_ThreadGlobals env));
      [|discriminate H].
    simpl in H. injection H as <- <- <-.
    split; [reflexivity|]. split; [reflexivity|]. split; [reflexivity|].
    exists (S n). simpl. split; [lia|]. split; [lia|].
    change (count_pop [pushEnv nb0 nb1]) with 0 in Hd.
    change (count_push [pushEnv nb0 nb1]) with 1 in Hd.
    replace (depth_at seg (S n)) with (S (depth_at seg n)) by lia.
    apply (anchored_push env0 _ env); [reflexivity | exact HA].
  - (* jumpOut *)
    apply Nat.leb_le in Hst.
    rewrite exec_jumpOut in H.
    destruct Hj as [L|[tgt [k [Ht [Hw _]]]]].
    2:{ pose proof (Hclosed tgt k ip Ht Hw). lia. }
    pose proof L as [_ [_ Ldep]].
    rewrite <- Ldep in HA.
    destruct (anchored_up env0 upn _ env HA) as [e [Hup He]].
    rewrite Hup in H. simpl in H. injection H as <- <- <-.
    split; [reflexivity|]. split; [reflexivity|]. split; [reflexivity|].
    apply (Hland ip upn e L Hup He).
  - (* forCond *)
    simpl in H.
    destruct (f env (M_store m)) as [[c s]|]; [|discriminate H].
    simpl in H. injection H as <- <- <-.
    split; [reflexivity|]. split; [reflexivity|]. split; [reflexivity|].
    destruct c.
    + apply Hnext; reflexivity.
    + apply Hjump. apply Hj. left. reflexivity.
  - (* forJump *)
    simpl in H.
    injection H as <- <- <-.
    split; [reflexivity|]. split; [reflexivity|]. split; [reflexivity|].
    apply Hjump. apply Hj. left. reflexivity.
  - (* ifCond *)
    simpl in H.
    destruct (f env (M_store m)) as [[c s]|]; [|discriminate H].
    simpl in H. injection H as <- <- <-.
    split; [reflexivity|]. split; [reflexivity|]. split; [reflexivity|].
    destruct c; apply Hjump; apply Hj;
      [left | right; left]; reflexivity.
  - (* ifJumpEnd *)
    simpl in H.
    injection H as <- <- <-.
    split; [reflexivity|]. split; [reflexivity|]. split; [reflexivity|].
    apply Hjump. apply Hj. left. reflexivity.
  - (* goStmt *)
    simpl in H.
    unfold NewEnv4Func in H.
    destruct (nth_error (M_threads m) (Env_ThreadGlobals env));
      [|discriminate H].
    simpl in H.
    match type of H with
    | context [nth_error ?l ?k] => destruct (nth_error l k)
    end; [|discriminate H].
    simpl in H.
    match type of H with
    | context [ef ?x ?y] => destruct (ef x y) as [[funv s1]|]
    end; [|discriminate H].
    simpl in H.
    match type of H with
    | context [Go_args ?x ?y ?z] => destruct (Go_args x y z) as [[argv s2]|]
    end; [|discriminate H].
    simpl in H. injection H as <- <- <-.
    split; [reflexivity|]. split; [reflexivity|]. split; [reflexivity|].
    apply Hnext; reflexivity.
  - (* extStmt *)
    simpl in H.
    destruct (HS _ _ _ _ _ _ H) as [E1 [E0 [E2 E3]]].
    destruct (HI _ _ _ _ _ _ H) as [Ho Ht].
    split; [exact E0|]. split; [exact E2|]. split; [exact E3|].
    apply Hnext; auto.
Qed.

(** Along an execution of a sound stream on which every instruction
    stays. *)
Lemma path_sound (env0 : Env) (h : list nat) (lo a : nat) (F : Comp)
    (seg pre more : list Stmt) (cur : option Stmt) (env env' : Env)
    (m m' : Machine) (tr : list Stmt) :
  Straight Ex -> InPlace Ex ->
  sound h lo a F seg ->
  (forall tgt k c, loop_target tgt -> walk tgt 0 F = Some (k, c) -> c < lo) ->
  length pre = a ->
  path (a + length seg) cur env m tr env' m' ->
  cur = fetch m (IP env) ->
  M_Code m = pre ++ seg ++ more ->
  keeps_from lo h (M_cells m) ->
  (exists n, IP env = a + n /\ n <= length seg /\
             anchored env0 (depth_at seg n) env) ->
  Forall (fun i => stays lo i = true) tr ->
  exists n', IP env' = a + n' /\ n' <= length seg /\
             anchored env0 (depth_at seg n') env'.
Proof.
  intros HS HI Sd Hclosed Hpre Hp.
  remember (a + length seg) as b eqn:Hb.
  induction Hp as [cur env m|i env m next env1 m1 tr env2 m2
                    Hlt Hexec Hp IH];
    intros Hcur Hcode HK [n [Hip [Hn HA]]] Hall.
  - exists n. auto.
  - inversion Hall as [|i' tr' Hi Htr]; subst.
    assert (Hnth : nth_error seg n = Some i).
    { symmetry in Hcur. unfold fetch in Hcur.
      rewrite Hcode, Hip in Hcur.
      rewrite nth_error_app2 in Hcur by lia.
      replace (length pre + n - length pre) with n in Hcur by lia.
      rewrite nth_error_app1 in Hcur by lia. exact Hcur. }
    destruct (exec_sound env0 h lo (length pre) F seg i env env1 m m1 next
                n HS HI Sd Hclosed HK Hnth Hip Hi Hexec HA)
      as [En [Ec [Eh Hn']]].
    apply IH; auto.
    + rewrite Ec. exact Hcode.
    + rewrite Eh. exact HK.
Qed.

(** X16. An execution of a compiled statement that goes from its first
    instruction to the position after its last one, with breaks and
    continues of its own loops: when no return and no defer runs and every
    jump of a break or continue that runs belongs to a loop of the statement
    (it reads a patchable integer that the statement allocated), the
    execution ends in the environment it started in: the environment at the
    end has the parent and the thread of the one at the start. The jump of a
    break or continue leaves as many environments as were pushed between its
    loop and itself, although it runs none of their pop instructions. The
    Loop Infos around the statement hold integers allocated before it, and
    the instructions of the collaborators are taken to go on to the next
    instruction in the environment they were given. *)
Theorem X16_break_and_continue_restore_environment {Cx : Collaborators}
    {Dx : Disciplined Cx} {Ox : Orderly Cx} (labels : list string)
    (s : ast_Stmt) (st st' : CState) (more : list Stmt) (m m' : Machine)
    (env env' : Env) (tr : list Stmt) :
  Straight Ex -> InPlace Ex ->
  Comp_Stmt labels s st = Ok st' ->
  closed_slots st ->
  M_Code m = code_of st' ++ more ->
  keeps_from (length (cells st)) (cells st') (M_cells m) ->
  path (Len st') (fetch m (IP env)) env m tr env' m' ->
  IP env = Len st -> IP env' = Len st' ->
  Forall (fun i => stays (length (cells st)) i = true) tr ->
  Outer env' = Outer env /\
  Env_ThreadGlobals env' = Env_ThreadGlobals env.
Proof.
  intros HS HI H Hclosed Hcode Hcells Hpath Ha Hb Hall.
  destruct (Comp_Stmt_orderly s labels st st' H) as [_ [seg [Hc Sd]]].
  pose proof (Len_app _ _ _ Hc) as HL.
  rewrite Hc, <- app_assoc in Hcode. rewrite HL in Hpath.
  destruct (path_sound env (cells st') (length (cells st)) (Len st)
              (comp st) seg (code_of st) more _ env env' m m' tr HS HI Sd
              Hclosed eq_refl Hpath eq_refl Hcode Hcells)
    as [n' [Hip [Hn HA]]]; [|exact Hall|].
  - exists 0. split; [lia|]. split; [lia|].
    exists env. split; [reflexivity|]. split; reflexivity.
  - assert (n' = length seg) by lia. subst n'.
    rewrite (depth_at_end seg (proj1 (sd_nested Sd))) in HA.
    destruct HA as [e [Hup He]]. simpl in Hup. injection Hup as <-.
    exact He.
Qed.

End OrderlyRun.

Section ExtrasJumps.
Context {Sx : Syntax} {Hx : Host} {Cx : Collaborators}
        {Dx : Disciplined Cx} {Ox : Orderly Cx}.

(** X17. The up-count of every jump of a break or continue in what a
    statement compiles to is right for the code around it. The instructions
    of the statement never pop an environment they did not push, and the
    statement leaves the function info, the Loop Info, the up-cost and the
    enclosing frame of its frame as they were. A jump that reads a
    patchable integer of a loop of the statement finds there, once the
    statement is compiled, a position of the statement, and its up-count is
    the number of environments pushed and not popped before the jump less
    that number before the position. The up-count of any other jump is the
    number of environments pushed and not popped before it in the
    statement, plus the count of the walk of break or continue from the
    frame the statement is compiled in, which finds the integer it reads. *)
Theorem X17_jump_counts_pushed_environments (labels : list string)
    (s : ast_Stmt) (st st' : CState) :
  Comp_Stmt labels s st = Ok st' ->
  same_frame (comp st) (comp st') /\
  exists seg,
    code_of st' = code_of st ++ seg /\
    nested seg /\
    forall n upn c,
      nth_error seg n = Some (jumpOut upn c) ->
      (length (cells st) <= c < length (cells st') /\
       Len st <= load c (cells st') <= Len st' /\
       depth_at seg (load c (cells st') - Len st) + upn = depth_at seg n) \/
      (exists tgt k,
          loop_target tgt /\ walk tgt 0 (comp st) = Some (k, c) /\
          upn = depth_at seg n + k).
Proof.
  intros H.
  destruct (Comp_Stmt_orderly s labels st st' H) as [HF [seg [Hc Sd]]].
  split; [exact HF|]. exists seg. split; [exact Hc|].
  split; [apply (sd_nested Sd)|].
  intros n upn c Hnth.
  pose proof (sd_jumps Sd) as Hj. unfold jumps in Hj.
  specialize (Hj n _ Hnth). simpl in Hj.
  destruct Hj as [[L1 [L2 L3]]|E]; [left | right; exact E].
  rewrite (Len_app _ _ _ Hc). repeat split; try lia.
Qed.

End ExtrasJumps.

(* ------------------------------------------------------------------ *)
(** * Further properties: the labels of a loop *)

Section Labels.
Context {Sx : Syntax} {Hx : Host} {Cx : Collaborators}
        {Dx : Disciplined Cx} {Ox : Orderly Cx}.

Lemma branch_target_loop (tok : Token) (x : string) :
  loop_target (branch_target tok x).
Proof.
  exists x. destruct tok; solve [left; reflexivity | right; reflexivity].
Qed.

Lemma Stmts_app (rec : ast_Stmt -> CState -> result CState)
    (pre : list ast_Stmt) (s : ast_Stmt) (post : list ast_Stmt) :
  forall st st',
    Stmts rec (pre ++ s :: post) st = Ok st' ->
    exists sb sb', Stmts rec pre st = Ok sb /\ rec s sb = Ok sb' /\
                   Stmts rec post sb' = Ok st'.
Proof.
  induction pre as [|a pre IH]; intros st st' H; simpl in H.
  - apply bind_Ok in H. destruct H as [sb' [H1 H2]].
    exists st, sb'. repeat split; assumption.
  - apply bind_Ok in H. destruct H as [s1 [H1 H2]].
    destruct (IH _ _ H2) as [sb [sb' [P1 [P2 P3]]]].
    exists sb, sb'. simpl. rewrite H1. repeat split; assumption.
Qed.

Lemma Comp_Block_Stmts (rec : ast_Stmt -> CState -> result CState)
    (block : list ast_Stmt) (st st' : CState) :
  block <> [] ->
  Comp_Block rec block st = Ok st' ->
  let nb := length (cells st) in
  let declares := existsb stmt_declares block in
  let st2 := fst (pushEnvIfFlag nb (S nb) declares (snd (alloc 2 st))) in
  exists s3,
    Stmts rec block st2 = Ok s3 /\
    code_of st2 = code_of st ++ (if declares then [pushEnv nb (S nb)] else [])
    /\ code_of st' = code_of s3 ++ (if declares then [popEnv] else []).
Proof.
  intros Hne H nb declares st2. destruct block as [|b0 rest]; [contradiction|].
  unfold Comp_Block, Comp_List in H.
  unfold alloc at 1 in H. cbv iota in H.
  apply bind_Ok in H. destruct H as [[sb0 loc] [Hpush H]].
  apply bind_Ok in H. destruct H as [s3 [Hstmts Hpop]].
  apply pushEnvIfLocalBinds_Ok in Hpush.
  destruct Hpush as [_ [Hloc Hsb0]]. subst loc.
  apply popEnvIfLocalBinds_Ok in Hpop.
  destruct Hpop as [c [_ [Hcode _]]].
  exists s3. split; [rewrite <- Hstmts, Hsb0; reflexivity|].
  split; [|exact Hcode].
  destruct (pushEnvIfFlag_facts nb (S nb) declares (snd (alloc 2 st)))
    as [Hc _].
  exact Hc.
Qed.

(** A break or a continue compiles to the jump that its walk finds, and
    does not compile when the walk finds nothing. *)
Lemma Comp_Branch_walk (tok : Token) (L : option string) (labels : list string)
    (sb : CState) :
  tok = BREAK \/ tok = CONTINUE ->
  Comp_Stmt labels (BranchStmt tok L) sb
  = match walk (branch_target tok (label_of L)) 0 (comp sb) with
    | Some (upn, ip) => Ok (Comp_Append (jumpOut upn ip) sb)
    | None => Comp_Stmt labels (BranchStmt tok L) sb
    end /\
  (walk (branch_target tok (label_of L)) 0 (comp sb) = None ->
   forall st', Comp_Stmt labels (BranchStmt tok L) sb <> Ok st').
Proof.
  intros [-> | ->]; cbn [Comp_Stmt Comp_Branch branch_target];
    unfold Comp_Break, Comp_Continue; cbv zeta;
    destruct (walk _ 0 (comp sb)) as [[upn ip]|] eqn:Hw.
  - split; [reflexivity | intros Hf; discriminate Hf].
  - split; [reflexivity|]. intros _ st' Hf.
    destruct (negb _); discriminate Hf.
  - split; [reflexivity | intros Hf; discriminate Hf].
  - split; [reflexivity|]. intros _ st' Hf.
    destruct (negb _); discriminate Hf.
Qed.

(** The test of a walk on the frame of a loop with both slots. *)
Lemma branch_target_here (tok : Token) (x : string) (o : Comp)
    (jump : cell) (labels : list string) :
  tok = BREAK \/ tok = CONTINUE ->
  Loop o = Some (mkLoopInfo (Some (S jump)) (Some (S (S jump)))
                            (sort_Strings labels)) ->
  (x = "" \/ In x labels -> branch_target tok x o = Some (branch_slot tok jump))
  /\ (~ (x = "" \/ In x labels) -> branch_target tok x o = None).
Proof.
  intros Htok Hloop.
  assert (Ht : forall l, ThisLabels l = sort_Strings labels ->
             (Nat.eqb (String.length x) 0 || HasLabel l x = true
              <-> x = "" \/ In x labels)).
  { intros l Hl. rewrite label_test, Hl, In_sort_Strings. reflexivity. }
  specialize (Ht (mkLoopInfo (Some (S jump)) (Some (S (S jump)))
                             (sort_Strings labels)) eq_refl).
  destruct Htok as [-> | ->];
    unfold branch_target, branch_slot, Break_target, Continue_target;
    rewrite Hloop; cbn [Break Continue];
    destruct (Nat.eqb (String.length x) 0 || HasLabel _ x) eqn:Hb.
  - split; [reflexivity|]. intros Hn. exfalso. apply Hn, Ht. reflexivity.
  - split; [|reflexivity]. intros Hk. apply Ht in Hk. discriminate Hk.
  - split; [reflexivity|]. intros Hn. exfalso. apply Hn, Ht. reflexivity.
  - split; [|reflexivity]. intros Hk. apply Ht in Hk. discriminate Hk.
Qed.

(** X14. A break or a continue that is a statement of the body of a for
    statement is compiled in the frame the statements before it left, and
    becomes one jump. When it is unlabeled or names one of the labels the
    dispatcher had or met on the way to the for statement, the jump goes to
    the Break slot or to the Post slot of that loop and leaves the
    environment of the body, if the body declares. When it names another
    label, the jump is the one the walk from the frame around the for
    statement finds, and leaves also the environment of a declaring init
    statement and those that walk counts; if that walk finds nothing, the
    for statement does not compile. The jump is among the instructions the
    for statement adds to the stream, unless the loop is dropped. *)
Theorem X14_labels_reach_the_loop (labels ls : list string) (Init : ast_Stmt)
    (Cond : option ast_Expr) (Post : ast_Stmt) (pre post : list ast_Stmt)
    (tok : Token) (L : option string) (st : CState) :
  tok = BREAK \/ tok = CONTINUE ->
  let Body := pre ++ BranchStmt tok L :: post in
  let loop := labeled ls (ForStmt Init Cond Post Body) in
  let x := label_of L in
  let known := x = "" \/ In x (labels ++ ls) in
  let low := length (cells st) in
  let locals := existsb stmt_declares [Init] in
  let declares := existsb stmt_declares Body in
  let st2 := fst (pushEnvIfFlag low (S low) locals (snd (alloc 2 st))) in
  (forall st',
      Comp_Stmt labels loop st = Ok st' ->
      exists st3 flag fun_ sb j,
        (if is_nil Init then Ok st2 else Comp_Stmt [] Init st2) = Ok st3 /\
        match Cond with
        | None => flag = true /\ fun_ = None
        | Some cond =>
            exists pred, Comp_Expr cond st3 = Ok pred /\
                         Expr_TryAsPred pred = (flag, fun_, false)
        end /\
        let jump := length (cells st3) in
        let test := match fun_ with
                    | Some f => [forCond f (S (S jump))]
                    | None => []
                    end in
        let s7 := with_code (code_of st3 ++ test)
                    (write jump (length (code_of st3))
                       (with_comp
                          (set_Loop (Some (mkLoopInfo
                                             (Some (S jump))
                                             (Some (S (S jump)))
                                             (sort_Strings (labels ++ ls)))))
                          (snd (alloc 3 st3)))) in
        let nb := length (cells s7) in
        Stmts (Comp_Stmt []) pre
              (fst (pushEnvIfFlag nb (S nb) declares (snd (alloc 2 s7))))
        = Ok sb /\
        Comp_Stmt [] (BranchStmt tok L) sb = Ok (Comp_Append j sb) /\
        (known ->
         j = jumpOut (if declares then 1 else 0) (branch_slot tok jump)) /\
        (~ known ->
         exists upn ip,
           walk (branch_target tok x) 0 (comp st) = Some (upn, ip) /\
           j = jumpOut ((if declares then 1 else 0)
                        + (if locals then 1 else 0) + upn) ip) /\
        ((fun_ = None -> flag = true) ->
         exists before after,
           code_of st' = code_of st ++ before ++ j :: after)) /\
  (~ known ->
   walk (branch_target tok x) 0 (comp st) = None ->
   forall st', Comp_Stmt labels loop st <> Ok st').
Proof.
  intros Htok Body loop x known low locals declares st2.
  assert (Hmain : forall st',
      Comp_Stmt labels loop st = Ok st' ->
      exists st3 flag fun_ sb,
        (if is_nil Init then Ok st2 else Comp_Stmt [] Init st2) = Ok st3 /\
        match Cond with
        | None => flag = true /\ fun_ = None
        | Some cond =>
            exists pred, Comp_Expr cond st3 = Ok pred /\
                         Expr_TryAsPred pred = (flag, fun_, false)
        end /\
        let jump := length (cells st3) in
        let test := match fun_ with
                    | Some f => [forCond f (S (S jump))]
                    | None => []
                    end in
        let s7 := with_code (code_of st3 ++ test)
                    (write jump (length (code_of st3))
                       (with_comp
                          (set_Loop (Some (mkLoopInfo
                                             (Some (S jump))
                                             (Some (S (S jump)))
                                             (sort_Strings (labels ++ ls)))))
                          (snd (alloc 3 st3)))) in
        let nb := length (cells s7) in
        Stmts (Comp_Stmt []) pre
              (fst (pushEnvIfFlag nb (S nb) declares (snd (alloc 2 s7))))
        = Ok sb /\
        walk (branch_target tok x) 0 (comp sb)
        = match branch_target tok x (comp s7) with
          | Some ip => Some ((if declares then 1 else 0), ip)
          | None => walk (branch_target tok x)
                      ((if declares then 1 else 0)
                       + (if locals then 1 else 0)) (comp st)
          end /\
        exists sb',
          Comp_Stmt [] (BranchStmt tok L) sb = Ok sb' /\
          ((fun_ = None -> flag = true) ->
           exists before after,
             code_of st' = code_of st ++ before
                           ++ (skipn (Len sb) (code_of sb')) ++ after)).
  { intros st' H. unfold loop in H.
    rewrite Comp_Stmt_labeled in H. cbn [Comp_Stmt] in H.
    assert (Hg : Forall (fun a => grows_on (Comp_Stmt [] a)) Body).
    { apply Forall_forall. intros a _. apply Comp_Stmt_grows. }
    destruct (Comp_For_shape (Comp_Stmt []) Init Cond Post Body
                (labels ++ ls) st st' (Comp_Stmt_grows Init [])
                (Comp_Stmt_grows Post []) Hg H)
      as [st3 [flag [fun_ [seg_init [seg_body [seg_post
         [Hinit [Hc3 [_ [Hpred [_ [_ [Hbr [Hext _]]]]]]]]]]]]]].
    cbv zeta in Hbr.
    destruct Hbr as [s7 [s8 [s9 [Hloop [Hc7 [Hbody [Hc8 Hrest]]]]]]].
    destruct Hrest as [_ [_ [_ [_ [_ [_ [_ [_ [_ [_ [_ [Hf7 Hs7]]]]]]]]]]]].
    fold low in Hinit, Hc3, Hext. fold locals in Hinit, Hc3, Hext.
    fold st2 in Hinit, Hc3.
    exists st3, flag, fun_.
    (* the body *)
    assert (Hne : Body <> []) by (unfold Body; destruct pre; discriminate).
    destruct (Comp_Block_Stmts _ _ _ _ Hne Hbody)
      as [sb3 [Hstmts [Hcb0 Hcb3]]].
    unfold Body in Hstmts at 1.
    destruct (Stmts_app _ _ _ _ _ _ Hstmts)
      as [sb [sb' [Hpre [Hbranch Hafter]]]].
    fold declares in Hpre, Hcb0, Hcb3.
    exists sb. split; [exact Hinit|]. split.
    { destruct Cond as [cond|].
      - apply (For_pred_Some _ _ _ _ Hpred).
      - simpl in Hpred. injection Hpred as <- <-. split; reflexivity. }
    cbv zeta. rewrite <- Hs7.
    split; [exact Hpre|].
    assert (Hgp : Forall (fun a => grows_on (Comp_Stmt [] a)) pre).
    { apply Forall_forall. intros a _. apply Comp_Stmt_grows. }
    assert (Hga : Forall (fun a => grows_on (Comp_Stmt [] a)) post).
    { apply Forall_forall. intros a _. apply Comp_Stmt_grows. }
    split.
    - (* the walk from the frame of the branch statement *)
      pose proof (branch_target_loop tok x) as Ht.
      assert (Hall : Forall (fun s => orderly_on (Comp_Stmt [] s)) pre).
      { apply Forall_forall. intros a _. apply Comp_Stmt_orderly. }
      destruct (Stmts_orderly (Comp_Stmt []) pre Hgp Hall _ _ Hpre)
        as [Fb _].
      rewrite (walk_same_frame _ 0 _ _ Ht Fb).
      rewrite (pushEnvIfFlag_walk _ _ declares _ _ Ht).
      change (comp (snd (alloc 2 s7))) with (comp s7).
      rewrite (walk_eq _ _ (comp s7)).
      destruct (optional_orderly (Comp_Stmt []) Init
                  (Comp_Stmt_orderly Init []) _ _ Hinit)
        as [[E1 [E2 [E3 E4]]] _].
      destruct (pushEnvIfFlag_facts low (S low) locals (snd (alloc 2 st)))
        as [_ [_ [Ho2 [Hu2 _]]]].
      fold st2 in Ho2, Hu2.
      assert (G1 : Func (comp s7) = None).
      { rewrite Hf7. simpl. rewrite E1. unfold st2.
        destruct locals; reflexivity. }
      assert (G3 : UpCost (comp s7) = (if locals then 1 else 0))
        by (rewrite Hf7; simpl; rewrite E3; exact Hu2).
      assert (G4 : Comp_Outer (comp s7)
                   = Some (set_Code (Comp_Code (comp st2)) (comp st))).
      { rewrite Hf7. simpl. rewrite E4. exact Ho2. }
      rewrite G1. destruct (branch_target tok x (comp s7)); [reflexivity|].
      rewrite G4, G3.
      apply (walk_same_frame _ _ _ _ Ht (same_frame_set_Code _ _)).
    - (* the instruction is in the final stream *)
      exists sb'. split; [exact Hbranch|]. intros Hkept.
      destruct (Stmts_grows (Comp_Stmt []) pre Hgp _ _ Hpre)
        as [seg_pre [_ Epre]].
      destruct (Comp_Stmt_grows (BranchStmt tok L) [] _ _ Hbranch)
        as [seg_j [_ Ej]].
      destruct (Stmts_grows (Comp_Stmt []) post Hga _ _ Hafter)
        as [seg_rest [_ Erest]].
      pose proof (eb_code Epre) as Cpre. pose proof (eb_code Ej) as Cj.
      pose proof (eb_code Erest) as Crest.
      pose proof (eb_code Hext) as Hc'. cbv zeta in Hc'.
      destruct (pushEnvIfFlag_facts low (S low) locals (snd (alloc 2 st)))
        as [Hc2 _].
      fold st2 in Hc2.
      change (code_of (snd (alloc 2 st))) with (code_of st) in Hc2.
      assert (Hk : (if match fun_ with
                       | Some _ => false
                       | None => negb flag
                       end then @nil Stmt else
                      match fun_ with
                      | Some f => [forCond f (S (S (length (cells st3))))]
                      | None => []
                      end ++ seg_body ++ seg_post
                      ++ [forJump (length (cells st3))])
                   = match fun_ with
                     | Some f => [forCond f (S (S (length (cells st3))))]
                     | None => []
                     end ++ seg_body ++ seg_post
                     ++ [forJump (length (cells st3))]).
      { destruct fun_ as [f|]; [reflexivity|].
        rewrite (Hkept eq_refl). reflexivity. }
      rewrite Hk in Hc'.
      assert (Hsb : seg_body
                    = (if declares
                       then [pushEnv (length (cells s7))
                                     (S (length (cells s7)))] else [])
                      ++ seg_pre ++ seg_j ++ seg_rest
                      ++ (if declares then [popEnv] else [])).
      { apply (app_inv_head (code_of s7)). rewrite <- Hc8, Hcb3, Crest, Cj,
          Cpre, Hcb0. rewrite <- !app_assoc. reflexivity. }
      assert (Hskip : skipn (Len sb) (code_of sb') = seg_j).
      { rewrite Cj. unfold Len, Code_Len. fold (code_of sb).
        rewrite skipn_app, skipn_all, Nat.sub_diag. reflexivity. }
      rewrite Hskip.
      exists ((if locals then [pushEnv low (S low)] else [])
              ++ seg_init
              ++ match fun_ with
                 | Some f => [forCond f (S (S (length (cells st3))))]
                 | None => []
                 end
              ++ (if declares
                  then [pushEnv (length (cells s7)) (S (length (cells s7)))]
                  else [])
              ++ seg_pre).
      exists (seg_rest ++ (if declares then [popEnv] else [])
              ++ seg_post ++ [forJump (length (cells st3))]
              ++ (if locals then [popEnv] else [])).
      rewrite Hc', Hsb. rewrite <- !app_assoc. reflexivity. }
  split.
  - intros st' H.
    destruct (Hmain st' H)
      as [st3 [flag [fun_ [sb [Hinit [Hcond [Hpre [Hw [sb' [Hbranch Hin]]]]]]]]]].
    cbv zeta in *.
    destruct (Comp_Branch_walk tok L [] sb Htok) as [Hc Hnone].
    fold x in Hc, Hnone.
    match type of Hw with
    | context [branch_target tok x (comp ?s)] =>
        destruct (branch_target_here tok x (comp s) (length (cells st3))
                    (labels ++ ls) Htok eq_refl) as [Hyes Hno]
    end.
    assert (Hj : exists j, Comp_Stmt [] (BranchStmt tok L) sb
                           = Ok (Comp_Append j sb) /\
                 (known -> j = jumpOut (if declares then 1 else 0)
                                 (branch_slot tok (length (cells st3)))) /\
                 (~ known ->
                  exists upn ip,
                    walk (branch_target tok x) 0 (comp st) = Some (upn, ip) /\
                    j = jumpOut ((if declares then 1 else 0)
                                 + (if locals then 1 else 0) + upn) ip)).
    { destruct (walk (branch_target tok x) 0 (comp sb)) as [[u c]|] eqn:Hwb;
        [|exfalso; apply (Hnone eq_refl sb' Hbranch)].
      exists (jumpOut u c). split; [exact Hc|]. split.
      - intros Hk. rewrite (Hyes Hk) in Hw. injection Hw as -> ->.
        reflexivity.
      - intros Hn. rewrite (Hno Hn) in Hw.
        rewrite (walk_shift _ (comp st)) in Hw.
        destruct (walk (branch_target tok x) 0 (comp st)) as [[upn ip]|];
          [|discriminate Hw].
        injection Hw as -> ->. exists upn, ip. split; reflexivity. }
    destruct Hj as [j [Hj [Hjk Hjn]]].
    exists st3, flag, fun_, sb, j.
    split; [exact Hinit|]. split; [exact Hcond|]. split; [exact Hpre|].
    split; [exact Hj|]. split; [exact Hjk|]. split; [exact Hjn|].
    intros Hkept. destruct (Hin Hkept) as [before [after Hcode]].
    rewrite Hj in Hbranch. injection Hbranch as <-.
    assert (Hs : skipn (Len sb) (code_of (Comp_Append j sb)) = [j]).
    { unfold Len, Code_Len. fold (code_of sb).
      change (code_of (Comp_Append j sb)) with (code_of sb ++ [j]).
      rewrite skipn_app, skipn_all, Nat.sub_diag. reflexivity. }
    rewrite Hs in Hcode. exists before, after. exact Hcode.
  - intros Hn Hnone st' H.
    destruct (Hmain st' H)
      as [st3 [flag [fun_ [sb [_ [_ [_ [Hw [sb' [Hbranch _]]]]]]]]]].
    cbv zeta in *.
    destruct (Comp_Branch_walk tok L [] sb Htok) as [_ Hfail].
    fold x in Hfail.
    match type of Hw with
    | context [branch_target tok x (comp ?s)] =>
        destruct (branch_target_here tok x (comp s) (length (cells st3))
                    (labels ++ ls) Htok eq_refl) as [_ Hno]
    end.
    rewrite (Hno Hn) in Hw. rewrite (walk_shift _ (comp st)), Hnone in Hw.
    apply (Hfail Hw sb' Hbranch).
Qed.
End Labels.

(* ------------------------------------------------------------------ *)
(** * The claims on concrete programs *)

Section Concrete.

#[local] Existing Instance toy_Syntax.
#[local] Existing Instance toy_Host.
#[local] Existing Instance toy_Collab.
#[local] Existing Instance toy_ExtExec.

Lemma toy_emit_grows (x n : nat) : grows_on (toy_emit x n).
Proof.
  intros st st' H. unfold toy_emit in H. injection H as <-.
  exists [@extStmt toy_Host x]. split; [apply balanced_single; reflexivity|].
  constructor; simpl.
  - reflexivity.
  - exists []. rewrite app_nil_r. reflexivity.
  - reflexivity.
Qed.

Lemma with_comp_grows (f : Comp -> Comp) :
  (forall c, Comp_Code (f c) = Comp_Code c) ->
  (forall c, Comp_Outer (f c) = Comp_Outer c) ->
  grows_on (fun st => Ok (with_comp f st)).
Proof.
  intros Hcode Houter st st' H. injection H as <-.
  exists []. split; [apply balanced_nil|].
  constructor; simpl.
  - unfold code_of. simpl. rewrite Hcode, app_nil_r. reflexivity.
  - exists []. rewrite app_nil_r. reflexivity.
  - apply Houter.
Qed.

Lemma toy_Decl_grows (decl : ast_Decl) : grows_on (toy_Decl decl).
Proof.
  intros st st' H. destruct decl as [[name|] body | tok specs | ];
    simpl in H.
  - destruct (String.eqb name "_").
    + injection H as <-. apply grows_refl.
    + apply (toy_emit_grows _ _ _ _ H).
  - injection H as <-. apply grows_refl.
  - destruct (Token_eqb tok VAR).
    + apply (with_comp_grows (add_binds (count_non_blank specs))
               (fun c => eq_refl) (fun c => eq_refl) _ _ H).
    + apply (with_comp_grows (add_decl "declared")
               (fun c => eq_refl) (fun c => eq_refl) _ _ H).
  - discriminate H.
Qed.

(** The toy collaborators keep the contract. *)
Lemma toy_Disciplined : Disciplined toy_Collab.
Proof.
  constructor; simpl; intros;
    solve [apply toy_emit_grows | apply toy_Decl_grows].
Qed.

Lemma toy_emit_typed (x n : nat) : typed_on (toy_emit x n).
Proof.
  intros st st' H. unfold toy_emit in H. injection H as <-.
  eexists.
  apply (Append_typed (@extStmt toy_Host x) (with_comp (add_binds n) st)
           (cells st) (length (cells st))).
  reflexivity.
Qed.

Lemma toy_Decl_typed (decl : ast_Decl) : typed_on (toy_Decl decl).
Proof.
  intros st st' H. destruct decl as [[name|] body | tok specs | ];
    simpl in H.
  - destruct (String.eqb name "_").
    + injection H as <-. eexists. apply typed_here.
    + apply (toy_emit_typed _ _ _ _ H).
  - injection H as <-. eexists. apply typed_here.
  - destruct (Token_eqb tok VAR); injection H as <-; eexists;
      apply (typed_here st).
  - discriminate H.
Qed.

(** The toy collaborators emit complete scopes, and their instructions go
    on to the next instruction. *)
Lemma toy_Structured : Structured toy_Collab.
Proof.
  constructor; simpl; intros;
    solve [apply toy_emit_typed | apply toy_Decl_typed].
Qed.

Lemma toy_Straight : Straight toy_ExtExec.
Proof.
  intros x env m next env' m' H. simpl in H. unfold jump_to in H.
  injection H as <- <- <-. repeat split.
Qed.

(** ** C1 *)

(** Two executions to completion on which a push-environment instruction
    runs and no pop-environment instruction does: [for { x := 1; break }]
    leaves the block of the loop body through the jump of the break, and
    [x := 1; return] ends in the pushed environment, in the interrupt
    instruction of the thread. *)
Lemma C1_counterexample_executed_push_without_pop :
  (exists env m,
      Comp_List (Comp_Stmt []) prog_break toy_state = Ok toy_compiled_break /\
      toy_run 10 toy_compiled_break
        = Finished env m [pushEnv 7 8; extStmt 1; jumpOut 1 6] /\
      IP env = length (code_of toy_compiled_break) /\
      count_push [pushEnv 7 8; extStmt 1; jumpOut 1 6] = 1 /\
      count_pop [pushEnv 7 8; extStmt 1; jumpOut 1 6] = 0) /\
  (exists env m,
      Comp_List (Comp_Stmt []) prog_return toy_state
        = Ok toy_compiled_return /\
      toy_run 10 toy_compiled_return
        = Finished env m [pushEnv 0 1; extStmt 1; stmtReturn] /\
      Outer env = Some toy_env /\
      count_push [pushEnv 0 1; extStmt 1; stmtReturn] = 1 /\
      count_pop [pushEnv 0 1; extStmt 1; stmtReturn] = 0).
Proof.
  split; eexists; eexists;
    (split; [vm_compute; reflexivity|]);
    (split; [vm_compute; reflexivity|]);
    (split; [vm_compute; reflexivity|]);
    (split; vm_compute; reflexivity).
Qed.

Lemma C1_witness :
  Disciplined toy_Collab /\
  Comp_List (Comp_Stmt []) prog_scopes toy_state = Ok toy_compiled_scopes /\
  Structured toy_Collab /\
  Straight toy_ExtExec /\
  (let m := toy_machine toy_compiled_scopes in
   let tr := code_of toy_compiled_scopes in
   exists env' m',
     M_Code m = code_of toy_compiled_scopes ++ [] /\
     keeps_from (length (cells toy_state)) (cells toy_compiled_scopes)
                (M_cells m) /\
     path (Len toy_compiled_scopes) (fetch m (IP toy_env)) toy_env m tr
          env' m' /\
     IP toy_env = Len toy_state /\
     IP env' = Len toy_compiled_scopes /\
     Forall (fun i => leaves i = false) tr /\
     count_push tr = 2 /\
     count_push tr = count_pop tr) /\
  (let nb := length (cells toy_state) in
   exists (locals : bool) (seg : list Stmt) (st2 st3 : CState),
     prog_scopes <> [] /\
     containLocalBinds prog_scopes = Ok locals /\
     code_of st2 =
       code_of toy_state ++ (if locals then [pushEnv nb (S nb)] else []) /\
     Stmts (Comp_Stmt []) prog_scopes st2 = Ok st3 /\
     code_of st3 = code_of st2 ++ seg /\
     code_of toy_compiled_scopes =
       code_of st3 ++ (if locals then [popEnv] else []) /\
     count_push seg = count_pop seg /\
     (let emitted :=
        (if locals then [pushEnv nb (S nb)] else []) ++
        seg ++ (if locals then [popEnv] else []) in
      code_of toy_compiled_scopes = code_of toy_state ++ emitted /\
      count_push emitted = count_pop emitted)).
Proof.
  assert (Hc : Comp_List (Comp_Stmt []) prog_scopes toy_state
               = Ok toy_compiled_scopes) by (vm_compute; reflexivity).
  pose proof (C1_push_and_pop_guarded_alike (Dx := toy_Disciplined)
                prog_scopes toy_state toy_compiled_scopes Hc) as HC1.
  cbv zeta in HC1.
  destruct HC1 as [locals [seg [st2 [st3 [H1 [H2 [H3 [H4 [H5 [H6 [H7 [H8
                  [H9 Hdyn]]]]]]]]]]]]].
  split; [exact toy_Disciplined|]. split; [exact Hc|].
  split; [exact toy_Structured|]. split; [exact toy_Straight|].
  split.
  - cbv zeta.
    assert (Hm : M_Code (toy_machine toy_compiled_scopes)
                 = code_of toy_compiled_scopes ++ [])
      by (rewrite app_nil_r; reflexivity).
    assert (Hk : keeps_from (length (cells toy_state))
                            (cells toy_compiled_scopes)
                            (M_cells (toy_machine toy_compiled_scopes))).
    { unfold toy_machine. cbn [M_cells]. apply keeps_from_refl. }
    assert (Hp : exists env' m',
               path (Len toy_compiled_scopes)
                    (fetch (toy_machine toy_compiled_scopes) (IP toy_env))
                    toy_env (toy_machine toy_compiled_scopes)
                    (code_of toy_compiled_scopes) env' m' /\
               IP env' = Len toy_compiled_scopes).
    { eexists. eexists. split.
      - cbv.
        do 7 (eapply path_step; [cbv; lia | cbv; reflexivity |]).
        apply path_done.
      - cbv. reflexivity. }
    destruct Hp as [env' [m' [Hp He]]].
    assert (Hl : Forall (fun i => leaves i = false)
                        (code_of toy_compiled_scopes)).
    { vm_compute. repeat constructor. }
    exists env', m'.
    split; [exact Hm|]. split; [exact Hk|]. split; [exact Hp|].
    split; [vm_compute; reflexivity|]. split; [exact He|].
    split; [exact Hl|]. split; [vm_compute; reflexivity|].
    apply (Hdyn toy_Structured toy_ExtExec []
             (toy_machine toy_compiled_scopes) m' toy_env env'
             (code_of toy_compiled_scopes) toy_Straight Hm
             Hk Hp eq_refl He Hl).
  - exists locals, seg, st2, st3.
    split; [exact H1|]. split; [exact H2|]. split; [exact H3|].
    split; [exact H4|]. split; [exact H5|]. split; [exact H6|].
    split; [exact H7|]. cbv zeta. split; [exact H8 | exact H9].
Defined.

(** ** C2 *)

(** An unlabeled continue outside any loop fails with the message
    "continue outside for", which is not "continue outside for/switch". *)
Lemma C2_counterexample_continue_message :
  scope_chain (comp toy_top) = [comp toy_top] /\
  Loop (comp toy_top) = None /\
  Comp_Continue None toy_top = Err (Errorf "continue outside for" []) /\
  Comp_Continue None toy_top
    <> Err (Errorf "continue outside for/switch" []).
Proof.
  repeat split; try reflexivity. intros H. discriminate H.
Qed.

Lemma C2_witness :
  (scope_chain (comp toy_nested)
     = [toy_inner_body; toy_inner_for; toy_outer_body] ++ toy_outer_for :: []
   /\ loop_matches Continue "outer" toy_outer_for 3
   /\ Comp_Continue (Some "outer") toy_nested
      = Ok (Comp_Append (jumpOut 2 3) toy_nested)) /\
  Comp_Break None toy_top = Err (Errorf "break outside for/switch" []) /\
  Comp_Break (Some "outer") toy_top
    = Err (Errorf "break label not defined: %v" [ArgStr "outer"]).
Proof.
  assert (Hmatch : loop_matches Continue "outer" toy_outer_for 3).
  { eexists. split; [reflexivity|]. split; [reflexivity|].
    right. left. reflexivity. }
  assert (Hnone : forall Label x (ip' : cell),
             In x (scope_chain (comp toy_top)) ->
             ~ loop_matches Break (label_of Label) x ip').
  { intros Label x ip' [<- | []] [l [Hl _]]. discriminate Hl. }
  split; [split; [reflexivity | split; [exact Hmatch|]] | split].
  - apply (proj1 (proj2 (proj2
             (C2_break_continue_resolution (Some "outer") toy_nested)))
             [toy_inner_body; toy_inner_for; toy_outer_body] toy_outer_for
             [] 3 eq_refl).
    + intros x ip' Hin [l [Hl [Hslot Hlabel]]].
      destruct Hin as [<- | [<- | [<- | []]]]; try discriminate Hl.
      injection Hl as <-.
      destruct Hlabel as [Hempty | []]. discriminate Hempty.
    + exact Hmatch.
  - apply (proj1 (proj2 (C2_break_continue_resolution None toy_top))).
    apply (Hnone None).
  - apply (proj1 (proj2
             (C2_break_continue_resolution (Some "outer") toy_top))).
    apply (Hnone (Some "outer")).
Defined.

(** In [prog_nested] the statement [continue outer] of the inner loop is
    compiled to a jump to the continue slot of the outer loop (cell 3, which
    holds the position of its condition), two environments up; the continue
    slot of the inner loop is cell 10. *)
Lemma nested_continue_targets_outer_loop :
  exists st,
    Comp_Stmt [] prog_nested toy_state = Ok st /\
    nth_error (code_of st) 4 = Some (jumpOut 2 3) /\
    load 3 (cells st) = 0 /\
    load 10 (cells st) = 2.
Proof.
  eexists. split; [vm_compute; reflexivity|].
  split; [vm_compute; reflexivity|].
  split; vm_compute; reflexivity.
Qed.

(** ** C3 *)

(** A return with zero expressions compiles in a function without results,
    whose results are not named. *)
Lemma C3_counterexample_bare_return_without_results :
  all_frames (comp toy_state) = [toy_func] /\
  Func toy_func = Some toy_info0 /\
  NamedResults toy_info0 = false /\
  Comp_Return [] toy_state = Ok (Comp_Append stmtReturn toy_state).
Proof. repeat split. Qed.

Lemma C3_witness :
  Comp_Return [] toy_top = Err (Errorf "return outside function" []) /\
  Comp_Return [] toy_state = Ok (Comp_Append stmtReturn toy_state) /\
  Comp_Return [] toy_state2 = Err (Return_arity 2 0) /\
  Comp_Return [TTrue; TTrue; TTrue] toy_state2 = Err (Return_arity 2 3).
Proof.
  assert (Hpre0 : forall x : Comp, In x [] -> Func x = None)
    by (intros x []).
  assert (Hpre2 : forall x : Comp, In x [comp toy_state2] -> Func x = None).
  { intros x [<- | []]. reflexivity. }
  split; [|split; [|split]].
  - apply (proj1 (C3_return_arity [] toy_top)).
    intros x [<- | []]. reflexivity.
  - apply (proj1 (proj2 (C3_return_arity [] toy_state) [] toy_func []
                    toy_info0 eq_refl Hpre0 eq_refl)).
    + reflexivity.
    + left. reflexivity.
  - apply (proj1 (proj2 (proj2 (C3_return_arity [] toy_state2)
                    [comp toy_state2] toy_func2 [] toy_info2
                    eq_refl Hpre2 eq_refl))).
    + reflexivity.
    + discriminate.
    + reflexivity.
  - apply (proj2 (proj2 (proj2 (C3_return_arity (Sx := toy_Syntax) [TTrue; TTrue; TTrue]
                    toy_state2)
                    [comp toy_state2] toy_func2 [] toy_info2
                    eq_refl Hpre2 eq_refl))); discriminate.
Defined.

(** ** C4 *)


(** ** C5 *)

Lemma C5_witness :
  Comp_Defer toy_call toy_state = Ok toy_deferred /\
  let fun_ := Expr_AsX1 (Call_Fun toy_call) in
  let argfuns := Call_MakeArgfunsX1 toy_call in
  let ellipsis := Call_Ellipsis toy_call in
  code_of toy_deferred = code_of toy_state ++ [deferStmt fun_ argfuns ellipsis]
  /\ WithDefers (Comp_Code (comp toy_deferred)) = true
  /\ exists next env' m',
       exec (deferStmt fun_ argfuns ellipsis) toy_env
            (toy_machine42 toy_deferred) = Some (next, env', m') /\
       exists f0 s1 raw f args g,
         fun_ toy_env (M_store (toy_machine42 toy_deferred)) = Some (f0, s1) /\
         eval_seq argfuns toy_env s1 = Some (raw, M_store m') /\
         snapshot (f0, s1) f /\
         Forall2 snapshot raw args /\
         (forall v : Value,
             In v (f :: args) ->
             forall sa sb : Store, Value_get sa v = Value_get sb v) /\
         nth_error (M_threads m') (Env_ThreadGlobals toy_env) = Some g /\
         InstallDefer g =
           Some (if ellipsis then DeferCallSlice f args else DeferCall f args)
         /\ TG_Signal g = SigDefer
         /\ next = Interrupt g
         /\ env' = set_IP (S (IP toy_env)) toy_env.
Proof.
  split; [vm_compute; reflexivity|].
  destruct (C5_defer_evaluates_immediately (Sx := toy_Syntax)
              (Hx := toy_Host) toy_call toy_state toy_deferred)
    as [call [Hcall H]]; [vm_compute; reflexivity|].
  injection Hcall as <-. cbv zeta in *.
  destruct H as [Hcode [Hdefers Hexec]].
  split; [exact Hcode|]. split; [exact Hdefers|].
  eexists. eexists. eexists.
  split; [vm_compute; reflexivity|].
  apply Hexec. vm_compute. reflexivity.
Defined.

(** ** C6 *)

Lemma C6_witness :
  Disciplined toy_Collab /\
  Structured toy_Collab /\
  Straight toy_ExtExec /\
  Comp_Stmt [] (prog_if_init toy_false) toy_state
    = Ok (toy_compiled_if_init toy_false) /\
  Comp_Stmt [] (prog_if_init TTrue) toy_state
    = Ok (toy_compiled_if_init TTrue) /\
  code_of (toy_compiled_if_init toy_false)
    = [pushEnv 3 4; extStmt 0; extStmt 2; popEnv] /\
  code_of (toy_compiled_if_init TTrue)
    = [pushEnv 3 4; extStmt 0; extStmt 1; popEnv] /\
  (let m := toy_machine (toy_compiled_if_init toy_false) in
   (exists env' m',
       path 4 (fetch m 0) toy_env m
            [pushEnv 3 4; extStmt 0; extStmt 2; popEnv] env' m' /\
       IP env' = 4) /\
   forall tr env' m',
     path 4 (fetch m 0) toy_env m tr env' m' ->
     (Forall (fun i => leaves i = false) (removelast tr) ->
      Forall (fun i => In i [pushEnv 3 4; extStmt 0; extStmt 2; popEnv]) tr)
     /\ (IP env' = 4 ->
         tr = [pushEnv 3 4; extStmt 0; extStmt 2; popEnv])) /\
  (let m := toy_machine (toy_compiled_if_init TTrue) in
   (exists env' m',
       path 4 (fetch m 0) toy_env m
            [pushEnv 3 4; extStmt 0; extStmt 1; popEnv] env' m' /\
       IP env' = 4) /\
   forall tr env' m',
     path 4 (fetch m 0) toy_env m tr env' m' ->
     (Forall (fun i => leaves i = false) (removelast tr) ->
      Forall (fun i => In i [pushEnv 3 4; extStmt 0; extStmt 1; popEnv]) tr)
     /\ (IP env' = 4 ->
         tr = [pushEnv 3 4; extStmt 0; extStmt 1; popEnv])).
Proof.
  assert (Hf : Comp_Stmt [] (prog_if_init toy_false) toy_state
               = Ok (toy_compiled_if_init toy_false))
    by (vm_compute; reflexivity).
  assert (Ht : Comp_Stmt [] (prog_if_init TTrue) toy_state
               = Ok (toy_compiled_if_init TTrue))
    by (vm_compute; reflexivity).
  assert (Hcf : code_of (toy_compiled_if_init toy_false)
                = [pushEnv 3 4; extStmt 0; extStmt 2; popEnv])
    by (vm_compute; reflexivity).
  assert (Hct : code_of (toy_compiled_if_init TTrue)
                = [pushEnv 3 4; extStmt 0; extStmt 1; popEnv])
    by (vm_compute; reflexivity).
  split; [exact toy_Disciplined|]. split; [exact toy_Structured|].
  split; [exact toy_Straight|]. split; [exact Hf|]. split; [exact Ht|].
  split; [exact Hcf|]. split; [exact Hct|]. split.
  - cbv zeta. split.
    { eexists. eexists. split.
      - cbv.
        do 4 (eapply path_step; [cbv; lia | cbv; reflexivity |]).
        apply path_done.
      - cbv. reflexivity. }
    intros tr env' m' Hp.
    destruct (C6_constant_if_keeps_one_branch (Dx := toy_Disciplined) []
                toy_for_init toy_false toy_then toy_else toy_state
                (toy_compiled_if_init toy_false) Hf)
      as [st3 [pred [flag [fun_ [seg_init [seg_then [seg_else [s6
         [_ [_ [_ [Hpred [Htry [_ [_ [_ [_ Hconst]]]]]]]]]]]]]]]]].
    simpl in Hpred. injection Hpred as <-.
    simpl in Htry. injection Htry as <- <-.
    destruct (Hconst eq_refl) as [_ [_ [Hfinal [Hrun Hexact]]]].
    rewrite Hcf in Hfinal.
    match type of Hfinal with
    | ?l = _ ++ ?r => change (l = r) in Hfinal
    end.
    specialize (Hrun toy_Structured toy_ExtExec []
                     (toy_machine (toy_compiled_if_init toy_false)) m' toy_env
                     env' tr toy_Straight).
    specialize (Hexact toy_ExtExec []
                       (toy_machine (toy_compiled_if_init toy_false)) m' toy_env
                       env' tr toy_Straight).
    rewrite <- Hfinal in Hrun, Hexact.
    split.
    + intros Hall.
      apply Hrun;
        [ rewrite app_nil_r; reflexivity
        | unfold toy_machine; cbn [M_cells]; apply keeps_from_refl
        | split; [apply Nat.le_refl | vm_compute; lia]
        | exact Hp
        | exact Hall ].
    + intros Hend.
      apply Hexact;
        [ rewrite app_nil_r; reflexivity
        | repeat constructor
        | reflexivity
        | exact Hp
        | rewrite Hend; vm_compute; reflexivity ].
  - cbv zeta. split.
    { eexists. eexists. split.
      - cbv.
        do 4 (eapply path_step; [cbv; lia | cbv; reflexivity |]).
        apply path_done.
      - cbv. reflexivity. }
    intros tr env' m' Hp.
    destruct (C6_constant_if_keeps_one_branch (Dx := toy_Disciplined) []
                toy_for_init TTrue toy_then toy_else toy_state
                (toy_compiled_if_init TTrue) Ht)
      as [st3 [pred [flag [fun_ [seg_init [seg_then [seg_else [s6
         [_ [_ [_ [Hpred [Htry [_ [_ [_ [_ Hconst]]]]]]]]]]]]]]]]].
    simpl in Hpred. injection Hpred as <-.
    simpl in Htry. injection Htry as <- <-.
    destruct (Hconst eq_refl) as [_ [_ [Hfinal [Hrun Hexact]]]].
    rewrite Hct in Hfinal.
    match type of Hfinal with
    | ?l = _ ++ ?r => change (l = r) in Hfinal
    end.
    specialize (Hrun toy_Structured toy_ExtExec []
                     (toy_machine (toy_compiled_if_init TTrue)) m' toy_env
                     env' tr toy_Straight).
    specialize (Hexact toy_ExtExec []
                       (toy_machine (toy_compiled_if_init TTrue)) m' toy_env
                       env' tr toy_Straight).
    rewrite <- Hfinal in Hrun, Hexact.
    split.
    + intros Hall.
      apply Hrun;
        [ rewrite app_nil_r; reflexivity
        | unfold toy_machine; cbn [M_cells]; apply keeps_from_refl
        | split; [apply Nat.le_refl | vm_compute; lia]
        | exact Hp
        | exact Hall ].
    + intros Hend.
      apply Hexact;
        [ rewrite app_nil_r; reflexivity
        | repeat constructor
        | reflexivity
        | exact Hp
        | rewrite Hend; vm_compute; reflexivity ].
Defined.

(** ** C7 *)

Lemma C7_witness :
  Disciplined toy_Collab /\
  Structured toy_Collab /\
  Straight toy_ExtExec /\
  Comp_Stmt [] prog_for_false toy_state = Ok toy_compiled_for /\
  code_of toy_compiled_for = [pushEnv 0 1; extStmt 0; popEnv] /\
  load 2 (cells toy_compiled_for) = 2 /\
  load 4 (cells toy_compiled_for) = 2 /\
  Comp_Stmt [] toy_for_init (toy_inner_start true) = Ok toy_for_after_init /\
  Comp_Block (Comp_Stmt []) toy_then (toy_for_body_state [] toy_for_after_init)
    = Ok toy_for_after_body /\
  Comp_Stmt [] toy_for_post
    (write 3 (Len toy_for_after_body) toy_for_after_body)
    = Ok toy_for_after_post /\
  code_of (Comp_Append (forJump 2) toy_for_after_post)
    = [pushEnv 0 1; extStmt 0; extStmt 1; extStmt 0; forJump 2] /\
  (let m := toy_machine toy_compiled_for in
   (exists env' m',
       path 3 (fetch m 0) toy_env m [pushEnv 0 1; extStmt 0; popEnv]
            env' m' /\
       IP env' = 3) /\
   forall tr env' m',
     path 3 (fetch m 0) toy_env m tr env' m' ->
     (Forall (fun i => leaves i = false) (removelast tr) ->
      Forall (fun i => In i [pushEnv 0 1; extStmt 0; popEnv]) tr) /\
     (IP env' = 3 -> tr = [pushEnv 0 1; extStmt 0; popEnv])) /\
  (forall st', Comp_Stmt [] prog_for_bad_body toy_state <> Ok st').
Proof.
  assert (Hc : Comp_Stmt [] prog_for_false toy_state = Ok toy_compiled_for)
    by (vm_compute; reflexivity).
  assert (Hcode : code_of toy_compiled_for = [pushEnv 0 1; extStmt 0; popEnv])
    by (vm_compute; reflexivity).
  split; [exact toy_Disciplined|]. split; [exact toy_Structured|].
  split; [exact toy_Straight|]. split; [exact Hc|]. split; [exact Hcode|].
  destruct (C7_constant_false_for_is_dropped (Dx := toy_Disciplined) []
              toy_for_init toy_false toy_for_post toy_then toy_state
              toy_compiled_for Hc)
    as [st3 [pred [flag [fun_ [seg_init [seg_body [seg_post [s8 [s9
       [_ [Hinit [_ [Hexpr [Htry [Hbody [Hc8 [_ [Hpost [Hc9 Hconst
       ]]]]]]]]]]]]]]]]]]].
  vm_compute in Hinit. injection Hinit as <-.
  simpl in Hexpr. injection Hexpr as <-.
  simpl in Htry. injection Htry as <- <-.
  vm_compute in Hbody. injection Hbody as <-.
  vm_compute in Hc8. injection Hc8 as <-.
  destruct (Hpost eq_refl) as [_ Hp9].
  vm_compute in Hp9. injection Hp9 as <-.
  vm_compute in Hc9. injection Hc9 as <-.
  destruct (Hconst eq_refl eq_refl)
    as [_ [Hcut [_ [Hjc [Hjb [Hfinal [Hrun Hexact]]]]]]].
  split; [exact Hjc|]. split; [exact Hjb|].
  split; [vm_compute; reflexivity|]. split; [vm_compute; reflexivity|].
  split; [vm_compute; reflexivity|]. split; [exact Hcut|].
  split.
  - cbv zeta. split.
    { eexists. eexists. split.
      - cbv.
        do 3 (eapply path_step; [cbv; lia | cbv; reflexivity |]).
        apply path_done.
      - cbv. reflexivity. }
    intros tr env' m' Hp.
    rewrite Hcode in Hfinal.
    match type of Hfinal with
    | ?l = _ ++ ?r => change (l = r) in Hfinal
    end.
    specialize (Hrun toy_Structured toy_ExtExec []
                     (toy_machine toy_compiled_for) m' toy_env env' tr
                     toy_Straight).
    specialize (Hexact toy_ExtExec []
                       (toy_machine toy_compiled_for) m' toy_env env' tr
                       toy_Straight).
    rewrite <- Hfinal in Hrun, Hexact.
    split.
    + intros Hall.
      apply Hrun;
        [ rewrite app_nil_r; reflexivity
        | unfold toy_machine; cbn [M_cells]; apply keeps_from_refl
        | split; [apply Nat.le_refl | vm_compute; lia]
        | exact Hp
        | exact Hall ].
    + intros Hend.
      apply Hexact;
        [ rewrite app_nil_r; reflexivity
        | repeat constructor
        | reflexivity
        | exact Hp
        | rewrite Hend; vm_compute; reflexivity ].
  - intros st' Hbad.
    destruct (C7_constant_false_for_is_dropped (Dx := toy_Disciplined) []
                toy_for_init toy_false toy_for_post
                [BranchStmt BREAK (Some "nowhere")] toy_state st' Hbad)
      as [st3' [pred' [flag' [fun' [seg_init' [seg_body' [seg_post' [s8'
         [s9' [_ [Hinit' [_ [Hexpr' [Htry' [Hbody' _]]]]]]]]]]]]]]].
    vm_compute in Hinit'. injection Hinit' as <-.
    simpl in Hexpr'. injection Hexpr' as <-.
    simpl in Htry'. injection Htry' as <- <-.
    vm_compute in Hbody'. discriminate Hbody'.
Defined.

(** [for false {}] compiles; its body adds no instruction to the state in
    which [For] compiles it and it has no post statement, so that the range
    compiled from the recorded position holds the jump back to the condition
    and nothing of body and post; the final stream is empty. *)
Lemma C7_counterexample_empty_body_and_post :
  Comp_Stmt [] prog_for_empty toy_state = Ok toy_compiled_for_empty /\
  Expr_TryAsPred toy_false = (false, None, false) /\
  Comp_Block (Comp_Stmt []) [] (toy_for_body_state [] (toy_inner_start false))
    = Ok (toy_for_body_state [] (toy_inner_start false)) /\
  code_of (Comp_Append (forJump 2)
             (write 3 (load 2 (cells (toy_for_body_state []
                                        (toy_inner_start false))))
                    (toy_for_body_state [] (toy_inner_start false))))
    = code_of (toy_for_body_state [] (toy_inner_start false)) ++ [forJump 2] /\
  code_of toy_compiled_for_empty = [].
Proof.
  repeat split; vm_compute; reflexivity.
Qed.

(** ** C8 *)

Lemma C8_witness :
  Disciplined toy_Collab /\
  prog_plain_block <> [] /\
  (forall s, In s prog_plain_block ->
      (forall node, s <> AssignStmt DEFINE node) /\
      (forall name body,
          s = DeclStmt (FuncDecl (Some name) body) -> name = "_") /\
      (forall specs names body name,
          s = DeclStmt (GenDecl VAR specs) ->
          In (ValueSpec names body) specs -> In name names -> name = "_")) /\
  Comp_Stmt [] (BlockStmt prog_plain_block) toy_state = Ok toy_compiled_block
  /\ let inner := mkCState (block_frame (comp toy_state))
                           (cells toy_state ++ [0; 0]) in
     exists st3 : CState,
       UpCost (comp inner) = 0 /\
       Decls (comp inner) = noDecls /\
       BindNum (comp inner) = 0 /\
       Comp_Outer (comp inner) = Some (comp toy_state) /\
       code_of inner = code_of toy_state /\
       Stmts (Comp_Stmt []) prog_plain_block inner = Ok st3 /\
       code_of toy_compiled_block = code_of st3 /\
       comp toy_compiled_block =
         set_Code (Comp_Code (comp toy_compiled_block)) (comp toy_state).
Proof.
  assert (Hne : prog_plain_block <> []) by discriminate.
  assert (Hnone : forall s, In s prog_plain_block ->
      (forall node, s <> AssignStmt DEFINE node) /\
      (forall name body,
          s = DeclStmt (FuncDecl (Some name) body) -> name = "_") /\
      (forall specs names body name,
          s = DeclStmt (GenDecl VAR specs) ->
          In (ValueSpec names body) specs -> In name names -> name = "_")).
  { intros s [<- | [<- | []]]; repeat split; intros; discriminate. }
  split; [exact toy_Disciplined|]. split; [exact Hne|].
  split; [exact Hnone|]. split; [vm_compute; reflexivity|].
  apply (proj2 (C8_block_without_local_binds (Dx := toy_Disciplined) []
                  prog_plain_block toy_state toy_compiled_block) Hne Hnone).
  vm_compute. reflexivity.
Defined.

(** ** C9 *)

Lemma C9_witness :
  Comp_Go toy_call toy_state = Ok toy_launched /\
  let exprfun := Expr_AsX1 (Call_Fun toy_call) in
  let argfunsX1 := Call_MakeArgfunsX1 toy_call in
  code_of toy_launched = code_of toy_state ++ [goStmt exprfun argfunsX1] /\
  exists next env' m',
    exec (goStmt exprfun argfunsX1) toy_env (toy_machine42 toy_launched)
      = Some (next, env', m') /\
    exists (tg tg' fresh : ThreadGlobals) (env2 : Env) (funv : Value)
           (s1 : Store) (raw : list (Value * Store)),
      let m := toy_machine42 toy_launched in
      let t := Env_ThreadGlobals toy_env in
      nth_error (M_threads m) t = Some tg /\
      M_threads m' = update t tg' (M_threads m) ++ [fresh] /\
      FileEnv fresh = FileEnv tg /\
      TopEnv fresh = TopEnv tg /\
      Globals fresh = Globals tg /\
      TG_Signal fresh = SigNone /\
      Interrupt fresh = None /\
      PoolSize fresh = 0 /\
      Pool fresh = [] /\
      InstallDefer fresh = None /\
      TG_Signal tg' = TG_Signal tg /\
      Interrupt tg' = Interrupt tg /\
      Env_ThreadGlobals env2 = length (M_threads m) /\
      Env_ThreadGlobals env2 <> t /\
      Outer env2 = Some toy_env /\
      exprfun env2 (M_store m) = Some (funv, s1) /\
      eval_seq argfunsX1 env2 s1 = Some (raw, M_store m') /\
      M_spawned m' =
        M_spawned m ++ [mkGoroutine funv (map fst raw) env2] /\
      env' = set_IP (S (IP toy_env)) toy_env /\
      next = nth_error (M_Code m) (S (IP toy_env)).
Proof.
  split; [vm_compute; reflexivity|].
  destruct (C9_go_launches_isolated_task (Sx := toy_Syntax)
              (Hx := toy_Host) toy_call toy_state toy_launched)
    as [call [Hcall H]]; [vm_compute; reflexivity|].
  injection Hcall as <-. cbv zeta in *.
  destruct H as [Hcode Hexec].
  split; [exact Hcode|].
  eexists. eexists. eexists.
  split; [vm_compute; reflexivity|].
  apply Hexec. vm_compute. reflexivity.
Defined.

End Concrete.

(* ------------------------------------------------------------------ *)
(** * The further properties on concrete programs *)

Section ConcreteExtras.

#[local] Existing Instance toy_Syntax.
#[local] Existing Instance toy_Host.
#[local] Existing Instance toy_Collab.
#[local] Existing Instance toy_ExtExec.

(** ** X1 *)

Lemma X1_witness :
  Disciplined toy_Collab /\
  Comp_Stmt [] prog_for_run toy_state = Ok toy_compiled_for_run /\
  exists seg,
    code_of toy_compiled_for_run = code_of toy_state ++ seg /\
    count_push seg = count_pop seg /\
    (exists h, cells toy_compiled_for_run = cells toy_state ++ h) /\
    Comp_Outer (comp toy_compiled_for_run) = Comp_Outer (comp toy_state).
Proof.
  split; [exact toy_Disciplined|].
  split; [vm_compute; reflexivity|].
  apply (X1_statement_only_appends (Dx := toy_Disciplined) []
           prog_for_run toy_state toy_compiled_for_run).
  vm_compute. reflexivity.
Defined.

(** ** X2 *)

Lemma X2_witness :
  Disciplined toy_Collab /\
  scoped prog_for_run = true /\
  Comp_Stmt [] prog_for_run toy_state = Ok toy_compiled_for_run /\
  comp toy_compiled_for_run
  = set_Code (Comp_Code (comp toy_compiled_for_run)) (comp toy_state).
Proof.
  split; [exact toy_Disciplined|].
  split; [vm_compute; reflexivity|].
  split; [vm_compute; reflexivity|].
  apply (X2_scoped_statement_restores_frame (Dx := toy_Disciplined)
           prog_for_run [] toy_state toy_compiled_for_run).
  - vm_compute. reflexivity.
  - vm_compute. reflexivity.
Defined.

(** ** X3 *)

(** The jump back of [for i := 0; c; i++ { x = 1 }] reads the Cond slot of
    the loop, which holds the position of the loop test. *)
Lemma X3_witness :
  Disciplined toy_Collab /\
  Structured toy_Collab /\
  Comp_Stmt [] prog_for_run toy_state = Ok toy_compiled_for_run /\
  Len toy_state <= 5 < Len toy_compiled_for_run /\
  nth_error (code_of toy_compiled_for_run) 5 = Some (forJump 2) /\
  In 2 (jump_slots (forJump 2)) /\
  load 2 (cells toy_compiled_for_run) = 2 /\
  length (cells toy_state) <= 2 < length (cells toy_compiled_for_run) /\
  Len toy_state <= load 2 (cells toy_compiled_for_run)
  <= Len toy_compiled_for_run.
Proof.
  split; [exact toy_Disciplined|]. split; [exact toy_Structured|].
  split; [vm_compute; reflexivity|].
  split; [vm_compute; lia|].
  split; [vm_compute; reflexivity|].
  split; [left; reflexivity|].
  split; [vm_compute; reflexivity|].
  apply (X3_jumps_stay_inside (Dx := toy_Disciplined)
           (Tx := toy_Structured) [] prog_for_run toy_state
           toy_compiled_for_run 5 (forJump 2) 2).
  - vm_compute. reflexivity.
  - vm_compute. lia.
  - vm_compute. reflexivity.
  - left. reflexivity.
Defined.

(** ** X4 *)

(** The loop [for i := 0; c; i++ { x = 1 }] run with a condition that does
    not hold: the environment of the loop is pushed, the init statement and
    the test run, and the environment is popped. *)
Lemma X4_witness :
  Disciplined toy_Collab /\
  Structured toy_Collab /\
  Straight toy_ExtExec /\
  Comp_Stmt [] prog_for_run toy_state = Ok toy_compiled_for_run /\
  (let m := toy_machine toy_compiled_for_run in
   exists tr env' m',
     M_Code m = code_of toy_compiled_for_run ++ [] /\
     keeps_from (length (cells toy_state)) (cells toy_compiled_for_run)
                (M_cells m) /\
     path (Len toy_compiled_for_run) (fetch m (IP toy_env)) toy_env m tr
          env' m' /\
     IP toy_env = Len toy_state /\
     IP env' = Len toy_compiled_for_run /\
     Forall (fun i => leaves i = false) tr /\
     length tr = 4 /\
     count_push tr = 1 /\
     count_push tr = count_pop tr).
Proof.
  assert (Hc : Comp_Stmt [] prog_for_run toy_state = Ok toy_compiled_for_run)
    by (vm_compute; reflexivity).
  split; [exact toy_Disciplined|]. split; [exact toy_Structured|].
  split; [exact toy_Straight|]. split; [exact Hc|].
  cbv zeta.
  assert (Hm : M_Code (toy_machine toy_compiled_for_run)
               = code_of toy_compiled_for_run ++ [])
    by (rewrite app_nil_r; reflexivity).
  assert (Hk : keeps_from (length (cells toy_state))
                          (cells toy_compiled_for_run)
                          (M_cells (toy_machine toy_compiled_for_run))).
  { unfold toy_machine. cbn [M_cells]. apply keeps_from_refl. }
  assert (Hp : exists tr env' m',
             path (Len toy_compiled_for_run)
                  (fetch (toy_machine toy_compiled_for_run) (IP toy_env))
                  toy_env (toy_machine toy_compiled_for_run) tr env' m' /\
             IP env' = Len toy_compiled_for_run /\
             Forall (fun i => leaves i = false) tr /\
             length tr = 4 /\
             count_push tr = 1).
  { eexists. eexists. eexists. split.
    - cbv.
      do 4 (eapply path_step; [cbv; lia | cbv; reflexivity |]).
      apply path_done.
    - split; [cbv; reflexivity|].
      split; [repeat constructor|].
      split; [reflexivity | vm_compute; reflexivity]. }
  destruct Hp as [tr [env' [m' [Hp [He [Hl [Hn Hpush]]]]]]].
  exists tr, env', m'.
  split; [exact Hm|]. split; [exact Hk|]. split; [exact Hp|].
  split; [vm_compute; reflexivity|]. split; [exact He|].
  split; [exact Hl|]. split; [exact Hn|]. split; [exact Hpush|].
  apply (X4_statement_runs_balanced (Dx := toy_Disciplined)
           (Tx := toy_Structured) [] prog_for_run toy_state
           toy_compiled_for_run [] (toy_machine toy_compiled_for_run) m'
           toy_env env' tr toy_Straight Hc Hm Hk Hp eq_refl He Hl).
Defined.

(** ** X5 *)

Lemma X5_witness :
  Disciplined toy_Collab /\
  Comp_List (Comp_Stmt []) prog_scopes toy_state = Ok toy_compiled_scopes /\
  (let nb := length (cells toy_state) in
   let locals := existsb stmt_declares prog_scopes in
   exists st3,
     Stmts (Comp_Stmt []) prog_scopes
           (fst (pushEnvIfFlag nb (S nb) locals (snd (alloc 2 toy_state))))
     = Ok st3 /\
     load nb (cells toy_compiled_scopes) = BindNum (comp st3) /\
     load (S nb) (cells toy_compiled_scopes) = IntBindNum (comp st3) /\
     (locals = true <->
      BindNum (comp st3) <> 0 \/ IntBindNum (comp st3) <> 0)).
Proof.
  split; [exact toy_Disciplined|].
  split; [vm_compute; reflexivity|].
  apply (X5_list_records_bind_counts (Dx := toy_Disciplined) prog_scopes
           toy_state toy_compiled_scopes).
  vm_compute. reflexivity.
Defined.

(** ** X6 *)

(** [L: x := 1] as a list: the pre-scan does not look under the label and
    finds no declaration, the assignment declares one variable, and the
    list fails with the internal error. *)
Lemma X6_witness :
  Disciplined toy_Collab /\
  (let nb := length (cells toy_state) in
   let locals := existsb stmt_declares prog_labeled_define in
   Stmts (Comp_Stmt []) prog_labeled_define
         (fst (pushEnvIfFlag nb (S nb) locals (snd (alloc 2 toy_state))))
   = Ok toy_inner_labeled /\
   prog_labeled_define <> [] /\
   locals <> (negb (Nat.eqb (BindNum (comp toy_inner_labeled)) 0)
              || negb (Nat.eqb (IntBindNum (comp toy_inner_labeled)) 0)) /\
   locals = false /\
   BindNum (comp toy_inner_labeled) = 1 /\
   exists e,
     Comp_List (Comp_Stmt []) prog_labeled_define toy_state = Err e /\
     fmt_args e = [ArgBool locals; ArgInt (BindNum (comp toy_inner_labeled));
                   ArgInt (IntBindNum (comp toy_inner_labeled)); ArgNode;
                   ArgNode]).
Proof.
  split; [exact toy_Disciplined|]. cbv zeta.
  assert (H1 : Stmts (Comp_Stmt []) prog_labeled_define
                 (fst (pushEnvIfFlag (length (cells toy_state))
                         (S (length (cells toy_state)))
                         (existsb stmt_declares prog_labeled_define)
                         (snd (alloc 2 toy_state))))
               = Ok toy_inner_labeled) by (vm_compute; reflexivity).
  assert (H2 : prog_labeled_define <> []) by discriminate.
  assert (H3 : existsb stmt_declares prog_labeled_define
               <> (negb (Nat.eqb (BindNum (comp toy_inner_labeled)) 0)
                   || negb (Nat.eqb (IntBindNum (comp toy_inner_labeled)) 0)))
    by (vm_compute; discriminate).
  split; [exact H1|]. split; [exact H2|]. split; [exact H3|].
  split; [vm_compute; reflexivity|]. split; [vm_compute; reflexivity|].
  exact (X6_list_fails_on_prescan_mismatch (Dx := toy_Disciplined)
           prog_labeled_define toy_state toy_inner_labeled H1 H2 H3).
Defined.

(** ** X7 *)

(** One declaration compiled between [pushEnvIfDefine] and [popEnvIfFlag]:
    with the token [:=] the scope is closed, with the token [=] the two
    disagree and [popEnvIfFlag] fails. *)
Lemma X7_witness :
  (let nb := length (cells toy_state) in
   let flag := Token_eqb DEFINE DEFINE in
   let st2 := fst (pushEnvIfDefine nb (S nb) DEFINE
                     (snd (alloc 2 toy_state))) in
   let st3 := toy_inner_define DEFINE in
   let declared := negb (Nat.eqb (BindNum (comp st3)) 0)
                   || negb (Nat.eqb (IntBindNum (comp st3)) 0) in
   steps nb [@extStmt toy_Host 1] st2 st3 /\
   flag = declared /\
   exists st',
     popEnvIfFlag nb (S nb) flag st3 = Ok st' /\
     (prog_labeled_define <> [] ->
      popEnvIfLocalBinds flag nb (S nb) prog_labeled_define st3 = Ok st') /\
     code_of st' = code_of toy_state
                   ++ (if flag then [pushEnv nb (S nb)] else [])
                   ++ [@extStmt toy_Host 1] ++ (if flag then [popEnv] else []) /\
     comp st' = set_Code (Comp_Code (comp st')) (comp toy_state) /\
     load nb (cells st') = BindNum (comp st3) /\
     load (S nb) (cells st') = IntBindNum (comp st3) /\
     firstn nb (cells st') = cells toy_state) /\
  (let nb := length (cells toy_state) in
   let flag := Token_eqb ASSIGN DEFINE in
   let st2 := fst (pushEnvIfDefine nb (S nb) ASSIGN
                     (snd (alloc 2 toy_state))) in
   let st3 := toy_inner_define ASSIGN in
   let declared := negb (Nat.eqb (BindNum (comp st3)) 0)
                   || negb (Nat.eqb (IntBindNum (comp st3)) 0) in
   steps nb [@extStmt toy_Host 1] st2 st3 /\
   flag <> declared /\
   popEnvIfFlag nb (S nb) flag st3 =
   Err (Errorf popEnvIfFlag_format
               [ArgBool flag; ArgInt (BindNum (comp st3));
                ArgInt (IntBindNum (comp st3)); ArgNode])).
Proof.
  assert (Hs : forall tok,
             steps (length (cells toy_state)) [@extStmt toy_Host 1]
                   (fst (pushEnvIfDefine (length (cells toy_state))
                           (S (length (cells toy_state))) tok
                           (snd (alloc 2 toy_state))))
                   (toy_inner_define tok)).
  { intros tok. constructor.
    - reflexivity.
    - reflexivity.
    - apply Nat.le_refl.
    - reflexivity. }
  split; cbv zeta.
  - split; [apply Hs|]. split; [vm_compute; reflexivity|].
    apply (X7_define_scope_round_trip DEFINE [@extStmt toy_Host 1] prog_labeled_define
             toy_state (toy_inner_define DEFINE) (Hs DEFINE)).
    vm_compute. reflexivity.
  - split; [apply Hs|]. split; [vm_compute; discriminate|].
    apply (X7_define_scope_round_trip ASSIGN [@extStmt toy_Host 1] prog_labeled_define
             toy_state (toy_inner_define ASSIGN) (Hs ASSIGN)).
    vm_compute. discriminate.
Defined.

(** ** X8 *)

Lemma X8_witness :
  Disciplined toy_Collab /\
  Comp_Stmt [] prog_for_run toy_state = Ok toy_compiled_for_run /\
  code_of toy_compiled_for_run
    = [pushEnv 0 1; extStmt 0; forCond (fun _ s => Some (false, s)) 4;
       extStmt 1; extStmt 0; forJump 2; popEnv] /\
  load 2 (cells toy_compiled_for_run) = 2 /\
  load 3 (cells toy_compiled_for_run) = 4 /\
  load 4 (cells toy_compiled_for_run) = 6 /\
  forall env m,
    M_cells m = cells toy_compiled_for_run ->
    exec (forJump 2) env m = jump_to 2 env m /\
    exec (forCond (fun _ s => Some (false, s)) 4) env m
    = jump_to 6 env (set_store (M_store m) m).
Proof.
  assert (Hc : Comp_Stmt [] prog_for_run toy_state = Ok toy_compiled_for_run)
    by (vm_compute; reflexivity).
  split; [exact toy_Disciplined|]. split; [exact Hc|].
  destruct (X8_for_loop_layout (Dx := toy_Disciplined) []
              toy_for_init (Some toy_run_cond) toy_for_post toy_then
              toy_state toy_compiled_for_run Hc)
    as [st3 [flag [fun_ [seg_init [seg_body [seg_post [s8 [s9
       [_ [Hinit [Hc3 [[pred [Hexpr Htry]] [Hbody [Hc8 [_ [Hpost [Hc9
       [_ Hlay]]]]]]]]]]]]]]]]]].
  vm_compute in Hinit. injection Hinit as <-.
  vm_compute in Hc3. injection Hc3 as <-.
  simpl in Hexpr. injection Hexpr as <-.
  simpl in Htry. injection Htry as <- <-.
  vm_compute in Hbody. injection Hbody as <-.
  vm_compute in Hc8. injection Hc8 as <-.
  specialize (Hpost eq_refl).
  vm_compute in Hpost. injection Hpost as <-.
  vm_compute in Hc9. injection Hc9 as <-.
  destruct Hlay as [Hfinal [Hjc [Hjp [Hjb Hexec]]]];
    [intros Hf; discriminate Hf|].
  split; [exact Hfinal|]. split; [exact Hjc|]. split; [exact Hjp|].
  split; [exact Hjb|].
  intros env m Hm. destruct (Hexec env m Hm) as [Hj Ht].
  split; [exact Hj|].
  apply (Ht _ false (M_store m) eq_refl eq_refl).
Defined.

(** ** X9 *)

(** [for i := 0; c; y := 3 { x = 1 }] does not compile, and fails on its
    post statement. *)
Lemma X9_witness :
  stmt_declares toy_post_define = true /\
  Comp_Stmt [] (ForStmt toy_for_init (Some toy_run_cond) NilStmt toy_then)
            toy_state = Ok toy_compiled_for_nopost /\
  (forall st',
      Comp_Stmt [] (ForStmt toy_for_init (Some toy_run_cond) toy_post_define
                      toy_then) toy_state <> Ok st') /\
  Comp_Stmt [] (ForStmt toy_for_init (Some toy_run_cond) toy_post_define
                  toy_then) toy_state =
  Err (Errorf
         "invalid for: cannot declare new variables in post statement: %v"
         [ArgNode]).
Proof.
  assert (Hn : Comp_Stmt [] (ForStmt toy_for_init (Some toy_run_cond) NilStmt
                               toy_then) toy_state
               = Ok toy_compiled_for_nopost) by (vm_compute; reflexivity).
  assert (Hd : stmt_declares toy_post_define = true) by reflexivity.
  split; [exact Hd|]. split; [exact Hn|].
  split.
  - exact (proj1 (X9_for_post_cannot_declare []
                    toy_for_init (Some toy_run_cond) toy_post_define
                    toy_then toy_state Hd)).
  - exact (proj2 (X9_for_post_cannot_declare []
                    toy_for_init (Some toy_run_cond) toy_post_define
                    toy_then toy_state Hd) toy_compiled_for_nopost Hn).
Defined.

(** ** X10 *)

Lemma X10_witness :
  Disciplined toy_Collab /\
  Comp_Stmt [] (prog_if_init toy_held_cond) toy_state
    = Ok (toy_compiled_if_init toy_held_cond) /\
  code_of (toy_compiled_if_init toy_held_cond)
    = [pushEnv 3 4; extStmt 0; ifCond (fun _ s => Some (true, s)) 0 1;
       extStmt 1; ifJumpEnd 2; extStmt 2; popEnv] /\
  load 0 (cells (toy_compiled_if_init toy_held_cond)) = 3 /\
  load 1 (cells (toy_compiled_if_init toy_held_cond)) = 5 /\
  load 2 (cells (toy_compiled_if_init toy_held_cond)) = 6 /\
  forall env m,
    M_cells m = cells (toy_compiled_if_init toy_held_cond) ->
    exec (ifJumpEnd 2) env m = jump_to 6 env m /\
    exec (ifCond (fun _ s => Some (true, s)) 0 1) env m
    = jump_to 3 env (set_store (M_store m) m).
Proof.
  assert (Hc : Comp_Stmt [] (prog_if_init toy_held_cond) toy_state
               = Ok (toy_compiled_if_init toy_held_cond))
    by (vm_compute; reflexivity).
  split; [exact toy_Disciplined|]. split; [exact Hc|].
  destruct (X10_if_layout (Dx := toy_Disciplined) []
              toy_for_init toy_held_cond toy_then toy_else
              toy_state (toy_compiled_if_init toy_held_cond) Hc)
    as [st3 [pred [flag [fun_ [seg_init [seg_then [seg_else [s6
       [_ [Hinit [Hc3 [Hexpr [Htry Hlay]]]]]]]]]]]]].
  vm_compute in Hinit. injection Hinit as <-.
  vm_compute in Hc3. injection Hc3 as <-.
  simpl in Hexpr. injection Hexpr as <-.
  simpl in Htry. injection Htry as <- <-.
  destruct (Hlay _ eq_refl)
    as [Hbody [Hc6 [_ [Helse [Hfinal [HT [HE [HEnd Hexec]]]]]]]].
  vm_compute in Hbody. injection Hbody as <-.
  vm_compute in Hc6. injection Hc6 as <-.
  destruct (Helse eq_refl) as [s10 [Hs10 Hc10]].
  vm_compute in Hs10. injection Hs10 as <-.
  vm_compute in Hc10. injection Hc10 as <-.
  split; [exact Hfinal|]. split; [exact HT|]. split; [exact HE|].
  split; [exact HEnd|].
  intros env m Hm. destruct (Hexec env m Hm) as [Hj Ht].
  split; [exact Hj|].
  apply (Ht true (M_store m) eq_refl).
Defined.

(** ** X11 *)

(** The jump back of the loop goes on to the loop test, which is the
    instruction at the position it sets; a return goes on to the interrupt
    instruction of the thread. *)
Lemma X11_witness :
  (let m := toy_machine toy_compiled_for_run in
   exists next env' m',
     (forall x, forJump 2 <> extStmt x) /\
     exec (forJump 2) toy_env m = Some (next, env', m') /\
     IP env' = 2 /\
     M_Code m' = M_Code m /\
     M_cells m' = M_cells m /\
     (if signals (forJump 2)
      then exists g,
          nth_error (M_threads m) (Env_ThreadGlobals toy_env) = Some g /\
          next = Interrupt g
      else next = fetch m' (IP env'))) /\
  (let m := toy_machine toy_compiled_bare_return in
   exists next env' m',
     (forall x, stmtReturn <> extStmt x) /\
     exec stmtReturn toy_env m = Some (next, env', m') /\
     M_Code m' = M_Code m /\
     M_cells m' = M_cells m /\
     (if signals stmtReturn
      then exists g,
          nth_error (M_threads m) (Env_ThreadGlobals toy_env) = Some g /\
          next = Interrupt g
      else next = fetch m' (IP env'))).
Proof.
  split; cbv zeta.
  - assert (Hx : forall x : ext_Stmt, forJump 2 <> extStmt x)
      by (intros x; discriminate).
    assert (He : exists next env' m',
               exec (forJump 2) toy_env (toy_machine toy_compiled_for_run)
               = Some (next, env', m') /\ IP env' = 2).
    { eexists. eexists. eexists. split; vm_compute; reflexivity. }
    destruct He as [next [env' [m' [He Hip]]]].
    exists next, env', m'.
    split; [exact Hx|]. split; [exact He|]. split; [exact Hip|].
    exact (X11_next_instruction_is_at_IP (forJump 2) toy_env env'
             (toy_machine toy_compiled_for_run) m' next Hx He).
  - assert (Hx : forall x : ext_Stmt, stmtReturn <> extStmt x)
      by (intros x; discriminate).
    assert (He : exists next env' m',
               exec stmtReturn toy_env
                    (toy_machine toy_compiled_bare_return)
               = Some (next, env', m')).
    { eexists. eexists. eexists. vm_compute. reflexivity. }
    destruct He as [next [env' [m' He]]].
    exists next, env', m'.
    split; [exact Hx|]. split; [exact He|].
    exact (X11_next_instruction_is_at_IP stmtReturn toy_env env'
             (toy_machine toy_compiled_bare_return) m' next Hx He).
Defined.

(** ** X12 *)


(** ** X15 *)

Lemma toy_InPlace : InPlace toy_ExtExec.
Proof.
  intros x env m next env' m' H. simpl in H. unfold jump_to in H.
  injection H as <- <- <-. split; reflexivity.
Qed.

(** The loop [for i := 0; c; i++ { x = 1 }] run with a condition that does
    not hold ends in the environment it started in, after the environment
    of the loop was pushed and popped. *)
Lemma X15_witness :
  Disciplined toy_Collab /\
  Structured toy_Collab /\
  Straight toy_ExtExec /\
  InPlace toy_ExtExec /\
  Comp_Stmt [] prog_for_run toy_state = Ok toy_compiled_for_run /\
  (let m := toy_machine toy_compiled_for_run in
   exists tr env' m',
     M_Code m = code_of toy_compiled_for_run ++ [] /\
     keeps_from (length (cells toy_state)) (cells toy_compiled_for_run)
                (M_cells m) /\
     path (Len toy_compiled_for_run) (fetch m (IP toy_env)) toy_env m tr
          env' m' /\
     IP toy_env = Len toy_state /\
     IP env' = Len toy_compiled_for_run /\
     Forall (fun i => leaves i = false) tr /\
     count_push tr = 1 /\
     Outer env' = Outer toy_env /\
     Env_ThreadGlobals env' = Env_ThreadGlobals toy_env).
Proof.
  assert (Hc : Comp_Stmt [] prog_for_run toy_state = Ok toy_compiled_for_run)
    by (vm_compute; reflexivity).
  split; [exact toy_Disciplined|]. split; [exact toy_Structured|].
  split; [exact toy_Straight|]. split; [exact toy_InPlace|].
  split; [exact Hc|].
  cbv zeta.
  assert (Hm : M_Code (toy_machine toy_compiled_for_run)
               = code_of toy_compiled_for_run ++ [])
    by (rewrite app_nil_r; reflexivity).
  assert (Hk : keeps_from (length (cells toy_state))
                          (cells toy_compiled_for_run)
                          (M_cells (toy_machine toy_compiled_for_run))).
  { unfold toy_machine. cbn [M_cells]. apply keeps_from_refl. }
  assert (Hp : exists tr env' m',
             path (Len toy_compiled_for_run)
                  (fetch (toy_machine toy_compiled_for_run) (IP toy_env))
                  toy_env (toy_machine toy_compiled_for_run) tr env' m' /\
             IP env' = Len toy_compiled_for_run /\
             Forall (fun i => leaves i = false) tr /\
             count_push tr = 1).
  { eexists. eexists. eexists. split.
    - cbv.
      do 4 (eapply path_step; [cbv; lia | cbv; reflexivity |]).
      apply path_done.
    - split; [cbv; reflexivity|].
      split; [repeat constructor | vm_compute; reflexivity]. }
  destruct Hp as [tr [env' [m' [Hp [He [Hl Hpush]]]]]].
  exists tr, env', m'.
  split; [exact Hm|]. split; [exact Hk|]. split; [exact Hp|].
  split; [vm_compute; reflexivity|]. split; [exact He|].
  split; [exact Hl|]. split; [exact Hpush|].
  apply (X15_statement_ends_in_its_environment (Dx := toy_Disciplined)
           (Tx := toy_Structured) [] prog_for_run toy_state
           toy_compiled_for_run [] (toy_machine toy_compiled_for_run) m'
           toy_env env' tr toy_Straight toy_InPlace Hc Hm Hk Hp eq_refl He
           Hl).
Defined.

(** ** X16 *)

Lemma toy_emit_orderly (x n : nat) : orderly_on (toy_emit x n).
Proof.
  intros st st' H. unfold toy_emit in H. injection H as <-.
  split; [repeat split|].
  exists [@extStmt toy_Host x]. split; [reflexivity|].
  apply sound_plain; try reflexivity. intros; discriminate.
Qed.

Lemma with_comp_orderly (f : Comp -> Comp) :
  (forall c, Comp_Code (f c) = Comp_Code c) ->
  (forall c, same_frame c (f c)) ->
  orderly_on (fun st => Ok (with_comp f st)).
Proof.
  intros Hcode Hframe st st' H. injection H as <-.
  split; [apply Hframe|].
  exists []. split.
  - unfold code_of. simpl. rewrite Hcode, app_nil_r. reflexivity.
  - apply sound_nil.
Qed.

Lemma toy_Decl_orderly (decl : ast_Decl) : orderly_on (toy_Decl decl).
Proof.
  intros st st' H. destruct decl as [[name|] body | tok specs | ];
    simpl in H.
  - destruct (String.eqb name "_").
    + injection H as <-. apply orderly_refl.
    + apply (toy_emit_orderly _ _ _ _ H).
  - injection H as <-. apply orderly_refl.
  - destruct (Token_eqb tok VAR).
    + apply (with_comp_orderly (add_binds (count_non_blank specs))
               (fun c => eq_refl) (fun c => same_frame_refl _) _ _ H).
    + apply (with_comp_orderly (add_decl "declared")
               (fun c => eq_refl) (fun c => same_frame_refl _) _ _ H).
  - discriminate H.
Qed.

(** The toy collaborators keep the frame they are called in and emit no
    jump. *)
Lemma toy_Orderly : Orderly toy_Collab.
Proof.
  constructor; simpl; intros;
    solve [apply toy_emit_orderly | apply toy_Decl_orderly].
Qed.

(** [for { x := 1; break }] run from its first instruction: the environment
    of the body is pushed, the break leaves it without running the pop, and
    the loop ends in the environment it started in. *)
Lemma X16_witness :
  Disciplined toy_Collab /\
  Orderly toy_Collab /\
  Straight toy_ExtExec /\
  InPlace toy_ExtExec /\
  Comp_Stmt [] prog_for_break toy_state = Ok toy_compiled_for_break /\
  closed_slots toy_state /\
  (let m := toy_machine toy_compiled_for_break in
   exists tr env' m',
     M_Code m = code_of toy_compiled_for_break ++ [] /\
     keeps_from (length (cells toy_state)) (cells toy_compiled_for_break)
                (M_cells m) /\
     path (Len toy_compiled_for_break) (fetch m (IP toy_env)) toy_env m tr
          env' m' /\
     IP toy_env = Len toy_state /\
     IP env' = Len toy_compiled_for_break /\
     Forall (fun i => stays (length (cells toy_state)) i = true) tr /\
     count_push tr = 1 /\
     count_pop tr = 0 /\
     Outer env' = Outer toy_env /\
     Env_ThreadGlobals env' = Env_ThreadGlobals toy_env).
Proof.
  assert (Hc : Comp_Stmt [] prog_for_break toy_state
               = Ok toy_compiled_for_break) by (vm_compute; reflexivity).
  assert (Hcl : closed_slots toy_state).
  { intros tgt k c Ht Hw. rewrite walk_eq in Hw. discriminate Hw. }
  split; [exact toy_Disciplined|]. split; [exact toy_Orderly|].
  split; [exact toy_Straight|]. split; [exact toy_InPlace|].
  split; [exact Hc|]. split; [exact Hcl|].
  cbv zeta.
  assert (Hm : M_Code (toy_machine toy_compiled_for_break)
               = code_of toy_compiled_for_break ++ [])
    by (rewrite app_nil_r; reflexivity).
  assert (Hk : keeps_from (length (cells toy_state))
                          (cells toy_compiled_for_break)
                          (M_cells (toy_machine toy_compiled_for_break))).
  { unfold toy_machine. cbn [M_cells]. apply keeps_from_refl. }
  assert (Hp : exists tr env' m',
             path (Len toy_compiled_for_break)
                  (fetch (toy_machine toy_compiled_for_break) (IP toy_env))
                  toy_env (toy_machine toy_compiled_for_break) tr env' m' /\
             IP env' = Len toy_compiled_for_break /\
             Forall (fun i => stays (length (cells toy_state)) i = true)
                    tr /\
             count_push tr = 1 /\
             count_pop tr = 0).
  { eexists. eexists. eexists. split.
    - cbv.
      do 3 (eapply path_step; [cbv; lia | cbv; reflexivity |]).
      apply path_done.
    - split; [cbv; reflexivity|].
      split; [repeat constructor|].
      split; vm_compute; reflexivity. }
  destruct Hp as [tr [env' [m' [Hp [He [Hl [Hpush Hpop]]]]]]].
  exists tr, env', m'.
  split; [exact Hm|]. split; [exact Hk|]. split; [exact Hp|].
  split; [vm_compute; reflexivity|]. split; [exact He|].
  split; [exact Hl|]. split; [exact Hpush|]. split; [exact Hpop|].
  apply (X16_break_and_continue_restore_environment (Dx := toy_Disciplined)
           (Ox := toy_Orderly) [] prog_for_break toy_state
           toy_compiled_for_break [] (toy_machine toy_compiled_for_break) m'
           toy_env env' tr toy_Straight toy_InPlace Hc Hcl Hm Hk Hp eq_refl
           He Hl).
Defined.

(** ** X17 *)

Lemma X17_witness :
  Disciplined toy_Collab /\
  Orderly toy_Collab /\
  Comp_Stmt [] prog_for_break toy_state = Ok toy_compiled_for_break /\
  nth_error (code_of toy_compiled_for_break) 2 = Some (jumpOut 1 4) /\
  same_frame (comp toy_state) (comp toy_compiled_for_break) /\
  exists seg,
    code_of toy_compiled_for_break = code_of toy_state ++ seg /\
    nested seg /\
    forall n upn c,
      nth_error seg n = Some (jumpOut upn c) ->
      (length (cells toy_state) <= c
       < length (cells toy_compiled_for_break) /\
       Len toy_state <= load c (cells toy_compiled_for_break)
       <= Len toy_compiled_for_break /\
       depth_at seg (load c (cells toy_compiled_for_break) - Len toy_state)
       + upn = depth_at seg n) \/
      (exists tgt k,
          loop_target tgt /\
          walk tgt 0 (comp toy_state) = Some (k, c) /\
          upn = depth_at seg n + k).
Proof.
  split; [exact toy_Disciplined|]. split; [exact toy_Orderly|].
  split; [vm_compute; reflexivity|].
  split; [vm_compute; reflexivity|].
  apply (X17_jump_counts_pushed_environments (Dx := toy_Disciplined)
           (Ox := toy_Orderly) [] prog_for_break toy_state
           toy_compiled_for_break).
  vm_compute. reflexivity.
Defined.

(** ** X14 *)

(** In [outer: for i := 0; ; { x := 1; continue outer }] the continue
    becomes the jump to the Post slot of the loop that leaves the
    environment of the body; with [continue zzz] instead, the loop does not
    compile. *)
Lemma X14_witness :
  Disciplined toy_Collab /\
  Orderly toy_Collab /\
  (CONTINUE = BREAK \/ CONTINUE = CONTINUE) /\
  Comp_Stmt [] prog_labeled_for toy_state = Ok toy_compiled_labeled_for /\
  code_of toy_compiled_labeled_for
    = [pushEnv 0 1; extStmt 0; pushEnv 5 6; extStmt 1; jumpOut 1 3; popEnv;
       forJump 2; popEnv] /\
  Comp_Stmt [] toy_for_init (toy_inner_start true) = Ok toy_for_after_init /\
  (exists sb,
      Stmts (Comp_Stmt []) [AssignStmt DEFINE 1]
            (fst (pushEnvIfFlag 5 6 true
                    (snd (alloc 2 (toy_for_body_state ["outer"]
                                     toy_for_after_init)))))
      = Ok sb /\
      Comp_Stmt [] (BranchStmt CONTINUE (Some "outer")) sb
      = Ok (Comp_Append (jumpOut 1 3) sb)) /\
  (exists before after,
      code_of toy_compiled_labeled_for
      = code_of toy_state ++ before ++ jumpOut 1 3 :: after) /\
  walk (Continue_target "zzz") 0 (comp toy_state) = None /\
  forall st', Comp_Stmt [] prog_for_unknown_label toy_state <> Ok st'.
Proof.
  assert (Hc : Comp_Stmt [] prog_labeled_for toy_state
               = Ok toy_compiled_labeled_for)
    by (vm_compute; reflexivity).
  split; [exact toy_Disciplined|]. split; [exact toy_Orderly|].
  split; [right; reflexivity|]. split; [exact Hc|].
  split; [vm_compute; reflexivity|].
  split; [vm_compute; reflexivity|].
  destruct (X14_labels_reach_the_loop (Sx := toy_Syntax) (Hx := toy_Host)
              (Cx := toy_Collab) (Dx := toy_Disciplined)
              (Ox := toy_Orderly) [] ["outer"] toy_for_init None NilStmt
              [@AssignStmt toy_Syntax DEFINE 1] [] CONTINUE (Some "outer")
              toy_state (or_intror eq_refl)) as [Hyes _].
  destruct (X14_labels_reach_the_loop (Sx := toy_Syntax) (Hx := toy_Host)
              (Cx := toy_Collab) (Dx := toy_Disciplined)
              (Ox := toy_Orderly) [] ["outer"] toy_for_init None NilStmt
              [@AssignStmt toy_Syntax DEFINE 1] [] CONTINUE (Some "zzz")
              toy_state (or_intror eq_refl)) as [_ Hno].
  destruct (Hyes toy_compiled_labeled_for Hc)
    as [st3 [flag [fun_ [sb [j [Hinit [[Hflag Hfun] [Hpre [Hj [Hjk [_ Hin
       ]]]]]]]]]]].
  subst flag fun_.
  vm_compute in Hinit. injection Hinit as <-.
  assert (Hjv : j = jumpOut 1 3).
  { apply Hjk. right. left. reflexivity. }
  subst j.
  split.
  { exists sb. split; [|exact Hj].
    rewrite <- Hpre. vm_compute. reflexivity. }
  split; [apply Hin; reflexivity|].
  split; [reflexivity|].
  apply Hno.
  - intros [Hk | [Hk | []]]; discriminate Hk.
  - reflexivity.
Defined.

End ConcreteExtras.
